(** * Vector: a dynamic array over raw memory (src/Vector/vector.h)

    A shallow embedding of [RawMemory<T>] and [Vector<T>] with an explicit
    heap of raw buffers, explicit exceptions and explicit undefined
    behaviour, followed by the properties of the container. *)

From stdpp Require Import gmap list.

(** ** Outcomes of a C++ computation over a state [S] *)

Inductive outcome (S A : Type) : Type :=
| Normal (a : A) (s : S)      (* normal completion *)
| Throws (s : S)              (* an exception propagates out, state at that point *)
| Undefined.                  (* failed assert / violated precondition of the language or library *)
Arguments Normal {S A} a s.
Arguments Throws {S A} s.
Arguments Undefined {S A}.

Definition M (S A : Type) : Type := S → outcome S A.

Definition ret {S A} (a : A) : M S A := fun s => Normal a s.

Definition bind {S A B} (m : M S A) (k : A → M S B) : M S B :=
  fun s => match m s with
           | Normal a s' => k a s'
           | Throws s' => Throws s'
           | Undefined => Undefined
           end.

Declare Scope cxx_scope.
Delimit Scope cxx_scope with cxx.
Notation "x <- c1 ;; c2" := (bind c1 (fun x => c2))
  (at level 100, c1 at next level, right associativity) : cxx_scope.
Notation "c1 ;; c2" := (bind c1 (fun _ => c2))
  (at level 100, right associativity) : cxx_scope.
Open Scope cxx_scope.

Definition throw {S A} : M S A := fun s => Throws s.
Definition undefined {S A} : M S A := fun _ => Undefined.

(** [assert(b)] *)
Definition assert {S} (b : bool) : M S unit :=
  if b then ret tt else undefined.

(** [try { body } catch (...) { handler; throw; }] *)
Definition try_catch {S A} (body : M S A) (handler : M S unit) : M S A :=
  fun s => match body s with
           | Throws s' =>
               match handler s' with
               | Normal _ s'' => Throws s''
               | Throws s'' => Throws s''
               | Undefined => Undefined
               end
           | r => r
           end.

Definition get {S} : M S S := fun s => Normal s s.
Definition put {S} (s : S) : M S unit := fun _ => Normal tt s.

(** A computation on the enclosing state, run while a local object of
    type [L] is in scope. *)
Definition outer {L S A} (m : M S A) : M (L * S) A :=
  fun '(l, s) => match m s with
                 | Normal a s' => Normal a (l, s')
                 | Throws s' => Throws (l, s')
                 | Undefined => Undefined
                 end.

Definition local {L S} : M (L * S) L := fun '(l, s) => Normal l (l, s).
Definition set_local {L S} (l : L) : M (L * S) unit := fun '(_, s) => Normal tt (l, s).

(** A block with one local object: [ctor] builds it, [body] runs with it in
    scope, [dtor] runs when the block is left, normally or by an exception. *)
Definition scope {L S A} (ctor : M S L) (body : M (L * S) A) (dtor : L → M S unit) : M S A :=
  fun s => match ctor s with
           | Normal l s1 =>
               match body (l, s1) with
               | Normal a (l', s2) =>
                   match dtor l' s2 with
                   | Normal _ s3 => Normal a s3
                   | Throws s3 => Throws s3
                   | Undefined => Undefined
                   end
               | Throws (l', s2) =>
                   match dtor l' s2 with
                   | Normal _ s3 => Throws s3
                   | Throws s3 => Throws s3
                   | Undefined => Undefined
                   end
               | Undefined => Undefined
               end
           | Throws s1 => Throws s1
           | Undefined => Undefined
           end.

(** ** The element type and the fault oracle *)

(** [size_t] is taken to have 64 bits, and no object to be larger than
    [PTRDIFF_MAX] bytes. *)
Definition SIZE_MAX : N := 18446744073709551615.
Definition PTRDIFF_MAX : N := 9223372036854775807.

(** What the container uses of its element type [T]: the value a moved-from
    object is left with, the value of [T()], the two traits queried by
    [UninitializedCopyOrMoveN], and [sizeof(T)], the size of an object. *)
Class Element (T : Type) := {
  moved_from : T → T;
  value_init : T;
  is_nothrow_move_constructible : bool;
  is_copy_constructible : bool;
  sizeof_T : positive;
  sizeof_T_max : (Npos sizeof_T ≤ PTRDIFF_MAX)%N
}.

(** The user-supplied operations of [T] that may throw. *)
Inductive elem_op := CopyCtor | MoveCtor | ArgsCtor | ValueCtor | CopyAssign | MoveAssign.

(** Fault injection: [throws op k] tells whether the [k]-th call (counted
    from 0 over all element operations) throws when it is an [op];
    [alloc_fails k] whether the [k]-th call of [operator new] throws. *)
Record faults := Faults {
  throws : elem_op → nat → bool;
  alloc_fails : nat → bool
}.

Definition no_faults : faults := Faults (fun _ _ => false) (fun _ => false).

(** ** Raw memory *)

Abbreviation loc := nat (only parsing).

(** A [T*]: a buffer (or null) and an offset in elements. *)
Record ptr := Ptr { base : option loc; off : nat }.

Definition ptr_add (p : ptr) (n : nat) : ptr := Ptr (base p) (off p + n).
Definition ptr_sub (p : ptr) (n : nat) : ptr := Ptr (base p) (off p - n).

Global Instance ptr_eq_dec : EqDecision ptr.
Proof. solve_decision. Defined.

(** How the argument of an append or insert initialises the new element:
    [T(value)], [T(std::move(value))] or [T(args...)]; [v] is the value the
    new element gets. The argument lives outside the array. *)
Inductive init (T : Type) := ByCopy (v : T) | ByMove (v : T) | ByArgs (v : T).
Arguments ByCopy {T} v.
Arguments ByMove {T} v.
Arguments ByArgs {T} v.

Definition init_value {T} (a : init T) : T :=
  match a with ByCopy v | ByMove v | ByArgs v => v end.

Definition init_op {T} (a : init T) : elem_op :=
  match a with ByCopy _ => CopyCtor | ByMove _ => MoveCtor | ByArgs _ => ArgsCtor end.

(** [RawMemory<T>]: [buffer_] and [capacity_]. *)
Record RawMemory := mkRaw { buffer_ : option loc; capacity_ : nat }.

(** [Vector<T>]: [data_] and [size_]. *)
Record Vector := mkVector { data_ : RawMemory; size_ : nat }.

Section Model.
Context {T : Type} `{Element T}.
Variable F : faults.

(** The world: every raw buffer is a list of slots, a slot being
    uninitialised ([None]) or holding a live object; plus the fault counters
    and what instrumented elements would record: counts of constructions,
    destructions and assignments, and the log of the operations called. *)
Record world := World {
  heap : gmap loc (list (option T));
  fresh : loc;          (* next address handed out by operator new *)
  ticks : nat;          (* element operations called so far *)
  allocs : nat;         (* calls of operator new so far *)
  constructed : nat;    (* objects constructed in raw memory *)
  destroyed : nat;      (* objects destroyed in raw memory *)
  assigned : nat;       (* assignments to live objects *)
  calls : list elem_op  (* the element operations called, the latest first *)
}.

Definition set_heap (h : gmap loc (list (option T))) (w : world) : world :=
  World h (fresh w) (ticks w) (allocs w) (constructed w) (destroyed w) (assigned w) (calls w).

(** *** operator new / operator delete *)

(** [n * sizeof(T)] as the multiplication of two [size_t] yields it *)
Definition byte_count (n : nat) : N :=
  ((N.of_nat n * Npos sizeof_T) mod (SIZE_MAX + 1))%N.

(** [operator new(bytes)]: it throws [std::bad_alloc] when the request is
    larger than an object can be or when the free store does not grant it;
    otherwise it hands out a new block of [bytes] bytes, which has room for
    [bytes / sizeof(T)] objects of [T]. *)
Definition operator_new (bytes : N) : M world (option loc) := fun w =>
  if (PTRDIFF_MAX <? bytes)%N || alloc_fails F (allocs w)
  then Throws (World (heap w) (fresh w) (ticks w) (S (allocs w))
                     (constructed w) (destroyed w) (assigned w) (calls w))
  else Normal (Some (fresh w))
              (World (<[fresh w := replicate (N.to_nat (bytes / Npos sizeof_T)) None]> (heap w))
                     (S (fresh w)) (ticks w) (S (allocs w))
                     (constructed w) (destroyed w) (assigned w) (calls w)).

(** [RawMemory::Allocate]: [n != 0 ? operator new(n * sizeof(T)) : nullptr] *)
Definition Allocate (n : nat) : M world (option loc) :=
  if n =? 0 then ret None else operator_new (byte_count n).

(** [n] objects of [T] take a number of bytes that [size_t] holds: the
    multiplication in [Allocate] does not wrap around. *)
Definition representable (n : nat) : Prop :=
  (N.of_nat n * Npos sizeof_T ≤ SIZE_MAX)%N.

(** [n] objects of [T] take no more bytes than one object can have, so that
    [operator new] may grant them. *)
Definition fits (n : nat) : Prop :=
  (N.of_nat n * Npos sizeof_T ≤ PTRDIFF_MAX)%N.

(** [RawMemory::Deallocate]: [operator delete(buf)]; deleting null does
    nothing, deleting what is not allocated is undefined. *)
Definition Deallocate (buf : option loc) : M world unit := fun w =>
  match buf with
  | None => Normal tt w
  | Some l => match heap w !! l with
              | Some _ => Normal tt (set_heap (delete l (heap w)) w)
              | None => Undefined
              end
  end.

(** *** Element operations on slots *)

(** Use the object at [p] as a live object. *)
Definition deref (p : ptr) : M world T := fun w =>
  match base p with
  | Some l => match heap w !! l with
              | Some b => match b !! off p with
                          | Some (Some v) => Normal v w
                          | _ => Undefined
                          end
              | None => Undefined
              end
  | None => Undefined
  end.

(** Change the content of the slot [p], which must lie within its buffer. *)
Definition store (p : ptr) (x : option T) : M world unit := fun w =>
  match base p with
  | Some l => match heap w !! l with
              | Some b => if decide (off p < length b)
                          then Normal tt (set_heap (<[l := <[off p := x]> b]> (heap w)) w)
                          else Undefined
              | None => Undefined
              end
  | None => Undefined
  end.

Definition will_throw (op : elem_op) (k : nat) : bool :=
  match op with
  | MoveCtor => negb is_nothrow_move_constructible && throws F MoveCtor k
  | _ => throws F op k
  end.

(** One call of a user-supplied operation of [T]: it either throws, with
    no effect on any element, or goes on. *)
Definition call (op : elem_op) : M world unit := fun w =>
  let w' := World (heap w) (fresh w) (S (ticks w)) (allocs w)
                  (constructed w) (destroyed w) (assigned w) (op :: calls w) in
  if will_throw op (ticks w) then Throws w' else Normal tt w'.

Definition count_constructed : M world unit := fun w =>
  Normal tt (World (heap w) (fresh w) (ticks w) (allocs w)
                   (S (constructed w)) (destroyed w) (assigned w) (calls w)).
Definition count_destroyed : M world unit := fun w =>
  Normal tt (World (heap w) (fresh w) (ticks w) (allocs w)
                   (constructed w) (S (destroyed w)) (assigned w) (calls w)).
Definition count_assigned : M world unit := fun w =>
  Normal tt (World (heap w) (fresh w) (ticks w) (allocs w)
                   (constructed w) (destroyed w) (S (assigned w)) (calls w)).

(** [new (p) T(args)] from an argument outside the array *)
Definition construct_at (p : ptr) (a : init T) : M world unit :=
  call (init_op a) ;; store p (Some (init_value a)) ;; count_constructed.

(** placement new at [p] of a copy of the object at [q] *)
Definition copy_construct (p q : ptr) : M world unit :=
  v <- deref q ;; call CopyCtor ;; store p (Some v) ;; count_constructed.

(** placement new at [p] moving from the object at [q] *)
Definition move_construct (p q : ptr) : M world unit :=
  v <- deref q ;; call MoveCtor ;; store p (Some v) ;;
  store q (Some (moved_from v)) ;; count_constructed.

(** [new (p) T()] *)
Definition value_construct (p : ptr) : M world unit :=
  call ValueCtor ;; store p (Some value_init) ;; count_constructed.

(** copy assignment of the object at [q] to the object at [p] *)
Definition copy_assign (p q : ptr) : M world unit :=
  v <- deref q ;; deref p ;; call CopyAssign ;; store p (Some v) ;; count_assigned.

(** move assignment of the object at [q] to the object at [p] *)
Definition move_assign (p q : ptr) : M world unit :=
  v <- deref q ;; deref p ;; call MoveAssign ;; store p (Some v) ;;
  store q (Some (moved_from v)) ;; count_assigned.

(** move assignment of a local object of value [v] to the object at [p] *)
Definition move_assign_from (p : ptr) (v : T) : M world unit :=
  deref p ;; call MoveAssign ;; store p (Some v) ;; count_assigned.

(** [std::destroy_at(p)]; destructors do not throw. *)
Definition destroy_at (p : ptr) : M world unit :=
  deref p ;; store p None ;; count_destroyed.

(** *** The standard algorithms the container calls *)

(** [std::destroy_n(p, n)] *)
Fixpoint destroy_n (p : ptr) (n : nat) : M world unit :=
  match n with
  | 0 => ret tt
  | S n' => destroy_at p ;; destroy_n (ptr_add p 1) n'
  end.

(** The loop of [std::uninitialized_copy_n] and its siblings: [k] objects
    are already built at [d_first]; when building the next one throws they
    are destroyed and the exception goes on. *)
Fixpoint uninitialized_loop (build : ptr → ptr → M world unit)
    (first d_first : ptr) (k n : nat) : M world unit :=
  match n with
  | 0 => ret tt
  | S n' =>
      try_catch (build (ptr_add d_first k) (ptr_add first k)) (destroy_n d_first k) ;;
      uninitialized_loop build first d_first (S k) n'
  end.

(** [std::uninitialized_copy_n(first, n, d_first)] *)
Definition uninitialized_copy_n (first : ptr) (n : nat) (d_first : ptr) : M world unit :=
  uninitialized_loop copy_construct first d_first 0 n.

(** [std::uninitialized_move_n(first, n, d_first)] *)
Definition uninitialized_move_n (first : ptr) (n : nat) (d_first : ptr) : M world unit :=
  uninitialized_loop move_construct first d_first 0 n.

(** [std::uninitialized_value_construct_n(first, n)] *)
Definition uninitialized_value_construct_n (first : ptr) (n : nat) : M world unit :=
  uninitialized_loop (fun p _ => value_construct p) first first 0 n.

(** [[first, last)] is a valid range: same buffer and [last] reachable from
    [first]. The algorithms below require it. *)
Definition valid_range (first last : ptr) : bool :=
  bool_decide (base first = base last) && (off first <=? off last).

(** The assignments of [std::move(first, last, d_first)], front to back. *)
Fixpoint move_loop (first d_first : ptr) (n : nat) : M world unit :=
  match n with
  | 0 => ret tt
  | S n' => move_assign d_first first ;; move_loop (ptr_add first 1) (ptr_add d_first 1) n'
  end.

(** [std::move(first, last, d_first)] *)
Definition std_move (first last d_first : ptr) : M world unit :=
  assert (valid_range first last) ;;
  move_loop first d_first (off last - off first).

(** The assignments of [std::move_backward(first, last, d_last)], back to
    front, each step decrementing [d_last] and [last] and then move-assigning. *)
Fixpoint move_backward_loop (last d_last : ptr) (n : nat) : M world unit :=
  match n with
  | 0 => ret tt
  | S n' => move_assign (ptr_sub d_last 1) (ptr_sub last 1) ;;
            move_backward_loop (ptr_sub last 1) (ptr_sub d_last 1) n'
  end.

(** [std::move_backward(first, last, d_last)] *)
Definition std_move_backward (first last d_last : ptr) : M world unit :=
  assert (valid_range first last) ;;
  move_backward_loop last d_last (off last - off first).

(** [std::move_backward] as a library may run it on a class type, by the
    counted loop [for (n = last - first; n > 0; --n)]: it assigns nothing
    when [last] precedes [first], which the standard does not promise. *)
Definition move_backward_counted (first last d_last : ptr) : M world unit :=
  move_backward_loop last d_last (off last - off first).

(** ** RawMemory<T> *)

(** [explicit RawMemory(size_t capacity)] *)
Definition RawMemory_ctor (capacity : nat) : M world RawMemory :=
  b <- Allocate capacity ;; ret (mkRaw b capacity).

(** [~RawMemory()] *)
Definition RawMemory_dtor (r : RawMemory) : M world unit :=
  Deallocate (buffer_ r).

(** [RawMemory(RawMemory&& other)]: the new object and what is left of
    [other] *)
Definition RawMemory_move (other : RawMemory) : RawMemory * RawMemory :=
  (mkRaw (buffer_ other) (capacity_ other), mkRaw None 0).

(** [RawMemory& operator=(RawMemory&& other)]: the new [*this] and what is
    left of [other]. [None] stands for [other] being [*this] itself:
    [std::exchange] then stores null in the member and returns its old
    value, which the assignment stores back. *)
Definition RawMemory_assign_move (r : RawMemory) (other : option RawMemory)
    : M world (RawMemory * option RawMemory) :=
  Deallocate (buffer_ r) ;;
  match other with
  | Some o => ret (mkRaw (buffer_ o) (capacity_ o), Some (mkRaw None 0))
  | None => ret (r, None)
  end.

(** [RawMemory::operator+(size_t offset)] *)
Definition Raw_plus {St} (r : RawMemory) (offset : nat) : M St ptr :=
  assert (offset <=? capacity_ r) ;; ret (Ptr (buffer_ r) offset).

(** [RawMemory::operator[](size_t index)], the address of the referenced slot *)
Definition Raw_at {St} (r : RawMemory) (index : nat) : M St ptr :=
  assert (index <? capacity_ r) ;; ret (Ptr (buffer_ r) index).

(** [RawMemory::GetAddress()] *)
Definition GetAddress (r : RawMemory) : ptr := Ptr (buffer_ r) 0.

(** ** Vector<T>

    A member function runs on the pair of its object and the world; a
    block that declares a local [RawMemory] or [Vector] runs on that local
    paired with the state around it. *)

Definition this {St} : M (Vector * St) Vector := local.
Definition set_size {St} (n : nat) : M (Vector * St) unit :=
  v <- this ;; set_local (mkVector (data_ v) n).
Definition set_data {St} (r : RawMemory) : M (Vector * St) unit :=
  v <- this ;; set_local (mkVector r (size_ v)).

(** [begin()], [cbegin()]: [data_ + 0] *)
Definition begin_ {St} : M (Vector * St) ptr :=
  v <- this ;; Raw_plus (data_ v) 0.

(** [end()], [cend()]: [data_ + size_] *)
Definition end_ {St} : M (Vector * St) ptr :=
  v <- this ;; Raw_plus (data_ v) (size_ v).

(** [Vector() = default] *)
Definition Vector_default : Vector := mkVector (mkRaw None 0) 0.

(** [explicit Vector(size_t size)]; when the body throws, the member
    [data_], already constructed, is destroyed. *)
Definition Vector_sized (size : nat) : M world Vector :=
  d <- RawMemory_ctor size ;;
  try_catch (uninitialized_value_construct_n (GetAddress d) size) (RawMemory_dtor d) ;;
  ret (mkVector d size).

(** [Vector(const Vector& other)] *)
Definition Vector_copy (other : Vector) : M world Vector :=
  d <- RawMemory_ctor (size_ other) ;;
  try_catch (uninitialized_copy_n (GetAddress (data_ other)) (size_ other) (GetAddress d))
            (RawMemory_dtor d) ;;
  ret (mkVector d (size_ other)).

(** [~Vector()], followed by the destructor of the member [data_] *)
Definition Vector_dtor (v : Vector) : M world unit :=
  destroy_n (GetAddress (data_ v)) (size_ v) ;; RawMemory_dtor (data_ v).

(** [Vector::Swap(Vector& other)]: the new [*this] and the new [other] *)
Definition Swap (v other : Vector) : Vector * Vector := (other, v).

(** [Vector(Vector&& other)]: the new object and what is left of [other] *)
Definition Vector_move (other : Vector) : Vector * Vector :=
  (mkVector (data_ other) (size_ other), mkVector (mkRaw None 0) 0).

(** The right-hand side of an assignment: [*this] itself or another object. *)
Inductive rhs := Self | Other (other : Vector).

(** [Vector& operator=(Vector&& other)]: the new [*this] and the new
    right-hand side *)
Definition assign_move (v : Vector) (r : rhs) : Vector * rhs :=
  match r with
  | Self => (v, Self)
  | Other other => let '(v', other') := Swap v other in (v', Other other')
  end.

Definition Size (v : Vector) : nat := size_ v.
Definition Capacity (v : Vector) : nat := capacity_ (data_ v).

(** [T& operator[](size_t index)], the address of the referenced element *)
Definition index_op {St} (index : nat) : M (Vector * St) ptr :=
  v <- this ;; assert (index <? size_ v) ;; Raw_at (data_ v) index.

(** [for (size_t i = from; i < to; ++i) body(i)], [n] being the number of
    turns left *)
Fixpoint for_loop {St} (i n : nat) (body : nat → M St unit) : M St unit :=
  match n with
  | 0 => ret tt
  | S n' => body i ;; for_loop (S i) n' body
  end.

(** [Vector& operator=(const Vector& other)] *)
Definition assign_copy (r : rhs) : M (Vector * world) unit :=
  match r with
  | Self => ret tt
  | Other other =>
      v <- this ;;
      if Capacity v <? size_ other then
        scope (outer (Vector_copy other))
              (other_copy <- local ;; v <- outer this ;;
               let '(v', other_copy') := Swap v other_copy in
               outer (set_local v') ;; set_local other_copy')
              (fun other_copy => outer (Vector_dtor other_copy))
      else
        let min_size := Nat.min (size_ v) (size_ other) in
        for_loop 0 min_size (fun i =>
          p <- Raw_at (data_ v) i ;; q <- Raw_at (data_ other) i ;;
          outer (copy_assign p q)) ;;
        (if size_ other <=? size_ v then
           p <- Raw_plus (data_ v) (size_ other) ;;
           outer (destroy_n p (size_ v - size_ other))
         else
           q <- Raw_plus (data_ other) (size_ v) ;;
           p <- Raw_plus (data_ v) (size_ v) ;;
           outer (uninitialized_copy_n q (size_ other - size_ v) p)) ;;
        set_size (size_ other)
  end.

(** [UninitializedCopyOrMoveN(T* from, size_t N, T* to)] *)
Definition UninitializedCopyOrMoveN (from : ptr) (N : nat) (to : ptr) : M world unit :=
  if is_nothrow_move_constructible || negb is_copy_constructible
  then uninitialized_move_n from N to
  else uninitialized_copy_n from N to.

(** [MakeNewData(RawMemory<T>& new_data)], the referenced [new_data] being
    the local in scope *)
Definition MakeNewData : M (RawMemory * (Vector * world)) unit :=
  new_data <- local ;; v <- outer this ;;
  outer (outer (UninitializedCopyOrMoveN (GetAddress (data_ v)) (size_ v) (GetAddress new_data))) ;;
  outer (outer (destroy_n (GetAddress (data_ v)) (size_ v))) ;;
  outer (set_data new_data) ;; set_local (data_ v).

(** [MakeNewDataSafe(RawMemory<T>& new_data, T* possible_leak_pos)] *)
Definition MakeNewDataSafe (possible_leak_pos : ptr) : M (RawMemory * (Vector * world)) unit :=
  try_catch MakeNewData (outer (outer (destroy_at possible_leak_pos))).

(** [void Reserve(size_t new_capacity)] *)
Definition Reserve (new_capacity : nat) : M (Vector * world) unit :=
  v <- this ;;
  if new_capacity <=? capacity_ (data_ v) then ret tt
  else scope (outer (RawMemory_ctor new_capacity)) MakeNewData
             (fun new_data => outer (RawMemory_dtor new_data)).

(** [void Resize(size_t new_size)] *)
Definition Resize (new_size : nat) : M (Vector * world) unit :=
  v <- this ;;
  (if new_size <? size_ v then
     p <- Raw_plus (data_ v) new_size ;;
     outer (destroy_n p (size_ v - new_size))
   else if size_ v <? new_size then
     Reserve new_size ;;
     v <- this ;;
     p <- Raw_plus (data_ v) (size_ v) ;;
     outer (uninitialized_value_construct_n p (new_size - size_ v))
   else ret tt) ;;
  set_size new_size.

(** The growth of [PushBack], [EmplaceBack] and [Emplace]:
    [size_ == 0 ? 1 : size_ * 2] *)
Definition grown (size : nat) : nat := if size =? 0 then 1 else size * 2.

(** The array has room for one more element, or the buffer it would grow
    into is one that [operator new] may grant. *)
Definition can_grow (v : Vector) : Prop :=
  size_ v = capacity_ (data_ v) → fits (grown (size_ v)).

(** The part that [PushBack(const T&)], [PushBack(T&&)] and [EmplaceBack]
    have in common: all before the final increment of [size_]. *)
Definition append_body (a : init T) : M (Vector * world) unit :=
  v <- this ;;
  if negb (size_ v =? capacity_ (data_ v)) then
    p <- Raw_plus (data_ v) (size_ v) ;;
    outer (construct_at p a)
  else
    scope (outer (RawMemory_ctor (grown (size_ v))))
          (new_data <- local ;;
           p <- Raw_plus new_data (size_ v) ;;
           outer (outer (construct_at p a)) ;;
           MakeNewDataSafe p)
          (fun new_data => outer (RawMemory_dtor new_data)).

(** [void PushBack(const T& value)] with [ByCopy], [void PushBack(T&& value)]
    with [ByMove] *)
Definition PushBack (a : init T) : M (Vector * world) unit :=
  append_body a ;;
  v <- this ;; set_size (S (size_ v)).

(** [T& EmplaceBack(Types&&... args)], the address of the referenced element *)
Definition EmplaceBack (a : init T) : M (Vector * world) ptr :=
  append_body a ;;
  v <- this ;;
  set_size (S (size_ v)) ;;
  Raw_at (data_ v) (size_ v).

(** [p >= q], [p <= q], [p < q] on pointers into one buffer *)
Definition ptr_le (p q : ptr) : bool :=
  bool_decide (base p = base q) && (off p <=? off q).
Definition ptr_lt (p q : ptr) : bool :=
  bool_decide (base p = base q) && (off p <? off q).

(** [iterator Emplace(const_iterator cpos, Args&&... args)], over the
    implementation [move_backward] of [std::move_backward] *)
Definition Emplace_with (move_backward : ptr → ptr → ptr → M world unit)
    (cpos : ptr) (a : init T) : M (Vector * world) ptr :=
  cb <- begin_ ;; ce <- end_ ;;
  assert (ptr_le cb cpos && ptr_le cpos ce) ;;
  v <- this ;;
  if negb (size_ v =? capacity_ (data_ v)) then
    if size_ v =? 0 then
      outer (construct_at (GetAddress (data_ v)) a) ;;
      set_size (S (size_ v)) ;;
      ret (GetAddress (data_ v))
    else
      (* T emplacing_element(args...) *)
      outer (call (init_op a)) ;;
      e <- end_ ;; last <- Raw_at (data_ v) (size_ v - 1) ;;
      outer (move_construct e last) ;;
      b <- begin_ ;;
      let pos := ptr_add b (off cpos - off cb) in
      try_catch (e <- end_ ;; outer (move_backward pos (ptr_sub e 1) e))
                (e <- end_ ;; outer (destroy_at e)) ;;
      outer (move_assign_from pos (init_value a)) ;;
      set_size (S (size_ v)) ;;
      ret pos
  else
    scope (outer (RawMemory_ctor (grown (size_ v))))
          (new_data <- local ;;
           pos <- Raw_plus new_data (off cpos - off cb) ;;
           outer (outer (construct_at pos a)) ;;
           try_catch
             (outer (outer (UninitializedCopyOrMoveN (GetAddress (data_ v)) (off cpos - off cb)
                                                     (GetAddress new_data))))
             (outer (outer (destroy_at pos))) ;;
           try_catch
             (old_pos <- Raw_plus (data_ v) (off cpos - off cb) ;;
              outer (outer (UninitializedCopyOrMoveN old_pos (off ce - off cpos) (ptr_add pos 1))))
             (outer (outer (destroy_n (GetAddress new_data) (off cpos - off cb + 1)))) ;;
           outer (outer (destroy_n (GetAddress (data_ v)) (size_ v))) ;;
           outer (set_data new_data) ;; set_local (data_ v) ;;
           outer (set_size (S (size_ v))) ;;
           ret pos)
          (fun new_data => outer (RawMemory_dtor new_data)).

(** [Emplace] with [std::move_backward] as the standard specifies it *)
Definition Emplace : ptr → init T → M (Vector * world) ptr :=
  Emplace_with std_move_backward.

(** [iterator Insert(const_iterator pos, const T& value)] *)
Definition Insert_copy (pos : ptr) (value : T) : M (Vector * world) ptr :=
  Emplace pos (ByCopy value).

(** [iterator Insert(const_iterator pos, T&& value)] *)
Definition Insert_move (pos : ptr) (value : T) : M (Vector * world) ptr :=
  Emplace pos (ByMove value).

(** [void PopBack()] *)
Definition PopBack : M (Vector * world) unit :=
  v <- this ;;
  if negb (size_ v =? 0) then
    set_size (size_ v - 1) ;;
    p <- Raw_plus (data_ v) (size_ v - 1) ;;
    outer (destroy_at p)
  else ret tt.

(** [iterator Erase(const_iterator cpos)] *)
Definition Erase (cpos : ptr) : M (Vector * world) ptr :=
  cb <- begin_ ;; ce <- end_ ;;
  assert (ptr_le cb cpos && ptr_lt cpos ce) ;;
  b <- begin_ ;;
  let pos := ptr_add b (off cpos - off cb) in
  e <- end_ ;;
  outer (std_move (ptr_add pos 1) e pos) ;;
  outer (destroy_at (ptr_sub e 1)) ;;
  v <- this ;; set_size (size_ v - 1) ;;
  ret pos.

End Model.

Arguments world T : clear implicits.
(** * Reasoning about outcomes *)

(** [yields o QN QE]: the outcome is defined; a normal completion satisfies
    [QN], a propagating exception [QE]. *)
Definition yields {S A} (o : outcome S A) (QN : A → S → Prop) (QE : S → Prop) : Prop :=
  match o with
  | Normal a s => QN a s
  | Throws s => QE s
  | Undefined => False
  end.

Lemma yields_mono {S A} (o : outcome S A) (QN QN' : A → S → Prop) (QE QE' : S → Prop) :
  yields o QN QE →
  (∀ a s, QN a s → QN' a s) → (∀ s, QE s → QE' s) →
  yields o QN' QE'.
Proof. destruct o; simpl; auto. Qed.

Lemma yields_bind {S A B} (m : M S A) (k : A → M S B) s QN QE :
  yields (m s) (fun a s' => yields (k a s') QN QE) QE →
  yields ((x <- m ;; k x) s) QN QE.
Proof. unfold bind. destruct (m s); simpl; auto. Qed.

Lemma yields_try_catch {S A} (body : M S A) (handler : M S unit) s QN QE :
  yields (body s) QN (fun s' => yields (handler s') (fun _ s'' => QE s'') QE) →
  yields (try_catch body handler s) QN QE.
Proof.
  unfold try_catch. destruct (body s) as [a s'|s'|]; simpl; auto.
  destruct (handler s'); simpl; auto.
Qed.

Lemma yields_outer {L S A} (m : M S A) (l : L) s QN QE :
  yields (m s) (fun a s' => QN a (l, s')) (fun s' => QE (l, s')) →
  yields (outer m (l, s)) QN QE.
Proof. unfold outer. destruct (m s); simpl; auto. Qed.

Lemma yields_scope {L S A} (ctor : M S L) (body : M (L * S) A) (dtor : L → M S unit) s QN QE :
  yields (ctor s)
    (fun l s1 => yields (body (l, s1))
       (fun a ls => yields (dtor ls.1 ls.2) (fun _ s3 => QN a s3) QE)
       (fun ls => yields (dtor ls.1 ls.2) (fun _ s3 => QE s3) QE))
    QE →
  yields (scope ctor body dtor s) QN QE.
Proof.
  unfold scope. destruct (ctor s) as [l s1|s1|]; simpl; auto.
  destruct (body (l, s1)) as [a [l' s2]|[l' s2]|]; simpl; auto.
  - destruct (dtor l' s2); simpl; auto.
  - destruct (dtor l' s2); simpl; auto.
Qed.

Lemma yields_Normal {S A} (o : outcome S A) QN QE a s :
  yields o QN QE → o = Normal a s → QN a s.
Proof. intros Hy ->. exact Hy. Qed.

Lemma yields_Throws {S A} (o : outcome S A) QN QE s :
  yields o QN QE → o = Throws s → QE s.
Proof. intros Hy ->. exact Hy. Qed.

Lemma yields_defined {S A} (o : outcome S A) QN QE :
  yields o QN QE → o ≠ Undefined.
Proof. destruct o; simpl; intros; congruence. Qed.

Lemma yields_and {S A} (o : outcome S A) QN QE QN' QE' :
  yields o QN QE → yields o QN' QE' →
  yields o (fun a s => QN a s ∧ QN' a s) (fun s => QE s ∧ QE' s).
Proof. destruct o; simpl; auto. Qed.

(** List facts used for raw buffers. *)

Lemma insert_middle {A} (l1 l2 : list A) (x y : A) (n : nat) :
  n = length l1 → <[n := y]> (l1 ++ x :: l2) = l1 ++ y :: l2.
Proof.
  intros ->. rewrite insert_app_r_alt by lia. by rewrite Nat.sub_diag.
Qed.

Lemma snoc_app_assoc {A} (l1 : list A) (x : A) (l2 : list A) :
  l1 ++ x :: l2 = (l1 ++ [x]) ++ l2.
Proof. by rewrite <- app_assoc. Qed.

Section Rules.
Context {T : Type} `{Element T}.
Variable F : faults.

#[local] Abbreviation heap_t := (gmap loc (list (option T))).

(** How an operation changes the world: the heap it leaves, the number of
    buffers it allocated, and the numbers of objects it constructed,
    destroyed and assigned. *)
Definition changed (w w' : world T) (h' : heap_t) (k dc dd da : nat) : Prop :=
  heap w' = h' ∧ fresh w' = fresh w + k ∧
  constructed w' = constructed w + dc ∧
  destroyed w' = destroyed w + dd ∧
  assigned w' = assigned w + da.

(** The same for an operation that does not allocate. *)
Definition evolves (w w' : world T) (h' : heap_t) (dc dd da : nat) : Prop :=
  changed w w' h' 0 dc dd da.

Lemma changed_trans w w1 w2 h1 h2 k1 c1 d1 a1 k2 c2 d2 a2 :
  changed w w1 h1 k1 c1 d1 a1 → changed w1 w2 h2 k2 c2 d2 a2 →
  changed w w2 h2 (k1 + k2) (c1 + c2) (d1 + d2) (a1 + a2).
Proof. unfold changed. intros (?&?&?&?&?) (?&?&?&?&?). repeat split; try congruence; lia. Qed.

Lemma changed_eq w w' h h' k c d a k' c' d' a' :
  changed w w' h k c d a → h = h' → k = k' → c = c' → d = d' → a = a' →
  changed w w' h' k' c' d' a'.
Proof. by intros ? <- <- <- <- <-. Qed.

Lemma evolves_trans w w1 w2 h1 h2 c1 d1 a1 c2 d2 a2 :
  evolves w w1 h1 c1 d1 a1 → evolves w1 w2 h2 c2 d2 a2 →
  evolves w w2 h2 (c1 + c2) (d1 + d2) (a1 + a2).
Proof. unfold evolves. apply changed_trans. Qed.

Lemma evolves_eq w w' h h' c d a c' d' a' :
  evolves w w' h c d a → h = h' → c = c' → d = d' → a = a' → evolves w w' h' c' d' a'.
Proof. by intros ? <- <- <- <-. Qed.

Lemma deref_live l o b x (w : world T) :
  heap w !! l = Some b → b !! o = Some (Some x) →
  deref (Ptr (Some l) o) w = Normal x w.
Proof. intros Hl Ho. unfold deref. simpl. by rewrite Hl, Ho. Qed.

Lemma store_slot l o b y (w : world T) :
  heap w !! l = Some b → o < length b →
  store (Ptr (Some l) o) y w = Normal tt (set_heap (<[l := <[o := y]> b]> (heap w)) w).
Proof.
  intros Hl Ho. unfold store. simpl. rewrite Hl. by destruct (decide (o < length b)).
Qed.

Lemma call_yields op (w : world T) :
  yields (call F op w) (fun _ w' => evolves w w' (heap w) 0 0 0)
                       (fun w' => evolves w w' (heap w) 0 0 0).
Proof.
  unfold call. destruct (will_throw F op (ticks w)); simpl;
    unfold evolves, changed; simpl; repeat split; lia.
Qed.

Lemma call_move_nothrow (w : world T) :
  is_nothrow_move_constructible = true →
  yields (call F MoveCtor w) (fun _ w' => evolves w w' (heap w) 0 0 0) (fun _ => False).
Proof.
  intros Hn. unfold call, will_throw. rewrite Hn. simpl.
  unfold evolves, changed; simpl; repeat split; lia.
Qed.


Ltac ev_solve :=
  unfold evolves, changed in *; simpl in *;
  repeat match goal with H : _ ∧ _ |- _ => destruct H end;
  repeat split; try congruence; try lia.

Lemma construct_at_yields l o b a (w : world T) :
  heap w !! l = Some b → o < length b →
  yields (construct_at F (Ptr (Some l) o) a w)
    (fun _ w' => evolves w w' (<[l := <[o := Some (init_value a)]> b]> (heap w)) 1 0 0)
    (fun w' => evolves w w' (heap w) 0 0 0).
Proof.
  intros Hl Ho. unfold construct_at, bind, call.
  destruct (will_throw F (init_op a) (ticks w)); simpl; [ev_solve|].
  erewrite store_slot by (simpl; eauto). simpl. ev_solve.
Qed.

Lemma copy_construct_yields ld od bd ls os bs x (w : world T) :
  heap w !! ls = Some bs → bs !! os = Some (Some x) →
  heap w !! ld = Some bd → od < length bd →
  yields (copy_construct F (Ptr (Some ld) od) (Ptr (Some ls) os) w)
    (fun _ w' => evolves w w' (<[ld := <[od := Some x]> bd]> (heap w)) 1 0 0)
    (fun w' => evolves w w' (heap w) 0 0 0).
Proof.
  intros Hls Hx Hld Hod. unfold copy_construct, bind, call.
  erewrite deref_live by eauto.
  destruct (will_throw F CopyCtor (ticks w)); simpl; [ev_solve|].
  erewrite store_slot by (simpl; eauto). simpl. ev_solve.
Qed.

Lemma move_construct_yields ld od bd ls os bs x (w : world T) :
  ls ≠ ld →
  heap w !! ls = Some bs → bs !! os = Some (Some x) →
  heap w !! ld = Some bd → od < length bd →
  yields (move_construct F (Ptr (Some ld) od) (Ptr (Some ls) os) w)
    (fun _ w' => evolves w w'
       (<[ls := <[os := Some (moved_from x)]> bs]> (<[ld := <[od := Some x]> bd]> (heap w))) 1 0 0)
    (fun w' => is_nothrow_move_constructible = false ∧ evolves w w' (heap w) 0 0 0).
Proof.
  intros Hne Hls Hx Hld Hod. unfold move_construct, bind, call.
  erewrite deref_live by eauto.
  unfold will_throw. destruct is_nothrow_move_constructible; simpl.
  - erewrite store_slot by (simpl; eauto). simpl.
    erewrite store_slot; [| simpl; rewrite lookup_insert_ne by done; eauto
                          | eapply lookup_lt_Some; eauto ].
    simpl. ev_solve.
  - destruct (throws F MoveCtor (ticks w)); simpl; [split; [done|ev_solve]|].
    erewrite store_slot by (simpl; eauto). simpl.
    erewrite store_slot; [| simpl; rewrite lookup_insert_ne by done; eauto
                          | eapply lookup_lt_Some; eauto ].
    simpl. ev_solve.
Qed.

Lemma value_construct_yields l o b (w : world T) :
  heap w !! l = Some b → o < length b →
  yields (value_construct F (Ptr (Some l) o) w)
    (fun _ w' => evolves w w' (<[l := <[o := Some value_init]> b]> (heap w)) 1 0 0)
    (fun w' => evolves w w' (heap w) 0 0 0).
Proof.
  intros Hl Ho. unfold value_construct, bind, call.
  destruct (will_throw F ValueCtor (ticks w)); simpl; [ev_solve|].
  erewrite store_slot by (simpl; eauto). simpl. ev_solve.
Qed.

Lemma copy_assign_yields ld od bd y ls os bs x (w : world T) :
  heap w !! ls = Some bs → bs !! os = Some (Some x) →
  heap w !! ld = Some bd → bd !! od = Some (Some y) →
  yields (copy_assign F (Ptr (Some ld) od) (Ptr (Some ls) os) w)
    (fun _ w' => evolves w w' (<[ld := <[od := Some x]> bd]> (heap w)) 0 0 1)
    (fun w' => evolves w w' (heap w) 0 0 0).
Proof.
  intros Hls Hx Hld Hy. unfold copy_assign, bind, call.
  erewrite deref_live by eauto. erewrite deref_live by eauto.
  destruct (will_throw F CopyAssign (ticks w)); simpl; [ev_solve|].
  erewrite store_slot; [| simpl; eauto | eapply lookup_lt_Some; eauto].
  simpl. ev_solve.
Qed.

Lemma destroy_at_yields l o b x (w : world T) :
  heap w !! l = Some b → b !! o = Some (Some x) →
  yields (destroy_at (Ptr (Some l) o) w)
    (fun _ w' => evolves w w' (<[l := <[o := None]> b]> (heap w)) 0 1 0)
    (fun _ => False).
Proof.
  intros Hl Hx. unfold destroy_at, bind.
  erewrite deref_live by eauto.
  erewrite store_slot; [| eauto | eapply lookup_lt_Some; eauto].
  simpl. ev_solve.
Qed.

(** [destroy_n] over a run os live objects leaves the run uninitialised. *)
Lemma destroy_n_yields l xs : ∀ front back o (w : world T),
  heap w !! l = Some (front ++ map Some xs ++ back) → o = length front →
  yields (destroy_n (Ptr (Some l) o) (length xs) w)
    (fun _ w' => evolves w w' (<[l := front ++ replicate (length xs) None ++ back]> (heap w))
                   0 (length xs) 0)
    (fun _ => False).
Proof.
  induction xs as [|x xs IH]; intros front back o w Hl ->; simpl.
  - simpl in Hl. rewrite insert_id by done. ev_solve.
  - simpl in Hl. apply yields_bind.
    eapply yields_mono; [eapply destroy_at_yields; eauto| |done].
    + by apply list_lookup_middle.
    + intros [] w1 Hw1. simpl.
      rewrite insert_middle in Hw1 by done.
      eapply yields_mono;
        [eapply (IH (front ++ [None]) back (length front + 1) w1)| |done].
      * destruct Hw1 as [-> _]. rewrite lookup_insert_eq.
        by rewrite <- app_assoc.
      * rewrite length_app. simpl. lia.
      * intros [] w2 Hw2. simpl in Hw2.
        eapply evolves_eq; [eapply evolves_trans; eauto|..]; try done.
        destruct Hw1 as [-> _]. rewrite insert_insert_eq.
        by rewrite <- app_assoc.
Qed.

Lemma destroy_n_run l xs front back o n (w : world T) :
  heap w !! l = Some (front ++ map Some xs ++ back) → o = length front → n = length xs →
  yields (destroy_n (Ptr (Some l) o) n w)
    (fun _ w' => evolves w w' (<[l := front ++ replicate n None ++ back]> (heap w)) 0 n 0)
    (fun _ => False).
Proof. intros ? ? ->. by apply destroy_n_yields. Qed.

(** [xs] is live in the buffer [b] from offset [o] on. *)
Definition live_at (b : list (option T)) (o : nat) (xs : list T) : Prop :=
  ∀ i x, xs !! i = Some x → b !! (o + i) = Some (Some x).

Lemma live_at_middle front xs back :
  live_at (front ++ map Some xs ++ back) (length front) xs.
Proof.
  intros i x Hx. rewrite lookup_app_r by lia.
  replace (length front + i - length front) with i by lia.
  rewrite lookup_app_l by (rewrite length_map; eapply lookup_lt_Some; eauto).
  by rewrite list_lookup_fmap, Hx.
Qed.

(** The loop of [uninitialized_copy_n] between two buffers: either all of
    the source is copied, or the destination is as it was and every object
    built has been destroyed. *)
Lemma uninit_copy_loop_yields ls ld bs os front back rest : ∀ built (w : world T),
  ls ≠ ld →
  heap w !! ls = Some bs →
  live_at bs os (built ++ rest) →
  heap w !! ld = Some (front ++ map Some built ++ replicate (length rest) None ++ back) →
  yields (uninitialized_loop (copy_construct F) (Ptr (Some ls) os) (Ptr (Some ld) (length front))
            (length built) (length rest) w)
    (fun _ w' => evolves w w' (<[ld := front ++ map Some (built ++ rest) ++ back]> (heap w))
                   (length rest) 0 0)
    (fun w' => ∃ j, evolves w w'
                 (<[ld := front ++ replicate (length built + length rest) None ++ back]> (heap w))
                 j (length built + j) 0).
Proof.
  induction rest as [|x rest IH]; intros built w Hne Hs Hlive Hd; simpl.
  - rewrite app_nil_r in *. simpl in Hd. rewrite insert_id by done. ev_solve.
  - simpl in Hd. apply yields_bind, yields_try_catch.
    unfold ptr_add; simpl.
    eapply yields_mono;
      [eapply (copy_construct_yields ld _ _ ls _ bs x); eauto|..].
    + apply Hlive. by apply list_lookup_middle.
    + rewrite !length_app, length_map. simpl. lia.
    + intros [] w1 Hw1. simpl.
      rewrite (app_assoc front), insert_middle in Hw1
        by (by rewrite length_app, length_map).
      assert (Hl1 : length (built ++ [x]) = S (length built))
        by (rewrite length_app; simpl; lia).
      rewrite <- Hl1.
      eapply yields_mono; [eapply (IH (built ++ [x]) w1)|..]; eauto.
      * destruct Hw1 as [-> _]. by rewrite lookup_insert_ne.
      * by rewrite <- app_assoc.
      * destruct Hw1 as [-> _]. rewrite lookup_insert_eq.
        by rewrite map_app, <- !app_assoc.
      * intros [] w2 Hw2. simpl in Hw2.
        eapply evolves_eq; [eapply evolves_trans; eauto|..]; try done.
        destruct Hw1 as [-> _]. rewrite insert_insert_eq.
        by rewrite <- !app_assoc.
      * intros w2 [j Hw2]. exists (S j).
        eapply evolves_eq; [eapply evolves_trans; eauto|..]; try lia.
        destruct Hw1 as [-> _]. rewrite insert_insert_eq, Hl1.
        do 4 f_equal. lia.
    + intros w1 Hw1. cbv beta in Hw1.
      eapply yields_mono; [eapply (destroy_n_yields ld built front)|..]; eauto.
      * destruct Hw1 as [-> _]. eauto.
      * intros [] w2 Hw2. cbv beta in Hw2. exists 0.
        eapply evolves_eq; [eapply evolves_trans; eauto|..]; try lia.
        destruct Hw1 as [-> _].
        rewrite replicate_add. by rewrite <- !app_assoc.
      * intros ? [].
Qed.

Lemma insert2_collapse (h : heap_t) ls ld bs bs' bd bd' :
  ls ≠ ld →
  <[ls := bs']> (<[ld := bd']> (<[ls := bs]> (<[ld := bd]> h))) = <[ls := bs']> (<[ld := bd']> h).
Proof.
  intros Hne. apply map_eq. intros i.
  destruct (decide (i = ls)) as [->|]; [by rewrite !lookup_insert_eq|].
  rewrite !(lookup_insert_ne _ ls) by done.
  destruct (decide (i = ld)) as [->|]; [by rewrite !lookup_insert_eq|].
  by rewrite !lookup_insert_ne by done.
Qed.

(** The loop of [uninitialized_move_n] between two buffers: either every
    source object is moved, or (only when the move constructor may throw)
    the objects built are destroyed while their sources stay moved-from. *)
Lemma uninit_move_loop_yields ls ld sfront sback front back rest : ∀ built (w : world T),
  ls ≠ ld →
  heap w !! ls = Some (sfront ++ map Some (map moved_from built) ++ map Some rest ++ sback) →
  heap w !! ld = Some (front ++ map Some built ++ replicate (length rest) None ++ back) →
  yields (uninitialized_loop (move_construct F) (Ptr (Some ls) (length sfront))
            (Ptr (Some ld) (length front)) (length built) (length rest) w)
    (fun _ w' => evolves w w'
       (<[ls := sfront ++ map Some (map moved_from (built ++ rest)) ++ sback]>
          (<[ld := front ++ map Some (built ++ rest) ++ back]> (heap w)))
       (length rest) 0 0)
    (fun w' => is_nothrow_move_constructible = false ∧
       ∃ extra remaining, rest = extra ++ remaining ∧ remaining ≠ [] ∧
         evolves w w'
           (<[ls := sfront ++ map Some (map moved_from (built ++ extra)) ++
                    map Some remaining ++ sback]>
              (<[ld := front ++ replicate (length built + length rest) None ++ back]> (heap w)))
           (length extra) (length built + length extra) 0).
Proof.
  induction rest as [|x rest IH]; intros built w Hne Hs Hd; simpl.
  - rewrite app_nil_r in *. simpl in Hs, Hd.
    rewrite (insert_id (heap w) ld) by done. rewrite insert_id by done. ev_solve.
  - simpl in Hs, Hd. apply yields_bind, yields_try_catch.
    unfold ptr_add; simpl.
    eapply yields_mono;
      [eapply (move_construct_yields ld _ _ ls _ _ x); eauto|..].
    + rewrite app_assoc. apply list_lookup_middle.
      by rewrite length_app, !length_map.
    + rewrite !length_app, length_map. simpl. lia.
    + intros [] w1 Hw1. cbv beta in Hw1.
      rewrite (app_assoc front), insert_middle in Hw1
        by (by rewrite length_app, length_map).
      rewrite (app_assoc sfront), insert_middle in Hw1
        by (by rewrite length_app, !length_map).
      assert (Hl1 : length (built ++ [x]) = S (length built))
        by (rewrite length_app; simpl; lia).
      rewrite <- Hl1.
      eapply yields_mono; [eapply (IH (built ++ [x]) w1)|..]; eauto.
      * destruct Hw1 as [-> _]. rewrite lookup_insert_eq.
        by rewrite !map_app, <- !app_assoc.
      * destruct Hw1 as [-> _]. rewrite lookup_insert_ne, lookup_insert_eq by done.
        by rewrite map_app, <- !app_assoc.
      * intros [] w2 Hw2. cbv beta in Hw2.
        eapply evolves_eq; [eapply evolves_trans; eauto|..]; try done.
        destruct Hw1 as [-> _]. rewrite insert2_collapse by done.
        by rewrite <- !app_assoc.
      * intros w2 (Hn & extra & remaining & -> & Hrem & Hw2). split; [done|].
        exists (x :: extra), remaining. split; [done|]. split; [done|].
        eapply evolves_eq; [eapply evolves_trans; eauto|..]; try (simpl; lia).
        destruct Hw1 as [-> _]. rewrite insert2_collapse by done.
        rewrite Hl1, <- !app_assoc. simpl length.
        replace (S (length built) + length (extra ++ remaining))
          with (length built + S (length (extra ++ remaining))) by lia.
        done.
    + intros w1 [Hn Hw1].
      eapply yields_mono; [eapply (destroy_n_yields ld built front)|..]; eauto.
      * destruct Hw1 as [-> _]. eauto.
      * intros [] w2 Hw2. cbv beta in Hw2. split; [done|].
        exists [], (x :: rest). split; [done|]. split; [done|].
        eapply evolves_eq; [eapply evolves_trans; eauto|..]; try (simpl; lia).
        destruct Hw1 as [-> _]. rewrite app_nil_r.
        rewrite (insert_id (<[ld := _]> _) ls).
        { rewrite replicate_add. by rewrite <- !app_assoc. }
        by rewrite lookup_insert_ne.
      * intros ? [].
Qed.

(** With a non-throwing move constructor the loop never throws. *)
Lemma uninit_move_loop_nothrow ls ld sfront sback front back rest built (w : world T) :
  is_nothrow_move_constructible = true →
  ls ≠ ld →
  heap w !! ls = Some (sfront ++ map Some (map moved_from built) ++ map Some rest ++ sback) →
  heap w !! ld = Some (front ++ map Some built ++ replicate (length rest) None ++ back) →
  yields (uninitialized_loop (move_construct F) (Ptr (Some ls) (length sfront))
            (Ptr (Some ld) (length front)) (length built) (length rest) w)
    (fun _ w' => evolves w w'
       (<[ls := sfront ++ map Some (map moved_from (built ++ rest)) ++ sback]>
          (<[ld := front ++ map Some (built ++ rest) ++ back]> (heap w)))
       (length rest) 0 0)
    (fun _ => False).
Proof.
  intros Hn Hne Hs Hd.
  eapply yields_mono; [by eapply uninit_move_loop_yields|done|].
  intros w' [Hf _]. congruence.
Qed.

(** The loop of [uninitialized_value_construct_n]. *)
Lemma uninit_value_loop_yields ld q front back n : ∀ k (w : world T),
  heap w !! ld = Some (front ++ replicate k (Some value_init) ++ replicate n None ++ back) →
  yields (uninitialized_loop (fun p _ => value_construct F p) q
            (Ptr (Some ld) (length front)) k n w)
    (fun _ w' => evolves w w'
       (<[ld := front ++ replicate (k + n) (Some value_init) ++ back]> (heap w)) n 0 0)
    (fun w' => ∃ j, evolves w w'
       (<[ld := front ++ replicate (k + n) None ++ back]> (heap w)) j (k + j) 0).
Proof.
  induction n as [|n IH]; intros k w Hd; simpl.
  - simpl in Hd. rewrite Nat.add_0_r, insert_id by done. ev_solve.
  - simpl in Hd. apply yields_bind, yields_try_catch.
    unfold ptr_add; simpl.
    eapply yields_mono; [eapply value_construct_yields; eauto|..].
    + rewrite !length_app, length_replicate. simpl. lia.
    + intros [] w1 Hw1. cbv beta in Hw1.
      rewrite (app_assoc front), insert_middle in Hw1
        by (by rewrite length_app, length_replicate).
      eapply yields_mono; [eapply (IH (S k) w1)|..].
      * destruct Hw1 as [-> _]. rewrite lookup_insert_eq.
        rewrite replicate_S_end. by rewrite <- !app_assoc.
      * intros [] w2 Hw2. cbv beta in Hw2.
        eapply evolves_eq; [eapply evolves_trans; eauto|..]; try done.
        destruct Hw1 as [-> _]. rewrite insert_insert_eq.
        do 4 f_equal. lia.
      * intros w2 [j Hw2]. exists (S j).
        eapply evolves_eq; [eapply evolves_trans; eauto|..]; try lia.
        destruct Hw1 as [-> _]. rewrite insert_insert_eq.
        do 4 f_equal. lia.
    + intros w1 Hw1. cbv beta in Hw1.
      eapply yields_mono;
        [eapply (destroy_n_run ld (replicate k value_init) front
                   (None :: replicate n None ++ back))|..].
      * destruct Hw1 as [-> _]. by rewrite fmap_replicate.
      * done.
      * by rewrite length_replicate.
      * intros [] w2 Hw2. cbv beta in Hw2. exists 0.
        eapply evolves_eq; [eapply evolves_trans; eauto|..]; try lia.
        destruct Hw1 as [-> _].
        rewrite replicate_add. by rewrite <- !app_assoc.
      * intros ? [].
Qed.

(** ** What an array holds *)

(** The slots of a buffer of capacity [cap] that holds [xs]: the live
    prefix, then uninitialised slots. *)
Definition slots (xs : list T) (cap : nat) : list (option T) :=
  map Some xs ++ replicate (cap - length xs) None.

(** [operator new] never hands out an address in use. *)
Definition wf (w : world T) : Prop := ∀ l, fresh w ≤ l → heap w !! l = None.

(** The structural invariant: [v] holds exactly the elements [xs], in a
    buffer of a size that [operator new] hands out. *)
Definition repr (w : world T) (v : Vector) (xs : list T) : Prop :=
  size_ v = length xs ∧
  length xs ≤ capacity_ (data_ v) ∧
  match buffer_ (data_ v) with
  | Some l => heap w !! l = Some (slots xs (capacity_ (data_ v)))
  | None => capacity_ (data_ v) = 0
  end ∧
  fits (capacity_ (data_ v)).

(** *** Sizes in bytes *)

Lemma fits_le m n : m ≤ n → fits n → fits m.
Proof.
  unfold fits. intros Hle Hn.
  etrans; [|exact Hn]. apply N.mul_le_mono_r. lia.
Qed.

Lemma fits_representable n : fits n → representable n.
Proof. unfold fits, representable, PTRDIFF_MAX, SIZE_MAX. lia. Qed.

Lemma fits_zero : fits 0.
Proof. unfold fits, PTRDIFF_MAX. lia. Qed.

Lemma fits_one : fits 1.
Proof. unfold fits. rewrite N.mul_1_l. apply sizeof_T_max. Qed.

(** Doubling the size of a buffer that exists does not wrap around. *)
Lemma fits_grown n : fits n → representable (grown n).
Proof.
  unfold grown. destruct (Nat.eqb_spec n 0) as [_|_].
  - intros _. apply fits_representable, fits_one.
  - unfold fits, representable, PTRDIFF_MAX, SIZE_MAX.
    rewrite Nat2N.inj_mul. intros Hn.
    replace (N.of_nat n * N.of_nat 2 * N.pos sizeof_T)%N
      with (2 * (N.of_nat n * N.pos sizeof_T))%N by lia.
    lia.
Qed.

Lemma byte_count_representable n :
  representable n → byte_count n = (N.of_nat n * Npos sizeof_T)%N.
Proof. unfold representable, byte_count. intros Hn. apply N.mod_small. lia. Qed.

(** The block that [Allocate n] asks for has room for [n] objects when the
    byte count does not wrap around. *)
Lemma block_representable n :
  representable n → N.to_nat (byte_count n / Npos sizeof_T) = n.
Proof.
  intros Hn. rewrite byte_count_representable by done.
  rewrite N.div_mul by done. apply Nat2N.id.
Qed.

Lemma repr_fits (w : world T) v xs : repr w v xs → fits (capacity_ (data_ v)).
Proof. by intros (_ & _ & _ & ?). Qed.

Lemma repr_default (w : world T) : repr w Vector_default [].
Proof. split; [done|]. split; [done|]. split; [done|apply fits_zero]. Qed.

Lemma repr_fits_size (w : world T) v xs : repr w v xs → fits (size_ v).
Proof. intros (Hn & Hc & _ & Hf). eapply fits_le; [|exact Hf]. lia. Qed.

(** The heap once the buffer [b] is released. *)
Definition released (b : option loc) (h : heap_t) : heap_t :=
  match b with Some l => delete l h | None => h end.

(** What [UninitializedCopyOrMoveN] leaves in the sources. *)
Definition uses_move : bool := is_nothrow_move_constructible || negb is_copy_constructible.
Definition left_behind (xs : list T) : list T :=
  if uses_move then map moved_from xs else xs.

Lemma slots_length xs cap : length xs ≤ cap → length (slots xs cap) = cap.
Proof. intros. unfold slots. rewrite length_app, length_map, length_replicate. lia. Qed.

Lemma UCOM_zero p q (w : world T) :
  UninitializedCopyOrMoveN F p 0 q w = Normal tt w.
Proof. unfold UninitializedCopyOrMoveN. by destruct (_ || _). Qed.

Lemma destroy_n_zero p (w : world T) : destroy_n p 0 w = Normal tt w.
Proof. done. Qed.

(** Transfer between two buffers. *)
Lemma UCOM_yields ls ld sfront sback front back xs n (w : world T) :
  ls ≠ ld → n = length xs →
  heap w !! ls = Some (sfront ++ map Some xs ++ sback) →
  heap w !! ld = Some (front ++ replicate n None ++ back) →
  yields (UninitializedCopyOrMoveN F (Ptr (Some ls) (length sfront)) n
            (Ptr (Some ld) (length front)) w)
    (fun _ w' => evolves w w'
       (<[ls := sfront ++ map Some (left_behind xs) ++ sback]>
          (<[ld := front ++ map Some xs ++ back]> (heap w))) n 0 0)
    (fun w' =>
       (uses_move = false ∧ ∃ j, evolves w w' (heap w) j j 0) ∨
       (uses_move = true ∧ is_nothrow_move_constructible = false ∧
        ∃ extra remaining, xs = extra ++ remaining ∧ remaining ≠ [] ∧
          evolves w w'
            (<[ls := sfront ++ map Some (map moved_from extra ++ remaining) ++ sback]> (heap w))
            (length extra) (length extra) 0)).
Proof.
  intros Hne -> Hs Hd.
  unfold UninitializedCopyOrMoveN, left_behind. fold uses_move.
  destruct uses_move eqn:Hu.
  - unfold uninitialized_move_n.
    eapply yields_mono; [eapply (uninit_move_loop_yields ls ld sfront sback front back xs [] w)|..];
      eauto.
    intros w' (Hn & extra & remaining & -> & Hrem & Hw'). right.
    split; [done|]. split; [done|]. exists extra, remaining.
    split; [done|]. split; [done|].
    eapply evolves_eq; [exact Hw'|..]; try done.
    simpl. rewrite map_app, <- app_assoc.
    rewrite (insert_id (heap w) ld); [done|].
    by rewrite Hd.
  - unfold uninitialized_copy_n.
    eapply yields_mono; [eapply (uninit_copy_loop_yields ls ld _ (length sfront) front back xs [] w)|..];
      eauto.
    + apply live_at_middle.
    + intros [] w' Hw'. cbv beta in Hw'.
      eapply evolves_eq; [exact Hw'|..]; try done. simpl.
      symmetry. apply insert_id. by rewrite lookup_insert_ne.
    + intros w' [j Hw']. left. split; [done|]. exists j.
      eapply evolves_eq; [exact Hw'|..]; try done.
      simpl. by rewrite insert_id.
Qed.

(** The heap once the [n] live objects of the buffer [b] are destroyed. *)
Definition vacated (b : option loc) (n cap : nat) (h : heap_t) : heap_t :=
  match b with
  | Some lo => <[lo := replicate n None ++ replicate (cap - n) None]> h
  | None => h
  end.

(** How a failed transfer out of the array [v] leaves the world. *)
Definition transfer_failed (v : Vector) (xs : list T) (w w' : world T) : Prop :=
  (uses_move = false ∧ ∃ j, evolves w w' (heap w) j j 0) ∨
  (uses_move = true ∧ is_nothrow_move_constructible = false ∧
   ∃ lo extra remaining,
     buffer_ (data_ v) = Some lo ∧ xs = extra ++ remaining ∧ remaining ≠ [] ∧
     evolves w w'
       (<[lo := slots (map moved_from extra ++ remaining) (capacity_ (data_ v))]> (heap w))
       (length extra) (length extra) 0).

Lemma MakeNewData_yields v xs (w : world T) ln cap' back :
  repr w v xs → buffer_ (data_ v) ≠ Some ln →
  heap w !! ln = Some (replicate (length xs) None ++ back) →
  yields (MakeNewData F (mkRaw (Some ln) cap', (v, w)))
    (fun _ s' => ∃ w',
       s' = (data_ v, (mkVector (mkRaw (Some ln) cap') (size_ v), w')) ∧
       evolves w w'
         (vacated (buffer_ (data_ v)) (length xs) (capacity_ (data_ v))
            (<[ln := map Some xs ++ back]> (heap w)))
         (length xs) (length xs) 0)
    (fun s' => ∃ w', s' = (mkRaw (Some ln) cap', (v, w')) ∧ transfer_failed v xs w w').
Proof.
  destruct v as [[b cap] n]. intros (Hn & Hcap & Hb & Hfit) Hne Hnew. simpl in *. subst n.
  unfold MakeNewData.
  apply yields_bind; simpl. apply yields_bind; simpl.
  apply yields_bind. apply yields_outer, yields_outer.
  destruct b as [lo|].
  - assert (lo ≠ ln) by congruence.
    eapply yields_mono;
      [eapply (UCOM_yields lo ln [] _ [] back xs); eauto|..].
    + intros [] w1 Hw1. cbv beta in Hw1. simpl in Hw1.
      apply yields_bind. apply yields_outer, yields_outer.
      eapply yields_mono;
        [eapply (destroy_n_run lo (left_behind xs) [] _ 0 (length xs) w1)|..]; try done.
      * destruct Hw1 as [-> _]. by rewrite lookup_insert_eq.
      * unfold left_behind. destruct uses_move; by rewrite ?length_map.
      * intros [] w2 Hw2. cbv beta in Hw2. simpl in Hw2.
        apply yields_bind. simpl. exists w2. split; [done|].
        eapply evolves_eq; [eapply evolves_trans; eauto|..]; try lia.
        destruct Hw1 as [-> _]. by rewrite insert_insert_eq.
    + intros w1 [[Hu Hw1]|(Hu & Hnt & extra & remaining & -> & Hrem & Hw1)];
        exists w1; (split; [done|]).
      * by left.
      * right. split; [done|]. split; [done|].
        exists lo, extra, remaining. simpl. do 3 (split; [done|]).
        eapply evolves_eq; [exact Hw1|..]; try done.
        unfold slots. simpl.
        by rewrite !length_app, !length_map.
  - assert (xs = []) as -> by (destruct xs; [done|simpl in *; lia]).
    simpl. rewrite UCOM_zero. simpl.
    eexists. split; [done|]. simpl in Hnew. rewrite insert_id by done. ev_solve.
Qed.

(** ** Allocation *)

Lemma RawMemory_ctor_yields n (w : world T) :
  n ≠ 0 → representable n →
  yields (RawMemory_ctor F n w)
    (fun r w1 => r = mkRaw (Some (fresh w)) n ∧
                 changed w w1 (<[fresh w := replicate n None]> (heap w)) 1 0 0 0 ∧
                 fits n)
    (fun w1 => changed w w1 (heap w) 0 0 0 0).
Proof.
  intros Hn Hrep. unfold RawMemory_ctor, bind, Allocate, operator_new.
  destruct (Nat.eqb_spec n 0) as [|_]; [done|].
  rewrite block_representable by done.
  destruct (N.ltb_spec PTRDIFF_MAX (byte_count n)) as [Hbig|Hsmall]; simpl.
  - unfold changed; simpl; repeat split; lia.
  - rewrite byte_count_representable in Hsmall by done.
    destruct (alloc_fails F (allocs w)); simpl; unfold changed; simpl;
      repeat split; try lia; done.
Qed.

Lemma RawMemory_ctor_zero (w : world T) :
  RawMemory_ctor F 0 w = Normal (mkRaw None 0) w.
Proof. done. Qed.

Lemma Deallocate_live l b (w : world T) :
  heap w !! l = Some b →
  Deallocate (Some l) w = Normal tt (set_heap (delete l (heap w)) w).
Proof. intros Hl. unfold Deallocate. by rewrite Hl. Qed.

Lemma wf_fresh (w : world T) : wf w → heap w !! fresh w = None.
Proof. intros Hwf. by apply Hwf. Qed.

Lemma repr_buffer_not_fresh (w : world T) v xs :
  wf w → repr w v xs → buffer_ (data_ v) ≠ Some (fresh w).
Proof.
  intros Hwf (_ & _ & Hb & _) Heq. rewrite Heq in Hb.
  rewrite wf_fresh in Hb by done. done.
Qed.

(** ** Buffers as segments *)

Lemma slots_snoc xs x cap :
  length xs < cap → <[length xs := Some x]> (slots xs cap) = slots (xs ++ [x]) cap.
Proof.
  intros Hlt. unfold slots.
  replace (cap - length xs) with (S (cap - length (xs ++ [x])))
    by (rewrite length_app; simpl; lia).
  simpl. rewrite insert_middle by (by rewrite length_map).
  by rewrite map_app, <- app_assoc.
Qed.

Lemma slots_full xs : slots xs (length xs) = map Some xs.
Proof. unfold slots. by rewrite Nat.sub_diag, app_nil_r. Qed.

Lemma replicate_insert_new n g (x : T) :
  n < g →
  <[n := Some x]> (replicate g None) =
  replicate n None ++ Some x :: replicate (g - S n) None.
Proof.
  intros Hlt. replace g with (n + S (g - S n)) at 1 by lia.
  rewrite replicate_add. simpl.
  by rewrite insert_middle by (by rewrite length_replicate).
Qed.

Lemma replicate_split n g :
  n ≤ g → replicate g (@None T) = replicate n None ++ replicate (g - n) None.
Proof. intros Hle. rewrite <- replicate_add. f_equal. lia. Qed.

Lemma slots_snoc_grown xs x g :
  length xs < g →
  map Some xs ++ Some x :: replicate (g - S (length xs)) None = slots (xs ++ [x]) g.
Proof.
  intros Hlt. unfold slots. rewrite map_app, <- app_assoc, length_app. simpl.
  do 3 f_equal. lia.
Qed.

Lemma grown_gt n : n < grown n.
Proof. unfold grown. destruct (Nat.eqb_spec n 0); lia. Qed.

(** The heap after a successful growth: the old buffer is gone. *)
Lemma released_vacated (h : heap_t) b n cap ln bn :
  b ≠ Some ln →
  released b (vacated b n cap (<[ln := bn]> h)) = <[ln := bn]> (released b h).
Proof.
  intros Hne. destruct b as [lo|]; simpl; [|done].
  assert (lo ≠ ln) by congruence.
  rewrite delete_insert_eq. by rewrite delete_insert_ne.
Qed.

Lemma released_fresh (h : heap_t) ln bn :
  h !! ln = None → released (Some ln) (<[ln := bn]> h) = h.
Proof. intros Hn. simpl. rewrite delete_insert_eq. by apply delete_id. Qed.

(** ** Failure of a growth *)

(** Nothing but the counters changed, and every object built was destroyed. *)
Definition unchanged (w w' : world T) : Prop :=
  ∃ k j, changed w w' (heap w) k j j 0.

(** A growth of [v] failed: the world is unchanged, or (only for an element
    type that is moved although its move constructor may throw) a prefix
    of the elements is left moved-from. *)
Definition growth_failed (v : Vector) (xs : list T) (w w' : world T) : Prop :=
  unchanged w w' ∨
  (uses_move = true ∧ is_nothrow_move_constructible = false ∧
   ∃ lo extra remaining k j,
     buffer_ (data_ v) = Some lo ∧ xs = extra ++ remaining ∧ remaining ≠ [] ∧
     changed w w'
       (<[lo := slots (map moved_from extra ++ remaining) (capacity_ (data_ v))]> (heap w))
       k j j 0).

Lemma Raw_plus_ok {St} r offset (s : St) :
  offset ≤ capacity_ r → Raw_plus r offset s = Normal (Ptr (buffer_ r) offset) s.
Proof.
  intros Hle. unfold Raw_plus, bind, assert.
  by destruct (Nat.leb_spec offset (capacity_ r)) as [_|]; [|lia].
Qed.

Lemma Raw_at_ok {St} r index (s : St) :
  index < capacity_ r → Raw_at r index s = Normal (Ptr (buffer_ r) index) s.
Proof.
  intros Hlt. unfold Raw_at, bind, assert.
  by destruct (Nat.ltb_spec index (capacity_ r)) as [_|]; [|lia].
Qed.

Lemma Deallocate_released b (w : world T) :
  match b with Some l => is_Some (heap w !! l) | None => True end →
  Deallocate b w = Normal tt (set_heap (released b (heap w)) w).
Proof.
  destruct b as [l|]; simpl.
  - intros [bl Hl]. by rewrite Hl.
  - intros _. by destruct w.
Qed.

Lemma repr_other_buffer (w w1 : world T) v xs ln bn :
  repr w v xs → buffer_ (data_ v) ≠ Some ln → heap w1 = <[ln := bn]> (heap w) →
  repr w1 v xs.
Proof.
  intros (Hn & Hc & Hb & Hfit) Hne Hh. split; [done|]. split; [done|].
  destruct (buffer_ (data_ v)) as [lo|]; [|done].
  rewrite Hh, lookup_insert_ne by congruence. done.
Qed.

(** A failed transfer, seen from before the new buffer was allocated and
    after it has been released again. *)
Lemma transfer_failed_released v xs (w w1 w2 : world T) ln bn k c d :
  wf w → repr w v xs → ln = fresh w →
  changed w w1 (<[ln := bn]> (heap w)) k c d 0 → c = d →
  transfer_failed v xs w1 w2 →
  ∃ w3, Deallocate (Some ln) w2 = Normal tt w3 ∧ growth_failed v xs w w3.
Proof.
  intros Hwf Hr -> Hw1 -> Hf.
  pose proof (repr_buffer_not_fresh w v xs Hwf Hr) as Hne.
  pose proof (wf_fresh w Hwf) as Hfr.
  destruct Hf as [[Hu [j Hw2]]|(Hu & Hnt & lo & extra & remaining & Hlo & Hxs & Hrem & Hw2)].
  - eexists. split.
    { eapply Deallocate_live. destruct Hw2 as [-> _]; destruct Hw1 as [-> _].
      apply lookup_insert_eq. }
    left. exists k, (d + j).
    unfold evolves, changed in *. simpl.
    destruct Hw2 as (-> & ? & ? & ? & ?), Hw1 as (-> & ? & ? & ? & ?).
    rewrite delete_insert_eq, delete_id by done.
    repeat split; lia.
  - assert (lo ≠ fresh w) by congruence.
    eexists. split.
    { eapply Deallocate_live. destruct Hw2 as [-> _]; destruct Hw1 as [-> _].
      rewrite lookup_insert_ne by done. apply lookup_insert_eq. }
    right. split; [done|]. split; [done|].
    exists lo, extra, remaining, k, (d + length extra).
    do 3 (split; [done|]).
    unfold evolves, changed in *. simpl.
    destruct Hw2 as (-> & ? & ? & ? & ?), Hw1 as (-> & ? & ? & ? & ?).
    rewrite delete_insert_ne, delete_insert_eq, delete_id by done.
    repeat split; lia.
Qed.

(** [Reserve] beyond the capacity. *)
Lemma Reserve_grows n v xs (w : world T) :
  wf w → repr w v xs → capacity_ (data_ v) < n → representable n →
  yields (Reserve F n (v, w))
    (fun _ s' => ∃ w',
       s' = (mkVector (mkRaw (Some (fresh w)) n) (size_ v), w') ∧
       changed w w' (<[fresh w := slots xs n]> (released (buffer_ (data_ v)) (heap w)))
         1 (length xs) (length xs) 0 ∧
       fits n)
    (fun s' => ∃ w', s' = (v, w') ∧ growth_failed v xs w w').
Proof.
  intros Hwf Hr Hlt Hrep.
  pose proof (repr_buffer_not_fresh w v xs Hwf Hr) as Hne.
  pose proof Hr as (Hn & Hc & Hb & Hfit).
  unfold Reserve. apply yields_bind. simpl.
  destruct (Nat.leb_spec n (capacity_ (data_ v))) as [|_]; [lia|].
  apply yields_scope, yields_outer.
  eapply yields_mono; [apply RawMemory_ctor_yields; [lia|done]|..].
  - intros r w1 (-> & Hw1 & Hfn). simpl.
    eapply yields_mono;
      [eapply (MakeNewData_yields v xs w1 (fresh w) n (replicate (n - length xs) None))|..].
    + eapply repr_other_buffer; eauto. by destruct Hw1.
    + done.
    + destruct Hw1 as [-> _]. rewrite lookup_insert_eq. f_equal.
      apply replicate_split. lia.
    + intros [] s' (w2 & -> & Hw2). simpl.
      unfold RawMemory_dtor, outer.
      rewrite Deallocate_released.
      2:{ destruct Hw2 as [-> _]. destruct (buffer_ (data_ v)); simpl; [|done].
          rewrite lookup_insert_eq. eauto. }
      simpl. eexists. split; [done|]. split; [|done].
      unfold evolves, changed in *. simpl.
      destruct Hw2 as (-> & ? & ? & ? & ?), Hw1 as (-> & ? & ? & ? & ?).
      rewrite insert_insert_eq, released_vacated by done.
      repeat split; lia.
    + intros s' (w2 & -> & Hw2). cbn [fst snd].
      destruct (transfer_failed_released v xs w w1 w2 (fresh w) (replicate n None) 1 0 0)
        as (w3 & Hd & Hg); eauto.
      unfold RawMemory_dtor, outer. cbn [buffer_]. rewrite Hd.
      simpl. eauto.
  - intros w1 Hw1. simpl. exists w1. split; [done|].
    left. exists 0, 0. done.
Qed.

(** The same when the new element, already built in the new buffer, had to
    be destroyed before the buffer was released. *)
Lemma transfer_failed_destroyed v xs (w w1 w2 w3 : world T) ln bn bn' k c d e :
  wf w → repr w v xs → ln = fresh w →
  changed w w1 (<[ln := bn]> (heap w)) k c d 0 →
  transfer_failed v xs w1 w2 →
  changed w2 w3 (<[ln := bn']> (heap w2)) 0 0 e 0 → c = d + e →
  ∃ w4, Deallocate (Some ln) w3 = Normal tt w4 ∧ growth_failed v xs w w4.
Proof.
  intros Hwf Hr -> Hw1 Hf Hw3 ->.
  pose proof (repr_buffer_not_fresh w v xs Hwf Hr) as Hne.
  pose proof (wf_fresh w Hwf) as Hfr.
  eexists. split.
  { eapply Deallocate_live. destruct Hw3 as [-> _]. apply lookup_insert_eq. }
  destruct Hf as [[Hu [j Hw2]]|(Hu & Hnt & lo & extra & remaining & Hlo & Hxs & Hrem & Hw2)].
  - left. exists k, (d + e + j).
    unfold evolves, changed in *. simpl.
    destruct Hw3 as (-> & ? & ? & ? & ?), Hw2 as (-> & ? & ? & ? & ?),
             Hw1 as (-> & ? & ? & ? & ?).
    rewrite delete_insert_eq, delete_insert_eq, delete_id by done.
    repeat split; lia.
  - assert (lo ≠ fresh w) by congruence.
    right. split; [done|]. split; [done|].
    exists lo, extra, remaining, k, (d + e + length extra).
    do 3 (split; [done|]).
    unfold evolves, changed in *. simpl.
    destruct Hw3 as (-> & ? & ? & ? & ?), Hw2 as (-> & ? & ? & ? & ?),
             Hw1 as (-> & ? & ? & ? & ?).
    rewrite delete_insert_eq, delete_insert_ne, delete_insert_eq, delete_id by done.
    repeat split; lia.
Qed.

Lemma transfer_failed_lookup_new v xs (w w1 w2 : world T) ln bn :
  buffer_ (data_ v) ≠ Some ln →
  heap w1 !! ln = Some bn → transfer_failed v xs w1 w2 →
  heap w2 !! ln = Some bn.
Proof.
  intros Hne Hl [[_ [j Hw2]]|(_ & _ & lo & ? & ? & Hlo & _ & _ & Hw2)];
    destruct Hw2 as [-> _]; [done|].
  rewrite lookup_insert_ne by congruence. done.
Qed.

Lemma repr_buffer_some (w : world T) v xs :
  repr w v xs → size_ v < capacity_ (data_ v) →
  ∃ lo, buffer_ (data_ v) = Some lo ∧ heap w !! lo = Some (slots xs (capacity_ (data_ v))).
Proof.
  intros (Hn & Hc & Hb & Hfit) Hlt. destruct (buffer_ (data_ v)) as [lo|]; [eauto|lia].
Qed.

(** What [PushBack] and [EmplaceBack] do before they increment [size_]. *)
Lemma append_body_yields a v xs (w : world T) :
  wf w → repr w v xs →
  yields (append_body F a (v, w))
    (fun _ s' => ∃ v' w', s' = (v', w') ∧
       ((size_ v < capacity_ (data_ v) ∧ v' = v ∧
         ∃ lo, buffer_ (data_ v) = Some lo ∧
           changed w w' (<[lo := slots (xs ++ [init_value a]) (capacity_ (data_ v))]> (heap w))
             0 1 0 0)
        ∨
        (size_ v = capacity_ (data_ v) ∧
         v' = mkVector (mkRaw (Some (fresh w)) (grown (size_ v))) (size_ v) ∧
         changed w w'
           (<[fresh w := slots (xs ++ [init_value a]) (grown (size_ v))]>
              (released (buffer_ (data_ v)) (heap w)))
           1 (S (length xs)) (length xs) 0 ∧
         fits (grown (size_ v)))))
    (fun s' => ∃ w', s' = (v, w') ∧ growth_failed v xs w w').
Proof.
  intros Hwf Hr.
  pose proof (repr_buffer_not_fresh w v xs Hwf Hr) as Hne.
  pose proof Hr as (Hn & Hc & Hb & Hfit).
  unfold append_body. apply yields_bind. simpl.
  destruct (Nat.eqb_spec (size_ v) (capacity_ (data_ v))) as [Heq|Hneq]; simpl.
  - (* the array is full *)
    pose proof (grown_gt (size_ v)) as Hg.
    apply yields_scope, yields_outer.
    eapply yields_mono;
      [apply RawMemory_ctor_yields; [lia|apply fits_grown; by rewrite Heq]|..].
    + intros r w1 (-> & Hw1 & Hfg). cbv beta.
      apply yields_bind. simpl.
      apply yields_bind. rewrite Raw_plus_ok by (simpl; lia). simpl.
      apply yields_bind, yields_outer, yields_outer.
      eapply yields_mono;
        [eapply (construct_at_yields (fresh w) (size_ v) (replicate (grown (size_ v)) None))|..].
      * destruct Hw1 as [-> _]. apply lookup_insert_eq.
      * by rewrite length_replicate.
      * intros [] w2 Hw2. cbv beta in Hw2.
        rewrite replicate_insert_new in Hw2 by done.
        assert (Hl2 : heap w2 !! fresh w =
                  Some (replicate (length xs) None ++
                        Some (init_value a) :: replicate (grown (size_ v) - S (size_ v)) None)).
        { destruct Hw2 as [-> _]. rewrite lookup_insert_eq. by rewrite Hn. }
        apply yields_try_catch.
        eapply yields_mono;
          [eapply (MakeNewData_yields v xs w2 (fresh w)); eauto|..].
        -- eapply repr_other_buffer; [| |by destruct Hw2]; [|done].
           eapply repr_other_buffer; eauto. by destruct Hw1.
        -- intros [] s' (w3 & -> & Hw3). cbn [fst snd].
           unfold RawMemory_dtor, outer.
           rewrite Deallocate_released.
           2:{ destruct Hw3 as [-> _]. destruct (buffer_ (data_ v)); simpl; [|done].
               rewrite lookup_insert_eq. eauto. }
           simpl. eexists _, _. split; [done|]. right.
           split; [done|]. split; [done|]. split; [|done].
           unfold evolves, changed in *. simpl.
           destruct Hw3 as (-> & ? & ? & ? & ?), Hw2 as (-> & ? & ? & ? & ?),
                    Hw1 as (-> & ? & ? & ? & ?).
           rewrite !insert_insert_eq, released_vacated by done.
           rewrite Hn in Hg |- *. rewrite slots_snoc_grown by lia.
           repeat split; lia.
        -- intros s' (w3 & -> & Hw3).
           pose proof (transfer_failed_lookup_new v xs w w2 w3 _ _ Hne Hl2 Hw3) as Hl3.
           apply yields_outer, yields_outer.
           eapply yields_mono;
             [eapply (destroy_at_yields (fresh w) (size_ v) _ (init_value a)); eauto|..].
           ++ apply list_lookup_middle. by rewrite length_replicate.
           ++ intros [] w4 Hw4. cbv beta in Hw4. cbn [fst snd].
              destruct (transfer_failed_destroyed v xs w w2 w3 w4 (fresh w)
                          (replicate (length xs) None ++
                           Some (init_value a) :: replicate (grown (size_ v) - S (size_ v)) None)
                          (<[size_ v := None]>
                             (replicate (length xs) None ++
                              Some (init_value a) :: replicate (grown (size_ v) - S (size_ v)) None))
                          1 1 0 1)
                as (w5 & Hd & Hgf); eauto.
              { unfold evolves, changed in *. simpl.
                destruct Hw2 as (-> & ? & ? & ? & ?), Hw1 as (-> & ? & ? & ? & ?).
                rewrite insert_insert_eq, Hn. repeat split; lia. }
              unfold RawMemory_dtor, outer. cbn [buffer_]. rewrite Hd.
              simpl. eauto.
           ++ intros ? [].
      * intros w2 Hw2. cbn [fst snd].
        unfold RawMemory_dtor, outer. cbn [buffer_].
        erewrite Deallocate_live
          by (destruct Hw2 as [-> _]; destruct Hw1 as [-> _]; apply lookup_insert_eq).
        simpl. eexists. split; [done|]. left. exists 1, 0.
        unfold evolves, changed in *. simpl.
        destruct Hw2 as (-> & ? & ? & ? & ?), Hw1 as (-> & ? & ? & ? & ?).
        rewrite delete_insert_eq, delete_id by (by apply wf_fresh).
        repeat split; lia.
    + intros w1 Hw1. simpl. exists w1. split; [done|]. left. by exists 0, 0.
  - (* there is room *)
    assert (Hlt : size_ v < capacity_ (data_ v)) by lia.
    destruct (repr_buffer_some w v xs Hr Hlt) as (lo & Hlo & Hheap).
    apply yields_bind. rewrite Raw_plus_ok by lia. simpl.
    apply yields_outer. rewrite Hlo.
    eapply yields_mono; [eapply construct_at_yields; eauto|..].
    + rewrite slots_length; lia.
    + intros [] w1 Hw1. cbv beta in Hw1. eexists _, _. split; [done|]. left.
      split; [done|]. split; [done|]. exists lo. split; [done|].
      rewrite Hn, slots_snoc in Hw1 by lia. exact Hw1.
    + intros w1 Hw1. exists w1. split; [done|]. left. by exists 0, 0.
Qed.

(** ** Appending *)

Lemma wf_changed_same (w w' : world T) k c d a :
  wf w → changed w w' (heap w) k c d a → wf w'.
Proof.
  intros Hwf (Hh & Hf & _) l Hl. rewrite Hh. apply Hwf. lia.
Qed.

Lemma wf_changed_update (w w' : world T) lo b b' c d a :
  wf w → heap w !! lo = Some b → changed w w' (<[lo := b']> (heap w)) 0 c d a → wf w'.
Proof.
  intros Hwf Hlo (Hh & Hf & _) l Hl. rewrite Hh.
  assert (heap w !! l = None) as Hnone by (apply Hwf; lia).
  rewrite lookup_insert_ne; [done|]. intros Heq. rewrite Heq, Hnone in Hlo. done.
Qed.

Lemma wf_changed_grown (w w' : world T) bo bn c d a :
  wf w → changed w w' (<[fresh w := bn]> (released bo (heap w))) 1 c d a → wf w'.
Proof.
  intros Hwf (Hh & Hf & _) l Hl. rewrite Hh.
  rewrite lookup_insert_ne by lia.
  assert (heap w !! l = None) as Hnone by (apply Hwf; lia).
  destruct bo as [lo|]; simpl; [|done].
  destruct (decide (lo = l)) as [->|]; [apply lookup_delete_eq|].
  by rewrite lookup_delete_ne.
Qed.

Lemma wf_growth_failed v xs (w w' : world T) :
  wf w → repr w v xs → growth_failed v xs w w' → wf w'.
Proof.
  intros Hwf (_ & _ & Hb & _) [(k & j & Hw')|(_ & _ & lo & ? & ? & k & j & Hlo & _ & _ & Hw')].
  - eapply wf_changed_same; eauto.
  - rewrite Hlo in Hb. destruct Hw' as (Hh & Hf & _). intros l Hl. rewrite Hh.
    assert (heap w !! l = None) as Hnone by (apply Hwf; lia).
    rewrite lookup_insert_ne; [done|]. intros Heq. rewrite Heq, Hnone in Hb. done.
Qed.

(** What a successful append leaves: the array [v'] in the world [w']. *)
Definition appended (a : init T) (v : Vector) (xs : list T) (w : world T)
    (v' : Vector) (w' : world T) : Prop :=
  repr w' v' (xs ++ [init_value a]) ∧ wf w' ∧
  ((size_ v < capacity_ (data_ v) ∧ data_ v' = data_ v ∧ fresh w' = fresh w ∧
    constructed w' = constructed w + 1 ∧ destroyed w' = destroyed w)
   ∨
   (size_ v = capacity_ (data_ v) ∧
    data_ v' = mkRaw (Some (fresh w)) (grown (size_ v)) ∧ fresh w' = fresh w + 1 ∧
    constructed w' = constructed w + S (length xs) ∧
    destroyed w' = destroyed w + length xs)).

Lemma append_then_increment a v xs (w : world T) v1 w1 :
  wf w → repr w v xs →
  ((size_ v < capacity_ (data_ v) ∧ v1 = v ∧
    ∃ lo, buffer_ (data_ v) = Some lo ∧
      changed w w1 (<[lo := slots (xs ++ [init_value a]) (capacity_ (data_ v))]> (heap w))
        0 1 0 0)
   ∨
   (size_ v = capacity_ (data_ v) ∧
    v1 = mkVector (mkRaw (Some (fresh w)) (grown (size_ v))) (size_ v) ∧
    changed w w1
      (<[fresh w := slots (xs ++ [init_value a]) (grown (size_ v))]>
         (released (buffer_ (data_ v)) (heap w)))
      1 (S (length xs)) (length xs) 0 ∧
    fits (grown (size_ v)))) →
  size_ v1 = size_ v ∧
  appended a v xs w (mkVector (data_ v1) (S (size_ v1))) w1.
Proof.
  intros Hwf Hr Hcase. pose proof Hr as (Hn & Hc & Hb & Hfit).
  destruct Hcase as [(Hlt & -> & lo & Hlo & Hw1)|(Heq & -> & Hw1 & Hfg)].
  - split; [done|]. rewrite Hlo in Hb. split; [|split].
    + split; [simpl; rewrite length_app; simpl; lia|].
      split; [simpl; rewrite length_app; simpl; lia|]. split; [|done].
      simpl. rewrite Hlo. destruct Hw1 as [-> _]. apply lookup_insert_eq.
    + eapply wf_changed_update; eauto.
    + left. unfold changed in Hw1. simpl. intuition lia.
  - split; [done|]. pose proof (grown_gt (size_ v)). split; [|split].
    + split; [simpl; rewrite length_app; simpl; lia|].
      split; [simpl; rewrite length_app; simpl; lia|]. split; [|done].
      simpl. destruct Hw1 as [-> _]. apply lookup_insert_eq.
    + eapply wf_changed_grown; eauto.
    + right. unfold changed in Hw1. simpl. intuition lia.
Qed.

Lemma PushBack_yields a v xs (w : world T) :
  wf w → repr w v xs →
  yields (PushBack F a (v, w))
    (fun _ s' => ∃ v' w', s' = (v', w') ∧ appended a v xs w v' w')
    (fun s' => ∃ w', s' = (v, w') ∧ growth_failed v xs w w').
Proof.
  intros Hwf Hr. unfold PushBack. apply yields_bind.
  eapply yields_mono; [by apply append_body_yields|..]; [|done].
  intros [] s' (v1 & w1 & -> & Hcase). simpl.
  destruct (append_then_increment a v xs w v1 w1 Hwf Hr Hcase) as [_ Happ].
  eauto.
Qed.

Lemma EmplaceBack_yields a v xs (w : world T) :
  wf w → repr w v xs →
  yields (EmplaceBack F a (v, w))
    (fun p s' => ∃ v' w', s' = (v', w') ∧ appended a v xs w v' w' ∧
                          p = Ptr (buffer_ (data_ v')) (size_ v))
    (fun s' => ∃ w', s' = (v, w') ∧ growth_failed v xs w w').
Proof.
  intros Hwf Hr. unfold EmplaceBack. apply yields_bind.
  eapply yields_mono; [by apply append_body_yields|..]; [|done].
  intros [] s' (v1 & w1 & -> & Hcase).
  destruct (append_then_increment a v xs w v1 w1 Hwf Hr Hcase) as [Hs Happ].
  apply yields_bind. simpl. apply yields_bind. simpl.
  rewrite Raw_at_ok.
  - simpl. eexists _, _. split; [done|]. split; [done|]. simpl. by rewrite Hs.
  - destruct Happ as ((Hn' & Hc' & _) & _). simpl in *.
    rewrite length_app in Hc'. simpl in Hc'.
    destruct Hr as (Hn & _). lia.
Qed.

(** ** Constructors *)

(** What a constructor that allocates for [n] elements and fills the buffer
    with [xs] leaves. *)
Definition constructed_with (xs : list T) (w : world T) (v' : Vector) (w' : world T) : Prop :=
  (xs = [] ∧ v' = mkVector (mkRaw None 0) 0 ∧ changed w w' (heap w) 0 0 0 0) ∨
  (xs ≠ [] ∧ v' = mkVector (mkRaw (Some (fresh w)) (length xs)) (length xs) ∧
   changed w w' (<[fresh w := map Some xs]> (heap w)) 1 (length xs) 0 0 ∧
   fits (length xs)).

Lemma constructed_with_repr xs (w : world T) v' w' :
  wf w → constructed_with xs w v' w' →
  repr w' v' xs ∧ wf w' ∧ Size v' = length xs ∧ Capacity v' = length xs.
Proof.
  intros Hwf [(-> & -> & Hw')|(Hne & -> & Hw' & Hfit)].
  - split; [|split; [|done]]; [|eapply wf_changed_same; eauto].
    split; [done|]. split; [done|]. split; [done|apply fits_zero].
  - split; [|split; [|done]].
    + split; [done|]. split; [done|]. split; [|done]. simpl.
      destruct Hw' as [-> _]. by rewrite lookup_insert_eq, slots_full.
    + eapply (wf_changed_grown w w' None); eauto.
Qed.

Lemma Vector_copy_yields other ys (w : world T) :
  wf w → repr w other ys →
  yields (Vector_copy F other w)
    (fun v' w' => constructed_with ys w v' w')
    (fun w' => unchanged w w').
Proof.
  intros Hwf Hr. pose proof Hr as (Hn & Hc & Hb & Hfit).
  pose proof (repr_buffer_not_fresh w other ys Hwf Hr) as Hne.
  unfold Vector_copy. rewrite Hn.
  destruct ys as [|y ys'] eqn:Hys; [|rewrite <- Hys in *].
  - simpl. left. repeat split; lia.
  - assert (Hnil : ys ≠ []) by (by rewrite Hys).
    assert (Hpos : 0 < length ys) by (rewrite Hys; simpl; lia).
    destruct (buffer_ (data_ other)) as [lo|] eqn:Hlo; [|lia].
    assert (Hfys : fits (length ys)) by (by apply (fits_le _ (capacity_ (data_ other)))).
    apply yields_bind.
    eapply yields_mono;
      [apply RawMemory_ctor_yields; [lia|by apply fits_representable]|..].
    + intros r w1 (-> & Hw1 & _). cbv beta.
      apply yields_bind, yields_try_catch.
      unfold uninitialized_copy_n, GetAddress. rewrite Hlo. cbn [buffer_].
      eapply yields_mono;
        [eapply (uninit_copy_loop_yields lo (fresh w) (slots ys (capacity_ (data_ other)))
                   0 [] [] ys [] w1)|..].
      * congruence.
      * destruct Hw1 as [-> _]. rewrite lookup_insert_ne by congruence. done.
      * apply (live_at_middle [] ys).
      * destruct Hw1 as [-> _]. rewrite lookup_insert_eq. simpl. by rewrite app_nil_r.
      * intros [] w2 Hw2. simpl in Hw2. rewrite app_nil_r in Hw2. simpl.
        right. split; [done|]. split; [done|]. split; [|done].
        eapply changed_eq; [eapply changed_trans; eauto|..]; try done.
        destruct Hw1 as [-> _]. by rewrite insert_insert_eq.
      * intros w2 [j Hw2]. simpl in Hw2. rewrite app_nil_r in Hw2.
        unfold RawMemory_dtor. cbn [buffer_].
        erewrite Deallocate_live by (destruct Hw2 as [-> _]; apply lookup_insert_eq).
        simpl. exists 1, j.
        unfold evolves, changed in *. simpl.
        destruct Hw2 as (-> & ? & ? & ? & ?), Hw1 as (-> & ? & ? & ? & ?).
        rewrite insert_insert_eq, delete_insert_eq, delete_id by (by apply wf_fresh).
        repeat split; lia.
    + intros w1 Hw1. by exists 0, 0.
Qed.

Lemma Vector_sized_yields n (w : world T) :
  wf w → representable n →
  yields (Vector_sized F n w)
    (fun v' w' => constructed_with (replicate n value_init) w v' w')
    (fun w' => unchanged w w').
Proof.
  intros Hwf Hrep. unfold Vector_sized.
  destruct n as [|n'] eqn:Hn'; [|rewrite <- Hn' in *].
  - simpl. left. repeat split; lia.
  - assert (Hpos : n ≠ 0) by lia.
    apply yields_bind.
    eapply yields_mono; [by apply RawMemory_ctor_yields|..].
    + intros r w1 (-> & Hw1 & Hfn). cbv beta.
      apply yields_bind, yields_try_catch.
      unfold uninitialized_value_construct_n, GetAddress. cbn [buffer_].
      eapply yields_mono;
        [eapply (uninit_value_loop_yields (fresh w) _ [] [] n 0 w1)|..].
      * destruct Hw1 as [-> _]. rewrite lookup_insert_eq. simpl. by rewrite app_nil_r.
      * intros [] w2 Hw2. simpl in Hw2. rewrite app_nil_r in Hw2. simpl.
        right. split; [destruct n; [done|discriminate]|].
        rewrite length_replicate. split; [done|]. split; [|done].
        eapply changed_eq; [eapply changed_trans; eauto|..]; try done.
        destruct Hw1 as [-> _]. by rewrite insert_insert_eq, fmap_replicate.
      * intros w2 [j Hw2]. simpl in Hw2. rewrite app_nil_r in Hw2.
        unfold RawMemory_dtor. cbn [buffer_].
        erewrite Deallocate_live by (destruct Hw2 as [-> _]; apply lookup_insert_eq).
        simpl. exists 1, j.
        unfold evolves, changed in *. simpl.
        destruct Hw2 as (-> & ? & ? & ? & ?), Hw1 as (-> & ? & ? & ? & ?).
        rewrite insert_insert_eq, delete_insert_eq, delete_id by (by apply wf_fresh).
        repeat split; lia.
    + intros w1 Hw1. by exists 0, 0.
Qed.


(** ** Destruction and copy assignment *)

Lemma Vector_dtor_yields v xs (w : world T) :
  repr w v xs →
  yields (Vector_dtor v w)
    (fun _ w' => changed w w' (released (buffer_ (data_ v)) (heap w)) 0 0 (length xs) 0)
    (fun _ => False).
Proof.
  intros (Hn & Hc & Hb & Hfit). unfold Vector_dtor, GetAddress, RawMemory_dtor.
  rewrite Hn. destruct (buffer_ (data_ v)) as [lo|].
  - apply yields_bind.
    eapply yields_mono;
      [eapply (destroy_n_run lo xs [] (replicate (capacity_ (data_ v) - length xs) None))|..];
      try done.
    intros [] w1 Hw1. cbv beta in Hw1.
    erewrite Deallocate_live by (destruct Hw1 as [-> _]; apply lookup_insert_eq).
    simpl. unfold evolves, changed in *. simpl.
    destruct Hw1 as (-> & ? & ? & ? & ?).
    rewrite delete_insert_eq. repeat split; lia.
  - assert (xs = []) as -> by (destruct xs; [done|simpl in *; lia]).
    simpl. unfold changed. repeat split; lia.
Qed.

(** The element-wise copy assignment over the common prefix. *)
Lemma assign_loop_yields lo lo_o bo (vd vo : RawMemory) back (st : Vector) :
  ∀ yr xr a (w : world T),
  length xr = length yr → lo ≠ lo_o →
  buffer_ vd = Some lo → buffer_ vo = Some lo_o →
  length a + length yr ≤ capacity_ vd → length a + length yr ≤ capacity_ vo →
  heap w !! lo_o = Some bo → live_at bo 0 (a ++ yr) →
  heap w !! lo = Some (map Some a ++ map Some xr ++ back) →
  yields (for_loop (length a) (length yr)
            (fun i => p <- Raw_at vd i ;; q <- Raw_at vo i ;; outer (copy_assign F p q))
            (st, w))
    (fun _ s' => ∃ w', s' = (st, w') ∧
       evolves w w' (<[lo := map Some (a ++ yr) ++ back]> (heap w)) 0 0 (length yr))
    (fun s' => ∃ w' zs j, s' = (st, w') ∧ length zs = length a + length xr ∧
       evolves w w' (<[lo := map Some zs ++ back]> (heap w)) 0 0 j).
Proof.
  induction yr as [|y yr IH]; intros xr a w Hlen Hne Hvd Hvo Hcd Hco Ho Hlive Hd.
  - destruct xr; [|done]. simpl in *. rewrite app_nil_r.
    exists w. split; [done|]. rewrite insert_id by done. ev_solve.
  - destruct xr as [|x xr]; [done|]. simpl in Hlen, Hcd, Hco, Hd.
    cbn [for_loop length]. apply yields_bind.
    apply yields_bind. rewrite Raw_at_ok by lia. cbn [yields].
    apply yields_bind. rewrite Raw_at_ok by lia. cbn [yields].
    apply yields_outer. rewrite Hvd, Hvo.
    eapply yields_mono;
      [eapply (copy_assign_yields lo (length a) _ x lo_o (length a) bo y); eauto|..].
    + apply (Hlive (length a) y). by apply list_lookup_middle.
    + apply list_lookup_middle. by rewrite length_map.
    + intros [] w1 Hw1. cbv beta in Hw1.
      rewrite insert_middle in Hw1 by (by rewrite length_map).
      assert (Hl1 : length (a ++ [y]) = S (length a))
        by (rewrite length_app; simpl; lia).
      rewrite <- Hl1.
      eapply yields_mono; [eapply (IH xr (a ++ [y]) w1)|..]; eauto; try lia.
      * destruct Hw1 as [-> _]. by rewrite lookup_insert_ne.
      * by rewrite <- app_assoc.
      * destruct Hw1 as [-> _]. rewrite lookup_insert_eq.
        by rewrite map_app, <- app_assoc.
      * intros [] s' (w2 & -> & Hw2). exists w2. split; [done|].
        eapply evolves_eq; [eapply evolves_trans; eauto|..]; try done.
        destruct Hw1 as [-> _]. rewrite insert_insert_eq.
        by rewrite <- app_assoc.
      * intros s' (w2 & zs & j & -> & Hzs & Hw2). exists w2, zs, (1 + j).
        split; [done|]. split; [simpl; lia|].
        eapply evolves_eq; [eapply evolves_trans; eauto|..]; try done.
        destruct Hw1 as [-> _]. by rewrite insert_insert_eq.
    + intros w1 Hw1. exists w1, (a ++ x :: xr), 0. split; [done|].
      split; [by rewrite length_app|].
      eapply evolves_eq; [exact Hw1|..]; try done.
      symmetry. apply insert_id. by rewrite map_app, <- app_assoc.
Qed.


Definition disjoint (v other : Vector) : Prop :=
  ∀ l, buffer_ (data_ v) = Some l → buffer_ (data_ other) ≠ Some l.

Lemma released_insert_fresh (h : heap_t) b l x :
  b ≠ Some l → released b (<[l := x]> h) = <[l := x]> (released b h).
Proof.
  intros Hne. destruct b as [lo|]; simpl; [|done].
  rewrite delete_insert_ne; [done|congruence].
Qed.

Lemma repr_released (w w' : world T) v other ys :
  repr w other ys → disjoint v other →
  heap w' = released (buffer_ (data_ v)) (heap w) →
  repr w' other ys.
Proof.
  intros (Hn & Hc & Hb & Hfit) Hdis Hh. split; [done|]. split; [done|].
  destruct (buffer_ (data_ other)) as [lo_o|] eqn:Hlo; [|done].
  rewrite Hh. destruct (buffer_ (data_ v)) as [lo|] eqn:Hv; simpl; [|done].
  rewrite lookup_delete_ne; [done|]. intros ->. by eapply Hdis.
Qed.

(** Copy assignment from a larger source: the array is rebuilt. *)
Lemma assign_copy_rebuild v xs other ys (w : world T) :
  wf w → repr w v xs → repr w other ys → disjoint v other →
  capacity_ (data_ v) < length ys →
  yields (assign_copy F (Other other) (v, w))
    (fun _ s' => ∃ w',
       s' = (mkVector (mkRaw (Some (fresh w)) (length ys)) (length ys), w') ∧
       changed w w' (<[fresh w := map Some ys]> (released (buffer_ (data_ v)) (heap w)))
         1 (length ys) (length xs) 0)
    (fun s' => ∃ w', s' = (v, w') ∧ unchanged w w').
Proof.
  intros Hwf Hr Ho Hdis Hlt.
  pose proof (repr_buffer_not_fresh w v xs Hwf Hr) as Hne.
  pose proof Ho as (Hno & Hco & Hbo & Hfito).
  unfold assign_copy. apply yields_bind. simpl. unfold Capacity. rewrite Hno.
  destruct (Nat.ltb_spec (capacity_ (data_ v)) (length ys)) as [_|]; [|lia].
  apply yields_scope, yields_outer.
  eapply yields_mono; [by apply Vector_copy_yields|..].
  - intros vc w1 [(-> & _)|(Hnil & -> & Hw1 & _)]; [simpl in Hlt; lia|].
    simpl.
    assert (Hr1 : repr w1 v xs)
      by (eapply repr_other_buffer; [exact Hr|exact Hne|by destruct Hw1]).
    unfold outer.
    pose proof (Vector_dtor_yields v xs w1 Hr1) as Hd.
    destruct (Vector_dtor v w1) as [[] w2|w2|]; simpl in Hd; [|done..].
    simpl. exists w2. split; [done|].
    unfold changed in *.
    destruct Hd as (-> & ? & ? & ? & ?), Hw1 as (-> & ? & ? & ? & ?).
    rewrite released_insert_fresh by done. repeat split; lia.
  - intros w1 Hw1. simpl. eauto.
Qed.


(** [uninitialized_copy_n] between two buffers. *)
Lemma uninit_copy_run ls ld bs os od front back rest n (w : world T) :
  ls ≠ ld → heap w !! ls = Some bs → live_at bs os rest →
  heap w !! ld = Some (front ++ replicate n None ++ back) →
  od = length front → n = length rest →
  yields (uninitialized_copy_n F (Ptr (Some ls) os) n (Ptr (Some ld) od) w)
    (fun _ w' => evolves w w' (<[ld := front ++ map Some rest ++ back]> (heap w)) n 0 0)
    (fun w' => ∃ j, evolves w w' (heap w) j j 0).
Proof.
  intros Hne Hs Hlive Hd -> ->. unfold uninitialized_copy_n.
  eapply yields_mono;
    [eapply (uninit_copy_loop_yields ls ld bs os front back rest [] w)|..]; eauto.
  intros w' [j Hw']. exists j. simpl in Hw'.
  eapply evolves_eq; [exact Hw'|..]; try done. by rewrite insert_id.
Qed.


(** The heap with the buffer [b] (if any) replaced. *)
Definition updated (b : option loc) (x : list (option T)) (h : heap_t) : heap_t :=
  match b with Some l => <[l := x]> h | None => h end.

Lemma slots_destroy_tail ys n cap (back : list (option T)) :
  length ys + n ≤ cap → back = replicate (cap - (length ys + n)) None →
  map Some ys ++ replicate n None ++ back = slots ys cap.
Proof.
  intros Hle ->. unfold slots. rewrite <- replicate_add. do 2 f_equal. lia.
Qed.

(** Copy assignment from a source that fits: the storage is reused. *)
Lemma assign_copy_reuse v xs other ys (w : world T) :
  wf w → repr w v xs → repr w other ys → disjoint v other →
  length ys ≤ capacity_ (data_ v) →
  yields (assign_copy F (Other other) (v, w))
    (fun _ s' => ∃ w',
       s' = (mkVector (data_ v) (length ys), w') ∧
       changed w w' (updated (buffer_ (data_ v)) (slots ys (capacity_ (data_ v))) (heap w))
         0 (length ys - length xs) (length xs - length ys)
         (Nat.min (length xs) (length ys)))
    (fun s' => ∃ w' zs j a,
       s' = (v, w') ∧ length zs = length xs ∧
       changed w w' (updated (buffer_ (data_ v)) (slots zs (capacity_ (data_ v))) (heap w))
         0 j j a).
Proof.
  intros Hwf Hr Ho Hdis Hle.
  pose proof Hr as (Hn & Hc & Hb & Hfit). pose proof Ho as (Hno & Hco & Hbo & Hfito).
  unfold assign_copy. apply yields_bind. cbn [this local yields]. unfold Capacity.
  rewrite Hno, Hn.
  destruct (Nat.ltb_spec (capacity_ (data_ v)) (length ys)) as [|_]; [lia|].
  destruct (buffer_ (data_ v)) as [lo|] eqn:Hlo.
  2:{ (* no buffer: both arrays are empty *)
    assert (ys = []) as -> by (destruct ys; [done|simpl in *; lia]).
    assert (xs = []) as -> by (destruct xs; [done|simpl in *; lia]).
    simpl length. cbn [Nat.min for_loop Nat.leb Nat.sub].
    apply yields_bind. cbn [ret yields].
    apply yields_bind. apply yields_bind. rewrite Raw_plus_ok by lia. cbn [yields].
    apply yields_outer. simpl.
    exists w. split; [done|]. unfold changed. repeat split; lia. }
  destruct (decide (ys = [])) as [->|Hnil].
  { (* empty source: every element is destroyed *)
    simpl length. rewrite Nat.min_0_r. cbn [for_loop]. apply yields_bind. cbn [ret yields].
    apply yields_bind. cbn [Nat.leb].
    apply yields_bind. rewrite Raw_plus_ok by lia. cbn [yields].
    apply yields_outer. rewrite Hlo, Nat.sub_0_r.
    eapply yields_mono;
      [eapply (destroy_n_run lo xs [] (replicate (capacity_ (data_ v) - length xs) None))|..];
      try done.
    intros [] w1 Hw1. cbv beta in Hw1. simpl.
    exists w1. split; [done|]. simpl in Hw1.
    eapply changed_eq; [exact Hw1|..]; try lia.
    f_equal. rewrite <- replicate_add. unfold slots. simpl. f_equal. lia. }
  (* the source has elements, hence a buffer *)
  assert (Hposy : 0 < length ys) by (destruct ys; [done|simpl; lia]).
  destruct (buffer_ (data_ other)) as [lo_o|] eqn:Hloo; [|lia].
  assert (Hne : lo ≠ lo_o) by (intros ->; by eapply Hdis).
  destruct (Nat.le_gt_cases (length ys) (length xs)) as [Hyx|Hxy].
  - (* the array is at least as long as the source *)
    rewrite Nat.min_r by done.
    pose proof (take_drop (length ys) xs) as Hsplit.
    assert (Hl1 : length (take (length ys) xs) = length ys)
      by (rewrite length_take; lia).
    assert (Hl2 : length (drop (length ys) xs) = length xs - length ys)
      by (by rewrite length_drop).
    apply yields_bind.
    eapply yields_mono;
      [eapply (assign_loop_yields lo lo_o _ (data_ v) (data_ other)
                 (map Some (drop (length ys) xs) ++
                  replicate (capacity_ (data_ v) - length xs) None)
                 v ys (take (length ys) xs) [] w); eauto|..].
    + apply (live_at_middle [] ys).
    + rewrite Hb. unfold slots. simpl.
      by rewrite app_assoc, <- map_app, Hsplit.
    + intros [] s' (w1 & -> & Hw1). simpl in Hw1.
      apply yields_bind.
      destruct (Nat.leb_spec (length ys) (length xs)) as [_|]; [|lia].
      apply yields_bind. rewrite Raw_plus_ok by lia. cbn [yields].
      apply yields_outer. rewrite Hlo.
      eapply yields_mono;
        [eapply (destroy_n_run lo (drop (length ys) xs) (map Some ys)
                   (replicate (capacity_ (data_ v) - length xs) None))|..].
      * destruct Hw1 as [-> _]. by rewrite lookup_insert_eq.
      * by rewrite length_map.
      * by rewrite Hl2.
      * intros [] w2 Hw2. cbv beta in Hw2. simpl.
        exists w2. split; [done|].
        eapply changed_eq; [eapply changed_trans; eauto|..]; try lia.
        destruct Hw1 as [-> _]. rewrite insert_insert_eq. f_equal.
        apply slots_destroy_tail; [lia|]. f_equal. lia.
      * intros ? [].
    + intros s' (w1 & zs & j & -> & Hzs & Hw1). simpl in Hzs.
      exists w1, (zs ++ drop (length ys) xs), 0, j. split; [done|].
      split; [rewrite length_app; lia|].
      eapply changed_eq; [exact Hw1|..]; try lia.
      simpl. f_equal. unfold slots.
      rewrite map_app, <- app_assoc, length_app. do 3 f_equal. lia.
  - (* the source is longer *)
    rewrite Nat.min_l by lia.
    pose proof (take_drop (length xs) ys) as Hsplit.
    assert (Hl1 : length (take (length xs) ys) = length xs)
      by (rewrite length_take; lia).
    assert (Hl2 : length (drop (length xs) ys) = length ys - length xs)
      by (by rewrite length_drop).
    apply yields_bind.
    rewrite <- Hl1 at 1.
    eapply yields_mono;
      [eapply (assign_loop_yields lo lo_o (slots ys (capacity_ (data_ other)))
                 (data_ v) (data_ other)
                 (replicate (capacity_ (data_ v) - length xs) None)
                 v (take (length xs) ys) xs [] w); eauto|..].
    + simpl. lia.
    + simpl. lia.
    + simpl. intros i x Hx. apply (live_at_middle [] ys).
      by apply lookup_take_Some in Hx as [Hx _].
    + intros [] s' (w1 & -> & Hw1). simpl in Hw1.
      apply yields_bind.
      destruct (Nat.leb_spec (length ys) (length xs)) as [|_]; [lia|].
      apply yields_bind. rewrite Raw_plus_ok by lia. cbn [yields].
      apply yields_bind. rewrite Raw_plus_ok by lia. cbn [yields].
      apply yields_outer. rewrite Hlo, Hloo.
      eapply yields_mono;
        [eapply (uninit_copy_run lo_o lo (slots ys (capacity_ (data_ other)))
                   (length xs) (length xs) (map Some (take (length xs) ys))
                   (replicate (capacity_ (data_ v) - length ys) None)
                   (drop (length xs) ys) (length ys - length xs) w1)|..].
      * done.
      * destruct Hw1 as [-> _]. by rewrite lookup_insert_ne by done.
      * intros i x Hx. rewrite lookup_drop in Hx.
        apply (live_at_middle [] ys). done.
      * destruct Hw1 as [-> _]. rewrite lookup_insert_eq. simpl.
        f_equal. f_equal. rewrite <- replicate_add. f_equal. lia.
      * by rewrite length_map.
      * done.
      * intros [] w2 Hw2. simpl in Hw2. simpl.
        exists w2. split; [done|].
        eapply changed_eq; [eapply changed_trans; eauto|..]; try lia.
        destruct Hw1 as [-> _]. rewrite insert_insert_eq. f_equal.
        unfold slots. by rewrite app_assoc, <- map_app, Hsplit.
      * intros w2 [j Hw2]. simpl in Hw2.
        exists w2, (take (length xs) ys), j, (length xs). split; [done|].
        split; [done|].
        eapply changed_eq; [eapply changed_trans; eauto|..]; try lia.
        destruct Hw1 as [-> _]. simpl. f_equal.
        unfold slots. by rewrite Hl1.
    + intros s' (w1 & zs & j & -> & Hzs & Hw1). simpl in Hzs.
      exists w1, zs, 0, j. split; [done|]. split; [done|].
      eapply changed_eq; [exact Hw1|..]; try lia.
      simpl. f_equal. unfold slots. by rewrite Hzs.
Qed.


(** ** Iterators *)

Lemma begin_ok {St} v (s : St) :
  begin_ (v, s) = Normal (Ptr (buffer_ (data_ v)) 0) (v, s).
Proof. done. Qed.

Lemma end_ok {St} v (s : St) :
  size_ v ≤ capacity_ (data_ v) →
  end_ (v, s) = Normal (Ptr (buffer_ (data_ v)) (size_ v)) (v, s).
Proof.
  intros Hle. unfold end_, bind, this, local. by rewrite Raw_plus_ok.
Qed.

Lemma bind_Normal {St A B} (m : M St A) (k : A → M St B) s a s' :
  m s = Normal a s' → (x <- m ;; k x) s = k a s'.
Proof. intros Hm. unfold bind. by rewrite Hm. Qed.

Lemma bind_Undefined {St A B} (m : M St A) (k : A → M St B) s :
  m s = Undefined → (x <- m ;; k x) s = Undefined.
Proof. intros Hm. unfold bind. by rewrite Hm. Qed.

Lemma bind_not_Normal {St A B} (m : M St A) (k : A → M St B) s :
  (∀ a s', m s = Normal a s' → ∀ b s'', k a s' ≠ Normal b s'') →
  ∀ b s'', (x <- m ;; k x) s ≠ Normal b s''.
Proof.
  intros Hk b s''. unfold bind. destruct (m s) as [a s'| |]; [|done..].
  by apply Hk.
Qed.

Lemma ptr_le_refl p : ptr_le p p = true.
Proof.
  unfold ptr_le. rewrite bool_decide_eq_true_2 by done. simpl. by apply Nat.leb_le.
Qed.

(** [std::move_backward] over a reversed range. *)
Lemma std_move_backward_reversed first last d_last (w : world T) :
  off last < off first → std_move_backward F first last d_last w = Undefined.
Proof.
  intros Hlt. unfold std_move_backward, bind, assert, valid_range.
  destruct (Nat.leb_spec (off first) (off last)); [lia|].
  by rewrite andb_false_r.
Qed.

(** [Emplace] at [cend()] of a non-empty array with spare capacity never
    completes: it throws before the shift or runs into the reversed range. *)
Lemma Emplace_end_in_place a v (w : world T) :
  0 < size_ v → size_ v < capacity_ (data_ v) →
  ∀ p s', Emplace F (Ptr (buffer_ (data_ v)) (size_ v)) a (v, w) ≠ Normal p s'.
Proof.
  intros Hpos Hlt. unfold Emplace, Emplace_with.
  rewrite (bind_Normal _ _ _ _ _ (begin_ok v w)).
  rewrite (bind_Normal _ _ _ _ _ (end_ok v w ltac:(lia))).
  unfold ptr_le at 1. cbn [base off]. rewrite bool_decide_eq_true_2 by done.
  rewrite ptr_le_refl. cbn [Nat.leb andb assert].
  rewrite (bind_Normal _ _ (v, w) tt (v, w)) by done.
  rewrite (bind_Normal _ _ (v, w) v (v, w)) by done.
  destruct (Nat.eqb_spec (size_ v) (capacity_ (data_ v))) as [|_]; [lia|].
  destruct (Nat.eqb_spec (size_ v) 0) as [|_]; [lia|]. cbn [negb].
  apply bind_not_Normal. intros [] [v1 w1] Hcall.
  assert (v1 = v) as ->.
  { unfold outer in Hcall. destruct (call F (init_op a) w); by simplify_eq. }
  rewrite (bind_Normal _ _ _ _ _ (end_ok v w1 ltac:(lia))).
  rewrite (bind_Normal _ _ _ _ _ (Raw_at_ok (data_ v) (size_ v - 1) (v, w1) ltac:(lia))).
  apply bind_not_Normal. intros [] [v2 w2] Hmove.
  assert (v2 = v) as ->.
  { unfold outer in Hmove. destruct (move_construct F _ _ w1); by simplify_eq. }
  rewrite (bind_Normal _ _ _ _ _ (begin_ok v w2)).
  intros p s'. apply bind_not_Normal. intros [] s1 Htry.
  exfalso. unfold try_catch in Htry.
  rewrite (bind_Normal _ _ _ _ _ (end_ok v w2 ltac:(lia))) in Htry.
  unfold outer in Htry.
  rewrite std_move_backward_reversed in Htry; [done|].
  simpl. lia.
Qed.

Lemma call_quiet op (w : world T) :
  (∀ op k, throws F op k = false) →
  ∃ w', call F op w = Normal tt w' ∧ heap w' = heap w.
Proof.
  intros Hq. unfold call, will_throw.
  destruct op; rewrite ?Hq, ?andb_false_r; eauto.
Qed.


Lemma move_construct_same_quiet l b od os x (w : world T) :
  (∀ op k, throws F op k = false) →
  heap w !! l = Some b → b !! os = Some (Some x) → od < length b →
  ∃ w', move_construct F (Ptr (Some l) od) (Ptr (Some l) os) w = Normal tt w' ∧
        evolves w w' (<[l := <[os := Some (moved_from x)]> (<[od := Some x]> b)]> (heap w)) 1 0 0.
Proof.
  intros Hq Hl Hx Hod. unfold move_construct, bind.
  erewrite deref_live by eauto.
  unfold call, will_throw. rewrite Hq, andb_false_r.
  erewrite store_slot by (simpl; eauto). simpl.
  erewrite store_slot;
    [| simpl; apply lookup_insert_eq
     | rewrite length_insert; eapply lookup_lt_Some; eauto ].
  simpl. eexists. split; [done|].
  unfold evolves, changed. simpl. rewrite insert_insert_eq. repeat split; lia.
Qed.

(** With an element type that does not throw, [Emplace] at [cend()] of a
    non-empty array with spare capacity is undefined. *)
Lemma Emplace_end_in_place_quiet a v xs (w : world T) :
  (∀ op k, throws F op k = false) →
  repr w v xs → 0 < size_ v → size_ v < capacity_ (data_ v) →
  Emplace F (Ptr (buffer_ (data_ v)) (size_ v)) a (v, w) = Undefined.
Proof.
  intros Hq Hr Hpos Hlt.
  destruct (repr_buffer_some w v xs Hr Hlt) as (lo & Hlo & Hheap).
  pose proof Hr as (Hn & Hc & _).
  unfold Emplace, Emplace_with.
  rewrite (bind_Normal _ _ _ _ _ (begin_ok v w)).
  rewrite (bind_Normal _ _ _ _ _ (end_ok v w ltac:(lia))).
  unfold ptr_le at 1. cbn [base off]. rewrite bool_decide_eq_true_2 by done.
  rewrite ptr_le_refl. cbn [Nat.leb andb assert].
  rewrite (bind_Normal _ _ (v, w) tt (v, w)) by done.
  rewrite (bind_Normal _ _ (v, w) v (v, w)) by done.
  destruct (Nat.eqb_spec (size_ v) (capacity_ (data_ v))) as [|_]; [lia|].
  destruct (Nat.eqb_spec (size_ v) 0) as [|_]; [lia|]. cbn [negb].
  destruct (call_quiet (init_op a) w Hq) as (w1 & Hcall & Hh1).
  rewrite (bind_Normal _ _ (v, w) tt (v, w1)) by (unfold outer; by rewrite Hcall).
  rewrite (bind_Normal _ _ _ _ _ (end_ok v w1 ltac:(lia))).
  rewrite (bind_Normal _ _ _ _ _ (Raw_at_ok (data_ v) (size_ v - 1) (v, w1) ltac:(lia))).
  rewrite Hlo.
  assert (Hlast : ∃ x, slots xs (capacity_ (data_ v)) !! (size_ v - 1) = Some (Some x)).
  { destruct (lookup_lt_is_Some_2 xs (size_ v - 1)) as [x Hx]; [lia|].
    exists x. unfold slots. rewrite lookup_app_l by (rewrite length_map; lia).
    by rewrite list_lookup_fmap, Hx. }
  destruct Hlast as [x Hx].
  destruct (move_construct_same_quiet lo (slots xs (capacity_ (data_ v)))
              (size_ v) (size_ v - 1) x w1 Hq) as (w2 & Hmove & _);
    [by rewrite Hh1|done|rewrite slots_length; lia|].
  rewrite (bind_Normal _ _ (v, w1) tt (v, w2)) by (unfold outer; by rewrite Hmove).
  rewrite (bind_Normal _ _ _ _ _ (begin_ok v w2)).
  apply bind_Undefined. unfold try_catch.
  rewrite (bind_Normal _ _ _ _ _ (end_ok v w2 ltac:(lia))).
  unfold outer. rewrite std_move_backward_reversed; [done|].
  simpl. lia.
Qed.


(** ** Shifting elements within a buffer *)

Lemma move_assign_yields l b od os x z (w : world T) :
  heap w !! l = Some b → b !! os = Some (Some x) → b !! od = Some (Some z) →
  yields (move_assign F (Ptr (Some l) od) (Ptr (Some l) os) w)
    (fun _ w' => evolves w w'
       (<[l := <[os := Some (moved_from x)]> (<[od := Some x]> b)]> (heap w)) 0 0 1)
    (fun w' => evolves w w' (heap w) 0 0 0).
Proof.
  intros Hl Hx Hz. unfold move_assign, bind.
  erewrite deref_live by eauto. erewrite deref_live by eauto.
  unfold call. destruct (will_throw F MoveAssign (ticks w)); simpl; [ev_solve|].
  erewrite store_slot; [| simpl; eauto | eapply lookup_lt_Some; eauto].
  simpl.
  erewrite store_slot;
    [| simpl; apply lookup_insert_eq
     | rewrite length_insert; eapply lookup_lt_Some; eauto ].
  simpl. unfold evolves, changed. simpl. rewrite insert_insert_eq. repeat split; lia.
Qed.

Lemma move_assign_from_yields l b od x z (w : world T) :
  heap w !! l = Some b → b !! od = Some (Some z) →
  yields (move_assign_from F (Ptr (Some l) od) x w)
    (fun _ w' => evolves w w' (<[l := <[od := Some x]> b]> (heap w)) 0 0 1)
    (fun w' => evolves w w' (heap w) 0 0 0).
Proof.
  intros Hl Hz. unfold move_assign_from, bind.
  erewrite deref_live by eauto.
  unfold call. destruct (will_throw F MoveAssign (ticks w)); simpl; [ev_solve|].
  erewrite store_slot; [| simpl; eauto | eapply lookup_lt_Some; eauto].
  simpl. ev_solve.
Qed.

(** The value left in the last slot of a run shifted one slot down. *)
Definition last_moved (z : T) (ys : list T) : T :=
  match last ys with Some y => moved_from y | None => z end.

(** The value left in the first slot of a run shifted one slot up. *)
Definition first_moved (ys : list T) (z : T) : T :=
  match ys with y :: _ => moved_from y | [] => z end.

Lemma last_moved_cons z y ys : last_moved z (y :: ys) = last_moved (moved_from y) ys.
Proof.
  unfold last_moved. destruct ys as [|y' ys]; [done|].
  rewrite last_cons_cons. destruct (last (y' :: ys)) eqn:E; [done|].
  by apply last_None in E.
Qed.

Lemma first_moved_snoc ys y z : first_moved (ys ++ [y]) z = first_moved ys (moved_from y).
Proof. by destruct ys. Qed.

(** The loop of [std::move] that shifts the run [ys] one slot down, over
    the slot that held [z]. *)
Lemma move_loop_yields l ys : ∀ front z back n (w : world T),
  heap w !! l = Some (front ++ Some z :: map Some ys ++ back) → n = length front →
  yields (move_loop F (Ptr (Some l) (S n)) (Ptr (Some l) n) (length ys) w)
    (fun _ w' => evolves w w'
       (<[l := front ++ map Some ys ++ Some (last_moved z ys) :: back]> (heap w))
       0 0 (length ys))
    (fun w' => ∃ zs j, length zs = S (length ys) ∧
       evolves w w' (<[l := front ++ map Some zs ++ back]> (heap w)) 0 0 j).
Proof.
  induction ys as [|y ys IH]; intros front z back n w Hl ->.
  - simpl. rewrite insert_id by done. ev_solve.
  - simpl in Hl. cbn [move_loop length]. apply yields_bind.
    eapply yields_mono; [eapply (move_assign_yields l _ (length front) (S (length front)) y z); eauto|..].
    + rewrite (cons_middle (Some z)), app_assoc. apply list_lookup_middle.
      rewrite length_app. simpl. lia.
    + by apply list_lookup_middle.
    + intros [] w1 Hw1. cbv beta in Hw1.
      rewrite insert_middle in Hw1 by done.
      rewrite (cons_middle (Some y)), app_assoc, insert_middle in Hw1
        by (rewrite length_app; simpl; lia).
      unfold ptr_add. cbn [base off].
      replace (S (length front) + 1) with (S (length (front ++ [Some y])))
        by (rewrite length_app; simpl; lia).
      replace (length front + 1) with (length (front ++ [Some y]))
        by (rewrite length_app; simpl; lia).
      eapply yields_mono; [eapply (IH (front ++ [Some y]) (moved_from y) back)|..]; eauto.
      * destruct Hw1 as [-> _]. by rewrite lookup_insert_eq.
      * intros [] w2 Hw2. cbv beta in Hw2.
        eapply evolves_eq; [eapply evolves_trans; eauto|..]; try done.
        destruct Hw1 as [-> _]. rewrite insert_insert_eq.
        rewrite last_moved_cons. simpl. by rewrite <- app_assoc.
      * intros w2 (zs & j & Hzs & Hw2). exists (y :: zs), (1 + j).
        split; [simpl; lia|].
        eapply evolves_eq; [eapply evolves_trans; eauto|..]; try done.
        destruct Hw1 as [-> _]. rewrite insert_insert_eq.
        simpl. by rewrite <- app_assoc.
    + intros w1 Hw1. exists (z :: y :: ys), 0. split; [done|].
      eapply evolves_eq; [exact Hw1|..]; try done.
      symmetry. by apply insert_id.
Qed.


(** ** Erase *)

Lemma ptr_le_same b i j : i ≤ j → ptr_le (Ptr b i) (Ptr b j) = true.
Proof.
  intros Hle. unfold ptr_le. cbn [base off].
  rewrite bool_decide_eq_true_2 by done. by apply Nat.leb_le.
Qed.

Lemma ptr_lt_same b i j : i < j → ptr_lt (Ptr b i) (Ptr b j) = true.
Proof.
  intros Hlt. unfold ptr_lt. cbn [base off].
  rewrite bool_decide_eq_true_2 by done. by apply Nat.ltb_lt.
Qed.

Lemma std_move_ok first last d_first (w : world T) :
  base first = base last → off first ≤ off last →
  std_move F first last d_first w = move_loop F first d_first (off last - off first) w.
Proof.
  intros Hb Hle. unfold std_move, bind, assert, valid_range.
  rewrite bool_decide_eq_true_2 by done.
  by destruct (Nat.leb_spec (off first) (off last)); [|lia].
Qed.

Lemma slots_split k x xs cap :
  xs !! k = Some x →
  slots xs cap =
    map Some (take k xs) ++ Some x :: map Some (drop (S k) xs) ++
    replicate (cap - length xs) None.
Proof.
  intros Hx. unfold slots. rewrite <- (take_drop_middle xs k x Hx) at 1.
  by rewrite map_app, <- app_assoc.
Qed.

Lemma slots_erased k xs cap :
  k < length xs → length xs ≤ cap →
  map Some (take k xs) ++ map Some (drop (S k) xs) ++
    None :: replicate (cap - length xs) None
  = slots (delete k xs) cap.
Proof.
  intros Hk Hc. unfold slots. rewrite delete_take_drop, map_app, <- app_assoc.
  do 2 f_equal. rewrite length_app, length_take, length_drop.
  replace (cap - (k `min` length xs + (length xs - S k))) with (S (cap - length xs)) by lia.
  done.
Qed.

Lemma repr_buffer_nonempty (w : world T) v xs :
  repr w v xs → 0 < length xs →
  ∃ lo, buffer_ (data_ v) = Some lo ∧ heap w !! lo = Some (slots xs (capacity_ (data_ v))).
Proof.
  intros (Hn & Hc & Hb & Hfit) Hpos. destruct (buffer_ (data_ v)) as [lo|]; [eauto|lia].
Qed.

(** [Erase] at the valid position [k]. *)
Lemma Erase_yields k v xs (w : world T) :
  repr w v xs → k < length xs →
  yields (Erase F (Ptr (buffer_ (data_ v)) k) (v, w))
    (fun p s' => ∃ w' lo,
       s' = (mkVector (data_ v) (size_ v - 1), w') ∧
       p = Ptr (buffer_ (data_ v)) k ∧ buffer_ (data_ v) = Some lo ∧
       changed w w' (<[lo := slots (delete k xs) (capacity_ (data_ v))]> (heap w))
         0 0 1 (length xs - S k))
    (fun s' => ∃ w' lo zs j,
       s' = (v, w') ∧ length zs = length xs ∧ buffer_ (data_ v) = Some lo ∧
       changed w w' (<[lo := slots zs (capacity_ (data_ v))]> (heap w)) 0 0 0 j).
Proof.
  intros Hr Hk. pose proof Hr as (Hn & Hc & Hb & Hfit).
  destruct (repr_buffer_nonempty w v xs Hr ltac:(lia)) as (lo & Hlo & Hheap).
  destruct (lookup_lt_is_Some_2 xs k Hk) as [x Hx].
  unfold Erase.
  rewrite (bind_Normal _ _ _ _ _ (begin_ok v w)).
  rewrite (bind_Normal _ _ _ _ _ (end_ok v w ltac:(lia))).
  rewrite Hlo, ptr_le_same, ptr_lt_same by lia. cbn [andb assert].
  rewrite (bind_Normal _ _ (v, w) tt (v, w)) by done.
  rewrite (bind_Normal _ _ _ _ _ (begin_ok v w)).
  rewrite (bind_Normal _ _ _ _ _ (end_ok v w ltac:(lia))).
  rewrite Hlo. unfold ptr_add, ptr_sub. cbn [base off].
  rewrite Nat.sub_0_r, Nat.add_0_l.
  apply yields_bind, yields_outer.
  rewrite std_move_ok by (cbn [base off]; (done || lia)). cbn [base off].
  replace (k + 1) with (S k) by lia.
  replace (size_ v - S k) with (length (drop (S k) xs)) by (rewrite length_drop; lia).
  eapply yields_mono;
    [eapply (move_loop_yields lo (drop (S k) xs) (map Some (take k xs)) x
               (replicate (capacity_ (data_ v) - length xs) None) k w)|..].
  - rewrite Hheap. by erewrite slots_split by done.
  - rewrite length_map, length_take. lia.
  - intros [] w1 Hw1. cbv beta in Hw1.
    apply yields_bind, yields_outer.
    eapply yields_mono;
      [eapply (destroy_at_yields lo (size_ v - 1) _ (last_moved x (drop (S k) xs)))|..].
    + destruct Hw1 as [-> _]. apply lookup_insert_eq.
    + rewrite app_assoc. apply list_lookup_middle.
      rewrite length_app, !length_map, length_take, length_drop. lia.
    + intros [] w2 Hw2. cbv beta in Hw2. simpl.
      exists w2, lo. split; [done|]. split; [done|]. split; [done|].
      rewrite app_assoc, insert_middle in Hw2
        by (rewrite length_app, !length_map, length_take, length_drop; lia).
      rewrite <- app_assoc, slots_erased in Hw2 by lia.
      eapply changed_eq; [eapply changed_trans; eauto|..]; try lia.
      * destruct Hw1 as [-> _]. by rewrite insert_insert_eq.
      * rewrite length_drop. lia.
    + intros ? [].
  - intros w1 (zs & j & Hzs & Hw1). simpl.
    exists w1, lo, (take k xs ++ zs), j. split; [done|].
    split; [rewrite length_app, length_take, Hzs, length_drop; lia|].
    split; [done|].
    eapply changed_eq; [exact Hw1|..]; try lia.
    f_equal. unfold slots. rewrite map_app, <- app_assoc. do 3 f_equal.
    rewrite length_app, length_take, Hzs, length_drop. lia.
Qed.


(** ** Emplace *)

Lemma move_construct_same_yields l b od os x (w : world T) :
  heap w !! l = Some b → b !! os = Some (Some x) → od < length b →
  yields (move_construct F (Ptr (Some l) od) (Ptr (Some l) os) w)
    (fun _ w' => evolves w w'
       (<[l := <[os := Some (moved_from x)]> (<[od := Some x]> b)]> (heap w)) 1 0 0)
    (fun w' => evolves w w' (heap w) 0 0 0).
Proof.
  intros Hl Hx Hod. unfold move_construct, bind.
  erewrite deref_live by eauto.
  unfold call. destruct (will_throw F MoveCtor (ticks w)); simpl; [ev_solve|].
  erewrite store_slot by (simpl; eauto). simpl.
  erewrite store_slot;
    [| simpl; apply lookup_insert_eq
     | rewrite length_insert; eapply lookup_lt_Some; eauto ].
  simpl. unfold evolves, changed. simpl. rewrite insert_insert_eq. repeat split; lia.
Qed.

Lemma std_move_backward_ok first last d_last (w : world T) :
  base first = base last → off first ≤ off last →
  std_move_backward F first last d_last w =
  move_backward_loop F last d_last (off last - off first) w.
Proof.
  intros Hb Hle. unfold std_move_backward, bind, assert, valid_range.
  rewrite bool_decide_eq_true_2 by done.
  by destruct (Nat.leb_spec (off first) (off last)); [|lia].
Qed.

(** The loop of [std::move_backward] that shifts the run [ys] one slot up,
    over the slot that held [z]. *)
Lemma move_backward_loop_yields l ys : ∀ front z back m n (w : world T),
  heap w !! l = Some (front ++ map Some ys ++ Some z :: back) →
  m = length front + length ys → n = length ys →
  yields (move_backward_loop F (Ptr (Some l) m) (Ptr (Some l) (S m)) n w)
    (fun _ w' => evolves w w'
       (<[l := front ++ Some (first_moved ys z) :: map Some ys ++ back]> (heap w))
       0 0 n)
    (fun w' => ∃ zs j, length zs = S n ∧
       evolves w w' (<[l := front ++ map Some zs ++ back]> (heap w)) 0 0 j).
Proof.
  induction ys as [|y ys IH] using rev_ind; intros front z back m n w Hl -> ->.
  - simpl. rewrite insert_id by done. ev_solve.
  - rewrite length_app in *. simpl length in *.
    replace (length ys + 1) with (S (length ys)) by lia.
    cbn [move_backward_loop]. unfold ptr_sub. cbn [base off].
    replace (S (length front + S (length ys)) - 1) with (length front + S (length ys)) by lia.
    replace (length front + S (length ys) - 1) with (length front + length ys) by lia.
    rewrite map_app in Hl. simpl in Hl. rewrite <- app_assoc in Hl. simpl in Hl.
    apply yields_bind.
    eapply yields_mono;
      [eapply (move_assign_yields l _ (length front + S (length ys))
                 (length front + length ys) y z); eauto|..].
    + rewrite app_assoc. apply list_lookup_middle.
      by rewrite length_app, length_map.
    + rewrite (cons_middle (Some y)), !app_assoc. apply list_lookup_middle.
      rewrite !length_app, length_map. simpl. lia.
    + intros [] w1 Hw1. cbv beta in Hw1.
      rewrite (cons_middle (Some y)), !app_assoc, insert_middle in Hw1
        by (rewrite !length_app, length_map; simpl; lia).
      rewrite <- !app_assoc in Hw1. simpl in Hw1.
      rewrite app_assoc, insert_middle in Hw1
        by (by rewrite length_app, length_map).
      rewrite <- app_assoc in Hw1.
      replace (length front + S (length ys)) with (S (length front + length ys)) by lia.
      eapply yields_mono;
        [eapply (IH front (moved_from y) (Some y :: back) _ _ w1)|..]; try done.
      * destruct Hw1 as [-> _]. by rewrite lookup_insert_eq.
      * intros [] w2 Hw2. cbv beta in Hw2.
        eapply evolves_eq; [eapply evolves_trans; eauto|..]; try lia.
        destruct Hw1 as [-> _]. rewrite insert_insert_eq.
        rewrite first_moved_snoc, map_app, <- app_assoc. done.
      * intros w2 (zs & j & Hzs & Hw2). exists (zs ++ [y]), (1 + j).
        split; [rewrite length_app; simpl; lia|].
        eapply evolves_eq; [eapply evolves_trans; eauto|..]; try done.
        destruct Hw1 as [-> _]. rewrite insert_insert_eq.
        by rewrite map_app, <- app_assoc.
    + intros w1 Hw1. exists (ys ++ [y; z]), 0.
      split; [rewrite length_app; simpl; lia|].
      eapply evolves_eq; [exact Hw1|..]; try done.
      symmetry. apply insert_id. rewrite Hl. do 2 f_equal.
      by rewrite map_app, <- app_assoc.
Qed.


Lemma slots_in_place k xs0 yl cap :
  k ≤ length xs0 → S (length xs0) < cap →
  slots (xs0 ++ [yl]) cap =
    map Some (take k xs0) ++ map Some (drop k xs0) ++
    Some yl :: None :: replicate (cap - S (S (length xs0))) None.
Proof.
  intros Hk Hc. unfold slots.
  rewrite <- (take_drop k xs0) at 1.
  rewrite !map_app, <- !app_assoc, length_app. simpl.
  do 3 f_equal.
  replace (cap - (length xs0 + 1)) with (S (cap - S (S (length xs0)))) by lia.
  done.
Qed.

Lemma slots_emplaced k xs0 yl x cap :
  k ≤ length xs0 → S (length xs0) < cap →
  map Some (take k xs0) ++ Some x :: map Some (drop k xs0) ++
    Some yl :: replicate (cap - S (S (length xs0))) None
  = slots (take k (xs0 ++ [yl]) ++ x :: drop k (xs0 ++ [yl])) cap.
Proof.
  intros Hk Hc. unfold slots.
  rewrite take_app_le, drop_app_le by done.
  assert (length (take k xs0 ++ x :: drop k xs0 ++ [yl]) = S (S (length xs0))) as ->.
  { rewrite length_app. simpl. rewrite length_app, length_take, length_drop. simpl. lia. }
  rewrite map_app. simpl. rewrite map_app. simpl.
  rewrite <- app_assoc. simpl. by rewrite <- app_assoc.
Qed.

(** [Emplace] before an element of an array with spare capacity. *)
Lemma Emplace_in_place_yields k a v xs (w : world T) :
  repr w v xs → k < length xs → size_ v < capacity_ (data_ v) →
  yields (Emplace F (Ptr (buffer_ (data_ v)) k) a (v, w))
    (fun p s' => ∃ w' lo,
       s' = (mkVector (data_ v) (S (size_ v)), w') ∧
       p = Ptr (Some lo) k ∧ buffer_ (data_ v) = Some lo ∧
       changed w w'
         (<[lo := slots (take k xs ++ init_value a :: drop k xs) (capacity_ (data_ v))]> (heap w))
         0 1 0 (length xs - k))
    (fun _ => True).
Proof.
  intros Hr Hk Hlt. pose proof Hr as (Hn & Hc & Hb & Hfit).
  destruct (repr_buffer_nonempty w v xs Hr ltac:(lia)) as (lo & Hlo & Hheap).
  destruct xs as [|yl xs0 _] using rev_ind; [simpl in Hk; lia|].
  rewrite length_app in *. simpl length in *.
  assert (Hk' : k ≤ length xs0) by lia.
  rewrite (slots_in_place k) in Hheap by lia.
  unfold Emplace, Emplace_with.
  rewrite (bind_Normal _ _ _ _ _ (begin_ok v w)).
  rewrite (bind_Normal _ _ _ _ _ (end_ok v w ltac:(lia))).
  rewrite Hlo, !ptr_le_same by lia. cbn [andb assert].
  rewrite (bind_Normal _ _ (v, w) tt (v, w)) by done.
  rewrite (bind_Normal _ _ (v, w) v (v, w)) by done.
  destruct (Nat.eqb_spec (size_ v) (capacity_ (data_ v))) as [|_]; [lia|].
  destruct (Nat.eqb_spec (size_ v) 0) as [|_]; [lia|]. cbn [negb].
  (* T emplacing_element(args...) *)
  apply yields_bind, yields_outer.
  eapply yields_mono; [apply call_yields| |done].
  intros [] w1 Hw1. cbv beta in Hw1.
  rewrite (bind_Normal _ _ _ _ _ (end_ok v w1 ltac:(lia))).
  rewrite (bind_Normal _ _ _ _ _ (Raw_at_ok (data_ v) (size_ v - 1) (v, w1) ltac:(lia))).
  rewrite Hlo.
  (* new (end()) T(std::move(data_[size_ - 1])) *)
  apply yields_bind, yields_outer.
  eapply yields_mono;
    [eapply (move_construct_same_yields lo _ (size_ v) (size_ v - 1) yl w1)| |done].
  { destruct Hw1 as [-> _]. exact Hheap. }
  { rewrite !app_assoc. apply list_lookup_middle.
    rewrite length_app, !length_map, length_take, length_drop. lia. }
  { rewrite !length_app, !length_map, length_take, length_drop. simpl.
    rewrite length_replicate. lia. }
  intros [] w2 Hw2. cbv beta in Hw2.
  rewrite (cons_middle (Some yl)), !app_assoc, insert_middle in Hw2
    by (rewrite !length_app, !length_map, length_take, length_drop; simpl; lia).
  rewrite <- !app_assoc in Hw2. simpl in Hw2.
  rewrite (app_assoc (map Some (take k xs0))), insert_middle in Hw2
    by (rewrite !length_app, !length_map, length_take, length_drop; lia).
  rewrite <- app_assoc in Hw2.
  rewrite (bind_Normal _ _ _ _ _ (begin_ok v w2)).
  rewrite Hlo. unfold ptr_add. cbn [base off]. rewrite Nat.sub_0_r, Nat.add_0_l.
  (* std::move_backward(pos, end() - 1, end()) *)
  apply yields_bind, yields_try_catch.
  rewrite (bind_Normal _ _ _ _ _ (end_ok v w2 ltac:(lia))).
  rewrite Hlo. unfold ptr_sub. cbn [base off].
  apply yields_outer.
  rewrite std_move_backward_ok by (cbn [base off]; (done || lia)). cbn [base off].
  replace (size_ v) with (S (size_ v - 1)) at 2 by lia.
  eapply yields_mono;
    [eapply (move_backward_loop_yields lo (drop k xs0) (map Some (take k xs0))
               (moved_from yl) _ (size_ v - 1) (size_ v - 1 - k) w2)|..].
  { destruct Hw2 as [-> _]. by rewrite lookup_insert_eq. }
  { rewrite length_map, length_take, length_drop. lia. }
  { rewrite length_drop. lia. }
  2:{ (* the shift threw: the duplicate of the last element is destroyed *)
    intros w3 (zs & j & Hzs & Hw3).
    rewrite (bind_Normal _ _ _ _ _ (end_ok v w3 ltac:(lia))).
    rewrite Hlo. apply yields_outer.
    eapply yields_mono; [eapply (destroy_at_yields lo (size_ v) _ yl)|done|done].
    - destruct Hw3 as [-> _]. by rewrite lookup_insert_eq.
    - rewrite app_assoc. apply list_lookup_middle.
      rewrite length_app, !length_map, length_take, Hzs. lia. }
  intros [] w3 Hw3. cbv beta in Hw3.
  (* *pos = std::move(emplacing_element) *)
  apply yields_bind, yields_outer.
  eapply yields_mono;
    [eapply (move_assign_from_yields lo _ k (init_value a)
               (first_moved (drop k xs0) (moved_from yl)) w3)| |done].
  { destruct Hw3 as [-> _]. by rewrite lookup_insert_eq. }
  { apply list_lookup_middle. rewrite length_map, length_take. lia. }
  intros [] w4 Hw4. cbv beta in Hw4.
  rewrite insert_middle in Hw4 by (rewrite length_map, length_take; lia).
  simpl. exists w4, lo. split; [done|]. split; [done|]. split; [done|].
  rewrite slots_emplaced in Hw4 by lia.
  unfold evolves, changed in *.
  destruct Hw4 as (-> & ? & ? & ? & ?), Hw3 as (-> & ? & ? & ? & ?),
           Hw2 as (-> & ? & ? & ? & ?), Hw1 as (-> & ? & ? & ? & ?).
  rewrite !insert_insert_eq. repeat split; lia.
Qed.


(** Equality of heaps built from inserts and deletes. *)
Ltac heap_eq :=
  apply map_eq; intros ?;
  repeat (rewrite lookup_insert || rewrite lookup_delete);
  repeat case_decide; subst; try done; try congruence.

Lemma left_behind_length xs : length (left_behind xs) = length xs.
Proof. unfold left_behind. destruct uses_move; by rewrite ?length_map. Qed.

Lemma slots_inserted k xs x g :
  k ≤ length xs → length xs < g →
  (map Some (take k xs) ++ [Some x]) ++ map Some (drop k xs) ++
    replicate (g - S (length xs)) None
  = slots (take k xs ++ x :: drop k xs) g.
Proof.
  intros Hk Hg. unfold slots.
  assert (length (take k xs ++ x :: drop k xs) = S (length xs)) as ->.
  { rewrite length_app. simpl. rewrite length_take, length_drop. lia. }
  rewrite map_app. simpl. rewrite <- !app_assoc. done.
Qed.

(** [Emplace] into an empty array that has a buffer. *)
Lemma Emplace_empty_yields a v (w : world T) :
  repr w v [] → 0 < capacity_ (data_ v) →
  yields (Emplace F (Ptr (buffer_ (data_ v)) 0) a (v, w))
    (fun p s' => ∃ w' lo,
       s' = (mkVector (data_ v) 1, w') ∧ p = Ptr (Some lo) 0 ∧
       buffer_ (data_ v) = Some lo ∧
       changed w w' (<[lo := slots [init_value a] (capacity_ (data_ v))]> (heap w)) 0 1 0 0)
    (fun s' => ∃ w', s' = (v, w') ∧ unchanged w w').
Proof.
  intros Hr Hpos. pose proof Hr as (Hn & Hc & Hb & Hfit). simpl in Hn.
  destruct (repr_buffer_some w v [] Hr ltac:(lia)) as (lo & Hlo & Hheap).
  unfold Emplace, Emplace_with.
  rewrite (bind_Normal _ _ _ _ _ (begin_ok v w)).
  rewrite (bind_Normal _ _ _ _ _ (end_ok v w ltac:(lia))).
  rewrite Hlo, !ptr_le_same by lia. cbn [andb assert].
  rewrite (bind_Normal _ _ (v, w) tt (v, w)) by done.
  rewrite (bind_Normal _ _ (v, w) v (v, w)) by done.
  destruct (Nat.eqb_spec (size_ v) (capacity_ (data_ v))) as [|_]; [lia|].
  destruct (Nat.eqb_spec (size_ v) 0) as [_|]; [|lia]. cbn [negb].
  apply yields_bind, yields_outer. unfold GetAddress. rewrite Hlo.
  eapply yields_mono; [eapply construct_at_yields; eauto|..].
  - rewrite slots_length; simpl; lia.
  - intros [] w1 Hw1. cbv beta in Hw1. simpl. rewrite Hn.
    exists w1, lo. split; [done|]. split; [done|]. split; [done|].
    rewrite (slots_snoc [] (init_value a)) in Hw1 by (simpl; lia). exact Hw1.
  - intros w1 Hw1. exists w1. split; [done|]. by exists 0, 0.
Qed.


Lemma dtor_new_yields ln g v b (w : world T) (ls : RawMemory * (Vector * world T)) :
  ls = (mkRaw (Some ln) g, (v, w)) → heap w !! ln = Some b →
  yields (outer (RawMemory_dtor ls.1) ls.2)
    (fun _ _ => True) (fun _ : Vector * world T => True).
Proof.
  intros -> Hl. cbn [fst snd]. unfold RawMemory_dtor, outer. cbn [buffer_].
  by erewrite Deallocate_live by eauto.
Qed.

(** [Emplace] into a full array: the reallocating branch. *)
Lemma Emplace_realloc_yields k a v xs (w : world T) :
  wf w → repr w v xs → k ≤ length xs → size_ v = capacity_ (data_ v) →
  yields (Emplace F (Ptr (buffer_ (data_ v)) k) a (v, w))
    (fun p s' => ∃ w',
       s' = (mkVector (mkRaw (Some (fresh w)) (grown (size_ v))) (S (size_ v)), w') ∧
       p = Ptr (Some (fresh w)) k ∧
       changed w w'
         (<[fresh w := slots (take k xs ++ init_value a :: drop k xs) (grown (size_ v))]>
            (released (buffer_ (data_ v)) (heap w)))
         1 (S (length xs)) (length xs) 0 ∧
       fits (grown (size_ v)))
    (fun _ => True).
Proof.
  intros Hwf Hr Hk Hfull. pose proof Hr as (Hn & Hc & Hb & Hfit).
  pose proof (repr_buffer_not_fresh w v xs Hwf Hr) as Hne.
  pose proof (grown_gt (size_ v)) as Hg.
  pose proof (wf_fresh w Hwf) as Hfr.
  unfold Emplace, Emplace_with.
  rewrite (bind_Normal _ _ _ _ _ (begin_ok v w)).
  rewrite (bind_Normal _ _ _ _ _ (end_ok v w ltac:(lia))).
  rewrite !ptr_le_same by lia. cbn [andb assert].
  rewrite (bind_Normal _ _ (v, w) tt (v, w)) by done.
  rewrite (bind_Normal _ _ (v, w) v (v, w)) by done.
  destruct (Nat.eqb_spec (size_ v) (capacity_ (data_ v))) as [_|]; [|lia]. cbn [negb].
  cbn [off]. rewrite Nat.sub_0_r.
  apply yields_scope, yields_outer.
  eapply yields_mono;
    [apply RawMemory_ctor_yields; [lia|apply fits_grown; by rewrite Hfull]| |done].
  intros r w1 (-> & Hw1 & Hfg). cbv beta.
  apply yields_bind. cbn [local yields].
  rewrite (bind_Normal _ _ _ _ _
             (Raw_plus_ok (mkRaw (Some (fresh w)) (grown (size_ v))) k _ ltac:(simpl; lia))).
  cbn [buffer_].
  (* new (pos) T(args...) *)
  apply yields_bind, yields_outer, yields_outer.
  eapply yields_mono;
    [eapply (construct_at_yields (fresh w) k (replicate (grown (size_ v)) None))|..].
  { destruct Hw1 as [-> _]. apply lookup_insert_eq. }
  { rewrite length_replicate. lia. }
  2:{ intros w2 Hw2. cbn [fst snd]. unfold RawMemory_dtor, outer. cbn [buffer_].
      erewrite Deallocate_live
        by (destruct Hw2 as [-> _]; destruct Hw1 as [-> _]; apply lookup_insert_eq).
      done. }
  intros [] w2 Hw2. cbv beta in Hw2.
  rewrite replicate_insert_new in Hw2 by lia.
  assert (Hl2 : heap w2 !! fresh w =
            Some (replicate k None ++
                  Some (init_value a) :: replicate (grown (size_ v) - S k) None))
    by (destruct Hw2 as [-> _]; apply lookup_insert_eq).
  destruct (buffer_ (data_ v)) as [lo|] eqn:Hlo.
  - (* the array has a buffer *)
    assert (Hlone : lo ≠ fresh w) by congruence.
    assert (Hl2o : heap w2 !! lo =
              Some (map Some (take k xs) ++ map Some (drop k xs)))
      by (destruct Hw2 as [-> _], Hw1 as [-> _];
          rewrite !lookup_insert_ne by done;
          rewrite Hb; unfold slots;
          rewrite <- Hn, Hfull, Nat.sub_diag, app_nil_r, <- map_app, take_drop; done).
    (* the elements before the position *)
    apply yields_bind, yields_try_catch, yields_outer, yields_outer.
    unfold GetAddress. rewrite Hlo. cbn [buffer_].
    eapply yields_mono;
      [eapply (UCOM_yields lo (fresh w) [] (map Some (drop k xs)) []
                 (Some (init_value a) :: replicate (grown (size_ v) - S k) None)
                 (take k xs) k w2); eauto|..].
    { rewrite length_take. lia. }
    2:{ intros w3 Hw3. apply yields_outer, yields_outer.
        eapply yields_mono;
          [eapply (destroy_at_yields (fresh w) k _ (init_value a))|..].
        - destruct Hw3 as [[_ [j Hw3]]|(_ & _ & ? & ? & _ & _ & Hw3)];
            destruct Hw3 as [-> _]; [exact Hl2|].
          rewrite lookup_insert_ne by done. exact Hl2.
        - apply list_lookup_middle. by rewrite length_replicate.
        - intros [] w4 Hw4. eapply dtor_new_yields; [done|].
          destruct Hw4 as [-> _]. apply lookup_insert_eq.
        - intros ? []. }
    intros [] w3 Hw3. cbv beta in Hw3. simpl app in Hw3.
    (* the elements from the position on *)
    apply yields_bind, yields_try_catch.
    rewrite (bind_Normal _ _ _ _ _ (Raw_plus_ok (data_ v) k _ ltac:(lia))).
    rewrite Hlo. unfold ptr_add. cbn [base off].
    apply yields_outer, yields_outer.
    replace (size_ v - k) with (length (drop k xs)) by (rewrite length_drop; lia).
    replace k with (length (map Some (left_behind (take k xs)))) at 1
      by (rewrite length_map, left_behind_length, length_take; lia).
    replace (k + 1) with (length (map Some (take k xs) ++ [Some (init_value a)]))
      by (rewrite length_app, length_map, length_take; simpl; lia).
    eapply yields_mono;
      [eapply (UCOM_yields lo (fresh w) (map Some (left_behind (take k xs))) []
                 (map Some (take k xs) ++ [Some (init_value a)])
                 (replicate (grown (size_ v) - S (size_ v)) None)
                 (drop k xs) _ w3); eauto|..].
    { destruct Hw3 as [-> _]. rewrite lookup_insert_eq. by rewrite app_nil_r. }
    { destruct Hw3 as [-> _]. rewrite lookup_insert_ne, lookup_insert_eq by done.
      rewrite <- app_assoc. simpl. do 3 f_equal.
      rewrite <- replicate_add. f_equal. rewrite length_drop. lia. }
    2:{ intros w4 Hw4. apply yields_outer, yields_outer.
        eapply yields_mono;
          [eapply (destroy_n_run (fresh w) (take k xs ++ [init_value a]) []
                     (replicate (length (drop k xs)) None ++
                      replicate (grown (size_ v) - S (size_ v)) None))|..].
        4:{ intros [] w5 Hw5. eapply dtor_new_yields; [done|].
            destruct Hw5 as [-> _]. apply lookup_insert_eq. }
        4:{ intros ? []. }
        - assert (Hl3 : heap w3 !! fresh w =
                    Some (map Some (take k xs ++ [init_value a]) ++
                          replicate (length (drop k xs)) None ++
                          replicate (grown (size_ v) - S (size_ v)) None)).
          { destruct Hw3 as [-> _]. rewrite lookup_insert_ne, lookup_insert_eq by done.
            rewrite map_app, <- app_assoc. simpl. do 3 f_equal.
            rewrite <- replicate_add. f_equal. rewrite length_drop. lia. }
          destruct Hw4 as [[_ [j Hw4]]|(_ & _ & ? & ? & _ & _ & Hw4)];
            destruct Hw4 as [-> _]; [exact Hl3|].
          rewrite lookup_insert_ne by done. exact Hl3.
        - done.
        - by rewrite !length_app, length_map. }
    intros [] w4 Hw4. cbv beta in Hw4. rewrite app_nil_r in Hw4.
    (* std::destroy_n(data_.GetAddress(), size_) *)
    apply yields_bind, yields_outer, yields_outer.
    eapply yields_mono;
      [eapply (destroy_n_run lo (left_behind (take k xs) ++ left_behind (drop k xs)) [] []
                 0 (size_ v) w4)|..]; try done.
    { destruct Hw4 as [-> _]. rewrite lookup_insert_eq.
      by rewrite app_nil_r, map_app. }
    { rewrite length_app, !left_behind_length, length_take, length_drop. lia. }
    intros [] w5 Hw5. cbv beta in Hw5. simpl.
    unfold RawMemory_dtor, outer. cbn [buffer_]. rewrite Hlo.
    erewrite Deallocate_live by (destruct Hw5 as [-> _]; apply lookup_insert_eq).
    simpl. eexists. split; [done|]. split; [done|]. split; [|done].
    unfold evolves, changed in *. simpl.
    destruct Hw5 as (-> & ? & ? & ? & ?), Hw4 as (-> & ? & ? & ? & ?),
             Hw3 as (-> & ? & ? & ? & ?), Hw2 as (-> & ? & ? & ? & ?),
             Hw1 as (-> & ? & ? & ? & ?).
    rewrite length_drop in *.
    split; [|repeat split; lia].
    rewrite <- (slots_inserted k xs (init_value a) (grown (size_ v))) by lia.
    rewrite <- Hn. heap_eq.
  - (* the array has no buffer: it is empty *)
    assert (xs = []) as -> by (destruct xs; [done|simpl in *; lia]).
    simpl in Hk, Hn. assert (k = 0) as -> by lia.
    unfold GetAddress. rewrite Hlo, Hn. cbn [buffer_].
    unfold UninitializedCopyOrMoveN.
    destruct (is_nothrow_move_constructible || negb is_copy_constructible); simpl.
    all: unfold RawMemory_dtor; rewrite Hlo; simpl.
    all: eexists; (split; [done|]); (split; [done|]); (split; [|apply fits_one]).
    all: unfold evolves, changed in *; simpl.
    all: destruct Hw2 as (-> & ? & ? & ? & ?), Hw1 as (-> & ? & ? & ? & ?).
    all: rewrite insert_insert_eq.
    all: split; [|repeat split; lia].
    all: f_equal; by rewrite Hn.
Qed.


Lemma length_inserted {A} k (xs : list A) x :
  k ≤ length xs → length (take k xs ++ x :: drop k xs) = S (length xs).
Proof.
  intros Hk. rewrite length_app. simpl. rewrite length_take, length_drop. lia.
Qed.

(** [Emplace] at a valid position, the end of a non-empty array with spare
    capacity excepted. *)
Lemma Emplace_yields k a v xs (w : world T) :
  wf w → repr w v xs → k ≤ length xs →
  size_ v = capacity_ (data_ v) ∨ k < length xs ∨ xs = [] →
  yields (Emplace F (Ptr (buffer_ (data_ v)) k) a (v, w))
    (fun p s' => ∃ v' w',
       s' = (v', w') ∧
       repr w' v' (take k xs ++ init_value a :: drop k xs) ∧ wf w' ∧
       p = Ptr (buffer_ (data_ v')) k ∧
       data_ v' = (if size_ v =? capacity_ (data_ v)
                   then mkRaw (Some (fresh w)) (grown (size_ v)) else data_ v))
    (fun _ => True).
Proof.
  intros Hwf Hr Hk Hcase. pose proof Hr as (Hn & Hc & Hb & Hfit).
  destruct (Nat.eqb_spec (size_ v) (capacity_ (data_ v))) as [Hfull|Hroom].
  - eapply yields_mono; [by apply Emplace_realloc_yields|..]; [|done].
    intros p s' (w' & -> & -> & Hw' & Hfg). eexists _, _. split; [done|].
    split; [|split; [by eapply wf_changed_grown|done]].
    split; [simpl; rewrite length_inserted; lia|].
    pose proof (grown_gt (size_ v)).
    split; [simpl; rewrite length_inserted; lia|]. split; [|done].
    simpl. destruct Hw' as [-> _]. apply lookup_insert_eq.
  - destruct Hcase as [?|[Hlt| ->]]; [done|..].
    + eapply yields_mono; [apply Emplace_in_place_yields; eauto; lia|..]; [|done].
      intros p s' (w' & lo & -> & -> & Hlo & Hw'). eexists _, _. split; [done|].
      rewrite Hlo in Hb.
      split; [|split; [by eapply wf_changed_update|simpl; by rewrite Hlo]].
      split; [simpl; rewrite length_inserted; lia|].
      split; [simpl; rewrite length_inserted; lia|]. split; [|done].
      simpl. rewrite Hlo. destruct Hw' as [-> _]. apply lookup_insert_eq.
    + simpl in Hk, Hn. assert (k = 0) as -> by lia.
      eapply yields_mono; [apply Emplace_empty_yields; eauto; lia|..]; [|done].
      intros p s' (w' & lo & -> & -> & Hlo & Hw'). eexists _, _. split; [done|].
      rewrite Hlo in Hb.
      split; [|split; [by eapply wf_changed_update|simpl; by rewrite Hlo]].
      split; [done|]. split; [simpl; lia|]. split; [|done].
      simpl. rewrite Hlo. destruct Hw' as [-> _]. apply lookup_insert_eq.
Qed.

(** ** PopBack and Resize *)

Lemma PopBack_yields v xs (w : world T) :
  repr w v xs →
  yields (PopBack (v, w))
    (fun _ s' => ∃ w',
       s' = (mkVector (data_ v) (size_ v - 1), w') ∧
       repr w' (mkVector (data_ v) (size_ v - 1)) (removelast xs) ∧
       (wf w → wf w') ∧
       destroyed w' = destroyed w + (if size_ v =? 0 then 0 else 1))
    (fun _ => False).
Proof.
  intros Hr. pose proof Hr as (Hn & Hc & Hb & Hfit). unfold PopBack.
  rewrite (bind_Normal _ _ (v, w) v (v, w)) by done.
  destruct (Nat.eqb_spec (size_ v) 0) as [Hz|Hnz]; cbn [negb].
  - assert (xs = []) as -> by (destruct xs; [done|simpl in *; lia]).
    simpl. exists w. rewrite Hz. destruct v as [d n]. simpl in *. subst n.
    split; [done|]. split; [done|]. split; [done|lia].
  - destruct (repr_buffer_nonempty w v xs Hr ltac:(lia)) as (lo & Hlo & Hheap).
    destruct xs as [|x xs0 _] using rev_ind; [simpl in *; lia|].
    rewrite length_app in *. simpl length in *.
    apply yields_bind. simpl.
    rewrite (bind_Normal _ _ _ _ _
               (Raw_plus_ok (data_ v) (size_ v - 1) _ ltac:(lia))).
    rewrite Hlo. cbn [outer].
    assert (Hsl : slots (xs0 ++ [x]) (capacity_ (data_ v)) =
              map Some xs0 ++ Some x :: replicate (capacity_ (data_ v) - size_ v) None).
    { unfold slots. rewrite map_app, <- app_assoc, length_app. simpl. by rewrite Hn. }
    rewrite Hsl in Hheap.
    pose proof (destroy_at_yields lo (size_ v - 1) _ x w Hheap) as Hd.
    rewrite list_lookup_middle in Hd by (rewrite length_map; lia).
    specialize (Hd eq_refl).
    rewrite insert_middle in Hd by (rewrite length_map; lia).
    destruct (destroy_at _ w) as [[] w1|w1|]; simpl in Hd; [|done..].
    simpl. exists w1. split; [done|].
    rewrite removelast_last.
    split; [|split].
    + split; [simpl; lia|]. split; [simpl; lia|]. simpl. rewrite Hlo.
      destruct Hd as [-> _]. rewrite lookup_insert_eq. unfold slots.
      do 2 f_equal.
      replace (capacity_ (data_ v) - length xs0)
        with (S (capacity_ (data_ v) - size_ v)) by lia.
      done.
    + intros Hwf. eapply wf_changed_update; eauto.
    + destruct Hd as (_ & _ & _ & -> & _). done.
Qed.


Lemma growth_failed_repr v xs (w w' : world T) :
  wf w → repr w v xs → growth_failed v xs w w' →
  ∃ xs', repr w' v xs' ∧ length xs' = length xs ∧ wf w'.
Proof.
  intros Hwf Hr Hg. pose proof (wf_growth_failed v xs w w' Hwf Hr Hg) as Hwf'.
  pose proof Hr as (Hn & Hc & Hb & Hfit).
  destruct Hg as [(k & j & Hw')|(_ & _ & lo & ex & re & k & j & Hlo & -> & _ & Hw')].
  - exists xs. split; [|done]. split; [done|]. split; [done|].
    destruct Hw' as [-> _]. done.
  - exists (map moved_from ex ++ re).
    assert (Hlen : length (map moved_from ex ++ re) = length (ex ++ re))
      by (by rewrite !length_app, length_map).
    split; [|done]. split; [lia|]. split; [lia|]. split; [|done].
    rewrite Hlo. destruct Hw' as [-> _]. apply lookup_insert_eq.
Qed.

(** [Resize]: on success the array holds the first [n] elements followed
    by value-initialised ones; on failure it holds as many elements as
    before. *)
Lemma Resize_yields n v xs (w : world T) :
  wf w → repr w v xs → representable n →
  yields (Resize F n (v, w))
    (fun _ s' => ∃ v' w',
       s' = (v', w') ∧
       repr w' v' (take n xs ++ replicate (n - length xs) value_init) ∧ wf w' ∧
       capacity_ (data_ v') = Nat.max (capacity_ (data_ v)) n)
    (fun s' => ∃ v' w' xs',
       s' = (v', w') ∧ repr w' v' xs' ∧ length xs' = length xs ∧ wf w').
Proof.
  intros Hwf Hr Hrep. pose proof Hr as (Hn & Hc & Hb & Hfit). unfold Resize.
  rewrite (bind_Normal _ _ (v, w) v (v, w)) by done.
  destruct (Nat.ltb_spec n (size_ v)) as [Hlt|Hge].
  - (* shrinking *)
    destruct (repr_buffer_nonempty w v xs Hr ltac:(lia)) as (lo & Hlo & Hheap).
    apply yields_bind.
    rewrite (bind_Normal _ _ _ _ _ (Raw_plus_ok (data_ v) n _ ltac:(lia))).
    rewrite Hlo. apply yields_outer.
    eapply yields_mono;
      [eapply (destroy_n_run lo (drop n xs) (map Some (take n xs))
                 (replicate (capacity_ (data_ v) - length xs) None))|..].
    + rewrite Hheap. unfold slots. by rewrite app_assoc, <- map_app, take_drop.
    + rewrite length_map, length_take. lia.
    + rewrite length_drop. lia.
    + intros [] w1 Hw1. cbv beta in Hw1. simpl. eexists _, _. split; [done|].
      replace (n - length xs) with 0 by lia. simpl. rewrite app_nil_r.
      split; [|split; [by eapply wf_changed_update|simpl; lia]].
      split; [simpl; rewrite length_take; lia|].
      split; [simpl; rewrite length_take; lia|]. split; [|done].
      simpl. rewrite Hlo. destruct Hw1 as [-> _]. rewrite lookup_insert_eq.
      f_equal. apply slots_destroy_tail; [rewrite length_take; lia|].
      f_equal. rewrite length_take. lia.
    + intros ? [].
  - destruct (Nat.ltb_spec (size_ v) n) as [Hgt|Heq].
    + (* growing *)
      apply yields_bind. apply yields_bind.
      assert (Hres : yields (Reserve F n (v, w))
                (fun _ s1 => ∃ v1 w1, s1 = (v1, w1) ∧ repr w1 v1 xs ∧ wf w1 ∧
                   capacity_ (data_ v1) = Nat.max (capacity_ (data_ v)) n)
                (fun s1 => ∃ w1, s1 = (v, w1) ∧ growth_failed v xs w w1)).
      { destruct (Nat.le_gt_cases n (capacity_ (data_ v))) as [Hle|Hbig].
        - unfold Reserve, bind, this, local.
          destruct (Nat.leb_spec n (capacity_ (data_ v))) as [_|]; [|lia].
          simpl. eexists _, _. split; [done|]. split; [done|]. split; [done|lia].
        - eapply yields_mono; [by apply Reserve_grows|..]; [|done].
          intros [] s1 (w1 & -> & Hw1 & Hfn). eexists _, _. split; [done|].
          split; [|split; [by eapply wf_changed_grown|simpl; lia]].
          split; [done|]. split; [simpl; lia|]. split; [|done]. simpl.
          destruct Hw1 as [-> _]. apply lookup_insert_eq. }
      eapply yields_mono; [exact Hres|..].
      * intros [] s1 (v1 & w1 & -> & Hr1 & Hwf1 & Hcap1).
        pose proof Hr1 as (Hn1 & Hc1 & Hb1 & Hfit1).
        rewrite (bind_Normal _ _ (v1, w1) v1 (v1, w1)) by done.
        rewrite (bind_Normal _ _ _ _ _ (Raw_plus_ok (data_ v1) (size_ v1) _ ltac:(lia))).
        assert (Hpos1 : 0 < capacity_ (data_ v1)) by lia.
        destruct (buffer_ (data_ v1)) as [l1|] eqn:Hl1; [|lia].
        apply yields_outer. unfold uninitialized_value_construct_n.
        rewrite Hn1.
        replace (length xs) with (length (map Some xs)) at 2 by apply length_map.
        eapply yields_mono;
          [eapply (uninit_value_loop_yields l1 _ (map Some xs)
                     (replicate (capacity_ (data_ v1) - n) None) (n - length xs) 0 w1)|..].
        -- rewrite Hb1. unfold slots. simpl. do 2 f_equal.
           rewrite <- replicate_add. f_equal. lia.
        -- intros [] w2 Hw2. cbv beta in Hw2. simpl. eexists _, _. split; [done|].
           rewrite take_ge by lia.
           split; [|split; [by eapply wf_changed_update|simpl; lia]].
           split; [simpl; rewrite length_app, length_replicate; lia|].
           split; [simpl; rewrite length_app, length_replicate; lia|]. split; [|done].
           simpl. rewrite Hl1. destruct Hw2 as [-> _]. rewrite lookup_insert_eq.
           f_equal. unfold slots.
           rewrite map_app, fmap_replicate, <- app_assoc.
           do 3 f_equal. rewrite length_app, length_replicate. lia.
        -- intros w2 [j Hw2]. simpl in Hw2. exists v1, w2, xs. split; [done|].
           split; [|split; [done|by eapply wf_changed_update]].
           split; [done|]. split; [done|]. split; [|done]. rewrite Hl1.
           destruct Hw2 as [-> _]. rewrite lookup_insert_eq. f_equal.
           unfold slots. do 2 f_equal. rewrite <- replicate_add. f_equal. lia.
      * intros s1 (w1 & -> & Hg).
        destruct (growth_failed_repr v xs w w1 Hwf Hr Hg) as (xs' & Hr' & Hlen & Hwf').
        by exists v, w1, xs'.
    + (* the size stays *)
      assert (n = size_ v) as -> by lia. simpl.
      eexists _, _. split; [done|].
      rewrite take_ge by lia. rewrite Hn, Nat.sub_diag. simpl. rewrite app_nil_r.
      split; [|split; [done|simpl; lia]].
      split; [done|]. split; [done|]. done.
Qed.

End Rules.

(** ** Without faults nothing throws *)

(** The outcome is not an exception. *)
Definition no_throw {S A} (o : outcome S A) : Prop :=
  match o with Throws _ => False | _ => True end.

(** The computation throws from no state. *)
Definition never_throws {S A} (m : M S A) : Prop := ∀ s, no_throw (m s).

Lemma never_throws_ret {S A} (a : A) : never_throws (@ret S A a).
Proof. by intros s. Qed.

Lemma never_throws_bind {S A B} (m : M S A) (k : A → M S B) :
  never_throws m → (∀ a, never_throws (k a)) → never_throws (x <- m ;; k x).
Proof.
  intros Hm Hk s. unfold bind. specialize (Hm s).
  destruct (m s); simpl in *; [apply Hk|done..].
Qed.

Lemma never_throws_undefined {S A} : never_throws (@undefined S A).
Proof. by intros s. Qed.

Lemma never_throws_assert {S} (b : bool) : never_throws (@assert S b).
Proof. by destruct b. Qed.

Lemma never_throws_try_catch {S A} (body : M S A) (handler : M S unit) :
  never_throws body → never_throws (try_catch body handler).
Proof.
  intros Hb s. unfold try_catch. specialize (Hb s). by destruct (body s).
Qed.

Lemma never_throws_outer {L S A} (m : M S A) :
  never_throws m → never_throws (@outer L S A m).
Proof.
  intros Hm [l s]. unfold outer. specialize (Hm s). by destruct (m s).
Qed.

Lemma never_throws_local {L S} : never_throws (@local L S).
Proof. by intros [l s]. Qed.

Lemma never_throws_set_local {L S} (l : L) : never_throws (@set_local L S l).
Proof. by intros [l' s]. Qed.

Lemma never_throws_scope {L S A} (ctor : M S L) (body : M (L * S) A) (dtor : L → M S unit) :
  never_throws ctor → never_throws body → (∀ l, never_throws (dtor l)) →
  never_throws (scope ctor body dtor).
Proof.
  intros Hc Hb Hd s. unfold scope. specialize (Hc s).
  destruct (ctor s) as [l s1| |]; [|done..].
  specialize (Hb (l, s1)). destruct (body (l, s1)) as [a [l' s2]|[l' s2]|]; [|done..].
  specialize (Hd l' s2). by destruct (dtor l' s2).
Qed.

Lemma yields_no_throw {S A} (o : outcome S A) QN QE :
  yields o QN QE → no_throw o → ∃ a s', o = Normal a s' ∧ QN a s'.
Proof. intros Hy Hn. destruct o as [a s'| |]; [eauto|done..]. Qed.

Lemma yields_never_throws {S A} (m : M S A) s QN QE :
  yields (m s) QN QE → never_throws m → ∃ a s', m s = Normal a s' ∧ QN a s'.
Proof. intros Hy Hn. eapply yields_no_throw; [exact Hy|apply Hn]. Qed.

(** The same from one state: what runs first may depend on the state, what
    follows throws from no state. *)
Lemma no_throw_never {S A} (m : M S A) s : never_throws m → no_throw (m s).
Proof. intros Hm. apply Hm. Qed.

Lemma no_throw_bind {S A B} (m : M S A) (k : A → M S B) s :
  no_throw (m s) → (∀ a, never_throws (k a)) → no_throw ((x <- m ;; k x) s).
Proof.
  intros Hm Hk. unfold bind. destruct (m s) as [a s'| |]; [apply Hk|done..].
Qed.

Lemma no_throw_outer {L S A} (m : M S A) (l : L) s :
  no_throw (m s) → no_throw (outer m (l, s)).
Proof. intros Hm. unfold outer. by destruct (m s). Qed.

Lemma no_throw_scope {L S A} (ctor : M S L) (body : M (L * S) A) (dtor : L → M S unit) s :
  no_throw (ctor s) → never_throws body → (∀ l, never_throws (dtor l)) →
  no_throw (scope ctor body dtor s).
Proof.
  intros Hc Hb Hd. unfold scope.
  destruct (ctor s) as [l s1| |]; [|done..].
  specialize (Hb (l, s1)). destruct (body (l, s1)) as [a [l' s2]|[l' s2]|]; [|done..].
  specialize (Hd l' s2). by destruct (dtor l' s2).
Qed.

(** No element operation throws and the free store grants every request. *)
Definition quiet (F : faults) : Prop :=
  (∀ op k, throws F op k = false) ∧ (∀ k, alloc_fails F k = false).

Lemma no_faults_quiet : quiet no_faults.
Proof. done. Qed.

Section Quiet.
Context {T : Type} `{Element T}.
Variable F : faults.
Hypothesis Hquiet : quiet F.

Lemma never_throws_deref p : never_throws (@deref T p).
Proof.
  intros w. unfold deref. destruct (base p); [|done].
  destruct (heap w !! _); [|done]. by destruct (_ !! off p) as [[|]|].
Qed.

Lemma never_throws_store p x : never_throws (@store T p x).
Proof.
  intros w. unfold store. destruct (base p); [|done].
  destruct (heap w !! _); [|done]. by destruct (decide _).
Qed.

Lemma never_throws_call op : never_throws (@call T _ F op).
Proof.
  intros w. unfold call, will_throw. destruct Hquiet as [Hq _].
  destruct op; by rewrite ?Hq, ?andb_false_r.
Qed.

(** An allocation throws only for a request larger than an object can be. *)
Lemma no_throw_Allocate n (w : world T) : fits n → no_throw (Allocate F n w).
Proof.
  intros Hn. unfold Allocate, operator_new. destruct Hquiet as [_ Hq].
  destruct (n =? 0); [done|]. rewrite Hq, orb_false_r.
  rewrite byte_count_representable by (by apply fits_representable).
  by destruct (N.ltb_spec PTRDIFF_MAX (N.of_nat n * N.pos sizeof_T)) as [Hbig|_];
    [unfold fits in Hn; lia|].
Qed.

Lemma no_throw_RawMemory_ctor n (w : world T) :
  fits n → no_throw (RawMemory_ctor F n w).
Proof.
  intros Hn. unfold RawMemory_ctor.
  apply no_throw_bind; [by apply no_throw_Allocate|intros; apply never_throws_ret].
Qed.

Lemma never_throws_Deallocate b : never_throws (@Deallocate T b).
Proof.
  intros w. unfold Deallocate. destruct b; [|done]. by destruct (heap w !! _).
Qed.

Lemma never_throws_count_constructed : never_throws (@count_constructed T).
Proof. by intros w. Qed.
Lemma never_throws_count_destroyed : never_throws (@count_destroyed T).
Proof. by intros w. Qed.
Lemma never_throws_count_assigned : never_throws (@count_assigned T).
Proof. by intros w. Qed.

Lemma never_throws_Raw_plus {St} r n : never_throws (@Raw_plus St r n).
Proof. apply never_throws_bind; [apply never_throws_assert|intros; apply never_throws_ret]. Qed.

Lemma never_throws_Raw_at {St} r n : never_throws (@Raw_at St r n).
Proof. apply never_throws_bind; [apply never_throws_assert|intros; apply never_throws_ret]. Qed.

(** One step of the syntax-directed proof that a computation never throws. *)
Ltac quiet_step :=
  lazymatch goal with
  | |- never_throws (ret _) => apply never_throws_ret
  | |- never_throws undefined => apply never_throws_undefined
  | |- never_throws (assert _) => apply never_throws_assert
  | |- never_throws local => apply never_throws_local
  | |- never_throws (set_local _) => apply never_throws_set_local
  | |- never_throws (deref _) => apply never_throws_deref
  | |- never_throws (store _ _) => apply never_throws_store
  | |- never_throws (call _ _) => apply never_throws_call
  | |- never_throws (Deallocate _) => apply never_throws_Deallocate
  | |- never_throws count_constructed => apply never_throws_count_constructed
  | |- never_throws count_destroyed => apply never_throws_count_destroyed
  | |- never_throws count_assigned => apply never_throws_count_assigned
  | |- never_throws (Raw_plus _ _) => apply never_throws_Raw_plus
  | |- never_throws (Raw_at _ _) => apply never_throws_Raw_at
  | |- never_throws (bind _ _) => apply never_throws_bind; [|intros ?]
  | |- never_throws (try_catch _ _) => apply never_throws_try_catch
  | |- never_throws (outer _) => apply never_throws_outer
  | |- never_throws (scope _ _ _) => apply never_throws_scope; [| |intros ?]
  | |- never_throws (if ?b then _ else _) => destruct b
  | |- never_throws (match ?x with _ => _ end) => destruct x
  end.
Ltac quiet_auto := repeat quiet_step.

Lemma never_throws_construct_at p a : never_throws (construct_at F p a).
Proof. unfold construct_at. quiet_auto. Qed.
Lemma never_throws_copy_construct p q : never_throws (copy_construct F p q).
Proof. unfold copy_construct. quiet_auto. Qed.
Lemma never_throws_move_construct p q : never_throws (move_construct F p q).
Proof. unfold move_construct. quiet_auto. Qed.
Lemma never_throws_value_construct p : never_throws (value_construct F p).
Proof. unfold value_construct. quiet_auto. Qed.
Lemma never_throws_copy_assign p q : never_throws (copy_assign F p q).
Proof. unfold copy_assign. quiet_auto. Qed.
Lemma never_throws_move_assign p q : never_throws (move_assign F p q).
Proof. unfold move_assign. quiet_auto. Qed.
Lemma never_throws_move_assign_from p v : never_throws (move_assign_from F p v).
Proof. unfold move_assign_from. quiet_auto. Qed.
Lemma never_throws_destroy_at p : never_throws (@destroy_at T p).
Proof. unfold destroy_at. quiet_auto. Qed.

Lemma never_throws_destroy_n n : ∀ p, never_throws (@destroy_n T p n).
Proof.
  induction n as [|n IH]; intros p; simpl; [apply never_throws_ret|].
  apply never_throws_bind; [apply never_throws_destroy_at|intros; apply IH].
Qed.

Lemma never_throws_uninitialized_loop build first d_first n :
  (∀ p q, never_throws (build p q)) →
  ∀ k, never_throws (@uninitialized_loop T build first d_first k n).
Proof.
  intros Hb. induction n as [|n IH]; intros k; simpl; [apply never_throws_ret|].
  apply never_throws_bind; [apply never_throws_try_catch, Hb|intros; apply IH].
Qed.

Lemma never_throws_for_loop {St} (body : nat → M St unit) n :
  (∀ i, never_throws (body i)) → ∀ i, never_throws (for_loop i n body).
Proof.
  intros Hb. induction n as [|n IH]; intros i; simpl; [apply never_throws_ret|].
  apply never_throws_bind; [apply Hb|intros; apply IH].
Qed.

Lemma never_throws_move_loop n : ∀ p q, never_throws (move_loop F p q n).
Proof.
  induction n as [|n IH]; intros p q; simpl; [apply never_throws_ret|].
  apply never_throws_bind; [apply never_throws_move_assign|intros; apply IH].
Qed.

Lemma never_throws_move_backward_loop n : ∀ p q, never_throws (move_backward_loop F p q n).
Proof.
  induction n as [|n IH]; intros p q; simpl; [apply never_throws_ret|].
  apply never_throws_bind; [apply never_throws_move_assign|intros; apply IH].
Qed.

Ltac quiet_all :=
  repeat
    lazymatch goal with
    | |- never_throws (construct_at _ _ _) => apply never_throws_construct_at
    | |- never_throws (copy_construct _ _ _) => apply never_throws_copy_construct
    | |- never_throws (move_construct _ _ _) => apply never_throws_move_construct
    | |- never_throws (value_construct _ _) => apply never_throws_value_construct
    | |- never_throws (copy_assign _ _ _) => apply never_throws_copy_assign
    | |- never_throws (move_assign _ _ _) => apply never_throws_move_assign
    | |- never_throws (move_assign_from _ _ _) => apply never_throws_move_assign_from
    | |- never_throws (destroy_at _) => apply never_throws_destroy_at
    | |- never_throws (destroy_n _ _) => apply never_throws_destroy_n
    | |- never_throws (move_loop _ _ _ _) => apply never_throws_move_loop
    | |- never_throws (move_backward_loop _ _ _ _) => apply never_throws_move_backward_loop
    | |- never_throws (uninitialized_loop _ _ _ _ _) =>
        apply never_throws_uninitialized_loop; intros ? ?
    | |- never_throws (for_loop _ _ _) => apply never_throws_for_loop; intros ?
    | |- _ => quiet_step
    end.

Lemma never_throws_UCOM p n q : never_throws (UninitializedCopyOrMoveN F p n q).
Proof.
  unfold UninitializedCopyOrMoveN, uninitialized_move_n, uninitialized_copy_n. quiet_all.
Qed.

Lemma never_throws_MakeNewData : never_throws (MakeNewData F).
Proof.
  unfold MakeNewData, this, set_data, this.
  repeat first [apply never_throws_UCOM | quiet_all].
Qed.

Lemma never_throws_RawMemory_dtor r : never_throws (@RawMemory_dtor T r).
Proof. unfold RawMemory_dtor. quiet_all. Qed.

Lemma no_throw_Reserve n v (w : world T) :
  (capacity_ (data_ v) < n → fits n) → no_throw (Reserve F n (v, w)).
Proof.
  intros Hn. unfold Reserve. rewrite (bind_Normal _ _ (v, w) v (v, w)) by done.
  destruct (Nat.leb_spec n (capacity_ (data_ v))) as [|Hlt]; [done|].
  apply no_throw_scope.
  - apply no_throw_outer, no_throw_RawMemory_ctor. auto.
  - apply never_throws_MakeNewData.
  - intros l. apply never_throws_outer, never_throws_RawMemory_dtor.
Qed.

Lemma no_throw_append_body a v (w : world T) :
  can_grow v → no_throw (append_body F a (v, w)).
Proof.
  intros Hg. unfold append_body. rewrite (bind_Normal _ _ (v, w) v (v, w)) by done.
  destruct (Nat.eqb_spec (size_ v) (capacity_ (data_ v))) as [Heq|_]; cbn [negb].
  - apply no_throw_scope.
    + apply no_throw_outer, no_throw_RawMemory_ctor. auto.
    + unfold MakeNewDataSafe.
      repeat first [apply never_throws_MakeNewData | quiet_all].
    + intros l. apply never_throws_outer, never_throws_RawMemory_dtor.
  - apply no_throw_never. quiet_all.
Qed.

Lemma no_throw_PushBack a v (w : world T) :
  can_grow v → no_throw (PushBack F a (v, w)).
Proof.
  intros Hg. unfold PushBack.
  apply no_throw_bind; [by apply no_throw_append_body|intros _].
  unfold set_size, this. quiet_all.
Qed.

Lemma no_throw_EmplaceBack a v (w : world T) :
  can_grow v → no_throw (EmplaceBack F a (v, w)).
Proof.
  intros Hg. unfold EmplaceBack.
  apply no_throw_bind; [by apply no_throw_append_body|intros _].
  unfold set_size, this. quiet_all.
Qed.

Lemma no_throw_Resize n v (w : world T) :
  (capacity_ (data_ v) < n → fits n) → no_throw (Resize F n (v, w)).
Proof.
  intros Hn. unfold Resize. rewrite (bind_Normal _ _ (v, w) v (v, w)) by done.
  apply no_throw_bind; [|intros _; unfold set_size, this; quiet_all].
  destruct (n <? size_ v); [apply no_throw_never; quiet_all|].
  destruct (size_ v <? n); [|done].
  apply no_throw_bind; [by apply no_throw_Reserve|intros _].
  unfold this, uninitialized_value_construct_n. quiet_all.
Qed.

Lemma no_throw_Vector_copy other (w : world T) :
  fits (size_ other) → no_throw (Vector_copy F other w).
Proof.
  intros Hn. unfold Vector_copy.
  apply no_throw_bind; [by apply no_throw_RawMemory_ctor|intros d].
  unfold RawMemory_dtor, uninitialized_copy_n. quiet_all.
Qed.

Lemma no_throw_Vector_sized n (w : world T) :
  fits n → no_throw (Vector_sized F n w).
Proof.
  intros Hn. unfold Vector_sized.
  apply no_throw_bind; [by apply no_throw_RawMemory_ctor|intros d].
  unfold RawMemory_dtor, uninitialized_value_construct_n. quiet_all.
Qed.

Lemma never_throws_Vector_dtor v : never_throws (@Vector_dtor T v).
Proof. unfold Vector_dtor, RawMemory_dtor. quiet_all. Qed.

Lemma no_throw_assign_copy other v (w : world T) :
  fits (size_ other) → no_throw (assign_copy F (Other other) (v, w)).
Proof.
  intros Hn. unfold assign_copy. rewrite (bind_Normal _ _ (v, w) v (v, w)) by done.
  destruct (Capacity v <? size_ other).
  - apply no_throw_scope.
    + by apply no_throw_outer, no_throw_Vector_copy.
    + unfold this, Swap. quiet_all.
    + intros l. apply never_throws_outer, never_throws_Vector_dtor.
  - apply no_throw_never. unfold set_size, this, uninitialized_copy_n. quiet_all.
Qed.

Lemma never_throws_Erase cpos : never_throws (Erase F cpos).
Proof.
  unfold Erase, begin_, end_, set_size, this, std_move. quiet_all.
Qed.

Lemma never_throws_PopBack : never_throws (@PopBack T).
Proof. unfold PopBack, set_size, this. quiet_all. Qed.

Lemma end_cases {St} v (s : St) :
  end_ (v, s) = Normal (Ptr (buffer_ (data_ v)) (size_ v)) (v, s) ∨ end_ (v, s) = Undefined.
Proof.
  unfold end_, Raw_plus, bind, this, local, assert.
  destruct (size_ v <=? capacity_ (data_ v)); auto.
Qed.

Lemma no_throw_Emplace cpos a v (w : world T) :
  can_grow v → no_throw (Emplace F cpos a (v, w)).
Proof.
  intros Hg. unfold Emplace, Emplace_with.
  rewrite (bind_Normal _ _ _ _ _ (begin_ok v w)).
  destruct (end_cases v w) as [He|He];
    [rewrite (bind_Normal _ _ _ _ _ He)|by rewrite (bind_Undefined _ _ _ He)].
  destruct (ptr_le _ cpos && ptr_le cpos _); cbn [assert];
    [rewrite (bind_Normal _ _ (v, w) tt (v, w)) by done|done].
  rewrite (bind_Normal _ _ (v, w) v (v, w)) by done.
  destruct (Nat.eqb_spec (size_ v) (capacity_ (data_ v))) as [Heq|_]; cbn [negb].
  - apply no_throw_scope.
    + apply no_throw_outer, no_throw_RawMemory_ctor. auto.
    + unfold set_size, set_data, this.
      repeat first [apply never_throws_UCOM | quiet_all].
    + intros l. apply never_throws_outer, never_throws_RawMemory_dtor.
  - apply no_throw_never.
    unfold begin_, end_, set_size, this, std_move_backward.
    repeat first [apply never_throws_UCOM | quiet_all].
Qed.

End Quiet.


(** * What the operations call

    The log of the element operations and the counts of constructions and
    destructions change in [call] and in the counting steps only: what an
    operation adds to them is read off its code alone, whatever the heap
    holds. *)

(** [exits o QN QE]: a normal completion satisfies [QN], a propagating
    exception [QE]; nothing is said of an undefined outcome. *)
Definition exits {S A} (o : outcome S A) (QN : A → S → Prop) (QE : S → Prop) : Prop :=
  match o with
  | Normal a s => QN a s
  | Throws s => QE s
  | Undefined => True
  end.

Lemma exits_mono {S A} (o : outcome S A) (QN QN' : A → S → Prop) (QE QE' : S → Prop) :
  exits o QN QE →
  (∀ a s, QN a s → QN' a s) → (∀ s, QE s → QE' s) →
  exits o QN' QE'.
Proof. destruct o; simpl; auto. Qed.

Lemma exits_bind {S A B} (m : M S A) (k : A → M S B) s QN QE :
  exits (m s) (fun a s' => exits (k a s') QN QE) QE →
  exits ((x <- m ;; k x) s) QN QE.
Proof. unfold bind. destruct (m s); simpl; auto. Qed.

Lemma exits_try_catch {S A} (body : M S A) (handler : M S unit) s QN QE :
  exits (body s) QN (fun s' => exits (handler s') (fun _ s'' => QE s'') QE) →
  exits (try_catch body handler s) QN QE.
Proof.
  unfold try_catch. destruct (body s) as [a s'|s'|]; simpl; auto.
  destruct (handler s'); simpl; auto.
Qed.

Lemma exits_outer {L S A} (m : M S A) (l : L) s QN QE :
  exits (m s) (fun a s' => QN a (l, s')) (fun s' => QE (l, s')) →
  exits (outer m (l, s)) QN QE.
Proof. unfold outer. destruct (m s); simpl; auto. Qed.

Lemma exits_scope {L S A} (ctor : M S L) (body : M (L * S) A) (dtor : L → M S unit) s QN QE :
  exits (ctor s)
    (fun l s1 => exits (body (l, s1))
       (fun a ls => exits (dtor ls.1 ls.2) (fun _ s3 => QN a s3) QE)
       (fun ls => exits (dtor ls.1 ls.2) (fun _ s3 => QE s3) QE))
    QE →
  exits (scope ctor body dtor s) QN QE.
Proof.
  unfold scope. destruct (ctor s) as [l s1|s1|]; simpl; auto.
  destruct (body (l, s1)) as [a [l' s2]|[l' s2]|]; simpl; auto.
  - destruct (dtor l' s2); simpl; auto.
  - destruct (dtor l' s2); simpl; auto.
Qed.

(** What holds of every defined outcome holds of the outcome of a call that
    is defined. *)
Lemma yields_exits {S A} (o : outcome S A) QN QE QN' QE' :
  yields o QN QE → exits o QN' QE' →
  yields o (fun a s => QN a s ∧ QN' a s) (fun s => QE s ∧ QE' s).
Proof. destruct o; simpl; auto. Qed.

Section Calls.
Context {T : Type} `{Element T}.
Variable F : faults.

(** What a run from [w] to [w'] adds to the record of the instrumented
    elements: the calls [l], the latest first, [c] constructions and [d]
    destructions. *)
Definition records (w w' : world T) (l : list elem_op) (c d : nat) : Prop :=
  calls w' = l ++ calls w ∧
  constructed w' = constructed w + c ∧
  destroyed w' = destroyed w + d.

Lemma records_refl (w : world T) : records w w [] 0 0.
Proof. unfold records. simpl. repeat split; lia. Qed.

Lemma records_trans (w w1 w2 : world T) l1 c1 d1 l2 c2 d2 :
  records w w1 l1 c1 d1 → records w1 w2 l2 c2 d2 →
  records w w2 (l2 ++ l1) (c1 + c2) (d1 + d2).
Proof.
  intros (Hl1 & ? & ?) (Hl2 & ? & ?). unfold records.
  rewrite Hl2, Hl1, app_assoc. repeat split; lia.
Qed.

Lemma records_eq (w w' : world T) l c d l' c' d' :
  records w w' l c d → l = l' → c = c' → d = d' → records w w' l' c' d'.
Proof. by intros ? <- <- <-. Qed.

(** Following [r1] by [r2]. *)
Ltac records_then H1 H2 :=
  eapply records_eq; [exact (records_trans _ _ _ _ _ _ _ _ _ H1 H2)|..];
  rewrite ?app_nil_l, ?app_nil_r; try done; try lia.

(** *** The steps *)

Lemma deref_records p (w : world T) :
  exits (deref p w) (fun _ w' => w' = w) (fun _ => False).
Proof.
  unfold deref. destruct (base p); [|done].
  destruct (heap w !! _); [|done]. by destruct (_ !! off p) as [[|]|].
Qed.

Lemma store_records p x (w : world T) :
  exits (store p x w) (fun _ w' => records w w' [] 0 0) (fun _ => False).
Proof.
  unfold store. destruct (base p); [|done].
  destruct (heap w !! _); [|done]. destruct (decide _); [|done].
  unfold records. simpl. repeat split; lia.
Qed.

Lemma call_records op (w : world T) :
  exits (call F op w) (fun _ w' => records w w' [op] 0 0)
                      (fun w' => records w w' [op] 0 0).
Proof.
  unfold call. destruct (will_throw F op (ticks w)); simpl;
    unfold records; simpl; repeat split; lia.
Qed.

Lemma count_constructed_records (w : world T) :
  exits (count_constructed w) (fun _ w' => records w w' [] 1 0) (fun _ => False).
Proof. unfold records. simpl. repeat split; lia. Qed.

Lemma count_destroyed_records (w : world T) :
  exits (count_destroyed w) (fun _ w' => records w w' [] 0 1) (fun _ => False).
Proof. unfold records. simpl. repeat split; lia. Qed.

Lemma count_assigned_records (w : world T) :
  exits (count_assigned w) (fun _ w' => records w w' [] 0 0) (fun _ => False).
Proof. unfold records. simpl. repeat split; lia. Qed.

(** A construction: one call, and one object more unless the call throws. *)
Definition constructs (m : M (world T) unit) (op : elem_op) : Prop :=
  ∀ w, exits (m w) (fun _ w' => records w w' [op] 1 0)
                   (fun w' => records w w' [op] 0 0).

(** An assignment: one call, no object more or less. *)
Definition assigns (m : M (world T) unit) : Prop :=
  ∀ w, exits (m w) (fun _ w' => records w w' [MoveAssign] 0 0)
                   (fun w' => records w w' [MoveAssign] 0 0).

Lemma construct_at_records p a : constructs (construct_at F p a) (init_op a).
Proof.
  intros w. unfold construct_at.
  apply exits_bind. eapply exits_mono; [apply call_records|..]; [|done].
  intros [] w1 Hw1. apply exits_bind.
  eapply exits_mono; [apply store_records|..]; [|done].
  intros [] w2 Hw2.
  eapply exits_mono; [apply count_constructed_records|..]; [|done].
  intros [] w3 Hw3. cbv beta.
  pose proof (records_trans _ _ _ _ _ _ _ _ _ Hw1 Hw2) as H12.
  records_then H12 Hw3.
Qed.

Lemma copy_construct_records p q : constructs (copy_construct F p q) CopyCtor.
Proof.
  intros w. unfold copy_construct.
  apply exits_bind. eapply exits_mono; [apply deref_records|..]; [|done].
  intros x ? ->.
  apply exits_bind. eapply exits_mono; [apply call_records|..]; [|done].
  intros [] w1 Hw1. apply exits_bind.
  eapply exits_mono; [apply store_records|..]; [|done].
  intros [] w2 Hw2.
  eapply exits_mono; [apply count_constructed_records|..]; [|done].
  intros [] w3 Hw3. cbv beta.
  pose proof (records_trans _ _ _ _ _ _ _ _ _ Hw1 Hw2) as H12.
  records_then H12 Hw3.
Qed.

Lemma move_construct_records p q : constructs (move_construct F p q) MoveCtor.
Proof.
  intros w. unfold move_construct.
  apply exits_bind. eapply exits_mono; [apply deref_records|..]; [|done].
  intros x ? ->.
  apply exits_bind. eapply exits_mono; [apply call_records|..]; [|done].
  intros [] w1 Hw1. apply exits_bind.
  eapply exits_mono; [apply store_records|..]; [|done].
  intros [] w2 Hw2. apply exits_bind.
  eapply exits_mono; [apply store_records|..]; [|done].
  intros [] w3 Hw3.
  eapply exits_mono; [apply count_constructed_records|..]; [|done].
  intros [] w4 Hw4. cbv beta.
  pose proof (records_trans _ _ _ _ _ _ _ _ _ Hw1 Hw2) as H12.
  pose proof (records_trans _ _ _ _ _ _ _ _ _ H12 Hw3) as H13.
  records_then H13 Hw4.
Qed.

Lemma value_construct_records p : constructs (value_construct F p) ValueCtor.
Proof.
  intros w. unfold value_construct.
  apply exits_bind. eapply exits_mono; [apply call_records|..]; [|done].
  intros [] w1 Hw1. apply exits_bind.
  eapply exits_mono; [apply store_records|..]; [|done].
  intros [] w2 Hw2.
  eapply exits_mono; [apply count_constructed_records|..]; [|done].
  intros [] w3 Hw3. cbv beta.
  pose proof (records_trans _ _ _ _ _ _ _ _ _ Hw1 Hw2) as H12.
  records_then H12 Hw3.
Qed.

Lemma move_assign_records p q : assigns (move_assign F p q).
Proof.
  intros w. unfold move_assign.
  apply exits_bind. eapply exits_mono; [apply deref_records|..]; [|done].
  intros x ? ->.
  apply exits_bind. eapply exits_mono; [apply deref_records|..]; [|done].
  intros z ? ->.
  apply exits_bind. eapply exits_mono; [apply call_records|..]; [|done].
  intros [] w1 Hw1. apply exits_bind.
  eapply exits_mono; [apply store_records|..]; [|done].
  intros [] w2 Hw2. apply exits_bind.
  eapply exits_mono; [apply store_records|..]; [|done].
  intros [] w3 Hw3.
  eapply exits_mono; [apply count_assigned_records|..]; [|done].
  intros [] w4 Hw4. cbv beta.
  pose proof (records_trans _ _ _ _ _ _ _ _ _ Hw1 Hw2) as H12.
  pose proof (records_trans _ _ _ _ _ _ _ _ _ H12 Hw3) as H13.
  records_then H13 Hw4.
Qed.

Lemma move_assign_from_records p x : assigns (move_assign_from F p x).
Proof.
  intros w. unfold move_assign_from.
  apply exits_bind. eapply exits_mono; [apply deref_records|..]; [|done].
  intros z ? ->.
  apply exits_bind. eapply exits_mono; [apply call_records|..]; [|done].
  intros [] w1 Hw1. apply exits_bind.
  eapply exits_mono; [apply store_records|..]; [|done].
  intros [] w2 Hw2.
  eapply exits_mono; [apply count_assigned_records|..]; [|done].
  intros [] w3 Hw3. cbv beta.
  pose proof (records_trans _ _ _ _ _ _ _ _ _ Hw1 Hw2) as H12.
  records_then H12 Hw3.
Qed.

Lemma destroy_at_records p (w : world T) :
  exits (destroy_at p w) (fun _ w' => records w w' [] 0 1) (fun _ => False).
Proof.
  unfold destroy_at.
  apply exits_bind. eapply exits_mono; [apply deref_records|..]; [|done].
  intros x ? ->.
  apply exits_bind. eapply exits_mono; [apply store_records|..]; [|done].
  intros [] w1 Hw1.
  eapply exits_mono; [apply count_destroyed_records|..]; [|done].
  intros [] w2 Hw2. cbv beta. records_then Hw1 Hw2.
Qed.

Lemma destroy_n_records n : ∀ p (w : world T),
  exits (destroy_n p n w) (fun _ w' => records w w' [] 0 n) (fun _ => False).
Proof.
  induction n as [|n IH]; intros p w; simpl; [apply records_refl|].
  apply exits_bind. eapply exits_mono; [apply destroy_at_records|..]; [|done].
  intros [] w1 Hw1.
  eapply exits_mono; [apply IH|..]; [|done].
  intros [] w2 Hw2. cbv beta. records_then Hw1 Hw2.
Qed.

(** *** The loops *)

(** The loop of the uninitialized algorithms with [k] objects built: on
    success it has made one call per object; when a call throws, the [k]
    objects and those the loop built are destroyed again. *)
Lemma uninitialized_loop_records build op first d_first :
  (∀ p q, constructs (build p q) op) →
  ∀ n k (w : world T),
  exits (uninitialized_loop build first d_first k n w)
    (fun _ w' => records w w' (replicate n op) n 0)
    (fun w' => ∃ j, j < n ∧ records w w' (replicate (S j) op) j (k + j)).
Proof.
  intros Hbuild. induction n as [|n IH]; intros k w; simpl; [apply records_refl|].
  apply exits_bind, exits_try_catch.
  eapply exits_mono; [apply Hbuild|..].
  - intros [] w1 Hw1.
    eapply exits_mono; [apply (IH (S k) w1)|..].
    + intros [] w2 Hw2. cbv beta.
      records_then Hw1 Hw2. by rewrite <- replicate_S_end.
    + intros w2 (j & Hj & Hw2). exists (S j). split; [lia|].
      records_then Hw1 Hw2. by rewrite <- replicate_S_end.
  - intros w1 Hw1.
    eapply exits_mono; [apply destroy_n_records|..]; [|done].
    intros [] w2 Hw2. exists 0. split; [lia|].
    records_then Hw1 Hw2.
Qed.

(** The constructor that [UninitializedCopyOrMoveN] calls. *)
Definition transfer_op : elem_op :=
  if is_nothrow_move_constructible || negb is_copy_constructible
  then MoveCtor else CopyCtor.

Lemma UCOM_records from n to (w : world T) :
  exits (UninitializedCopyOrMoveN F from n to w)
    (fun _ w' => records w w' (replicate n transfer_op) n 0)
    (fun w' => ∃ j, j < n ∧ records w w' (replicate (S j) transfer_op) j j).
Proof.
  unfold UninitializedCopyOrMoveN, transfer_op.
  destruct (is_nothrow_move_constructible || negb is_copy_constructible).
  - apply (uninitialized_loop_records _ MoveCtor). apply move_construct_records.
  - apply (uninitialized_loop_records _ CopyCtor). apply copy_construct_records.
Qed.

(** The loop of [std::move_backward]: one assignment per element. *)
Lemma move_backward_loop_records n : ∀ last d_last (w : world T),
  exits (move_backward_loop F last d_last n w)
    (fun _ w' => records w w' (replicate n MoveAssign) 0 0)
    (fun w' => ∃ j, j < n ∧ records w w' (replicate (S j) MoveAssign) 0 0).
Proof.
  induction n as [|n IH]; intros last d_last w; simpl; [apply records_refl|].
  apply exits_bind.
  eapply exits_mono; [apply move_assign_records|..].
  - intros [] w1 Hw1.
    eapply exits_mono; [apply IH|..].
    + intros [] w2 Hw2. cbv beta.
      records_then Hw1 Hw2. by rewrite <- replicate_S_end.
    + intros w2 (j & Hj & Hw2). exists (S j). split; [lia|].
      records_then Hw1 Hw2. by rewrite <- replicate_S_end.
  - intros w1 Hw1. exists 0. split; [lia|done].
Qed.

(** *** Allocation *)

Lemma RawMemory_ctor_records n (w : world T) :
  exits (RawMemory_ctor F n w)
    (fun r w' => buffer_ r ≠ None ∧ n ≠ 0 ∧ records w w' [] 0 0 ∨
                 r = mkRaw None 0 ∧ n = 0 ∧ w' = w)
    (fun w' => records w w' [] 0 0).
Proof.
  unfold RawMemory_ctor, bind, Allocate, operator_new.
  destruct (Nat.eqb_spec n 0) as [->|Hn]; simpl; [by right|].
  destruct (_ || _); simpl; [unfold records; simpl; repeat split; lia|].
  left. split; [done|]. split; [done|]. unfold records. simpl. repeat split; lia.
Qed.

Lemma RawMemory_dtor_records r (w : world T) :
  exits (RawMemory_dtor r w) (fun _ w' => records w w' [] 0 0) (fun _ => False).
Proof.
  unfold RawMemory_dtor, Deallocate. destruct (buffer_ r); [|apply records_refl].
  destruct (heap w !! _); [|done]. unfold records. simpl. repeat split; lia.
Qed.

(** *** Growth *)

Lemma MakeNewData_records new_data v (w : world T) :
  exits (MakeNewData F (new_data, (v, w)))
    (fun _ s' => records w s'.2.2 (replicate (size_ v) transfer_op) (size_ v) (size_ v))
    (fun s' => ∃ j, j < size_ v ∧ records w s'.2.2 (replicate (S j) transfer_op) j j).
Proof.
  unfold MakeNewData.
  apply exits_bind; simpl. apply exits_bind; simpl.
  apply exits_bind. apply exits_outer, exits_outer.
  eapply exits_mono; [apply UCOM_records|..]; [|done].
  intros [] w1 Hw1. apply exits_bind. apply exits_outer, exits_outer.
  eapply exits_mono; [apply destroy_n_records|..]; [|done].
  intros [] w2 Hw2. apply exits_bind. simpl.
  records_then Hw1 Hw2.
Qed.

(** Leaving the block of a growth: the local [new_data] is destroyed. *)
Lemma dtor_records (ls : RawMemory * (Vector * world T)) (Q QE : Vector * world T → Prop) :
  (∀ w', records ls.2.2 w' [] 0 0 → Q (ls.2.1, w')) →
  exits (outer (RawMemory_dtor ls.1) ls.2) (fun _ s3 => Q s3) QE.
Proof.
  intros HQ. destruct ls as [r [v w]]. apply exits_outer.
  eapply exits_mono; [apply RawMemory_dtor_records|..]; [|done].
  intros [] w' Hw'. by apply HQ.
Qed.

(** [Reserve] beyond the capacity calls the constructor of the transfer
    once per element, and nothing else. *)
Lemma Reserve_records n v (w : world T) :
  capacity_ (data_ v) < n →
  exits (Reserve F n (v, w))
    (fun _ s' => records w s'.2 (replicate (size_ v) transfer_op) (size_ v) (size_ v))
    (fun s' => ∃ j, j ≤ size_ v ∧ records w s'.2 (replicate j transfer_op) (j - 1) (j - 1)).
Proof.
  intros Hlt. unfold Reserve. apply exits_bind. simpl.
  destruct (Nat.leb_spec n (capacity_ (data_ v))) as [|_]; [lia|].
  apply exits_scope, exits_outer.
  eapply exits_mono; [apply RawMemory_ctor_records|..].
  - intros r w1 [(_ & _ & Hw1)|(_ & -> & _)]; [|lia].
    eapply exits_mono; [apply MakeNewData_records|..].
    + intros [] ls Hls. apply dtor_records. intros w3 Hw3. simpl.
      pose proof (records_trans _ _ _ _ _ _ _ _ _ Hw1 Hls) as H12.
      records_then H12 Hw3.
    + intros ls (j & Hj & Hls). apply dtor_records. intros w3 Hw3. simpl.
      exists (S j). split; [lia|].
      pose proof (records_trans _ _ _ _ _ _ _ _ _ Hw1 Hls) as H12.
      records_then H12 Hw3.
  - intros w1 Hw1. simpl. exists 0. split; [lia|done].
Qed.

(** What a failed growth for a new element has called: nothing when the
    allocation failed, else the constructor of the new element and the
    constructor of the transfer for some of the elements. *)
Definition growth_calls (a : init T) (size : nat) (w w' : world T) : Prop :=
  records w w' [] 0 0 ∨
  ∃ j, j ≤ size ∧ records w w' (replicate j transfer_op ++ [init_op a]) j j.

(** An append to a full array calls the constructor of the new element,
    then the constructor of the transfer once per element. *)
Lemma append_body_records a v (w : world T) :
  size_ v = capacity_ (data_ v) →
  exits (append_body F a (v, w))
    (fun _ s' => records w s'.2 (replicate (size_ v) transfer_op ++ [init_op a])
                   (S (size_ v)) (size_ v))
    (fun s' => growth_calls a (size_ v) w s'.2).
Proof.
  intros Hfull. unfold append_body. apply exits_bind. simpl.
  destruct (Nat.eqb_spec (size_ v) (capacity_ (data_ v))) as [_|]; [|done]. cbn [negb].
  apply exits_scope, exits_outer.
  eapply exits_mono; [apply RawMemory_ctor_records|..].
  - intros r w1 Hw1.
    assert (Hw1' : records w w1 [] 0 0)
      by (destruct Hw1 as [(_ & _ & ?)|(_ & _ & ->)]; [done|apply records_refl]).
    clear Hw1. apply exits_bind. simpl.
    apply exits_bind. unfold Raw_plus at 1. apply exits_bind.
    destruct (size_ v <=? capacity_ r); [|done]. simpl.
    apply exits_bind, exits_outer, exits_outer.
    eapply exits_mono; [apply construct_at_records|..].
    + intros [] w2 Hw2. unfold MakeNewDataSafe. apply exits_try_catch.
      eapply exits_mono; [apply MakeNewData_records|..].
      * intros [] ls Hls. apply dtor_records. intros w4 Hw4. simpl.
        pose proof (records_trans _ _ _ _ _ _ _ _ _ Hw1' Hw2) as H12.
        pose proof (records_trans _ _ _ _ _ _ _ _ _ H12 Hls) as H13.
        records_then H13 Hw4.
      * intros [r' [v' w3]] (j & Hj & Hls). simpl in Hls.
        apply exits_outer, exits_outer.
        eapply exits_mono; [apply destroy_at_records|..]; [|done].
        intros [] w4 Hw4.
        apply (dtor_records (r', (v', w4))). intros w5 Hw5. simpl.
        right. exists (S j). split; [lia|].
        pose proof (records_trans _ _ _ _ _ _ _ _ _ Hw1' Hw2) as H12.
        pose proof (records_trans _ _ _ _ _ _ _ _ _ H12 Hls) as H13.
        pose proof (records_trans _ _ _ _ _ _ _ _ _ H13 Hw4) as H14.
        records_then H14 Hw5.
    + intros w2 Hw2.
      apply (dtor_records (r, (v, w2))). intros w3 Hw3. simpl.
      right. exists 0. split; [lia|].
      pose proof (records_trans _ _ _ _ _ _ _ _ _ Hw1' Hw2) as H12.
      records_then H12 Hw3.
  - intros w1 Hw1. simpl. by left.
Qed.

Lemma PushBack_records a v (w : world T) :
  size_ v = capacity_ (data_ v) →
  exits (PushBack F a (v, w))
    (fun _ s' => records w s'.2 (replicate (size_ v) transfer_op ++ [init_op a])
                   (S (size_ v)) (size_ v))
    (fun s' => growth_calls a (size_ v) w s'.2).
Proof.
  intros Hfull. unfold PushBack. apply exits_bind.
  eapply exits_mono; [by apply append_body_records|..]; [|done].
  by intros [] [v1 w1] Hw1.
Qed.

Lemma EmplaceBack_records a v (w : world T) :
  size_ v = capacity_ (data_ v) →
  exits (EmplaceBack F a (v, w))
    (fun _ s' => records w s'.2 (replicate (size_ v) transfer_op ++ [init_op a])
                   (S (size_ v)) (size_ v))
    (fun s' => growth_calls a (size_ v) w s'.2).
Proof.
  intros Hfull. unfold EmplaceBack. apply exits_bind.
  eapply exits_mono; [by apply append_body_records|..]; [|done].
  intros [] [v1 w1] Hw1. apply exits_bind. simpl. apply exits_bind. simpl.
  unfold Raw_at. apply exits_bind. by destruct (size_ v1 <? capacity_ (data_ v1)).
Qed.

(** *** Insertion *)

(** [Emplace] into a full array calls what an append to it calls. *)
Lemma Emplace_realloc_records k a v (w : world T) :
  k ≤ size_ v → size_ v = capacity_ (data_ v) →
  exits (Emplace F (Ptr (buffer_ (data_ v)) k) a (v, w))
    (fun _ s' => records w s'.2 (replicate (size_ v) transfer_op ++ [init_op a])
                   (S (size_ v)) (size_ v))
    (fun s' => growth_calls a (size_ v) w s'.2).
Proof.
  intros Hk Hfull. unfold Emplace, Emplace_with.
  rewrite (bind_Normal _ _ _ _ _ (begin_ok v w)).
  rewrite (bind_Normal _ _ _ _ _ (end_ok v w ltac:(lia))).
  rewrite !ptr_le_same by lia. cbn [andb assert].
  rewrite (bind_Normal _ _ (v, w) tt (v, w)) by done.
  rewrite (bind_Normal _ _ (v, w) v (v, w)) by done.
  destruct (Nat.eqb_spec (size_ v) (capacity_ (data_ v))) as [_|]; [|lia]. cbn [negb].
  cbn [off]. rewrite Nat.sub_0_r.
  apply exits_scope, exits_outer.
  eapply exits_mono; [apply RawMemory_ctor_records|..].
  - intros r w1 Hw1.
    assert (Hw1' : records w w1 [] 0 0)
      by (destruct Hw1 as [(_ & _ & ?)|(_ & _ & ->)]; [done|apply records_refl]).
    clear Hw1. apply exits_bind. simpl.
    apply exits_bind. unfold Raw_plus at 1. apply exits_bind.
    destruct (k <=? capacity_ r); [|done]. simpl.
    apply exits_bind, exits_outer, exits_outer.
    eapply exits_mono; [apply construct_at_records|..].
    + intros [] w2 Hw2.
      pose proof (records_trans _ _ _ _ _ _ _ _ _ Hw1' Hw2) as H12.
      apply exits_bind, exits_try_catch, exits_outer, exits_outer.
      eapply exits_mono; [apply UCOM_records|..].
      * intros [] w3 Hw3.
        pose proof (records_trans _ _ _ _ _ _ _ _ _ H12 Hw3) as H13.
        apply exits_bind, exits_try_catch.
        apply exits_bind. unfold Raw_plus at 1. apply exits_bind.
        destruct (k <=? capacity_ (data_ v)); [|done]. cbn [assert ret exits].
        apply exits_outer, exits_outer.
        eapply exits_mono; [apply UCOM_records|..].
        -- intros [] w4 Hw4.
           pose proof (records_trans _ _ _ _ _ _ _ _ _ H13 Hw4) as H14.
           apply exits_bind, exits_outer, exits_outer.
           eapply exits_mono; [apply destroy_n_records|..]; [|done].
           intros [] w5 Hw5.
           pose proof (records_trans _ _ _ _ _ _ _ _ _ H14 Hw5) as H15.
           simpl. apply (dtor_records (_, (_, w5))). intros w6 Hw6. simpl.
           records_then H15 Hw6.
           rewrite !app_assoc, <- replicate_add. do 2 f_equal. lia.
        -- intros w4 (j & Hj & Hw4).
           pose proof (records_trans _ _ _ _ _ _ _ _ _ H13 Hw4) as H14.
           apply exits_outer, exits_outer.
           eapply exits_mono; [apply destroy_n_records|..]; [|done].
           intros [] w5 Hw5.
           pose proof (records_trans _ _ _ _ _ _ _ _ _ H14 Hw5) as H15.
           apply (dtor_records (r, (v, w5))). intros w6 Hw6. simpl.
           right. exists (S j + k). split; [lia|].
           records_then H15 Hw6.
           rewrite !app_assoc, <- replicate_add. done.
      * intros w3 (j & Hj & Hw3).
        pose proof (records_trans _ _ _ _ _ _ _ _ _ H12 Hw3) as H13.
        apply exits_outer, exits_outer.
        eapply exits_mono; [apply destroy_at_records|..]; [|done].
        intros [] w4 Hw4.
        pose proof (records_trans _ _ _ _ _ _ _ _ _ H13 Hw4) as H14.
        apply (dtor_records (r, (v, w4))). intros w5 Hw5. simpl.
        right. exists (S j). split; [lia|].
        records_then H14 Hw5.
    + intros w2 Hw2.
      apply (dtor_records (r, (v, w2))). intros w3 Hw3. simpl.
      right. exists 0. split; [lia|].
      pose proof (records_trans _ _ _ _ _ _ _ _ _ Hw1' Hw2) as H12.
      records_then H12 Hw3.
  - intros w1 Hw1. simpl. by left.
Qed.

(** What [Emplace] before the end of an array with spare capacity has
    called when it completes: the constructor of the temporary, the move
    constructor for the copy of the last element, and one move assignment
    for each of the [shifted] elements and for the new value. *)
Definition in_place_calls (a : init T) (assignments : nat) : list elem_op :=
  replicate assignments MoveAssign ++ [MoveCtor; init_op a].

(** ... and what it has called and built when it throws: the call that
    threw is the latest. Only a throw of the final assignment, after all
    the calls of a complete run, leaves an object more than before. *)
Definition in_place_failure (a : init T) (assignments : nat) (w w' : world T) : Prop :=
  records w w' [init_op a] 0 0 ∨
  records w w' [MoveCtor; init_op a] 0 0 ∨
  (∃ j, 0 < j < assignments ∧ records w w' (in_place_calls a j) 1 1) ∨
  records w w' (in_place_calls a assignments) 1 0.

Lemma Emplace_in_place_records k a v (w : world T) :
  k < size_ v → size_ v < capacity_ (data_ v) →
  exits (Emplace F (Ptr (buffer_ (data_ v)) k) a (v, w))
    (fun _ s' => records w s'.2 (in_place_calls a (size_ v - k)) 1 0)
    (fun s' => in_place_failure a (size_ v - k) w s'.2).
Proof.
  intros Hk Hroom. unfold Emplace, Emplace_with, in_place_failure, in_place_calls.
  rewrite (bind_Normal _ _ _ _ _ (begin_ok v w)).
  rewrite (bind_Normal _ _ _ _ _ (end_ok v w ltac:(lia))).
  rewrite !ptr_le_same by lia. cbn [andb assert].
  rewrite (bind_Normal _ _ (v, w) tt (v, w)) by done.
  rewrite (bind_Normal _ _ (v, w) v (v, w)) by done.
  destruct (Nat.eqb_spec (size_ v) (capacity_ (data_ v))) as [|_]; [lia|]. cbn [negb].
  destruct (Nat.eqb_spec (size_ v) 0) as [|_]; [lia|].
  cbn [off]. rewrite Nat.sub_0_r.
  (* T emplacing_element(args...) *)
  apply exits_bind, exits_outer.
  eapply exits_mono; [apply call_records|..]; [|by left].
  intros [] w1 Hw1.
  rewrite (bind_Normal _ _ _ _ _ (end_ok v w1 ltac:(lia))).
  rewrite (bind_Normal _ _ _ _ _ (Raw_at_ok (data_ v) (size_ v - 1) _ ltac:(lia))).
  (* new (end()) T(std::move(data_[size_ - 1])) *)
  apply exits_bind, exits_outer.
  eapply exits_mono; [apply move_construct_records|..].
  2:{ intros w2 Hw2. right. left. records_then Hw1 Hw2. }
  intros [] w2 Hw2.
  pose proof (records_trans _ _ _ _ _ _ _ _ _ Hw1 Hw2) as H12.
  rewrite (bind_Normal _ _ _ _ _ (begin_ok v w2)).
  (* std::move_backward(pos, end() - 1, end()) *)
  apply exits_bind, exits_try_catch.
  rewrite (bind_Normal _ _ _ _ _ (end_ok v w2 ltac:(lia))).
  apply exits_outer. unfold std_move_backward. apply exits_bind.
  unfold ptr_add, ptr_sub, valid_range. cbn [base off].
  rewrite bool_decide_eq_true_2 by done.
  destruct (Nat.leb_spec (0 + k) (size_ v - 1)) as [_|]; [|lia]. cbn [andb assert].
  unfold ret at 1. cbn [exits].

  eapply exits_mono; [apply move_backward_loop_records|..].
  - intros [] w3 Hw3.
    pose proof (records_trans _ _ _ _ _ _ _ _ _ H12 Hw3) as H13.
    (* *pos = std::move(emplacing_element) *)
    apply exits_bind, exits_outer.
    eapply exits_mono; [apply move_assign_from_records|..].
    + intros [] w4 Hw4. simpl.
      records_then H13 Hw4.
      replace (size_ v - k) with (S (size_ v - 1 - (0 + k))) by lia.
      by rewrite replicate_S.
    + intros w4 Hw4. do 3 right.
      records_then H13 Hw4.
      replace (size_ v - k) with (S (size_ v - 1 - (0 + k))) by lia.
      by rewrite replicate_S.
  - intros w3 (j & Hj & Hw3).
    pose proof (records_trans _ _ _ _ _ _ _ _ _ H12 Hw3) as H13.
    rewrite (bind_Normal _ _ _ _ _ (end_ok v w3 ltac:(lia))).
    apply exits_outer.
    eapply exits_mono; [apply destroy_at_records|..]; [|done].
    intros [] w4 Hw4. do 2 right. left. exists (S j). split; [lia|].
    records_then H13 Hw4.
Qed.

End Calls.
(** * Properties of the container *)

(** ** Appending: what a failure leaves behind *)

Section Append.
Context {T : Type} `{Element T}.
Variable F : faults.

Lemma append_failure_cases (a : init T) (v : Vector) (xs : list T) (w : world T)
    (s' : Vector * world T) :
  wf w → repr w v xs →
  PushBack F a (v, w) = Throws s' ∨ (EmplaceBack F a (v, w) = Throws s') →
  ∃ w', s' = (v, w') ∧ growth_failed v xs w w'.
Proof.
  intros Hwf Hr [Ht|Ht].
  - exact (yields_Throws _ _ _ _ (PushBack_yields F a v xs w Hwf Hr) Ht).
  - exact (yields_Throws _ _ _ _ (EmplaceBack_yields F a v xs w Hwf Hr) Ht).
Qed.

(** C1 (amended): a failed [PushBack] or [EmplaceBack] leaves size and
    capacity as they were and destroys every object it constructed (the
    new element in the new buffer included), whatever failed: allocation,
    construction of the new element or the transfer. The array still holds
    its elements, a prefix of them possibly moved-from. When the element
    type is copy-constructible or its move constructor does not throw, the
    element values and the whole heap are as before the call. *)
Theorem append_failure_strong_guarantee (a : init T) (v : Vector) (xs : list T)
    (w : world T) (s' : Vector * world T) :
  wf w → repr w v xs →
  PushBack F a (v, w) = Throws s' ∨ EmplaceBack F a (v, w) = Throws s' →
  s'.1 = v ∧
  constructed s'.2 + destroyed w = constructed w + destroyed s'.2 ∧
  (∃ extra remaining,
     xs = extra ++ remaining ∧ repr s'.2 v (map moved_from extra ++ remaining)) ∧
  (is_copy_constructible = true ∨ is_nothrow_move_constructible = true →
   heap s'.2 = heap w ∧ repr s'.2 v xs).
Proof.
  intros Hwf Hr Ht.
  destruct (append_failure_cases a v xs w s' Hwf Hr Ht) as (w' & -> & Hg).
  simpl. split; [done|]. pose proof Hr as (Hn & Hc & Hb & Hfit).
  destruct Hg as [(k & j & Hw')|(Hu & Hnt & lo & extra & remaining & k & j & Hlo & Hxs & Hrem & Hw')].
  - unfold changed in Hw'. split; [lia|]. destruct Hw' as (Hh & _).
    assert (Hr' : repr w' v xs) by (split; [done|]; split; [done|]; by rewrite Hh).
    split; [by exists [], xs|done].
  - unfold changed in Hw'. split; [lia|]. split.
    + exists extra, remaining. split; [done|].
      assert (Hlen : length (map moved_from extra ++ remaining) = length xs)
        by (by rewrite Hxs, !length_app, length_map).
      split; [lia|]. split; [lia|]. split; [|done]. rewrite Hlo.
      destruct Hw' as (-> & _). apply lookup_insert_eq.
    + intros [Hcc|Hnm]; [|congruence].
      unfold uses_move in Hu. rewrite Hcc, Hnt in Hu. done.
Qed.

End Append.

Lemma four_bytes : (4 ≤ PTRDIFF_MAX)%N.
Proof. by vm_compute. Qed.

Lemma eight_bytes : (8 ≤ PTRDIFF_MAX)%N.
Proof. by vm_compute. Qed.

(** An element type like [int]: moving leaves the value, copies may throw. *)
Definition plain_element : Element nat :=
  {| moved_from := fun x => x; value_init := 0;
     is_nothrow_move_constructible := false; is_copy_constructible := true;
     sizeof_T := 4; sizeof_T_max := four_bytes |}.

(** A move-only handle, like a [unique_ptr] with a move constructor that
    is not [noexcept]: a moved-from handle is null (0). *)
Definition move_only_handle : Element nat :=
  {| moved_from := fun _ => 0; value_init := 0;
     is_nothrow_move_constructible := false; is_copy_constructible := false;
     sizeof_T := 8; sizeof_T_max := eight_bytes |}.

(** The [k]-th element operation throws when it is an [op]. *)
Definition throw_at (op : elem_op) (k : nat) : faults :=
  Faults (fun op' k' =>
            match op, op' with
            | CopyCtor, CopyCtor | MoveCtor, MoveCtor | ArgsCtor, ArgsCtor
            | ValueCtor, ValueCtor | CopyAssign, CopyAssign | MoveAssign, MoveAssign => k' =? k
            | _, _ => false
            end)
         (fun _ => false).

(** A full array [7, 8] in the buffer at address 0. *)
Definition full_pair : Vector := mkVector (mkRaw (Some 0) 2) 2.
Definition full_pair_world : world nat :=
  World {[0 := [Some 7; Some 8]]} 1 0 0 0 0 0 [].

Lemma full_pair_wf : wf full_pair_world.
Proof. intros l Hl. simpl in *. apply lookup_singleton_ne. lia. Qed.

Lemma full_pair_repr : @repr nat plain_element full_pair_world full_pair [7; 8].
Proof. repeat split; simpl; auto. by vm_compute. Qed.

Lemma full_pair_repr_handle : @repr nat move_only_handle full_pair_world full_pair [7; 8].
Proof. repeat split; simpl; auto. by vm_compute. Qed.

(** C1 as stated fails: with a move-only element whose second move in the
    transfer throws, the failed append leaves the first element moved-from. *)
Lemma append_failure_moved_elements :
  wf full_pair_world ∧ @repr nat move_only_handle full_pair_world full_pair [7; 8] ∧
  ∃ w', @EmplaceBack nat move_only_handle (throw_at MoveCtor 2) (ByArgs 9)
          (full_pair, full_pair_world) = Throws (full_pair, w') ∧
        heap w' !! 0 = Some [Some 0; Some 8] ∧
        ¬ @repr nat move_only_handle w' full_pair [7; 8].
Proof.
  split; [apply full_pair_wf|]. split; [apply full_pair_repr_handle|].
  eexists. split; [vm_compute; reflexivity|].
  split; [reflexivity|].
  intros (_ & _ & Hb & _). vm_compute in Hb. discriminate.
Qed.

Lemma append_failure_strong_guarantee_witness :
  ∃ s', @PushBack nat plain_element (throw_at CopyCtor 2) (ByCopy 9)
          (full_pair, full_pair_world) = Throws s' ∧
        s'.1 = full_pair ∧
        constructed s'.2 + destroyed full_pair_world =
          constructed full_pair_world + destroyed s'.2 ∧
        (∃ extra remaining,
           [7; 8] = extra ++ remaining ∧
           @repr nat plain_element s'.2 full_pair
             (map (@moved_from nat plain_element) extra ++ remaining)) ∧
        (@is_copy_constructible nat plain_element = true ∨
         @is_nothrow_move_constructible nat plain_element = true →
         heap s'.2 = heap full_pair_world ∧ @repr nat plain_element s'.2 full_pair [7; 8]).
Proof.
  eexists. split; [vm_compute; reflexivity|].
  apply (@append_failure_strong_guarantee nat plain_element (throw_at CopyCtor 2) (ByCopy 9)
           full_pair [7; 8] full_pair_world).
  - apply full_pair_wf.
  - apply full_pair_repr.
  - left. vm_compute. reflexivity.
Defined.

(** ** Appending: sequences of appends from the empty array *)

(** One call of an append operation. *)
Inductive append_call (T : Type) :=
| CallPushBack (a : init T)
| CallEmplaceBack (a : init T).
Arguments CallPushBack {T} a.
Arguments CallEmplaceBack {T} a.

Definition call_value {T} (c : append_call T) : T :=
  match c with CallPushBack a | CallEmplaceBack a => init_value a end.

(** [cap] is a capacity that doubling reaches for [n] elements: 0 for the
    empty array, else a power of two below [2 * n]. *)
Definition doubling (n cap : nat) : Prop :=
  (n = 0 ∧ cap = 0) ∨ (∃ i, cap = 2 ^ i ∧ cap < 2 * n).

Lemma doubling_least n cap j : doubling n cap → n ≤ 2 ^ j → cap ≤ 2 ^ j.
Proof.
  intros [[-> ->]|(i & -> & Hlt)] Hle; [lia|].
  assert (2 ^ i < 2 ^ (S j)) as Hpow by (rewrite Nat.pow_succ_r'; lia).
  apply Nat.pow_lt_mono_r_iff in Hpow; [|lia].
  apply Nat.pow_le_mono_r; lia.
Qed.

Lemma doubling_step n cap :
  n ≤ cap → doubling n cap →
  doubling (S n) (if n <? cap then cap else grown n).
Proof.
  intros Hle Hd. destruct (Nat.ltb_spec n cap) as [Hlt|Hge].
  - destruct Hd as [[-> ->]|(i & -> & Hlt')]; [lia|].
    right. exists i. split; [done|lia].
  - assert (n = cap) as -> by lia. unfold grown.
    destruct Hd as [[_ ->]|(i & -> & Hlt')].
    + right. exists 0. simpl. lia.
    + right. exists (S i).
      assert (2 ^ i ≠ 0) by (apply Nat.pow_nonzero; lia).
      destruct (Nat.eqb_spec (2 ^ i) 0); [lia|].
      rewrite Nat.pow_succ_r'. lia.
Qed.

Section Appends.
Context {T : Type} `{Element T}.
Variable F : faults.

Definition run_append (c : append_call T) : M (Vector * world T) unit :=
  match c with
  | CallPushBack a => PushBack F a
  | CallEmplaceBack a => EmplaceBack F a ;; ret tt
  end.

Fixpoint run_appends (cs : list (append_call T)) : M (Vector * world T) unit :=
  match cs with
  | [] => ret tt
  | c :: cs' => run_append c ;; run_appends cs'
  end.

Lemma run_append_yields c v xs (w : world T) :
  wf w → repr w v xs →
  yields (run_append c (v, w))
    (fun _ s' => ∃ v' w', s' = (v', w') ∧ appended
                   (match c with CallPushBack a | CallEmplaceBack a => a end) v xs w v' w')
    (fun _ => True).
Proof.
  intros Hwf Hr. destruct c as [a|a]; simpl.
  - eapply yields_mono; [by apply PushBack_yields|..]; done.
  - apply yields_bind.
    eapply yields_mono; [by apply EmplaceBack_yields|..]; [|done].
    intros p s' (v' & w' & -> & Happ & _). simpl. eauto.
Qed.

Lemma appended_capacity a v xs (w : world T) v' w' :
  repr w v xs → appended a v xs w v' w' →
  Capacity v' = if size_ v <? Capacity v then Capacity v else grown (size_ v).
Proof.
  intros (Hn & Hc & _) (_ & _ & [(Hlt & Hd & _)|(Heq & Hd & _)]); unfold Capacity in *.
  - rewrite Hd. by destruct (Nat.ltb_spec (size_ v) (capacity_ (data_ v))); [|lia].
  - rewrite Hd. simpl. by destruct (Nat.ltb_spec (size_ v) (capacity_ (data_ v))); [lia|].
Qed.

Lemma run_appends_from cs : ∀ v xs (w : world T) s',
  wf w → repr w v xs → doubling (length xs) (Capacity v) →
  run_appends cs (v, w) = Normal tt s' →
  repr s'.2 s'.1 (xs ++ map call_value cs) ∧ wf s'.2 ∧
  doubling (length xs + length cs) (Capacity s'.1).
Proof.
  induction cs as [|c cs IH]; intros v xs w s' Hwf Hr Hd Hrun; simpl in Hrun.
  - injection Hrun as <-. simpl. rewrite app_nil_r, Nat.add_0_r. done.
  - unfold bind in Hrun.
    pose proof (run_append_yields c v xs w Hwf Hr) as Hy.
    destruct (run_append c (v, w)) as [[] s1|s1|]; [|done..].
    destruct Hy as (v1 & w1 & -> & Happ).
    pose proof (appended_capacity _ v xs w v1 w1 Hr Happ) as Hcap.
    destruct Happ as (Hr1 & Hwf1 & _).
    assert (Hv : call_value c = init_value match c with CallPushBack a | CallEmplaceBack a => a end)
      by (by destruct c).
    rewrite <- Hv in Hr1.
    destruct (IH v1 (xs ++ [call_value c]) w1 s' Hwf1 Hr1) as (Hr' & Hwf' & Hd'); [|done|].
    + rewrite length_app. simpl. rewrite Nat.add_1_r, Hcap.
      destruct Hr as (Hn & Hc & _). rewrite Hn.
      apply doubling_step; [exact Hc|exact Hd].
    + rewrite <- app_assoc in Hr'. simpl in Hr'. split; [done|]. split; [done|].
      rewrite length_app in Hd'. simpl in *.
      by replace (length xs + S (length cs)) with (length xs + 1 + length cs) by lia.
Qed.

Lemma no_throw_run_append c v (w : world T) :
  quiet F → can_grow v → no_throw (run_append c (v, w)).
Proof.
  intros Hq Hg. destruct c; simpl.
  - by apply no_throw_PushBack.
  - apply no_throw_bind; [by apply no_throw_EmplaceBack|intros; apply never_throws_ret].
Qed.

(** The buffer that an append grows into holds at most twice the elements
    there are after the append. *)
Lemma grown_le_twice n m : n < m → grown n ≤ 2 * m.
Proof. unfold grown. destruct (Nat.eqb_spec n 0); lia. Qed.

(** Without faults a sequence of appends completes, provided that
    [operator new] may grant a buffer of twice the final size. *)
Lemma run_appends_complete cs : ∀ v xs (w : world T),
  quiet F → wf w → repr w v xs → fits (2 * (length xs + length cs)) →
  ∃ s', run_appends cs (v, w) = Normal tt s'.
Proof.
  induction cs as [|c cs IH]; intros v xs w Hq Hwf Hr Hfit; simpl; [by eexists|].
  assert (Hg : can_grow v).
  { intros _. eapply fits_le; [|exact Hfit].
    destruct Hr as (-> & _). apply grown_le_twice. simpl. lia. }
  destruct (yields_no_throw _ _ _ (run_append_yields c v xs w Hwf Hr)
              (no_throw_run_append c v w Hq Hg))
    as ([] & s1 & Heq & v1 & w1 & -> & Hr1 & Hwf1 & _).
  rewrite (bind_Normal _ _ _ _ _ Heq). eapply IH; [done..|].
  rewrite length_app. simpl in *.
  by replace (length xs + 1 + length cs) with (length xs + S (length cs)) by lia.
Qed.

(** C4: [k] successful appends from the default-constructed array leave
    size [k], the appended values in order, and a capacity that is at
    most every power of two that is at least [k], hence at most the
    smallest one; and an append to a full array allocates one new buffer
    of capacity max(size * 2, 1), while an append with room allocates
    nothing. The appends all succeed when nothing throws and a buffer of
    [2 * k] elements is not more than [operator new] grants. *)
Theorem appends_from_empty (cs : list (append_call T)) (w : world T) :
  wf w →
  (quiet F → fits (2 * length cs) →
   ∃ s', run_appends cs (Vector_default, w) = Normal tt s') ∧
  (∀ s', run_appends cs (Vector_default, w) = Normal tt s' →
     Size s'.1 = length cs ∧
     repr s'.2 s'.1 (map call_value cs) ∧
     (∀ j, length cs ≤ 2 ^ j → Capacity s'.1 ≤ 2 ^ j)) ∧
  (∀ c v xs (w1 : world T) v' w', wf w1 → repr w1 v xs →
     run_append c (v, w1) = Normal tt (v', w') →
     if Size v =? Capacity v
     then Capacity v' = Nat.max (Size v * 2) 1 ∧
          buffer_ (data_ v') = Some (fresh w1) ∧ fresh w' = fresh w1 + 1
     else data_ v' = data_ v ∧ fresh w' = fresh w1).
Proof.
  intros Hwf.
  pose proof (repr_default w) as Hr0.
  split; [|split].
  - intros Hq Hfit. by eapply run_appends_complete.
  - intros s' Hrun.
    destruct (run_appends_from cs Vector_default [] w s' Hwf) as (Hr & _ & Hd);
      [done|by left|done|].
    simpl in Hr, Hd.
    split; [destruct Hr as [Hs _]; unfold Size; rewrite Hs; apply length_map|].
    split; [done|].
    intros j Hj; by eapply doubling_least.
  - intros c v xs w1 v' w' Hwf1 Hr1 Hrun.
    pose proof (yields_Normal _ _ _ _ _ (run_append_yields c v xs w1 Hwf1 Hr1) Hrun)
      as (v2 & w2 & Heq & Happ).
    injection Heq as <- <-.
    destruct Happ as (_ & _ & [(Hlt & Hdata & Hfr & _)|(Heq & Hdata & Hfr & _)]);
      unfold Size, Capacity.
    + destruct (Nat.eqb_spec (size_ v) (capacity_ (data_ v))); [lia|done].
    + destruct (Nat.eqb_spec (size_ v) (capacity_ (data_ v))); [|done].
      rewrite Hdata. simpl. split; [|done].
      unfold grown. destruct (Nat.eqb_spec (size_ v) 0); lia.
Qed.

End Appends.

Definition empty_world : world nat := World ∅ 0 0 0 0 0 0 [].

Lemma empty_world_wf : wf empty_world.
Proof. intros l _. apply lookup_empty. Qed.

Definition three_appends : list (append_call nat) :=
  [CallPushBack (ByCopy 1); CallPushBack (ByMove 2); CallEmplaceBack (ByArgs 3)].

Lemma appends_from_empty_witness :
  ∃ s', @run_appends nat plain_element no_faults three_appends
          (Vector_default, empty_world) = Normal tt s' ∧
        Size s'.1 = 3 ∧ @repr nat plain_element s'.2 s'.1 [1; 2; 3] ∧ Capacity s'.1 ≤ 4.
Proof.
  destruct (@appends_from_empty nat plain_element no_faults three_appends
              empty_world empty_world_wf) as (Hrun & Hall & _).
  destruct (Hrun no_faults_quiet ltac:(by vm_compute)) as [s' Heq].
  exists s'. split; [exact Heq|].
  destruct (Hall s' Heq) as (Hs & Hr & Hc).
  split; [exact Hs|]. split; [exact Hr|]. apply (Hc 2). simpl. lia.
Defined.

(** ** Reserve, transfer, move assignment *)

Section Growth.
Context {T : Type} `{Element T}.
Variable F : faults.

Lemma repr_grown (w w' : world T) v xs n :
  wf w → repr w v xs → length xs ≤ n → fits n →
  changed w w' (<[fresh w := slots xs n]> (released (buffer_ (data_ v)) (heap w)))
    1 (length xs) (length xs) 0 →
  repr w' (mkVector (mkRaw (Some (fresh w)) n) (size_ v)) xs ∧ wf w'.
Proof.
  intros Hwf (Hn & _ & _) Hle Hfit Hw'. split; [|by eapply wf_changed_grown].
  split; [done|]. split; [done|]. split; [|done]. simpl.
  destruct Hw' as [-> _]. apply lookup_insert_eq.
Qed.

(** C6 (amended): [Reserve(n)] with [n] at most the capacity returns at
    once and changes neither the array (same buffer address, capacity and
    size) nor anything in the world; with [n] above the capacity, and
    [n * sizeof(T)] not beyond [SIZE_MAX], it either fails or leaves
    capacity exactly [n], the same size and the same elements in a new
    buffer; and it does not fail when nothing throws and the [n] elements
    are not more than [operator new] grants. *)
Theorem Reserve_noop_or_exact (n : nat) (v : Vector) (xs : list T) (w : world T) :
  wf w → repr w v xs →
  (n ≤ Capacity v → Reserve F n (v, w) = Normal tt (v, w)) ∧
  (Capacity v < n → representable n →
   yields (Reserve F n (v, w))
     (fun _ s' => Capacity s'.1 = n ∧ Size s'.1 = Size v ∧ repr s'.2 s'.1 xs ∧
                  buffer_ (data_ s'.1) = Some (fresh w))
     (fun _ => True)) ∧
  (quiet F → fits n → ∃ s', Reserve F n (v, w) = Normal tt s').
Proof.
  intros Hwf Hr.
  assert (Hnoop : n ≤ Capacity v → Reserve F n (v, w) = Normal tt (v, w)).
  { intros Hle. unfold Reserve, bind, this, local, Capacity in *. simpl.
    by destruct (Nat.leb_spec n (capacity_ (data_ v))) as [_|]; [|lia]. }
  assert (Hgrow : Capacity v < n → representable n →
            yields (Reserve F n (v, w))
              (fun _ s' => Capacity s'.1 = n ∧ Size s'.1 = Size v ∧ repr s'.2 s'.1 xs ∧
                           buffer_ (data_ s'.1) = Some (fresh w))
              (fun _ => True)).
  { intros Hlt Hrep.
    eapply yields_mono; [by apply Reserve_grows|..]; [|done].
    intros [] s' (w' & -> & Hw' & Hfn). simpl.
    destruct (repr_grown w w' v xs n Hwf Hr) as [Hr' _]; [|done|done|done].
    destruct Hr as (_ & Hc & _). unfold Capacity in Hlt. lia. }
  split; [done|]. split; [done|]. intros Hq Hfit.
  destruct (Nat.le_gt_cases n (Capacity v)) as [Hle|Hlt]; [eauto|].
  destruct (yields_no_throw _ _ _ (Hgrow Hlt (fits_representable n Hfit))
              (no_throw_Reserve F Hq n v w (fun _ => Hfit)))
    as ([] & s' & Heq & _).
  eauto.
Qed.

End Growth.

(** A number of [int]s whose size in bytes wraps around to 4:
    [2^62 + 1]. *)
Definition wrapping_count : nat := N.to_nat 4611686018427387905.

Lemma wrapping_count_bytes : @byte_count nat plain_element wrapping_count = 4%N.
Proof. unfold byte_count, wrapping_count. rewrite N2Nat.id. reflexivity. Qed.

Lemma wrapping_count_large : 2 < wrapping_count.
Proof. unfold wrapping_count. lia. Qed.

(** With a request of 4 bytes the new buffer has one slot, and the
    transfer of two elements runs beyond it. *)
Lemma Reserve_wraps (n : nat) :
  2 < n → @byte_count nat plain_element n = 4%N →
  @Reserve nat plain_element no_faults n (full_pair, full_pair_world) = Undefined.
Proof.
  intros Hn Hb. unfold Reserve.
  rewrite (bind_Normal _ _ _ full_pair (full_pair, full_pair_world)) by done.
  destruct (Nat.leb_spec n (capacity_ (data_ full_pair))) as [Hle|_];
    [simpl in Hle; lia|].
  unfold scope, outer, RawMemory_ctor, bind, Allocate.
  destruct (Nat.eqb_spec n 0) as [|_]; [lia|].
  unfold operator_new. rewrite Hb. vm_compute. reflexivity.
Qed.

(** C6 as stated fails: on the array [7, 8] of [int]s, [Reserve(2^62 + 1)]
    asks [operator new] for [(2^62 + 1) * 4] bytes, which is 4 in [size_t];
    the call does not leave capacity [2^62 + 1], it is undefined. *)
Lemma Reserve_byte_count_wraps :
  wf full_pair_world ∧ @repr nat plain_element full_pair_world full_pair [7; 8] ∧
  Capacity full_pair < wrapping_count ∧
  (N.of_nat wrapping_count ≤ SIZE_MAX)%N ∧
  @byte_count nat plain_element wrapping_count = 4%N ∧
  @Reserve nat plain_element no_faults wrapping_count (full_pair, full_pair_world)
    = Undefined ∧
  ¬ yields (@Reserve nat plain_element no_faults wrapping_count (full_pair, full_pair_world))
      (fun _ s' => Capacity s'.1 = wrapping_count ∧ Size s'.1 = Size full_pair ∧
                   @repr nat plain_element s'.2 s'.1 [7; 8])
      (fun _ => True).
Proof.
  pose proof (Reserve_wraps wrapping_count wrapping_count_large wrapping_count_bytes)
    as Hu.
  split; [apply full_pair_wf|]. split; [apply full_pair_repr|].
  split; [apply wrapping_count_large|].
  split; [unfold wrapping_count; rewrite N2Nat.id; by vm_compute|].
  split; [apply wrapping_count_bytes|].
  split; [exact Hu|]. intros Hy. rewrite Hu in Hy. exact Hy.
Qed.

Lemma Reserve_noop_or_exact_witness :
  @Reserve nat plain_element no_faults 2 (full_pair, full_pair_world)
    = Normal tt (full_pair, full_pair_world) ∧
  yields (@Reserve nat plain_element no_faults 5 (full_pair, full_pair_world))
    (fun _ s' => Capacity s'.1 = 5 ∧ Size s'.1 = Size full_pair ∧
                 @repr nat plain_element s'.2 s'.1 [7; 8] ∧
                 buffer_ (data_ s'.1) = Some (fresh full_pair_world))
    (fun _ => True).
Proof.
  destruct (@Reserve_noop_or_exact nat plain_element no_faults 2 full_pair [7; 8]
              full_pair_world full_pair_wf full_pair_repr) as [Hnoop _].
  destruct (@Reserve_noop_or_exact nat plain_element no_faults 5 full_pair [7; 8]
              full_pair_world full_pair_wf full_pair_repr) as (_ & Hgrow & _).
  split; [apply Hnoop; vm_compute; lia|apply Hgrow; [vm_compute; lia|by vm_compute]].
Defined.

(** ** Move assignment *)

(** C2 (amended): move assignment from a distinct array exchanges the two
    arrays: the target takes over the buffer, size and elements of the
    source, and the source takes over those of the target; nothing in the
    heap is touched. The source is left empty exactly when the target was
    empty before. *)
Theorem move_assign_exchanges {T : Type} `{Element T} (v u : Vector) (xs ys : list T)
    (w : world T) :
  repr w v xs → repr w u ys →
  ∃ v' u', assign_move v (Other u) = (v', Other u') ∧
           v' = u ∧ u' = v ∧
           repr w v' ys ∧ repr w u' xs ∧
           (Size u' = 0 ↔ xs = []).
Proof.
  intros Hv Hu. exists u, v. split; [reflexivity|].
  split; [done|]. split; [done|]. split; [done|]. split; [done|].
  destruct Hv as (Hn & _). unfold Size. rewrite Hn.
  split; [apply length_zero_iff_nil|intros ->; done].
Qed.

(** Two arrays in one heap: [v] = [1] at address 0, [u] = [2, 3] at 1. *)
Definition target_one : Vector := mkVector (mkRaw (Some 0) 1) 1.
Definition source_two : Vector := mkVector (mkRaw (Some 1) 2) 2.
Definition two_arrays : world nat :=
  World {[0 := [Some 1]; 1 := [Some 2; Some 3]]} 2 0 0 0 0 0 [].

Lemma two_arrays_wf : wf two_arrays.
Proof.
  intros l Hl. simpl in *.
  rewrite lookup_insert_ne by lia. apply lookup_singleton_ne. lia.
Qed.

Lemma target_one_repr : @repr nat plain_element two_arrays target_one [1].
Proof. repeat split; simpl; auto. by vm_compute. Qed.

Lemma source_two_repr : @repr nat plain_element two_arrays source_two [2; 3].
Proof. repeat split; simpl; auto. by vm_compute. Qed.

(** C2 as stated fails: after [v = std::move(u)] the source [u] holds what
    [v] held, one live element, and is not empty. *)
Lemma move_assign_source_not_emptied :
  @repr nat plain_element two_arrays target_one [1] ∧
  @repr nat plain_element two_arrays source_two [2; 3] ∧
  ∃ u', assign_move target_one (Other source_two) = (source_two, Other u') ∧
        Size u' = 1 ∧ @repr nat plain_element two_arrays u' [1] ∧ Size u' ≠ 0.
Proof.
  split; [apply target_one_repr|]. split; [apply source_two_repr|].
  exists target_one. split; [reflexivity|]. split; [reflexivity|].
  split; [apply target_one_repr|]. simpl. lia.
Qed.

Lemma move_assign_exchanges_witness :
  ∃ v' u', assign_move target_one (Other source_two) = (v', Other u') ∧
           v' = source_two ∧ u' = target_one ∧
           @repr nat plain_element two_arrays v' [2; 3] ∧
           @repr nat plain_element two_arrays u' [1] ∧
           (Size u' = 0 ↔ [1] = []).
Proof.
  apply (@move_assign_exchanges nat plain_element target_one source_two [1] [2; 3]
           two_arrays).
  - apply target_one_repr.
  - apply source_two_repr.
Defined.

(** ** Sized and copy construction *)

(** The array [7, 8] in a buffer of capacity 4 at address 0. *)
Definition roomy_pair : Vector := mkVector (mkRaw (Some 0) 4) 2.
Definition roomy_pair_world : world nat :=
  World {[0 := [Some 7; Some 8; None; None]]} 1 0 0 0 0 0 [].

Lemma roomy_pair_wf : wf roomy_pair_world.
Proof. intros l Hl. simpl in *. apply lookup_singleton_ne. lia. Qed.

Lemma roomy_pair_repr : @repr nat plain_element roomy_pair_world roomy_pair [7; 8].
Proof. repeat split; simpl; auto. by vm_compute. Qed.


Lemma full_pair_can_grow : @can_grow nat plain_element full_pair.
Proof. intros _. by vm_compute. Qed.

(** C10 (amended): [Vector(n)], for [n] with [n * sizeof(T)] not beyond
    [SIZE_MAX], yields size and capacity [n] with [n] value-initialised
    elements; the copy constructor yields the elements of the source with
    size and capacity both equal to the size of the source, whatever the
    capacity of the source, which stays as it was; so the capacity of a
    copy can be smaller than that of the original. Both constructors
    complete when nothing throws, [Vector(n)] provided that [n] elements
    are not more than [operator new] grants. *)
Theorem constructors_allocate_exactly :
  (∀ (T : Type) (E : Element T) (F : faults),
     (∀ n (w : world T), wf w → representable n →
        yields (Vector_sized F n w)
          (fun v' w' => Size v' = n ∧ Capacity v' = n ∧
                        repr w' v' (replicate n value_init))
          (fun _ => True)) ∧
     (∀ other ys (w : world T), wf w → repr w other ys →
        yields (Vector_copy F other w)
          (fun v' w' => Size v' = Size other ∧ Capacity v' = Size other ∧
                        repr w' v' ys ∧ repr w' other ys)
          (fun _ => True)) ∧
     (quiet F →
      (∀ n (w : world T), wf w → fits n → ∃ v' w', Vector_sized F n w = Normal v' w') ∧
      (∀ other ys (w : world T), wf w → repr w other ys →
         ∃ v' w', Vector_copy F other w = Normal v' w'))) ∧
  (∃ v' w', @Vector_copy nat plain_element no_faults roomy_pair roomy_pair_world
              = Normal v' w' ∧
            @repr nat plain_element roomy_pair_world roomy_pair [7; 8] ∧
            @repr nat plain_element w' v' [7; 8] ∧
            Capacity v' = 2 ∧ Capacity roomy_pair = 4).
Proof.
  split.
  - intros T E F. split; [|split].
    + intros n w Hwf Hrep.
      eapply yields_mono; [by apply Vector_sized_yields|..]; [|done].
      intros v' w' Hc. cbv beta.
      destruct (constructed_with_repr _ w v' w' Hwf Hc) as (Hr & _ & Hs & Hcap).
      rewrite length_replicate in Hs, Hcap. done.
    + intros other ys w Hwf Hr.
      eapply yields_mono; [by apply Vector_copy_yields|..]; [|done].
      intros v' w' Hc. cbv beta.
      destruct (constructed_with_repr _ w v' w' Hwf Hc) as (Hr' & _ & Hs & Hcap).
      pose proof Hr as (Hn & _ & _). unfold Size. rewrite Hn.
      split; [done|]. split; [done|]. split; [done|].
      destruct Hc as [(_ & _ & Hw')|(_ & _ & Hw' & _)].
      * destruct Hr as (? & ? & Hb & ?). split; [done|]. split; [done|]. split; [|done].
        destruct Hw' as [-> _]. done.
      * eapply repr_other_buffer; [exact Hr| |by destruct Hw'].
        by apply (repr_buffer_not_fresh w other ys).
    + intros Hq. split.
      * intros n w Hwf Hfit.
        destruct (yields_no_throw _ _ _
                    (Vector_sized_yields F n w Hwf (fits_representable n Hfit))
                    (no_throw_Vector_sized F Hq n w Hfit)) as (v' & w' & Heq & _).
        eauto.
      * intros other ys w Hwf Hr.
        destruct (yields_no_throw _ _ _ (Vector_copy_yields F other ys w Hwf Hr)
                    (no_throw_Vector_copy F Hq other w (repr_fits_size w other ys Hr)))
          as (v' & w' & Heq & _).
        eauto.
  - eexists _, _. split; [vm_compute; reflexivity|].
    split; [apply roomy_pair_repr|]. split; [|done].
    repeat split; simpl; auto. by vm_compute.
Qed.

Lemma constructors_allocate_exactly_witness :
  yields (@Vector_sized nat plain_element no_faults 3 empty_world)
    (fun v' w' => Size v' = 3 ∧ Capacity v' = 3 ∧ @repr nat plain_element w' v' [0; 0; 0])
    (fun _ => True) ∧
  yields (@Vector_copy nat plain_element no_faults roomy_pair roomy_pair_world)
    (fun v' w' => Size v' = Size roomy_pair ∧ Capacity v' = Size roomy_pair ∧
                  @repr nat plain_element w' v' [7; 8] ∧
                  @repr nat plain_element w' roomy_pair [7; 8])
    (fun _ => True).
Proof.
  destruct constructors_allocate_exactly as [Hall _].
  destruct (Hall nat plain_element no_faults) as (Hsized & Hcopy & _).
  split.
  - apply (Hsized 3 empty_world empty_world_wf). by vm_compute.
  - apply (Hcopy roomy_pair [7; 8] roomy_pair_world roomy_pair_wf roomy_pair_repr).
Defined.

(** With a request of 4 bytes the buffer has one slot, and the second of
    the [n] value-initialised elements is constructed beyond it. *)
Lemma Vector_sized_wraps (n : nat) :
  2 ≤ n → @byte_count nat plain_element n = 4%N →
  @Vector_sized nat plain_element no_faults n empty_world = Undefined.
Proof.
  intros Hn Hb. destruct n as [|[|m]]; [lia|lia|].
  unfold Vector_sized, RawMemory_ctor, bind, Allocate. cbn [Nat.eqb].
  unfold operator_new. rewrite Hb. vm_compute. reflexivity.
Qed.

(** C10 as stated fails: [Vector<int>(2^62 + 1)] asks [operator new] for
    [(2^62 + 1) * 4] bytes, which is 4 in [size_t]; the constructor does
    not yield size and capacity [2^62 + 1], it is undefined. *)
Lemma sized_constructor_byte_count_wraps :
  wf empty_world ∧
  (N.of_nat wrapping_count ≤ SIZE_MAX)%N ∧
  @byte_count nat plain_element wrapping_count = 4%N ∧
  @Vector_sized nat plain_element no_faults wrapping_count empty_world = Undefined ∧
  ¬ yields (@Vector_sized nat plain_element no_faults wrapping_count empty_world)
      (fun v' w' => Size v' = wrapping_count ∧ Capacity v' = wrapping_count ∧
                    @repr nat plain_element w' v' (replicate wrapping_count 0))
      (fun _ => True).
Proof.
  assert (Hu : @Vector_sized nat plain_element no_faults wrapping_count empty_world
               = Undefined).
  { apply Vector_sized_wraps; [|apply wrapping_count_bytes].
    pose proof wrapping_count_large. lia. }
  split; [apply empty_world_wf|].
  split; [unfold wrapping_count; rewrite N2Nat.id; by vm_compute|].
  split; [apply wrapping_count_bytes|].
  split; [exact Hu|]. intros Hy. rewrite Hu in Hy. exact Hy.
Qed.

(** ** Copy assignment *)

Section CopyAssign.
Context {T : Type} `{Element T}.
Variable F : faults.

Lemma assign_copy_self (s : Vector * world T) : assign_copy F Self s = Normal tt s.
Proof. done. Qed.

Lemma yields_completes {St} (m : M St unit) (s : St) (Q : Prop) QN QE :
  yields (m s) QN QE → (Q → no_throw (m s)) →
  yields (m s) QN QE ∧ (Q → ∃ s', m s = Normal tt s').
Proof.
  intros Hy Hn. split; [done|]. intros HQ.
  destruct (yields_no_throw _ _ _ Hy (Hn HQ)) as ([] & s' & Heq & _). eauto.
Qed.

Lemma yields_completes_if {St} (m : M St unit) (s : St) (Q R : Prop) QN QE :
  yields (m s) QN QE → (Q → R → no_throw (m s)) →
  yields (m s) QN QE ∧ (Q → R → ∃ s', m s = Normal tt s').
Proof.
  intros Hy Hn. split; [done|]. intros HQ HR.
  destruct (yields_no_throw _ _ _ Hy (Hn HQ HR)) as ([] & s' & Heq & _). eauto.
Qed.

(** C5: copy assignment from a distinct source. When the source is larger
    than the capacity, the array is rebuilt: one new buffer of exactly the
    size of the source is allocated, every element is copy-constructed,
    the old elements are destroyed, nothing is assigned; and when the
    rebuilding throws, the array and the heap are untouched. Otherwise the
    storage is reused (same buffer, no allocation): the common prefix is
    copy-assigned, a longer array destroys its excess tail, a longer
    source copy-constructs its extra elements. In both cases the array
    ends with the elements and the size of the source, the source is as it
    was, and the capacity has not shrunk. The assignment completes when
    nothing throws. *)
Theorem copy_assign_rebuilds_or_reuses (v other : Vector) (xs ys : list T) (w : world T) :
  wf w → repr w v xs → repr w other ys → disjoint v other →
  yields (assign_copy F (Other other) (v, w))
    (fun _ s' =>
       Size s'.1 = Size other ∧ repr s'.2 s'.1 ys ∧ repr s'.2 other ys ∧
       Capacity v ≤ Capacity s'.1 ∧
       if Capacity v <? Size other
       then data_ s'.1 = mkRaw (Some (fresh w)) (Size other) ∧
            fresh s'.2 = fresh w + 1 ∧
            constructed s'.2 = constructed w + Size other ∧
            destroyed s'.2 = destroyed w + Size v ∧
            assigned s'.2 = assigned w
       else data_ s'.1 = data_ v ∧
            fresh s'.2 = fresh w ∧
            assigned s'.2 = assigned w + Nat.min (Size v) (Size other) ∧
            destroyed s'.2 = destroyed w + (Size v - Size other) ∧
            constructed s'.2 = constructed w + (Size other - Size v))
    (fun s' =>
       (Capacity v <? Size other) = true →
       s'.1 = v ∧ heap s'.2 = heap w ∧ repr s'.2 v xs) ∧
  (quiet F → ∃ s', assign_copy F (Other other) (v, w) = Normal tt s').
Proof.
  intros Hwf Hr Ho Hdis.
  apply yields_completes;
    [|intros Hq; apply no_throw_assign_copy; [done|by eapply repr_fits_size]].
  pose proof Hr as (Hn & Hc & Hb & Hfit). pose proof Ho as (Hno & Hco & Hbo & Hfito).
  pose proof (repr_buffer_not_fresh w v xs Hwf Hr) as Hnev.
  pose proof (repr_buffer_not_fresh w other ys Hwf Ho) as Hneo.
  unfold Size, Capacity. rewrite Hno, Hn.
  destruct (Nat.ltb_spec (capacity_ (data_ v)) (length ys)) as [Hlt|Hle].
  - eapply yields_mono; [by apply assign_copy_rebuild|..].
    + intros [] s' (w' & -> & Hw'). simpl.
      destruct Hw' as (Hh & Hf & Hcs & Hds & Has).
      split; [done|]. split; [|split; [|split; [lia|]]].
      * split; [done|]. split; [done|]. simpl.
        split; [by rewrite Hh, lookup_insert_eq, slots_full|].
        by apply (fits_le _ (capacity_ (data_ other))).
      * split; [done|]. split; [done|]. split; [|done].
        destruct (buffer_ (data_ other)) as [lo_o|] eqn:Hlo; [|done].
        rewrite Hh, lookup_insert_ne by congruence.
        destruct (buffer_ (data_ v)) as [lo|] eqn:Hv; simpl; [|done].
        rewrite lookup_delete_ne; [done|]. intros ->. by eapply Hdis.
      * repeat split; lia.
    + intros s' (w' & -> & k & j & Hw') _. simpl.
      destruct Hw' as (Hh & _). split; [done|]. split; [done|].
      split; [done|]. split; [done|]. split; [|done]. by rewrite Hh.
  - eapply yields_mono; [by apply assign_copy_reuse|..].
    + intros [] s' (w' & -> & Hw'). simpl.
      destruct Hw' as (Hh & Hf & Hcs & Hds & Has).
      split; [done|]. split; [|split; [|split; [lia|]]].
      * split; [done|]. split; [done|]. simpl. split; [|done].
        destruct (buffer_ (data_ v)) as [lo|]; simpl in *; [|done].
        by rewrite Hh, lookup_insert_eq.
      * split; [done|]. split; [done|]. split; [|done].
        destruct (buffer_ (data_ other)) as [lo_o|] eqn:Hlo; [|done].
        rewrite Hh.
        destruct (buffer_ (data_ v)) as [lo|] eqn:Hv; simpl; [|done].
        rewrite lookup_insert_ne; [done|]. intros ->. by eapply Hdis.
      * repeat split; lia.
    + intros s' _ Hf. lia.
Qed.

End CopyAssign.

Lemma two_arrays_disjoint : disjoint target_one source_two.
Proof. intros l Hl. simpl in *. injection Hl as <-. done. Qed.

Lemma two_arrays_disjoint' : disjoint source_two target_one.
Proof. intros l Hl. simpl in *. injection Hl as <-. done. Qed.

Lemma copy_assign_rebuilds_or_reuses_witness :
  yields (@assign_copy nat plain_element no_faults (Other source_two) (target_one, two_arrays))
    (fun _ s' => Size s'.1 = 2 ∧ @repr nat plain_element s'.2 s'.1 [2; 3] ∧ Capacity s'.1 = 2 ∧
                 buffer_ (data_ s'.1) = Some 2)
    (fun _ => True) ∧
  yields (@assign_copy nat plain_element no_faults (Other target_one) (source_two, two_arrays))
    (fun _ s' => Size s'.1 = 1 ∧ @repr nat plain_element s'.2 s'.1 [1] ∧ Capacity s'.1 = 2 ∧
                 buffer_ (data_ s'.1) = Some 1)
    (fun _ => True).
Proof.
  split.
  - eapply yields_mono;
      [apply (proj1 (@copy_assign_rebuilds_or_reuses nat plain_element no_faults target_one
                source_two [1] [2; 3] two_arrays two_arrays_wf target_one_repr source_two_repr
                two_arrays_disjoint))|..]; [|done].
    intros [] [v' w'] (Hs & Hr & _ & _ & Hd). simpl in *.
    destruct Hd as (Hd & _). unfold Capacity. rewrite Hd. done.
  - eapply yields_mono;
      [apply (proj1 (@copy_assign_rebuilds_or_reuses nat plain_element no_faults source_two
                target_one [2; 3] [1] two_arrays two_arrays_wf source_two_repr target_one_repr
                two_arrays_disjoint'))|..]; [|done].
    intros [] [v' w'] (Hs & Hr & _ & _ & Hd). simpl in *.
    destruct Hd as (Hd & _). unfold Capacity. rewrite Hd. done.
Defined.

(** ** Insertion and erasure *)

(** [v.Erase(v.begin() + p)] followed by [v.Insert(v.begin() + p, x)] *)
Definition erase_then_insert {T} `{Element T} (F : faults) (p : nat) (x : T)
    : M (Vector * world T) ptr :=
  b <- begin_ ;; Erase F (ptr_add b p) ;;
  b <- begin_ ;; Insert_copy F (ptr_add b p) x.

Section InsertErase.
Context {T : Type} `{Element T}.
Variable F : faults.

Lemma inserted_lookup (k : nat) (xs : list T) (x : T) :
  k ≤ length xs → (take k xs ++ x :: drop k xs) !! k = Some x.
Proof.
  intros Hk. apply list_lookup_middle. rewrite length_take. lia.
Qed.

(** [Emplace] at a valid position returns the iterator to index [k] of the
    buffer the array then owns, where the new element is, in the in-place
    and in the reallocating branch; the end of a non-empty array with spare
    capacity is excepted. *)
Lemma Emplace_returns_position (k : nat) (a : init T) (v : Vector) (xs : list T)
    (w : world T) :
  wf w → repr w v xs → k ≤ length xs →
  Size v = Capacity v ∨ k < length xs ∨ xs = [] →
  yields (Emplace F (Ptr (buffer_ (data_ v)) k) a (v, w))
    (fun p s' =>
       p = Ptr (buffer_ (data_ s'.1)) k ∧
       repr s'.2 s'.1 (take k xs ++ init_value a :: drop k xs) ∧
       (take k xs ++ init_value a :: drop k xs) !! k = Some (init_value a) ∧
       Size s'.1 = S (Size v) ∧ wf s'.2)
    (fun _ => True).
Proof.
  intros Hwf Hr Hk Hcase.
  eapply yields_mono; [by apply Emplace_yields|..]; [|done].
  intros p s' (v' & w' & -> & Hr' & Hwf' & -> & _). simpl.
  split; [done|]. split; [done|]. split; [by apply inserted_lookup|].
  split; [|done]. destruct Hr' as (Hn' & _), Hr as (Hn & _).
  unfold Size. rewrite Hn', Hn. by apply length_inserted.
Qed.

(** ... and it does return when nothing throws. *)
Lemma Emplace_returns (k : nat) (a : init T) (v : Vector) (xs : list T) (w : world T) :
  quiet F → can_grow v → wf w → repr w v xs → k ≤ length xs →
  Size v = Capacity v ∨ k < length xs ∨ xs = [] →
  ∃ v' w',
    Emplace F (Ptr (buffer_ (data_ v)) k) a (v, w) = Normal (Ptr (buffer_ (data_ v')) k) (v', w') ∧
    repr w' v' (take k xs ++ init_value a :: drop k xs).
Proof.
  intros Hq Hg Hwf Hr Hk Hcase.
  destruct (yields_no_throw _ _ _
              (Emplace_returns_position k a v xs w Hwf Hr Hk Hcase)
              (no_throw_Emplace F Hq _ a v w Hg)) as (p & [v' w'] & Heq & -> & Hr' & _).
  by exists v', w'.
Qed.

(** [Erase] at index [k] returns the iterator to index [k], where the
    element that followed the erased one now is; it is [end()] when the
    last element was erased. *)
Lemma Erase_returns_position (k : nat) (v : Vector) (xs : list T) (w : world T) :
  wf w → repr w v xs → k < length xs →
  yields (Erase F (Ptr (buffer_ (data_ v)) k) (v, w))
    (fun p s' =>
       p = Ptr (buffer_ (data_ s'.1)) k ∧
       repr s'.2 s'.1 (delete k xs) ∧
       delete k xs !! k = xs !! S k ∧
       (S k = length xs → off p = Size s'.1) ∧
       data_ s'.1 = data_ v ∧ wf s'.2)
    (fun s' => ∃ zs, repr s'.2 s'.1 zs ∧ length zs = length xs ∧ wf s'.2).
Proof.
  intros Hwf Hr Hk. pose proof Hr as (Hn & Hc & Hb & Hfit).
  assert (Hlen : length (delete k xs) = length xs - 1)
    by (rewrite length_delete; [done|by apply lookup_lt_is_Some_2]).
  eapply yields_mono; [by apply Erase_yields|..].
  - intros p s' (w' & lo & -> & -> & Hlo & Hw'). simpl.
    split; [done|].
    assert (Hheap : heap w !! lo = Some (slots xs (capacity_ (data_ v))))
      by (by rewrite Hlo in Hb).
    split; [|split; [|split; [|split; [done|by eapply wf_changed_update]]]].
    + split; [simpl; lia|]. split; [simpl; lia|]. split; [|done]. simpl. rewrite Hlo.
      destruct Hw' as [-> _]. apply lookup_insert_eq.
    + by rewrite list_lookup_delete_ge by lia.
    + unfold Size. simpl. lia.
  - intros s' (w' & lo & zs & j & -> & Hzs & Hlo & Hw'). exists zs. simpl.
    assert (Hheap : heap w !! lo = Some (slots xs (capacity_ (data_ v))))
      by (by rewrite Hlo in Hb).
    split; [|split; [done|by eapply wf_changed_update]].
    split; [lia|]. split; [lia|]. split; [|done]. rewrite Hlo.
    destruct Hw' as [-> _]. apply lookup_insert_eq.
Qed.

Lemma Erase_returns (k : nat) (v : Vector) (xs : list T) (w : world T) :
  quiet F → wf w → repr w v xs → k < length xs →
  ∃ w',
    Erase F (Ptr (buffer_ (data_ v)) k) (v, w) =
      Normal (Ptr (buffer_ (data_ v)) k) (mkVector (data_ v) (size_ v - 1), w') ∧
    repr w' (mkVector (data_ v) (size_ v - 1)) (delete k xs) ∧ wf w'.
Proof.
  intros Hq Hwf Hr Hk.
  destruct (yields_never_throws _ _ _ _
              (yields_and _ _ _ _ _ (Erase_yields F k v xs w Hr Hk)
                 (Erase_returns_position k v xs w Hwf Hr Hk))
              (never_throws_Erase F Hq _))
    as (p & s' & Heq & (w' & lo & -> & -> & _) & _ & Hr' & _ & _ & _ & Hwf').
  by exists w'.
Qed.

Lemma delete_then_insert (k : nat) (xs : list T) (x : T) :
  xs !! k = Some x → take k (delete k xs) ++ x :: drop k (delete k xs) = xs.
Proof.
  intros Hx. pose proof (lookup_lt_Some _ _ _ Hx) as Hk.
  rewrite delete_take_drop.
  rewrite take_app_length' by (rewrite length_take; lia).
  rewrite drop_app_length' by (rewrite length_take; lia).
  by apply take_drop_middle.
Qed.

(** Erasing the element at a position that is not the last one, or the
    only element, and inserting it again at the same position restores
    the sequence, in the same buffer. *)
Lemma erase_then_insert_restores (k : nat) (x : T) (v : Vector) (xs : list T)
    (w : world T) :
  wf w → repr w v xs → xs !! k = Some x →
  S k < length xs ∨ length xs = 1 →
  yields (erase_then_insert F k x (v, w))
    (fun p s' => s'.1 = v ∧ repr s'.2 v xs ∧ p = Ptr (buffer_ (data_ v)) k ∧ wf s'.2)
    (fun _ => True).
Proof.
  intros Hwf Hr Hx Hcase. pose proof (lookup_lt_Some _ _ _ Hx) as Hk.
  pose proof Hr as (Hn & Hc & Hb & Hfit).
  assert (Hlen : length (delete k xs) = length xs - 1)
    by (rewrite length_delete; [done|by apply lookup_lt_is_Some_2]).
  unfold erase_then_insert.
  rewrite (bind_Normal _ _ _ _ _ (begin_ok v w)).
  unfold ptr_add. cbn [base off]. rewrite Nat.add_0_l.
  apply yields_bind.
  eapply yields_mono; [by apply Erase_returns_position|..]; [|done].
  intros p [v1 w1] (_ & Hr1 & _ & _ & Hd1 & Hwf1). simpl in *.
  pose proof Hr1 as (Hn1 & _).
  rewrite (bind_Normal _ _ _ _ _ (begin_ok v1 w1)).
  cbn [base off]. rewrite Nat.add_0_l. unfold Insert_copy.
  eapply yields_mono;
    [apply (Emplace_yields F k (ByCopy x) v1 (delete k xs) w1 Hwf1 Hr1)|..]; [lia| |..|done].
  - right. destruct Hcase as [?|Hone]; [left; lia|right].
    apply nil_length_inv. lia.
  - intros p' s' (v' & w' & -> & Hr' & Hwf' & -> & Hd').
    assert ((size_ v1 =? capacity_ (data_ v1)) = false) as Hroom
      by (apply Nat.eqb_neq; rewrite Hd1; lia).
    rewrite Hroom in Hd'. simpl in Hr'. rewrite delete_then_insert in Hr' by done.
    assert (v' = v) as ->.
    { destruct v' as [d' n'], v as [d n]. simpl in *.
      destruct Hr' as (Hs & _). simpl in *. congruence. }
    simpl. done.
Qed.

(** ... and it does so when nothing throws. *)
Lemma erase_then_insert_returns (k : nat) (x : T) (v : Vector) (xs : list T)
    (w : world T) :
  quiet F → wf w → repr w v xs → xs !! k = Some x →
  S k < length xs ∨ length xs = 1 →
  ∃ w', erase_then_insert F k x (v, w) = Normal (Ptr (buffer_ (data_ v)) k) (v, w') ∧
        repr w' v xs.
Proof.
  intros Hq Hwf Hr Hx Hcase. pose proof (lookup_lt_Some _ _ _ Hx) as Hk.
  assert (Hnt : no_throw (erase_then_insert F k x (v, w))).
  { destruct (Erase_returns k v xs w Hq Hwf Hr Hk) as (w1 & He & _).
    unfold erase_then_insert.
    rewrite (bind_Normal _ _ _ _ _ (begin_ok v w)).
    unfold ptr_add. cbn [base off]. rewrite Nat.add_0_l.
    rewrite (bind_Normal _ _ _ _ _ He).
    rewrite (bind_Normal _ _ _ _ _ (begin_ok _ w1)).
    apply no_throw_Emplace; [done|].
    intros Heq. simpl in Heq. destruct Hr as (Hn & Hc & _). lia. }
  destruct (yields_no_throw _ _ _
              (erase_then_insert_restores k x v xs w Hwf Hr Hx Hcase) Hnt)
    as (p & [v' w'] & Heq & Hv & Hr' & -> & _).
  simpl in Hv. subst v'. by exists w'.
Qed.

(** Erasing the last of two or more elements and inserting at the same
    position never completes: the position is then the end of a non-empty
    array with spare capacity. *)
Lemma erase_then_insert_last (x : T) (v : Vector) (xs : list T) (w : world T) :
  wf w → repr w v xs → 2 ≤ length xs →
  ∀ p s', erase_then_insert F (length xs - 1) x (v, w) ≠ Normal p s'.
Proof.
  intros Hwf Hr Hlen. pose proof Hr as (Hn & Hc & Hb & Hfit).
  unfold erase_then_insert.
  rewrite (bind_Normal _ _ _ _ _ (begin_ok v w)).
  unfold ptr_add. cbn [base off]. rewrite Nat.add_0_l.
  apply bind_not_Normal. intros q [v1 w1] Heq.
  pose proof (yields_Normal _ _ _ _ _
                (Erase_yields F (length xs - 1) v xs w Hr ltac:(lia)) Heq)
    as (w' & lo & [= -> ->] & _).
  intros p s'. rewrite (bind_Normal _ _ _ _ _ (begin_ok _ w')).
  cbn [base off data_ size_]. rewrite Nat.add_0_l. unfold Insert_copy.
  replace (length xs - 1) with (size_ (mkVector (data_ v) (size_ v - 1)))
    by (simpl; lia).
  apply (Emplace_end_in_place F (ByCopy x) (mkVector (data_ v) (size_ v - 1)) w');
    simpl; lia.
Qed.

End InsertErase.

(** ** Insertion at the end of a non-empty array with spare capacity

    [Emplace] handles [cpos == cend()] in its reallocating branch and in
    its [size_ == 0] branch. In the remaining branch (spare capacity,
    [size_ != 0]) it calls [std::move_backward(pos, end() - 1, end())]
    with [pos == end()]: the range from [end()] to [end() - 1] is not a
    valid range, and the call is undefined. *)

(** An element type like [std::string]: copyable, with a [noexcept] move
    that leaves the source empty (0). *)
Definition owning_handle : Element nat :=
  {| moved_from := fun _ => 0; value_init := 0;
     is_nothrow_move_constructible := true; is_copy_constructible := true;
     sizeof_T := 8; sizeof_T_max := eight_bytes |}.

(** [erase_then_insert] over a [std::move_backward] that runs the counted
    loop; [Insert] is [Emplace] of a copy. *)
Definition erase_then_insert_counted {T} `{Element T} (F : faults) (p : nat) (x : T)
    : M (Vector * world T) ptr :=
  b <- begin_ ;; Erase F (ptr_add b p) ;;
  b <- begin_ ;; Emplace_with F (move_backward_counted F) (ptr_add b p) (ByCopy x).

(** C7 at a failing input: erasing the last element of [7, 8] and
    inserting 8 again at the same position is undefined, whatever the
    element type, for a full array as for one with spare capacity; and
    where the library's loop does nothing on the reversed range, the
    element before the position is left moved-from, so that [7, 8]
    becomes [0, 8] for an element type whose move empties the source. At
    the first position the sequence is restored. *)
Lemma erase_then_insert_last_undefined :
  @erase_then_insert nat owning_handle no_faults 1 8 (full_pair, full_pair_world) = Undefined ∧
  @erase_then_insert nat plain_element no_faults 1 8 (full_pair, full_pair_world) = Undefined ∧
  @erase_then_insert nat plain_element no_faults 1 8 (roomy_pair, roomy_pair_world) = Undefined ∧
  (∃ w', @erase_then_insert_counted nat owning_handle no_faults 1 8 (full_pair, full_pair_world)
           = Normal (Ptr (Some 0) 1) (full_pair, w') ∧
         heap w' !! 0 = Some [Some 0; Some 8]) ∧
  ∃ w', @erase_then_insert nat owning_handle no_faults 0 7 (full_pair, full_pair_world)
          = Normal (Ptr (Some 0) 0) (full_pair, w') ∧
        heap w' = heap full_pair_world.
Proof.
  do 3 (split; [vm_compute; reflexivity|]).
  split; eexists; (split; [vm_compute; reflexivity|reflexivity]).
Qed.

(** C9 at a failing input: on [7, 8] with capacity 4, [Emplace] at
    [cend()] returns no iterator, its behaviour being undefined, where
    [EmplaceBack] on the same array appends, and where [Emplace] at
    [cend()] of the full array [7, 8] (the reallocating branch) returns
    the iterator to the new element. *)
Lemma emplace_at_end_in_place_undefined :
  @Emplace nat plain_element no_faults (Ptr (Some 0) 2) (ByArgs 9)
     (roomy_pair, roomy_pair_world) = Undefined ∧
  (∃ w', @EmplaceBack nat plain_element no_faults (ByArgs 9) (roomy_pair, roomy_pair_world)
           = Normal (Ptr (Some 0) 2) (mkVector (mkRaw (Some 0) 4) 3, w') ∧
         heap w' !! 0 = Some [Some 7; Some 8; Some 9; None]) ∧
  (∃ w', @Emplace nat plain_element no_faults (Ptr (Some 0) 2) (ByArgs 9)
           (full_pair, full_pair_world)
           = Normal (Ptr (Some 1) 2) (mkVector (mkRaw (Some 1) 4) 3, w') ∧
         heap w' !! 1 = Some [Some 7; Some 8; Some 9; None]).
Proof.
  split; [vm_compute; reflexivity|].
  split; eexists; (split; [vm_compute; reflexivity|reflexivity]).
Qed.

(** C8 at its failing inputs: from every state that satisfies the
    structural invariant with a non-empty array and spare capacity,
    [Emplace] at [cend()], a position its own assertion admits, never
    completes normally, and is undefined as soon as the element type does
    not throw; so this public operation does not preserve the invariant. *)
Theorem emplace_at_end_breaks_invariant {T : Type} `{Element T} (F : faults)
    (a : init T) (v : Vector) (xs : list T) (w : world T) :
  repr w v xs → 0 < Size v → Size v < Capacity v →
  (∀ p s', Emplace F (Ptr (buffer_ (data_ v)) (Size v)) a (v, w) ≠ Normal p s') ∧
  ((∀ op k, throws F op k = false) →
   Emplace F (Ptr (buffer_ (data_ v)) (Size v)) a (v, w) = Undefined).
Proof.
  intros Hr Hpos Hlt. split.
  - by apply Emplace_end_in_place.
  - intros Hq. by eapply Emplace_end_in_place_quiet.
Qed.

Lemma emplace_at_end_breaks_invariant_witness :
  (∀ p s', @Emplace nat plain_element no_faults (Ptr (Some 0) 2) (ByCopy 9)
             (roomy_pair, roomy_pair_world) ≠ Normal p s') ∧
  ((∀ op k, throws no_faults op k = false) →
   @Emplace nat plain_element no_faults (Ptr (Some 0) 2) (ByCopy 9)
     (roomy_pair, roomy_pair_world) = Undefined).
Proof.
  apply (@emplace_at_end_breaks_invariant nat plain_element no_faults (ByCopy 9)
           roomy_pair [7; 8] roomy_pair_world roomy_pair_repr).
  - vm_compute. lia.
  - vm_compute. lia.
Defined.

(** ** The structural invariant over the operations on one array *)

(** The calls a client can make on one array. *)
Inductive operation (T : Type) :=
| OpReserve (new_capacity : nat)
| OpResize (new_size : nat)
| OpPushBack (a : init T)
| OpEmplaceBack (a : init T)
| OpEmplace (k : nat) (a : init T)
| OpInsert_copy (k : nat) (value : T)
| OpInsert_move (k : nat) (value : T)
| OpPopBack
| OpErase (k : nat).
Arguments OpReserve {T} new_capacity.
Arguments OpResize {T} new_size.
Arguments OpPushBack {T} a.
Arguments OpEmplaceBack {T} a.
Arguments OpEmplace {T} k a.
Arguments OpInsert_copy {T} k value.
Arguments OpInsert_move {T} k value.
Arguments OpPopBack {T}.
Arguments OpErase {T} k.

(** The positions at which the theorems above describe an insertion: any
    valid position, the end of a non-empty array with spare capacity
    excepted. *)
Definition insertable (k : nat) (v : Vector) : Prop :=
  k ≤ Size v ∧ (Size v = Capacity v ∨ k < Size v ∨ Size v = 0).

(** The calls that satisfy the assertions of the operation, the excepted
    insertions left out, and that ask for a number of elements whose size
    in bytes [size_t] holds. *)
Definition admissible {T} `{Element T} (op : operation T) (v : Vector) : Prop :=
  match op with
  | OpReserve n | OpResize n => representable n
  | OpEmplace k _ | OpInsert_copy k _ | OpInsert_move k _ => insertable k v
  | OpErase k => k < Size v
  | _ => True
  end.

(** The calls for which [operator new], if called, is asked for no more
    than it may grant. *)
Definition grantable {T} `{Element T} (op : operation T) (v : Vector) : Prop :=
  match op with
  | OpReserve n | OpResize n => fits n
  | OpPopBack | OpErase _ => True
  | _ => can_grow v
  end.

(** The exits on which the theorem below establishes the invariant: all
    normal exits, and the exceptional exits of every call but an
    insertion. *)
Definition insertion {T} (op : operation T) : bool :=
  match op with
  | OpEmplace _ _ | OpInsert_copy _ _ | OpInsert_move _ _ => true
  | _ => false
  end.

Section Invariant.
Context {T : Type} `{Element T}.
Variable F : faults.

Definition run (op : operation T) : M (Vector * world T) unit :=
  match op with
  | OpReserve n => Reserve F n
  | OpResize n => Resize F n
  | OpPushBack a => PushBack F a
  | OpEmplaceBack a => EmplaceBack F a ;; ret tt
  | OpEmplace k a => b <- begin_ ;; Emplace F (ptr_add b k) a ;; ret tt
  | OpInsert_copy k x => b <- begin_ ;; Insert_copy F (ptr_add b k) x ;; ret tt
  | OpInsert_move k x => b <- begin_ ;; Insert_move F (ptr_add b k) x ;; ret tt
  | OpPopBack => PopBack
  | OpErase k => b <- begin_ ;; Erase F (ptr_add b k) ;; ret tt
  end.

(** The array of the state holds some sequence of elements, all slots
    behind them raw. *)
Definition invariant (s : Vector * world T) : Prop :=
  ∃ xs, repr s.2 s.1 xs ∧ wf s.2.

Lemma insertion_preserves (k : nat) (a : init T) (v : Vector) (xs : list T)
    (w : world T) :
  wf w → repr w v xs → insertable k v →
  yields ((b <- begin_ ;; Emplace F (ptr_add b k) a ;; ret tt) (v, w))
    (fun _ s' => invariant s') (fun _ => True).
Proof.
  intros Hwf Hr [Hk Hcase]. pose proof Hr as (Hn & _). unfold Size, Capacity in *.
  rewrite (bind_Normal _ _ _ _ _ (begin_ok v w)).
  unfold ptr_add. cbn [base off]. rewrite Nat.add_0_l.
  apply yields_bind.
  eapply yields_mono; [apply (Emplace_yields F k a v xs w Hwf Hr)|..]; [lia| |..|done].
  - destruct Hcase as [?|[?|Hz]]; [by left|right; left; lia|right; right].
    apply nil_length_inv. lia.
  - intros p s' (v' & w' & -> & Hr' & Hwf' & _). simpl. by eexists.
Qed.

(** Every admissible call is defined, so that it reads and destroys no
    raw slot, and leaves the invariant established when it completes;
    every call but an insertion also when it throws. *)
Lemma operations_preserve_invariant (op : operation T) (v : Vector) (xs : list T)
    (w : world T) :
  wf w → repr w v xs → admissible op v →
  yields (run op (v, w))
    (fun _ s' => invariant s')
    (fun s' => insertion op = false → invariant s').
Proof.
  intros Hwf Hr Hadm. pose proof Hr as (Hn & Hc & Hb & Hfit).
  destruct op as [n|n|a|a|k a|k x|k x| |k]; simpl in Hadm |- *.
  - (* Reserve *)
    destruct (Nat.le_gt_cases n (capacity_ (data_ v))) as [Hle|Hbig].
    + unfold Reserve, bind, this, local.
      destruct (Nat.leb_spec n (capacity_ (data_ v))) as [_|]; [|lia].
      simpl. by exists xs.
    + eapply yields_mono; [by apply Reserve_grows|..].
      * intros [] s' (w' & -> & Hw' & Hfn). exists xs. simpl.
        split; [|by eapply wf_changed_grown].
        split; [done|]. split; [simpl; lia|]. split; [|done]. simpl.
        destruct Hw' as [-> _]. apply lookup_insert_eq.
      * intros s' (w' & -> & Hg) _.
        destruct (growth_failed_repr v xs w w' Hwf Hr Hg) as (xs' & ? & _ & ?).
        by exists xs'.
  - (* Resize *)
    eapply yields_mono; [by apply Resize_yields|..].
    + intros [] s' (v' & w' & -> & Hr' & Hwf' & _). by eexists.
    + intros s' (v' & w' & xs' & -> & Hr' & _ & Hwf') _. by exists xs'.
  - (* PushBack *)
    eapply yields_mono; [by apply PushBack_yields|..].
    + intros [] s' (v' & w' & -> & Hr' & Hwf' & _). by eexists.
    + intros s' (w' & -> & Hg) _.
      destruct (growth_failed_repr v xs w w' Hwf Hr Hg) as (xs' & ? & _ & ?).
      by exists xs'.
  - (* EmplaceBack *)
    apply yields_bind.
    eapply yields_mono; [by apply EmplaceBack_yields|..].
    + intros p s' (v' & w' & -> & (Hr' & Hwf' & _) & _). simpl. by eexists.
    + intros s' (w' & -> & Hg) _.
      destruct (growth_failed_repr v xs w w' Hwf Hr Hg) as (xs' & ? & _ & ?).
      by exists xs'.
  - (* Emplace *)
    eapply yields_mono; [by eapply insertion_preserves|..]; done.
  - (* Insert(const T&) *)
    eapply yields_mono; [by eapply insertion_preserves|..]; done.
  - (* Insert(T&&) *)
    eapply yields_mono; [by eapply insertion_preserves|..]; done.
  - (* PopBack *)
    eapply yields_mono; [by apply PopBack_yields|..]; [|done].
    intros [] s' (w' & -> & Hr' & Hwf' & _). eexists. split; [done|]. by apply Hwf'.
  - (* Erase *)
    unfold Size in Hadm.
    rewrite (bind_Normal _ _ _ _ _ (begin_ok v w)).
    unfold ptr_add. cbn [base off]. rewrite Nat.add_0_l.
    apply yields_bind.
    eapply yields_mono; [apply (Erase_returns_position F k v xs w Hwf Hr); lia|..].
    + intros p s' (_ & Hr' & _ & _ & _ & Hwf'). simpl. by eexists.
    + intros s' (zs & Hr' & _ & Hwf') _. by exists zs.
Qed.

(** ... and completes when nothing throws and the allocation is granted. *)
Lemma operations_complete (op : operation T) (v : Vector) (xs : list T) (w : world T) :
  quiet F → wf w → repr w v xs → admissible op v → grantable op v →
  ∃ s', run op (v, w) = Normal tt s' ∧ invariant s'.
Proof.
  intros Hq Hwf Hr Hadm Hgr.
  assert (Hins : ∀ k a, can_grow v →
            no_throw ((b <- begin_ ;; Emplace F (ptr_add b k) a ;; ret tt) (v, w))).
  { intros k a Hg. rewrite (bind_Normal _ _ _ _ _ (begin_ok v w)).
    apply no_throw_bind; [by apply no_throw_Emplace|intros; apply never_throws_ret]. }
  assert (Hnt : no_throw (run op (v, w))).
  { destruct op; simpl in Hgr |- *.
    - by apply no_throw_Reserve.
    - by apply no_throw_Resize.
    - by apply no_throw_PushBack.
    - apply no_throw_bind; [by apply no_throw_EmplaceBack|intros; apply never_throws_ret].
    - by apply Hins.
    - by apply Hins.
    - by apply Hins.
    - apply no_throw_never. by apply never_throws_PopBack.
    - rewrite (bind_Normal _ _ _ _ _ (begin_ok v w)).
      apply no_throw_never.
      apply never_throws_bind; [by apply never_throws_Erase|intros; apply never_throws_ret]. }
  destruct (yields_no_throw _ _ _
              (operations_preserve_invariant op v xs w Hwf Hr Hadm) Hnt)
    as ([] & s' & Heq & Hinv).
  by exists s'.
Qed.

End Invariant.

(** * Further properties of the operations *)

(** A computation that is defined and cannot throw returns. *)
Lemma yields_returns {S A} (o : outcome S A) (QN : A → S → Prop) :
  yields o QN (fun _ => False) → ∃ a s, o = Normal a s ∧ QN a s.
Proof. destruct o as [a s| |]; simpl; [eauto|done..]. Qed.

Section Frames.
Context {T : Type} `{Element T}.

(** What a call on an array whose buffer is [b] may touch: no address
    handed out before the call, except [b], changes its contents. *)
Definition frame (b : option loc) (w w' : world T) : Prop :=
  fresh w ≤ fresh w' ∧
  ∀ l, b ≠ Some l → l < fresh w → heap w' !! l = heap w !! l.

Lemma frame_refl (b : option loc) (w : world T) : frame b w w.
Proof. by split. Qed.

Lemma frame_changed_same (b : option loc) (w w' : world T) k c d a :
  changed w w' (heap w) k c d a → frame b w w'.
Proof. intros (Hh & Hf & _). split; [lia|]. intros l _ _. by rewrite Hh. Qed.

Lemma frame_changed_update (lo : loc) (x : list (option T)) (w w' : world T) k c d a :
  changed w w' (<[lo := x]> (heap w)) k c d a → frame (Some lo) w w'.
Proof.
  intros (Hh & Hf & _). split; [lia|]. intros l Hl _.
  rewrite Hh, lookup_insert_ne; [done|congruence].
Qed.

Lemma frame_changed_updated (b : option loc) (x : list (option T)) (w w' : world T)
    k c d a :
  changed w w' (updated b x (heap w)) k c d a → frame b w w'.
Proof.
  destruct b as [lo|]; simpl.
  - apply frame_changed_update.
  - apply frame_changed_same.
Qed.

Lemma frame_changed_grown (b : option loc) (x : list (option T)) (w w' : world T)
    k c d a :
  changed w w' (<[fresh w := x]> (released b (heap w))) k c d a → frame b w w'.
Proof.
  intros (Hh & Hf & _). split; [lia|]. intros l Hl Hlt.
  rewrite Hh, lookup_insert_ne by lia.
  destruct b as [lo|]; simpl; [|done].
  rewrite lookup_delete_ne; [done|congruence].
Qed.

(** A later change of the buffer the array has moved to stays in the frame. *)
Lemma frame_then_update (b : option loc) (l1 : loc) (x : list (option T))
    (w w1 w2 : world T) k c d a :
  frame b w w1 → b = Some l1 ∨ fresh w ≤ l1 →
  changed w1 w2 (<[l1 := x]> (heap w1)) k c d a → frame b w w2.
Proof.
  intros [Hle Hfr] Hl1 (Hh & Hf & _). split; [lia|]. intros l Hl Hlt.
  rewrite Hh, lookup_insert_ne; [by apply Hfr|].
  destruct Hl1 as [->|]; [congruence|lia].
Qed.

Lemma frame_growth_failed (v : Vector) (xs : list T) (w w' : world T) :
  growth_failed v xs w w' → frame (buffer_ (data_ v)) w w'.
Proof.
  intros [(k & j & Hw')|(_ & _ & lo & ex & re & k & j & Hlo & _ & _ & Hw')].
  - by eapply frame_changed_same.
  - rewrite Hlo. by eapply frame_changed_update.
Qed.

(** Another array is as it was after a call that keeps to the frame. *)
Lemma frame_repr (v u : Vector) (ys : list T) (w w' : world T) :
  wf w → repr w u ys → disjoint v u → frame (buffer_ (data_ v)) w w' → repr w' u ys.
Proof.
  intros Hwf (Hn & Hc & Hb & Hfit) Hdis [_ Hfr].
  split; [done|]. split; [done|]. split; [|done].
  destruct (buffer_ (data_ u)) as [lu|] eqn:Hlu; [|done].
  rewrite Hfr; [done|..].
  - intros Hv. by eapply Hdis.
  - destruct (Nat.lt_ge_cases lu (fresh w)) as [|Hge]; [done|].
    rewrite (Hwf lu Hge) in Hb. done.
Qed.

End Frames.

Section Resizing.
Context {T : Type} `{Element T}.
Variable F : faults.

(** A failed growth leaves the elements as they were when the transfer
    copies or cannot throw. *)
Lemma growth_failed_same (v : Vector) (xs : list T) (w w' : world T) :
  is_copy_constructible = true ∨ is_nothrow_move_constructible = true →
  repr w v xs → growth_failed v xs w w' → heap w' = heap w ∧ repr w' v xs.
Proof.
  intros Hty (Hn & Hc & Hb & Hfit) [(k & j & Hw')|(Hu & Hnt & _)].
  - destruct Hw' as (Hh & _). split; [done|]. split; [done|]. split; [done|].
    split; [|done]. by rewrite Hh.
  - unfold uses_move in Hu. destruct Hty as [Hcc|Hnm]; [|congruence].
    rewrite Hcc, Hnt in Hu. done.
Qed.

(** Shrinking, or resizing to the size the array has, destroys the tail
    in place and cannot throw. *)
Lemma Resize_down (n : nat) (v : Vector) (xs : list T) (w : world T) :
  repr w v xs → n ≤ length xs →
  yields (Resize F n (v, w))
    (fun _ s' => ∃ w',
       s' = (mkVector (data_ v) n, w') ∧
       changed w w'
         (updated (buffer_ (data_ v)) (slots (take n xs) (capacity_ (data_ v))) (heap w))
         0 0 (length xs - n) 0)
    (fun _ => False).
Proof.
  intros Hr Hle. pose proof Hr as (Hn & Hc & Hb & Hfit). unfold Resize.
  rewrite (bind_Normal _ _ (v, w) v (v, w)) by done.
  destruct (Nat.ltb_spec n (size_ v)) as [Hlt|Hge].
  - destruct (repr_buffer_nonempty w v xs Hr ltac:(lia)) as (lo & Hlo & Hheap).
    apply yields_bind.
    rewrite (bind_Normal _ _ _ _ _ (Raw_plus_ok (data_ v) n _ ltac:(lia))).
    rewrite Hlo. apply yields_outer.
    eapply yields_mono;
      [eapply (destroy_n_run lo (drop n xs) (map Some (take n xs))
                 (replicate (capacity_ (data_ v) - length xs) None))|..].
    + rewrite Hheap. unfold slots. by rewrite app_assoc, <- map_app, take_drop.
    + rewrite length_map, length_take. lia.
    + rewrite length_drop. lia.
    + intros [] w1 Hw1. cbv beta in Hw1. simpl. exists w1. split; [done|].
      eapply changed_eq; [exact Hw1|..]; try done; [|lia].
      f_equal. apply slots_destroy_tail; [rewrite length_take; lia|].
      f_equal. rewrite length_take. lia.
    + done.
  - destruct (Nat.ltb_spec (size_ v) n) as [|_]; [lia|].
    simpl. exists w. split; [done|].
    rewrite take_ge by lia. replace (length xs - n) with 0 by lia.
    repeat split; try lia.
    destruct (buffer_ (data_ v)) as [lo|]; simpl; [|done].
    by rewrite insert_id.
Qed.

(** Growing: [Reserve], then value-initialised elements built behind the
    old ones. *)
Lemma Resize_up (n : nat) (v : Vector) (xs : list T) (w : world T) :
  wf w → repr w v xs → size_ v < n → representable n →
  yields (Resize F n (v, w))
    (fun _ s' => ∃ v' w', s' = (v', w') ∧
       repr w' v' (xs ++ replicate (n - length xs) value_init) ∧ wf w' ∧
       capacity_ (data_ v') = Nat.max (capacity_ (data_ v)) n ∧
       frame (buffer_ (data_ v)) w w')
    (fun s' => ∃ v' w' xs', s' = (v', w') ∧ repr w' v' xs' ∧ wf w' ∧
       capacity_ (data_ v) ≤ capacity_ (data_ v') ∧ length xs' = length xs ∧
       frame (buffer_ (data_ v)) w w' ∧
       (is_copy_constructible = true ∨ is_nothrow_move_constructible = true →
        xs' = xs)).
Proof.
  intros Hwf Hr Hgt Hrep. pose proof Hr as (Hn & Hc & Hb & Hfit). unfold Resize.
  rewrite (bind_Normal _ _ (v, w) v (v, w)) by done.
  destruct (Nat.ltb_spec n (size_ v)) as [|_]; [lia|].
  destruct (Nat.ltb_spec (size_ v) n) as [_|]; [|lia].
  apply yields_bind. apply yields_bind.
  assert (Hres : yields (Reserve F n (v, w))
            (fun _ s1 => ∃ v1 w1, s1 = (v1, w1) ∧ repr w1 v1 xs ∧ wf w1 ∧
               capacity_ (data_ v1) = Nat.max (capacity_ (data_ v)) n ∧
               frame (buffer_ (data_ v)) w w1 ∧
               (buffer_ (data_ v1) = buffer_ (data_ v) ∨
                buffer_ (data_ v1) = Some (fresh w)))
            (fun s1 => ∃ w1, s1 = (v, w1) ∧ growth_failed v xs w w1)).
  { destruct (Nat.le_gt_cases n (capacity_ (data_ v))) as [Hle|Hbig].
    - unfold Reserve, bind, this, local.
      destruct (Nat.leb_spec n (capacity_ (data_ v))) as [_|]; [|lia].
      simpl. eexists _, _. split; [done|]. split; [done|]. split; [done|].
      split; [lia|]. split; [apply frame_refl|by left].
    - eapply yields_mono; [by apply Reserve_grows|..]; [|done].
      intros [] s1 (w1 & -> & Hw1 & Hfn). eexists _, _. split; [done|].
      split; [|split; [by eapply wf_changed_grown|
               split; [simpl; lia|split; [by eapply frame_changed_grown|by right]]]].
      split; [done|]. split; [simpl; lia|]. split; [|done]. simpl.
      destruct Hw1 as [-> _]. apply lookup_insert_eq. }
  eapply yields_mono; [exact Hres|..].
  - intros [] s1 (v1 & w1 & -> & Hr1 & Hwf1 & Hcap1 & Hfr1 & Hbuf1).
    pose proof Hr1 as (Hn1 & Hc1 & Hb1 & Hfit1).
    rewrite (bind_Normal _ _ (v1, w1) v1 (v1, w1)) by done.
    rewrite (bind_Normal _ _ _ _ _ (Raw_plus_ok (data_ v1) (size_ v1) _ ltac:(lia))).
    assert (Hpos1 : 0 < capacity_ (data_ v1)) by lia.
    destruct (buffer_ (data_ v1)) as [l1|] eqn:Hl1; [|lia].
    assert (Hl1' : buffer_ (data_ v) = Some l1 ∨ fresh w ≤ l1).
    { destruct Hbuf1 as [<-|Heq]; [by left|right]. injection Heq as ->. lia. }
    apply yields_outer. unfold uninitialized_value_construct_n.
    rewrite Hn1.
    replace (length xs) with (length (map Some xs)) at 2 by apply length_map.
    eapply yields_mono;
      [eapply (uninit_value_loop_yields F l1 _ (map Some xs)
                 (replicate (capacity_ (data_ v1) - n) None) (n - length xs) 0 w1)|..].
    + rewrite Hb1. unfold slots. simpl. do 2 f_equal.
      rewrite <- replicate_add. f_equal. lia.
    + intros [] w2 Hw2. cbv beta in Hw2. simpl. eexists _, _. split; [done|].
      split; [|split; [by eapply wf_changed_update|
               split; [simpl; lia|by eapply frame_then_update]]].
      split; [simpl; rewrite length_app, length_replicate; lia|].
      split; [simpl; rewrite length_app, length_replicate; lia|]. split; [|done].
      simpl. rewrite Hl1. destruct Hw2 as [-> _]. rewrite lookup_insert_eq.
      f_equal. unfold slots.
      rewrite map_app, fmap_replicate, <- app_assoc.
      do 3 f_equal. rewrite length_app, length_replicate. lia.
    + intros w2 [j Hw2]. simpl in Hw2. exists v1, w2, xs. split; [done|].
      split; [|split; [by eapply wf_changed_update|
               split; [lia|split; [done|split; [by eapply frame_then_update|done]]]]].
      split; [done|]. split; [done|]. split; [|done]. rewrite Hl1.
      destruct Hw2 as [-> _]. rewrite lookup_insert_eq. f_equal.
      unfold slots. do 2 f_equal. rewrite <- replicate_add. f_equal. lia.
  - intros s1 (w1 & -> & Hg).
    destruct (growth_failed_repr v xs w w1 Hwf Hr Hg) as (xs' & Hr' & Hlen & Hwf').
    exists v, w1, xs'. split; [done|]. split; [done|]. split; [done|].
    split; [done|]. split; [done|]. split; [by eapply frame_growth_failed|].
    intros Hty.
    destruct (growth_failed_same v xs w w1 Hty Hr Hg) as [_ (_ & _ & Hb' & _)].
    destruct Hr' as (_ & _ & Hb'' & _). destruct (buffer_ (data_ v)) as [lo|].
    + rewrite Hb' in Hb''. injection Hb'' as Heq. unfold slots in Heq.
      apply app_inj_1 in Heq as [Heq _]; [|by rewrite !length_map].
      by apply (inj (fmap Some)) in Heq.
    + destruct xs, xs'; simpl in *; done || lia.
Qed.

(** X1: [Resize(n)], for [n] with [n * sizeof(T)] not beyond [SIZE_MAX],
    leaves the first [n] elements, followed by value-initialised ones when
    [n] exceeds the size, and a capacity that is the larger of the old
    capacity and [n]. When it throws, the array keeps its size, its
    capacity has not shrunk, and its elements are as before when the
    element type is copy-constructible or its move constructor does not
    throw. It completes when nothing throws and [n] elements are not more
    than [operator new] grants. *)
Theorem Resize_truncates_or_pads (n : nat) (v : Vector) (xs : list T) (w : world T) :
  wf w → repr w v xs → representable n →
  yields (Resize F n (v, w))
    (fun _ s' =>
       Size s'.1 = n ∧
       repr s'.2 s'.1 (take n xs ++ replicate (n - length xs) value_init) ∧
       Capacity s'.1 = Nat.max (Capacity v) n ∧ wf s'.2)
    (fun s' =>
       Size s'.1 = Size v ∧ Capacity v ≤ Capacity s'.1 ∧ wf s'.2 ∧
       ∃ xs', repr s'.2 s'.1 xs' ∧ length xs' = length xs ∧
              (is_copy_constructible = true ∨ is_nothrow_move_constructible = true →
               xs' = xs)) ∧
  (quiet F → fits n → ∃ s', Resize F n (v, w) = Normal tt s').
Proof.
  intros Hwf Hr Hrep.
  apply yields_completes_if; [|intros Hq Hfn; by apply no_throw_Resize].
  pose proof Hr as (Hn & Hc & Hb & Hfit). unfold Size, Capacity.
  destruct (Nat.lt_ge_cases (size_ v) n) as [Hgt|Hle].
  - eapply yields_mono; [by apply Resize_up|..].
    + intros [] s' (v' & w' & -> & Hr' & Hwf' & Hcap & _). simpl.
      rewrite take_ge by lia.
      split; [|done]. destruct Hr' as (Hn' & _). rewrite Hn', length_app, length_replicate. lia.
    + intros s' (v' & w' & xs' & -> & Hr' & Hwf' & Hcap & Hlen & _ & Hsame). simpl.
      split; [destruct Hr' as (Hn' & _); lia|]. split; [done|]. split; [done|].
      by exists xs'.
  - eapply yields_mono; [apply (Resize_down n v xs w Hr); lia|..]; [|done].
    intros [] s' (w' & -> & Hw'). simpl.
    replace (n - length xs) with 0 by lia. simpl. rewrite app_nil_r.
    assert (Hr' : repr w' (mkVector (data_ v) n) (take n xs)).
    { split; [simpl; rewrite length_take; lia|].
      split; [simpl; rewrite length_take; lia|]. split; [|done]. simpl.
      destruct Hw' as [-> _]. destruct (buffer_ (data_ v)) as [lo|]; simpl; [|done].
      apply lookup_insert_eq. }
    split; [done|]. split; [done|]. split; [lia|].
    destruct (buffer_ (data_ v)) as [lo|]; simpl in *.
    + by eapply wf_changed_update.
    + by eapply wf_changed_same.
Qed.

(** X2: [Resize(n)] with [n] at most the size cannot throw, whatever the
    element type: it keeps the buffer and the capacity, allocates and
    constructs nothing, and destroys exactly the [size - n] last
    elements. *)
Theorem Resize_shrinks_in_place (n : nat) (v : Vector) (xs : list T) (w : world T) :
  repr w v xs → n ≤ Size v →
  ∃ w', Resize F n (v, w) = Normal tt (mkVector (data_ v) n, w') ∧
        repr w' (mkVector (data_ v) n) (take n xs) ∧
        fresh w' = fresh w ∧ constructed w' = constructed w ∧
        destroyed w' = destroyed w + (Size v - n) ∧ assigned w' = assigned w.
Proof.
  intros Hr Hle. pose proof Hr as (Hn & Hc & Hb & Hfit). unfold Size in *.
  destruct (yields_returns _ _ (Resize_down n v xs w Hr ltac:(lia)))
    as ([] & s' & Heq & w' & -> & Hw').
  exists w'. split; [done|].
  destruct Hw' as (Hh & Hf & Hcs & Hds & Has).
  split; [|repeat split; lia].
  split; [simpl; rewrite length_take; lia|].
  split; [simpl; rewrite length_take; lia|]. split; [|done]. simpl.
  rewrite Hh. destruct (buffer_ (data_ v)) as [lo|]; simpl; [|done].
  apply lookup_insert_eq.
Qed.

End Resizing.
Lemma outer_Normal {L St A} (m : M St A) (l : L) (s s' : St) (a : A) :
  m s = Normal a s' → outer m (l, s) = Normal a (l, s').
Proof. intros Hm. unfold outer. by rewrite Hm. Qed.

Section Removing.
Context {T : Type} `{Element T}.
Variable F : faults.

(** [PopBack] on a non-empty array: the last element is destroyed. *)
Lemma PopBack_nonempty (v : Vector) (ys : list T) (x : T) (w : world T) :
  repr w v (ys ++ [x]) →
  ∃ lo w',
    buffer_ (data_ v) = Some lo ∧
    destroy_at (Ptr (Some lo) (length ys)) w = Normal tt w' ∧
    evolves w w' (<[lo := slots ys (capacity_ (data_ v))]> (heap w)) 0 1 0 ∧
    PopBack (v, w) = Normal tt (mkVector (data_ v) (length ys), w').
Proof.
  intros Hr. pose proof Hr as (Hn & Hc & Hb & Hfit).
  rewrite length_app in *. simpl length in *.
  destruct (repr_buffer_nonempty w v _ Hr) as (lo & Hlo & Hheap);
    [rewrite length_app; simpl; lia|].
  assert (Hsl : slots (ys ++ [x]) (capacity_ (data_ v)) =
            map Some ys ++ Some x :: replicate (capacity_ (data_ v) - size_ v) None).
  { unfold slots. rewrite map_app, <- app_assoc, length_app. simpl. by rewrite Hn. }
  rewrite Hsl in Hheap.
  pose proof (destroy_at_yields lo (length ys) _ x w Hheap) as Hd.
  rewrite list_lookup_middle in Hd by (by rewrite length_map).
  specialize (Hd eq_refl).
  rewrite insert_middle in Hd by (by rewrite length_map).
  destruct (yields_returns _ _ Hd) as ([] & w' & Heq & Hw').
  exists lo, w'. split; [done|]. split; [done|]. split.
  - eapply changed_eq; [exact Hw'|..]; try done.
    f_equal. unfold slots.
    replace (capacity_ (data_ v) - length ys) with (S (capacity_ (data_ v) - size_ v)) by lia.
    done.
  - unfold PopBack. rewrite (bind_Normal _ _ (v, w) v (v, w)) by done.
    destruct (Nat.eqb_spec (size_ v) 0) as [|_]; [lia|]. cbn [negb].
    unfold set_size.
    rewrite (bind_Normal _ _ (v, w) tt (mkVector (data_ v) (size_ v - 1), w)) by done.
    rewrite (bind_Normal _ _ _ _ _ (Raw_plus_ok (data_ v) (size_ v - 1) _ ltac:(lia))).
    rewrite Hlo. replace (size_ v - 1) with (length ys) by lia.
    by apply outer_Normal.
Qed.

(** X3: [PopBack] cannot throw. On a non-empty array it removes the last
    element by exactly one destruction, in place, with the capacity
    unchanged; on an empty array it does nothing. *)
Theorem PopBack_removes_last (v : Vector) (xs : list T) (w : world T) :
  repr w v xs →
  (xs = [] → PopBack (v, w) = Normal tt (v, w)) ∧
  (∀ ys x, xs = ys ++ [x] →
     ∃ w', PopBack (v, w) = Normal tt (mkVector (data_ v) (length ys), w') ∧
           repr w' (mkVector (data_ v) (length ys)) ys ∧
           fresh w' = fresh w ∧ constructed w' = constructed w ∧
           destroyed w' = destroyed w + 1 ∧ assigned w' = assigned w).
Proof.
  intros Hr. pose proof Hr as (Hn & Hc & Hb & Hfit). split.
  - intros ->. simpl in Hn. unfold PopBack.
    rewrite (bind_Normal _ _ (v, w) v (v, w)) by done.
    by rewrite Hn.
  - intros ys x ->.
    destruct (PopBack_nonempty v ys x w Hr) as (lo & w' & Hlo & _ & Hw' & Heq).
    rewrite length_app in *. simpl length in *.
    exists w'. split; [done|].
    destruct Hw' as (Hh & Hf & Hcs & Hds & Has).
    split; [|repeat split; lia].
    split; [done|]. split; [simpl; lia|]. simpl. rewrite Hlo, Hh.
    split; [|done]. apply lookup_insert_eq.
Qed.

(** X4: at the last position [Erase] does what [PopBack] does: both
    return in the same state, the element destroyed and nothing
    assigned, and [Erase] returns the new [end()]. *)
Theorem Erase_last_is_PopBack (v : Vector) (ys : list T) (x : T) (w : world T) :
  repr w v (ys ++ [x]) →
  ∃ s', PopBack (v, w) = Normal tt s' ∧
        Erase F (Ptr (buffer_ (data_ v)) (length ys)) (v, w) =
          Normal (Ptr (buffer_ (data_ v)) (length ys)) s' ∧
        repr s'.2 s'.1 ys ∧ Size s'.1 = length ys ∧ assigned s'.2 = assigned w.
Proof.
  intros Hr. pose proof Hr as (Hn & Hc & Hb & Hfit).
  destruct (PopBack_nonempty v ys x w Hr) as (lo & w' & Hlo & Hd & Hw' & Heq).
  rewrite length_app in *. simpl length in *.
  exists (mkVector (data_ v) (length ys), w'). split; [done|]. split; [|split].
  - unfold Erase.
    rewrite (bind_Normal _ _ _ _ _ (begin_ok v w)).
    rewrite (bind_Normal _ _ _ _ _ (end_ok v w ltac:(lia))).
    rewrite ptr_le_same by lia. rewrite ptr_lt_same by lia. cbn [andb assert].
    rewrite (bind_Normal _ _ (v, w) tt (v, w)) by done.
    rewrite (bind_Normal _ _ _ _ _ (begin_ok v w)).
    rewrite (bind_Normal _ _ _ _ _ (end_ok v w ltac:(lia))).
    unfold ptr_add, ptr_sub. cbn [base off]. rewrite Nat.sub_0_r, Nat.add_0_l.
    rewrite (bind_Normal _ _ (v, w) tt (v, w)).
    2:{ apply outer_Normal. rewrite std_move_ok by (simpl; first [done|lia]). simpl.
        replace (size_ v - (length ys + 1)) with 0 by lia. done. }
    rewrite Hlo. replace (size_ v - 1) with (length ys) by lia.
    rewrite (bind_Normal _ _ _ _ _ (outer_Normal _ v _ _ _ Hd)).
    rewrite (bind_Normal _ _ (v, w') v (v, w')) by done.
    unfold set_size.
    rewrite (bind_Normal _ _ (v, w') tt (mkVector (data_ v) (size_ v - 1), w')) by done.
    unfold ret. do 3 f_equal. lia.
  - destruct Hw' as (Hh & _).
    split; [done|]. split; [simpl; lia|]. simpl. rewrite Hlo, Hh.
    split; [|done]. apply lookup_insert_eq.
  - destruct Hw' as (_ & _ & _ & _ & Has). simpl. unfold Size. simpl. split; [done|lia].
Qed.

(** X5: [PushBack] followed by [PopBack] gives back the same elements
    and the same size, with every object constructed on the way
    destroyed again; only the capacity has grown, to max(size * 2, 1),
    when the array was full. When the pair throws it is
    the append that failed, and the array object is as it was. *)
Theorem PushBack_then_PopBack (a : init T) (v : Vector) (xs : list T) (w : world T) :
  wf w → repr w v xs →
  yields ((PushBack F a ;; PopBack) (v, w))
    (fun _ s' =>
       repr s'.2 s'.1 xs ∧ Size s'.1 = Size v ∧
       Capacity s'.1 = (if Size v =? Capacity v then grown (Size v) else Capacity v) ∧
       constructed s'.2 + destroyed w = constructed w + destroyed s'.2)
    (fun s' => s'.1 = v).
Proof.
  intros Hwf Hr. pose proof Hr as (Hn & Hc & Hb & Hfit). unfold Size, Capacity.
  apply yields_bind.
  eapply yields_mono; [by apply PushBack_yields|..].
  - intros [] s1 (v1 & w1 & -> & Hr1 & _ & Hcase).
    destruct (PopBack_nonempty v1 xs (init_value a) w1 Hr1)
      as (lo & w' & Hlo & _ & Hw' & Heq).
    rewrite Heq. simpl.
    destruct Hw' as (Hh & Hf & Hcs & Hds & Has).
    assert (Hr' : repr w' (mkVector (data_ v1) (length xs)) xs).
    { destruct Hr1 as (Hn1 & Hc1 & _ & Hfit1). rewrite length_app in *. simpl in *.
      split; [done|]. split; [simpl; lia|]. simpl. rewrite Hlo, Hh.
      split; [|done]. apply lookup_insert_eq. }
    split; [done|]. split; [done|].
    destruct Hcase as [(Hlt & Hd & _ & ? & ?)|(Hfull & Hd & _ & ? & ?)]; rewrite Hd; simpl.
    + destruct (Nat.eqb_spec (size_ v) (capacity_ (data_ v))); [lia|]. split; lia.
    + destruct (Nat.eqb_spec (size_ v) (capacity_ (data_ v))); [|lia]. split; lia.
  - intros s' (w' & -> & _). done.
Qed.

(** X6: [Erase] at the valid position [k] leaves the other elements in
    their order, in the same buffer, by one destruction and as many move
    assignments as elements followed; nothing is allocated or
    constructed. When a move assignment throws, the array keeps its size,
    and nothing has been destroyed. It completes when nothing throws. *)
Theorem Erase_removes_element (k : nat) (v : Vector) (xs : list T) (w : world T) :
  repr w v xs → k < Size v →
  yields (Erase F (Ptr (buffer_ (data_ v)) k) (v, w))
    (fun _ s' =>
       s'.1 = mkVector (data_ v) (Size v - 1) ∧ repr s'.2 s'.1 (delete k xs) ∧
       fresh s'.2 = fresh w ∧ constructed s'.2 = constructed w ∧
       destroyed s'.2 = destroyed w + 1 ∧
       assigned s'.2 = assigned w + (Size v - S k))
    (fun s' =>
       s'.1 = v ∧ (∃ zs, repr s'.2 v zs ∧ length zs = length xs) ∧
       fresh s'.2 = fresh w ∧ constructed s'.2 = constructed w ∧
       destroyed s'.2 = destroyed w) ∧
  (quiet F → ∃ p s', Erase F (Ptr (buffer_ (data_ v)) k) (v, w) = Normal p s').
Proof.
  intros Hr Hk. pose proof Hr as (Hn & Hc & Hb & Hfit). unfold Size in *.
  assert (Hlen : length (delete k xs) = length xs - 1)
    by (rewrite length_delete; [done|apply lookup_lt_is_Some_2; lia]).
  assert (Hy : yields (Erase F (Ptr (buffer_ (data_ v)) k) (v, w))
    (fun _ s' =>
       s'.1 = mkVector (data_ v) (size_ v - 1) ∧ repr s'.2 s'.1 (delete k xs) ∧
       fresh s'.2 = fresh w ∧ constructed s'.2 = constructed w ∧
       destroyed s'.2 = destroyed w + 1 ∧
       assigned s'.2 = assigned w + (size_ v - S k))
    (fun s' =>
       s'.1 = v ∧ (∃ zs, repr s'.2 v zs ∧ length zs = length xs) ∧
       fresh s'.2 = fresh w ∧ constructed s'.2 = constructed w ∧
       destroyed s'.2 = destroyed w)).
  { eapply yields_mono; [apply (Erase_yields F k v xs w Hr); lia|..].
    - intros p s' (w' & lo & -> & -> & Hlo & Hw'). simpl.
      destruct Hw' as (Hh & Hf & Hcs & Hds & Has).
      split; [done|]. split; [|repeat split; lia].
      split; [simpl; lia|]. split; [simpl; lia|]. simpl. rewrite Hlo, Hh.
      split; [|done]. apply lookup_insert_eq.
    - intros s' (w' & lo & zs & j & -> & Hzs & Hlo & Hw'). simpl.
      destruct Hw' as (Hh & Hf & Hcs & Hds & Has).
      split; [done|]. split; [|repeat split; lia].
      exists zs. split; [|done].
      split; [lia|]. split; [lia|]. rewrite Hlo, Hh. split; [|done]. apply lookup_insert_eq. }
  split; [done|]. intros Hq.
  destruct (yields_never_throws _ _ _ _ Hy (never_throws_Erase F Hq _))
    as (p & s' & Heq & _).
  eauto.
Qed.

(** X7: the assertions on positions. [Erase] at [cend()] or beyond,
    [Emplace] beyond [cend()] and [operator[]] at an index that is not
    below the size have no defined result. *)
Theorem out_of_range_is_undefined (v : Vector) (xs : list T) (w : world T) :
  repr w v xs →
  (∀ k, Size v ≤ k → Erase F (Ptr (buffer_ (data_ v)) k) (v, w) = Undefined) ∧
  (∀ k a, Size v < k → Emplace F (Ptr (buffer_ (data_ v)) k) a (v, w) = Undefined) ∧
  (∀ i, Size v ≤ i → index_op i (v, w) = Undefined).
Proof.
  intros (Hn & Hc & Hb & Hfit). unfold Size. split; [|split].
  - intros k Hk. unfold Erase.
    rewrite (bind_Normal _ _ _ _ _ (begin_ok v w)).
    rewrite (bind_Normal _ _ _ _ _ (end_ok v w ltac:(lia))).
    apply bind_Undefined.
    unfold ptr_lt. cbn [base off].
    destruct (Nat.ltb_spec k (size_ v)); [lia|].
    by rewrite !andb_false_r.
  - intros k a Hk. unfold Emplace, Emplace_with.
    rewrite (bind_Normal _ _ _ _ _ (begin_ok v w)).
    rewrite (bind_Normal _ _ _ _ _ (end_ok v w ltac:(lia))).
    apply bind_Undefined.
    unfold ptr_le at 2. cbn [base off].
    destruct (Nat.leb_spec k (size_ v)); [lia|].
    by rewrite !andb_false_r.
  - intros i Hi. unfold index_op.
    rewrite (bind_Normal _ _ (v, w) v (v, w)) by done.
    apply bind_Undefined.
    by destruct (Nat.ltb_spec i (size_ v)); [lia|].
Qed.

End Removing.

Section Inserting.
Context {T : Type} `{Element T}.
Variable F : faults.

(** [operator[]] at an index below the size: the address of the element,
    the array and the world untouched. *)
Lemma index_op_reads (i : nat) (x : T) (v : Vector) (xs : list T) (w : world T) :
  repr w v xs → xs !! i = Some x →
  index_op i (v, w) = Normal (Ptr (buffer_ (data_ v)) i) (v, w) ∧
  deref (Ptr (buffer_ (data_ v)) i) w = Normal x w.
Proof.
  intros Hr Hx. pose proof Hr as (Hn & Hc & Hb & Hfit).
  pose proof (lookup_lt_Some _ _ _ Hx) as Hi.
  destruct (repr_buffer_nonempty w v xs Hr ltac:(lia)) as (lo & Hlo & Hheap).
  split.
  - unfold index_op. rewrite (bind_Normal _ _ (v, w) v (v, w)) by done.
    destruct (Nat.ltb_spec i (size_ v)) as [_|]; [|lia]. cbn [assert].
    rewrite (bind_Normal _ _ (v, w) tt (v, w)) by done.
    apply Raw_at_ok. lia.
  - rewrite Hlo. eapply deref_live; [exact Hheap|].
    unfold slots. rewrite lookup_app_l by (rewrite length_map; lia).
    by rewrite list_lookup_fmap, Hx.
Qed.


Lemma inserted_lookup_others (k i : nat) (xs : list T) (x y : T) :
  k ≤ length xs → xs !! i = Some y →
  (take k xs ++ x :: drop k xs) !! (if i <? k then i else S i) = Some y.
Proof.
  intros Hk Hy. pose proof (lookup_lt_Some _ _ _ Hy) as Hi.
  destruct (Nat.ltb_spec i k) as [Hlt|Hge].
  - rewrite lookup_app_l by (rewrite length_take; lia).
    by rewrite lookup_take_lt.
  - rewrite lookup_app_r by (rewrite length_take; lia).
    rewrite length_take. replace (S i - k `min` length xs) with (S (i - k)) by lia.
    simpl. rewrite lookup_drop. by replace (k + (i - k)) with i by lia.
Qed.

(** X9: lookup after insertion. The iterator that [Emplace] returns is
    the address [operator[]] gives for index [k], and the inserted value
    is read there; an element that was at an index below [k] is read at
    the same index, one that was at [k] or after at the next index. *)
Theorem lookup_after_Emplace (k : nat) (a : init T) (v : Vector) (xs : list T)
    (w : world T) :
  wf w → repr w v xs → k ≤ Size v →
  Size v = Capacity v ∨ k < Size v ∨ Size v = 0 →
  yields (Emplace F (Ptr (buffer_ (data_ v)) k) a (v, w))
    (fun p s' =>
       index_op k s' = Normal p s' ∧
       deref p s'.2 = Normal (init_value a) s'.2 ∧
       ∀ i x, xs !! i = Some x →
         ∃ q, index_op (if i <? k then i else S i) s' = Normal q s' ∧
              deref q s'.2 = Normal x s'.2)
    (fun _ => True).
Proof.
  intros Hwf Hr Hk Hcase. pose proof Hr as (Hn & Hc & Hb & Hfit). unfold Size, Capacity in *.
  eapply yields_mono; [apply (Emplace_yields F k a v xs w Hwf Hr)|..]; [lia| |..|done].
  - destruct Hcase as [?|[?|Hz]]; [by left|right; left; lia|right; right].
    apply nil_length_inv. lia.
  - intros p s' (v' & w' & -> & Hr' & _ & -> & _). simpl.
    destruct (index_op_reads k (init_value a) v' _ w' Hr') as [Hi Hd];
      [apply inserted_lookup; lia|].
    split; [done|]. split; [done|].
    intros i x Hx.
    destruct (index_op_reads (if i <? k then i else S i) x v' _ w' Hr') as [Hi' Hd'];
      [apply inserted_lookup_others; [lia|done]|].
    eauto.
Qed.

(** X10: [EmplaceBack] returns the reference to the new last element:
    the address [operator[]] gives for the old size, where the value is
    read; the elements before it are read at their indices. When it
    throws, the array object is as it was; it completes when nothing
    throws and the new buffer, if one is needed, is not more than
    [operator new] grants. *)
Theorem EmplaceBack_returns_new_element (a : init T) (v : Vector) (xs : list T)
    (w : world T) :
  wf w → repr w v xs →
  yields (EmplaceBack F a (v, w))
    (fun p s' =>
       Size s'.1 = S (Size v) ∧
       index_op (Size v) s' = Normal p s' ∧
       deref p s'.2 = Normal (init_value a) s'.2 ∧
       ∀ i x, xs !! i = Some x →
         ∃ q, index_op i s' = Normal q s' ∧ deref q s'.2 = Normal x s'.2)
    (fun s' => s'.1 = v) ∧
  (quiet F → can_grow v → ∃ p s', EmplaceBack F a (v, w) = Normal p s').
Proof.
  intros Hwf Hr. pose proof Hr as (Hn & Hc & Hb & Hfit). unfold Size.
  assert (Hy : yields (EmplaceBack F a (v, w))
    (fun p s' =>
       size_ s'.1 = S (size_ v) ∧
       index_op (size_ v) s' = Normal p s' ∧
       deref p s'.2 = Normal (init_value a) s'.2 ∧
       ∀ i x, xs !! i = Some x →
         ∃ q, index_op i s' = Normal q s' ∧ deref q s'.2 = Normal x s'.2)
    (fun s' => s'.1 = v)).
  { eapply yields_mono; [by apply EmplaceBack_yields|..].
    - intros p s' (v' & w' & -> & (Hr' & _) & ->). simpl.
      pose proof Hr' as (Hn' & _). rewrite length_app in Hn'. simpl in Hn'.
      split; [lia|].
      destruct (index_op_reads (size_ v) (init_value a) v' _ w' Hr') as [Hi Hd].
      { rewrite Hn. by apply list_lookup_middle. }
      split; [done|]. split; [done|].
      intros i x Hx.
      destruct (index_op_reads i x v' _ w' Hr') as [Hi' Hd'];
        [by apply lookup_app_l_Some|].
      eauto.
    - intros s' (w' & -> & _). done. }
  split; [done|]. intros Hq Hg.
  destruct (yields_no_throw _ _ _ Hy (no_throw_EmplaceBack F Hq a v w Hg))
    as (p & s' & Heq & _).
  eauto.
Qed.

End Inserting.

Section InsertFailure.
Context {T : Type} `{Element T}.
Variable F : faults.

(** Leaving the block of the reallocating branch by an exception: the new
    buffer, in which everything built has been destroyed, is released. *)
Lemma release_after_failure (v : Vector) (xs : list T) (w w4 : world T)
    (bn : list (option T)) (g j : nat) :
  wf w → repr w v xs →
  fresh w4 = fresh w + 1 →
  constructed w4 = constructed w + j → destroyed w4 = destroyed w + j →
  assigned w4 = assigned w →
  (heap w4 = <[fresh w := bn]> (heap w) ∨
   (uses_move = true ∧ is_nothrow_move_constructible = false ∧
    ∃ lo extra remaining,
      buffer_ (data_ v) = Some lo ∧ xs = extra ++ remaining ∧ remaining ≠ [] ∧
      heap w4 = <[fresh w := bn]>
                  (<[lo := slots (map moved_from extra ++ remaining) (capacity_ (data_ v))]>
                     (heap w)))) →
  yields (outer (RawMemory_dtor (mkRaw (Some (fresh w)) g)) (v, w4))
    (fun _ s' => ∃ w', s' = (v, w') ∧ growth_failed v xs w w')
    (fun s' => ∃ w', s' = (v, w') ∧ growth_failed v xs w w').
Proof.
  intros Hwf Hr Hf Hc Hd Ha Hh.
  pose proof (repr_buffer_not_fresh w v xs Hwf Hr) as Hne.
  pose proof (wf_fresh w Hwf) as Hfr.
  unfold RawMemory_dtor, outer. cbn [buffer_].
  destruct Hh as [Hh|(Hu & Hnt & lo & extra & remaining & Hlo & Hxs & Hrem & Hh)].
  - erewrite Deallocate_live by (rewrite Hh; apply lookup_insert_eq).
    simpl. eexists. split; [done|]. left. exists 1, j.
    unfold changed. simpl. rewrite Hh, delete_insert_eq, delete_id by done.
    repeat split; lia.
  - assert (lo ≠ fresh w) by congruence.
    erewrite Deallocate_live by (rewrite Hh; apply lookup_insert_eq).
    simpl. eexists. split; [done|]. right. split; [done|]. split; [done|].
    exists lo, extra, remaining, 1, j. do 3 (split; [done|]).
    unfold changed. simpl. rewrite Hh, delete_insert_eq.
    rewrite delete_id by (by rewrite lookup_insert_ne).
    repeat split; lia.
Qed.

(** A failed [Emplace] on a full array. *)
Lemma Emplace_realloc_fails (k : nat) (a : init T) (v : Vector) (xs : list T) (w : world T) :
  wf w → repr w v xs → k ≤ length xs → size_ v = capacity_ (data_ v) →
  yields (Emplace F (Ptr (buffer_ (data_ v)) k) a (v, w))
    (fun _ _ => True)
    (fun s' => ∃ w', s' = (v, w') ∧ growth_failed v xs w w').
Proof.
  intros Hwf Hr Hk Hfull. pose proof Hr as (Hn & Hc & Hb & Hfit).
  pose proof (repr_buffer_not_fresh w v xs Hwf Hr) as Hne.
  pose proof (grown_gt (size_ v)) as Hg.
  pose proof (wf_fresh w Hwf) as Hfr.
  unfold Emplace, Emplace_with.
  rewrite (bind_Normal _ _ _ _ _ (begin_ok v w)).
  rewrite (bind_Normal _ _ _ _ _ (end_ok v w ltac:(lia))).
  rewrite !ptr_le_same by lia. cbn [andb assert].
  rewrite (bind_Normal _ _ (v, w) tt (v, w)) by done.
  rewrite (bind_Normal _ _ (v, w) v (v, w)) by done.
  destruct (Nat.eqb_spec (size_ v) (capacity_ (data_ v))) as [_|]; [|lia]. cbn [negb].
  cbn [off]. rewrite Nat.sub_0_r.
  apply yields_scope, yields_outer.
  eapply yields_mono;
    [apply RawMemory_ctor_yields; [lia|apply fits_grown; by rewrite Hfull]|..].
  2:{ intros w1 Hw1. eexists. split; [done|]. left. by exists 0, 0. }
  intros r w1 (-> & Hw1 & _). cbv beta.
  apply yields_bind. cbn [local yields].
  rewrite (bind_Normal _ _ _ _ _
             (Raw_plus_ok (mkRaw (Some (fresh w)) (grown (size_ v))) k _ ltac:(simpl; lia))).
  cbn [buffer_].
  (* new (pos) T(args...) *)
  apply yields_bind, yields_outer, yields_outer.
  eapply yields_mono;
    [eapply (construct_at_yields F (fresh w) k (replicate (grown (size_ v)) None))|..].
  { destruct Hw1 as [-> _]. apply lookup_insert_eq. }
  { rewrite length_replicate. lia. }
  2:{ intros w2 Hw2. cbn [fst snd].
      destruct Hw2 as (Hh2 & ? & ? & ? & ?), Hw1 as (Hh1 & ? & ? & ? & ?).
      eapply (release_after_failure v xs w w2 _ _ 0); try done; try lia.
      left. by rewrite Hh2, Hh1. }
  intros [] w2 Hw2. cbv beta in Hw2.
  rewrite replicate_insert_new in Hw2 by lia.
  assert (Hl2 : heap w2 !! fresh w =
            Some (replicate k None ++
                  Some (init_value a) :: replicate (grown (size_ v) - S k) None))
    by (destruct Hw2 as [-> _]; apply lookup_insert_eq).
  assert (Hh2 : heap w2 =
            <[fresh w := replicate k None ++
                         Some (init_value a) :: replicate (grown (size_ v) - S k) None]>
              (heap w)).
  { destruct Hw2 as [-> _], Hw1 as [-> _]. by rewrite insert_insert_eq. }
  assert (Hc2 : fresh w2 = fresh w + 1 ∧ constructed w2 = constructed w + 1 ∧
                destroyed w2 = destroyed w ∧ assigned w2 = assigned w).
  { destruct Hw2 as (_ & ? & ? & ? & ?), Hw1 as (_ & ? & ? & ? & ?). repeat split; lia. }
  clear Hw1 Hw2. destruct Hc2 as (Hf2 & Hcs2 & Hds2 & Has2).
  destruct (buffer_ (data_ v)) as [lo|] eqn:Hlo.
  - (* the array has a buffer *)
    assert (Hlone : lo ≠ fresh w) by congruence.
    assert (Hl2o : heap w2 !! lo =
              Some (map Some (take k xs) ++ map Some (drop k xs)))
      by (rewrite Hh2, lookup_insert_ne by done;
          rewrite Hb; unfold slots;
          rewrite <- Hn, Hfull, Nat.sub_diag, app_nil_r, <- map_app, take_drop; done).
    (* the elements before the position *)
    apply yields_bind, yields_try_catch, yields_outer, yields_outer.
    unfold GetAddress. rewrite Hlo. cbn [buffer_].
    eapply yields_mono;
      [eapply (UCOM_yields F lo (fresh w) [] (map Some (drop k xs)) []
                 (Some (init_value a) :: replicate (grown (size_ v) - S k) None)
                 (take k xs) k w2); eauto|..].
    { rewrite length_take. lia. }
    2:{ intros w3 Hw3. apply yields_outer, yields_outer.
        eapply yields_mono;
          [eapply (destroy_at_yields (fresh w) k _ (init_value a))|..].
        - destruct Hw3 as [[_ [j Hw3]]|(_ & _ & ? & ? & _ & _ & Hw3)];
            destruct Hw3 as [-> _]; [exact Hl2|].
          rewrite lookup_insert_ne by done. exact Hl2.
        - apply list_lookup_middle. by rewrite length_replicate.
        - intros [] w4 Hw4. cbv beta in Hw4. cbn [fst snd].
          destruct Hw3 as [[Hu [j Hw3]]|(Hu & Hnt & extra & remaining & Hxs & Hrem & Hw3)];
            destruct Hw3 as (Hh3 & ? & ? & ? & ?), Hw4 as (Hh4 & ? & ? & ? & ?).
          + eapply (release_after_failure v xs w w4 _ _ (1 + j)); try done; try lia.
            left. rewrite Hh4, Hh3, Hh2. by rewrite insert_insert_eq.
          + eapply (release_after_failure v xs w w4 _ _ (1 + length extra));
              try done; try lia.
            right. split; [done|]. split; [done|].
            exists lo, extra, (remaining ++ drop k xs).
            split; [done|].
            split; [by rewrite app_assoc, <- Hxs, take_drop|].
            split; [by destruct remaining|].
            rewrite Hh4, Hh3, Hh2.
            rewrite (insert_insert_ne _ lo (fresh w)) by done.
            rewrite insert_insert_eq. do 2 f_equal.
            rewrite <- Hfull, Hn.
            replace (length xs) with (length (map moved_from extra ++ remaining ++ drop k xs)).
            2:{ pose proof (f_equal length Hxs) as Hl.
                rewrite length_take, length_app in Hl.
                rewrite !length_app, length_map, length_drop. lia. }
            rewrite slots_full. simpl. by rewrite app_assoc, <- map_app.
        - intros ? []. }
    intros [] w3 Hw3. cbv beta in Hw3. simpl app in Hw3.
    destruct Hw3 as (Hh3 & Hf3 & Hcs3 & Hds3 & Has3).
    (* the elements from the position on *)
    apply yields_bind, yields_try_catch.
    rewrite (bind_Normal _ _ _ _ _ (Raw_plus_ok (data_ v) k _ ltac:(lia))).
    rewrite Hlo. unfold ptr_add. cbn [base off].
    apply yields_outer, yields_outer.
    replace (size_ v - k) with (length (drop k xs)) by (rewrite length_drop; lia).
    replace k with (length (map Some (left_behind (take k xs)))) at 1
      by (rewrite length_map, left_behind_length, length_take; lia).
    replace (k + 1) with (length (map Some (take k xs) ++ [Some (init_value a)]))
      by (rewrite length_app, length_map, length_take; simpl; lia).
    assert (Hl3 : heap w3 !! fresh w =
              Some (map Some (take k xs ++ [init_value a]) ++
                    replicate (length (drop k xs)) None ++
                    replicate (grown (size_ v) - S (size_ v)) None)).
    { rewrite Hh3, lookup_insert_ne, lookup_insert_eq by done.
      rewrite map_app, <- app_assoc. simpl. do 3 f_equal.
      rewrite <- replicate_add. f_equal. rewrite length_drop. lia. }
    eapply yields_mono;
      [eapply (UCOM_yields F lo (fresh w) (map Some (left_behind (take k xs))) []
                 (map Some (take k xs) ++ [Some (init_value a)])
                 (replicate (grown (size_ v) - S (size_ v)) None)
                 (drop k xs) _ w3); eauto|..].
    { rewrite Hh3, lookup_insert_eq. by rewrite app_nil_r. }
    { rewrite Hl3, map_app. done. }
    2:{ intros w4 Hw4. apply yields_outer, yields_outer.
        eapply yields_mono;
          [eapply (destroy_n_run (fresh w) (take k xs ++ [init_value a]) []
                     (replicate (length (drop k xs)) None ++
                      replicate (grown (size_ v) - S (size_ v)) None))|..].
        5:{ intros ? []. }
        - destruct Hw4 as [[_ [j Hw4]]|(_ & _ & ? & ? & _ & _ & Hw4)];
            destruct Hw4 as [-> _]; [exact Hl3|].
          rewrite lookup_insert_ne by done. exact Hl3.
        - done.
        - by rewrite !length_app, length_map.
        - intros [] w5 Hw5. cbv beta in Hw5. cbn [fst snd].
          assert (Hlen5 : length (map Some (take k xs) ++ [Some (init_value a)]) = k + 1)
            by (rewrite length_app, length_map, length_take; simpl; lia).
          rewrite Hlen5 in Hw5. destruct Hw5 as (Hh5 & ? & ? & ? & ?).
          destruct Hw4 as [[Hu [j Hw4]]|(Hu & Hnt & extra & remaining & Hxs & Hrem & Hw4)];
            destruct Hw4 as (Hh4 & ? & ? & ? & ?).
          + eapply (release_after_failure v xs w w5 _ _ (1 + k + j)); try done; try lia.
            left. rewrite Hh5, Hh4, Hh3, Hh2.
            unfold left_behind. rewrite Hu, <- map_app, take_drop.
            apply map_eq. intros i.
            repeat (rewrite lookup_insert). repeat case_decide; subst; try done.
            rewrite Hb, <- Hfull, Hn. by rewrite slots_full.
          + eapply (release_after_failure v xs w w5 _ _ (1 + k + length extra));
              try done; try lia.
            right. split; [done|]. split; [done|].
            exists lo, (take k xs ++ extra), remaining.
            split; [done|].
            split; [by rewrite <- app_assoc, <- Hxs, take_drop|].
            split; [done|].
            rewrite Hh5, Hh4, Hh3, Hh2.
            unfold left_behind. rewrite Hu.
            assert (Hsl : slots (map moved_from (take k xs ++ extra) ++ remaining)
                            (capacity_ (data_ v)) =
                          map Some (map moved_from (take k xs)) ++
                          map Some (map moved_from extra ++ remaining) ++ []).
            { rewrite <- Hfull, Hn.
              replace (length xs)
                with (length (map moved_from (take k xs ++ extra) ++ remaining)).
              2:{ pose proof (f_equal length Hxs) as Hl.
                  rewrite length_drop, length_app in Hl.
                  rewrite !length_app, length_map, length_app, length_take. lia. }
              rewrite slots_full, app_nil_r, <- map_app.
              by rewrite (map_app moved_from), <- app_assoc. }
            rewrite Hsl.
            apply map_eq. intros i.
            repeat (rewrite lookup_insert). repeat case_decide; subst; done. }
    intros [] w4 Hw4. cbv beta in Hw4. rewrite app_nil_r in Hw4.
    (* std::destroy_n(data_.GetAddress(), size_) *)
    apply yields_bind, yields_outer, yields_outer.
    eapply yields_mono;
      [eapply (destroy_n_run lo (left_behind (take k xs) ++ left_behind (drop k xs)) [] []
                 0 (size_ v) w4)|..]; try done.
    { destruct Hw4 as [-> _]. rewrite lookup_insert_eq.
      by rewrite app_nil_r, map_app. }
    { rewrite length_app, !left_behind_length, length_take, length_drop. lia. }
    intros [] w5 Hw5. cbv beta in Hw5. simpl.
    unfold RawMemory_dtor, outer. cbn [buffer_]. rewrite Hlo.
    erewrite Deallocate_live by (destruct Hw5 as [-> _]; apply lookup_insert_eq).
    done.
  - (* the array has no buffer: it is empty *)
    assert (xs = []) as -> by (destruct xs; [done|simpl in *; lia]).
    simpl in Hk, Hn. assert (k = 0) as -> by lia.
    unfold GetAddress. rewrite Hlo, Hn. cbn [buffer_].
    unfold UninitializedCopyOrMoveN.
    destruct (is_nothrow_move_constructible || negb is_copy_constructible); simpl.
    all: unfold RawMemory_dtor; rewrite Hlo; simpl; done.
Qed.

(** How a failed in-place insertion at index [k] leaves the world: nothing
    was allocated and the elements before [k] are untouched; either the
    buffer holds as many elements as before, everything built destroyed,
    or (the final assignment of the new value threw) the former last
    element sits one slot behind them, constructed and not destroyed. *)
Definition insert_failed (k : nat) (v : Vector) (xs : list T) (w w' : world T) : Prop :=
  fresh w' = fresh w ∧
  ∃ lo zs,
    buffer_ (data_ v) = Some lo ∧ length zs = length xs ∧ take k zs = take k xs ∧
    ((heap w' = <[lo := slots zs (capacity_ (data_ v))]> (heap w) ∧
      constructed w' + destroyed w = constructed w + destroyed w')
     ∨
     (∃ z, last xs = Some z ∧
        heap w' = <[lo := map Some (zs ++ [z]) ++
                           replicate (capacity_ (data_ v) - S (length xs)) None]> (heap w) ∧
        constructed w' = constructed w + 1 ∧ destroyed w' = destroyed w)).

Lemma insert_failed_same (k : nat) (v : Vector) (xs : list T) (w w' : world T) lo :
  repr w v xs → buffer_ (data_ v) = Some lo →
  evolves w w' (heap w) 0 0 0 → insert_failed k v xs w w'.
Proof.
  intros (Hn & Hc & Hb & Hfit) Hlo (Hh & Hf & Hcs & Hds & _). rewrite Hlo in Hb.
  split; [lia|]. exists lo, xs. split; [done|]. split; [done|]. split; [done|].
  left. split; [|lia]. by rewrite Hh, insert_id.
Qed.

(** A failed [Emplace] before the end of an array with spare capacity. *)
Lemma Emplace_in_place_fails (k : nat) (a : init T) (v : Vector) (xs : list T)
    (w : world T) :
  repr w v xs → k < length xs → size_ v < capacity_ (data_ v) →
  yields (Emplace F (Ptr (buffer_ (data_ v)) k) a (v, w))
    (fun _ _ => True)
    (fun s' => ∃ w', s' = (v, w') ∧ insert_failed k v xs w w').
Proof.
  intros Hr Hk Hlt. pose proof Hr as (Hn & Hc & Hb & Hfit).
  destruct (repr_buffer_nonempty w v xs Hr ltac:(lia)) as (lo & Hlo & Hheap).
  destruct xs as [|yl xs0 _] using rev_ind; [simpl in Hk; lia|].
  rewrite length_app in Hn, Hc, Hk. simpl length in *.
  assert (Hk' : k ≤ length xs0) by lia.
  rewrite (slots_in_place k) in Hheap by lia.
  unfold Emplace, Emplace_with.
  rewrite (bind_Normal _ _ _ _ _ (begin_ok v w)).
  rewrite (bind_Normal _ _ _ _ _ (end_ok v w ltac:(lia))).
  rewrite Hlo, !ptr_le_same by lia. cbn [andb assert].
  rewrite (bind_Normal _ _ (v, w) tt (v, w)) by done.
  rewrite (bind_Normal _ _ (v, w) v (v, w)) by done.
  destruct (Nat.eqb_spec (size_ v) (capacity_ (data_ v))) as [|_]; [lia|].
  destruct (Nat.eqb_spec (size_ v) 0) as [|_]; [lia|]. cbn [negb].
  (* T emplacing_element(args...) *)
  apply yields_bind, yields_outer.
  eapply yields_mono; [apply call_yields|..].
  2:{ intros w1 Hw1. eexists. split; [done|]. by eapply insert_failed_same. }
  intros [] w1 Hw1. cbv beta in Hw1.
  rewrite (bind_Normal _ _ _ _ _ (end_ok v w1 ltac:(lia))).
  rewrite (bind_Normal _ _ _ _ _ (Raw_at_ok (data_ v) (size_ v - 1) (v, w1) ltac:(lia))).
  rewrite Hlo.
  (* new (end()) T(std::move(data_[size_ - 1])) *)
  apply yields_bind, yields_outer.
  eapply yields_mono;
    [eapply (move_construct_same_yields F lo _ (size_ v) (size_ v - 1) yl w1)|..].
  { destruct Hw1 as [-> _]. exact Hheap. }
  { rewrite !app_assoc. apply list_lookup_middle.
    rewrite length_app, !length_map, length_take, length_drop. lia. }
  { rewrite !length_app, !length_map, length_take, length_drop. simpl.
    rewrite length_replicate. lia. }
  2:{ intros w2 Hw2. eexists. split; [done|]. eapply insert_failed_same; [done..|].
      unfold evolves, changed in *.
      destruct Hw2 as (Hh2 & ? & ? & ? & ?), Hw1 as (Hh1 & ? & ? & ? & ?).
      split; [congruence|]. repeat split; lia. }
  intros [] w2 Hw2. cbv beta in Hw2.
  rewrite (cons_middle (Some yl)), !app_assoc, insert_middle in Hw2
    by (rewrite !length_app, !length_map, length_take, length_drop; simpl; lia).
  rewrite <- !app_assoc in Hw2. simpl in Hw2.
  rewrite (app_assoc (map Some (take k xs0))), insert_middle in Hw2
    by (rewrite !length_app, !length_map, length_take, length_drop; lia).
  rewrite <- app_assoc in Hw2.
  rewrite (bind_Normal _ _ _ _ _ (begin_ok v w2)).
  rewrite Hlo. unfold ptr_add. cbn [base off]. rewrite Nat.sub_0_r, Nat.add_0_l.
  (* std::move_backward(pos, end() - 1, end()) *)
  apply yields_bind, yields_try_catch.
  rewrite (bind_Normal _ _ _ _ _ (end_ok v w2 ltac:(lia))).
  rewrite Hlo. unfold ptr_sub. cbn [base off].
  apply yields_outer.
  rewrite std_move_backward_ok by (cbn [base off]; (done || lia)). cbn [base off].
  replace (size_ v) with (S (size_ v - 1)) at 2 by lia.
  eapply yields_mono;
    [eapply (move_backward_loop_yields F lo (drop k xs0) (map Some (take k xs0))
               (moved_from yl) _ (size_ v - 1) (size_ v - 1 - k) w2)|..].
  { destruct Hw2 as [-> _]. by rewrite lookup_insert_eq. }
  { rewrite length_map, length_take, length_drop. lia. }
  { rewrite length_drop. lia. }
  2:{ (* the shift threw: the duplicate of the last element is destroyed *)
    intros w3 (zs & j & Hzs & Hw3).
    rewrite (bind_Normal _ _ _ _ _ (end_ok v w3 ltac:(lia))).
    rewrite Hlo. apply yields_outer.
    eapply yields_mono; [eapply (destroy_at_yields lo (size_ v) _ yl)|..].
    - destruct Hw3 as [-> _]. by rewrite lookup_insert_eq.
    - rewrite app_assoc. apply list_lookup_middle.
      rewrite length_app, !length_map, length_take, Hzs. lia.
    - intros [] w4 Hw4. cbv beta in Hw4.
      exists w4. split; [done|].
      unfold evolves, changed in *.
      destruct Hw4 as (Hh4 & ? & ? & ? & ?), Hw3 as (Hh3 & ? & ? & ? & ?),
               Hw2 as (Hh2 & ? & ? & ? & ?), Hw1 as (Hh1 & ? & ? & ? & ?).
      split; [lia|]. exists lo, (take k xs0 ++ zs).
      split; [done|].
      split; [rewrite !length_app, length_take; simpl; lia|].
      split; [by rewrite !take_app_le, take_take, Nat.min_id
                by (rewrite ?length_take; lia)|].
      left. split; [|lia].
      rewrite Hh4, Hh3, Hh2, Hh1, !insert_insert_eq. f_equal.
      rewrite (app_assoc (map Some (take k xs0))), insert_middle
        by (rewrite length_app, !length_map, length_take; lia).
      unfold slots. rewrite map_app. f_equal.
      rewrite length_app, length_take.
      replace (capacity_ (data_ v) - (k `min` length xs0 + length zs))
        with (S (capacity_ (data_ v) - S (S (length xs0)))) by lia.
      done.
    - intros ? []. }
  intros [] w3 Hw3. cbv beta in Hw3.
  (* *pos = std::move(emplacing_element) *)
  apply yields_bind, yields_outer.
  eapply yields_mono;
    [eapply (move_assign_from_yields F lo _ k (init_value a)
               (first_moved (drop k xs0) (moved_from yl)) w3)|done|].
  { destruct Hw3 as [-> _]. by rewrite lookup_insert_eq. }
  { apply list_lookup_middle. rewrite length_map, length_take. lia. }
  intros w4 Hw4. cbv beta in Hw4.
  exists w4. split; [done|].
  unfold evolves, changed in *.
  destruct Hw4 as (Hh4 & ? & ? & ? & ?), Hw3 as (Hh3 & ? & ? & ? & ?),
           Hw2 as (Hh2 & ? & ? & ? & ?), Hw1 as (Hh1 & ? & ? & ? & ?).
  split; [lia|].
  exists lo, (take k xs0 ++ first_moved (drop k xs0) (moved_from yl) :: drop k xs0).
  split; [done|].
  split; [rewrite !length_app; simpl; rewrite length_take, length_drop; lia|].
  split; [by rewrite !take_app_le, take_take, Nat.min_id
            by (rewrite ?length_take; lia)|].
  right. exists yl. split; [apply last_snoc|]. split; [|lia].
  rewrite Hh4, Hh3, Hh2, Hh1, !insert_insert_eq. f_equal.
  rewrite !map_app, length_app. simpl.
  rewrite <- !app_assoc. simpl. rewrite <- ?app_assoc. simpl.
  repeat f_equal. lia.
Qed.

(** X19: [Emplace] (and so [Insert]) on a full array that throws,
    whether in the allocation, in the construction of the new element or
    in one of the two transfers, leaves the array object as it was, with
    every object built destroyed and the new buffer released; the
    elements and the whole heap are as before when the element type is
    copy-constructible or its move constructor does not throw. *)
Theorem Emplace_full_failure (k : nat) (a : init T) (v : Vector) (xs : list T)
    (w : world T) :
  wf w → repr w v xs → k ≤ Size v → Size v = Capacity v →
  yields (Emplace F (Ptr (buffer_ (data_ v)) k) a (v, w))
    (fun _ _ => True)
    (fun s' =>
       s'.1 = v ∧
       constructed s'.2 + destroyed w = constructed w + destroyed s'.2 ∧
       (∃ xs', repr s'.2 v xs' ∧ length xs' = length xs) ∧
       (is_copy_constructible = true ∨ is_nothrow_move_constructible = true →
        heap s'.2 = heap w ∧ repr s'.2 v xs)).
Proof.
  intros Hwf Hr Hk Hfull. pose proof Hr as (Hn & _). unfold Size, Capacity in *.
  eapply yields_mono; [apply (Emplace_realloc_fails k a v xs w Hwf Hr); lia|done|].
  intros s' (w' & -> & Hg). simpl. split; [done|].
  destruct (growth_failed_repr v xs w w' Hwf Hr Hg) as (xs' & Hr' & Hlen & _).
  split; [|split; [by exists xs'|]].
  - destruct Hg as [(i & j & Hw')|(_ & _ & lo & ex & re & i & j & _ & _ & _ & Hw')];
      destruct Hw' as (_ & _ & ? & ? & _); lia.
  - intros Hty. by eapply growth_failed_same.
Qed.

(** X20: [Emplace] before the end of an array with spare capacity that
    throws leaves size, capacity and buffer as they were, allocates
    nothing, and leaves live elements in all slots below the size, those
    before the position untouched. What it leaves behind depends on the
    call that threw, the latest in the record of calls. When that is the
    constructor of the temporary, the move constructor for the copy of
    the last element or one of the assignments of the shift, so that
    fewer calls are recorded than a complete run makes, everything built
    is destroyed and the slot at the size is raw again. When it is the
    final assignment of the new value, after all the calls of a complete
    run, the former last element stays constructed in the slot at the
    size, out of the array and never destroyed. *)
Theorem Emplace_in_place_failure (k : nat) (a : init T) (v : Vector) (xs : list T)
    (w : world T) :
  repr w v xs → k < Size v → Size v < Capacity v →
  yields (Emplace F (Ptr (buffer_ (data_ v)) k) a (v, w))
    (fun _ _ => True)
    (fun s' =>
       s'.1 = v ∧ fresh s'.2 = fresh w ∧
       ∃ lo b zs,
         buffer_ (data_ v) = Some lo ∧ heap s'.2 !! lo = Some b ∧
         take (Size v) b = map Some zs ∧ take k zs = take k xs ∧
         (((calls s'.2 = init_op a :: calls w ∨
            ∃ j, j < Size v - k ∧ calls s'.2 = in_place_calls a j ++ calls w) ∧
           constructed s'.2 + destroyed w = constructed w + destroyed s'.2 ∧
           b !! Size v = Some None)
          ∨
          (calls s'.2 = in_place_calls a (Size v - k) ++ calls w ∧
           constructed s'.2 = constructed w + 1 ∧ destroyed s'.2 = destroyed w ∧
           ∃ z, last xs = Some z ∧ b !! Size v = Some (Some z)))).
Proof.
  intros Hr Hk Hlt. pose proof Hr as (Hn & Hc & _). unfold Size, Capacity in *.
  eapply yields_mono;
    [apply (yields_exits _ _ _ _ _
              (Emplace_in_place_fails k a v xs w Hr ltac:(lia) Hlt)
              (Emplace_in_place_records F k a v w Hk Hlt))|done|].
  intros s' [(w' & -> & Hf & lo & zs & Hlo & Hzs & Htk & Hcase) Hlog]. simpl in *.
  split; [done|]. split; [done|].
  destruct Hcase as [(Hh & Hbal)|(z & Hz & Hh & Hcs & Hds)].
  - exists lo, (slots zs (capacity_ (data_ v))), zs.
    split; [done|]. split; [by rewrite Hh, lookup_insert_eq|].
    split; [unfold slots; apply take_app_length'; rewrite length_map; lia|].
    split; [done|]. left. split.
    + destruct Hlog as [(Hl & _)|[(Hl & _)|[(j & Hj & Hl & _)|(_ & Hc' & Hd')]]].
      * by left.
      * right. exists 0. split; [lia|done].
      * right. exists j. split; [lia|done].
      * lia.
    + split; [done|].
      unfold slots. rewrite lookup_app_r by (rewrite length_map; lia).
      apply lookup_replicate_2. rewrite length_map. lia.
  - exists lo, (map Some (zs ++ [z]) ++
                replicate (capacity_ (data_ v) - S (length xs)) None), zs.
    split; [done|]. split; [by rewrite Hh, lookup_insert_eq|].
    split; [rewrite map_app, <- app_assoc; apply take_app_length';
            rewrite length_map; lia|].
    split; [done|]. right. split.
    + destruct Hlog as [(_ & Hc' & _)|[(_ & Hc' & _)|[(j & _ & _ & _ & Hd')|(Hl & _)]]];
        [lia..|done].
    + split; [done|]. split; [done|].
      exists z. split; [done|].
      rewrite map_app, <- app_assoc. simpl.
      rewrite lookup_app_r by (rewrite length_map; lia).
      rewrite length_map. by replace (size_ v - length zs) with 0 by lia.
Qed.

End InsertFailure.

(** ** The transfer into a larger buffer *)

Section Transfer.
Context {T : Type} `{Element T}.
Variable F : faults.

Lemma growth_failed_copies (v : Vector) (xs : list T) (w w' : world T) :
  is_nothrow_move_constructible || negb is_copy_constructible = false →
  growth_failed v xs w w' → heap w' = heap w.
Proof.
  intros Hcopies [(k & j & Hw')|(Hu & _)]; [by destruct Hw'|].
  unfold uses_move in Hu. congruence.
Qed.

(** C3: when [Reserve], an append or [Emplace] takes the elements of the
    array into a new, larger buffer, the constructor it calls for them is
    the move constructor if that is non-throwing or the type is not
    copy-constructible, and the copy constructor in every other case: a
    growth that completes has called it once per element, after the
    constructor of the new element if there is one, and a growth that
    throws has called it for some of the elements and has called nothing
    else. A growth that copies and throws leaves the heap, and so the
    elements, as they were. After the transfer itself, by
    [UninitializedCopyOrMoveN], the destination holds the values, and the
    sources are moved-from if it moved and untouched if it copied. A growth
    completes when nothing throws and the new buffer is granted. *)
Theorem transfer_copies_or_moves (v : Vector) (xs : list T) (w : world T) :
  wf w → repr w v xs →
  let moves := is_nothrow_move_constructible || negb is_copy_constructible in
  let op := if moves then MoveCtor else CopyCtor in
  let grown_by a (s' : Vector * world T) :=
    calls s'.2 = replicate (length xs) op ++ init_op a :: calls w in
  let failed_by a (s' : Vector * world T) :=
    (calls s'.2 = calls w ∨
     ∃ j, j ≤ length xs ∧ calls s'.2 = replicate j op ++ init_op a :: calls w) ∧
    (moves = false → heap s'.2 = heap w) in
  (∀ n, Capacity v < n → representable n →
     yields (Reserve F n (v, w))
       (fun _ s' => calls s'.2 = replicate (length xs) op ++ calls w ∧ repr s'.2 s'.1 xs)
       (fun s' => (∃ j, j ≤ length xs ∧ calls s'.2 = replicate j op ++ calls w) ∧
                  (moves = false → heap s'.2 = heap w))) ∧
  (∀ a, Size v = Capacity v →
     yields (PushBack F a (v, w))
       (fun _ s' => grown_by a s' ∧ repr s'.2 s'.1 (xs ++ [init_value a]))
       (failed_by a) ∧
     yields (EmplaceBack F a (v, w))
       (fun _ s' => grown_by a s' ∧ repr s'.2 s'.1 (xs ++ [init_value a]))
       (failed_by a)) ∧
  (∀ k a, k ≤ length xs → Size v = Capacity v →
     yields (Emplace F (Ptr (buffer_ (data_ v)) k) a (v, w))
       (fun _ s' => grown_by a s' ∧
                    repr s'.2 s'.1 (take k xs ++ init_value a :: drop k xs))
       (failed_by a)) ∧
  (∀ ls ld sfront sback front back ys (w0 : world T),
     ls ≠ ld →
     heap w0 !! ls = Some (sfront ++ map Some ys ++ sback) →
     heap w0 !! ld = Some (front ++ replicate (length ys) None ++ back) →
     yields (UninitializedCopyOrMoveN F (Ptr (Some ls) (length sfront)) (length ys)
               (Ptr (Some ld) (length front)) w0)
       (fun _ w' =>
          calls w' = replicate (length ys) op ++ calls w0 ∧
          heap w' !! ld = Some (front ++ map Some ys ++ back) ∧
          heap w' !! ls =
            Some (sfront ++ map Some (if moves then map moved_from ys else ys) ++ sback))
       (fun w' => moves = false → heap w' = heap w0)) ∧
  (quiet F →
   (∀ n, fits n → ∃ s', Reserve F n (v, w) = Normal tt s') ∧
   (can_grow v →
    (∀ a, ∃ s', PushBack F a (v, w) = Normal tt s') ∧
    (∀ a, ∃ p s', EmplaceBack F a (v, w) = Normal p s') ∧
    (∀ k a, k ≤ length xs → Size v = Capacity v →
       ∃ p s', Emplace F (Ptr (buffer_ (data_ v)) k) a (v, w) = Normal p s'))).
Proof.
  intros Hwf Hr moves op grown_by failed_by.
  pose proof Hr as (Hn & Hc & Hb & Hfit). unfold Size, Capacity.
  assert (Hop : op = transfer_op) by done.
  assert (Hfailed : ∀ a s', (∃ w', s' = (v, w') ∧ growth_failed v xs w w') →
            growth_calls a (size_ v) w s'.2 → failed_by a s').
  { intros a s' (w' & -> & Hg) Hcalls. split.
    - destruct Hcalls as [(Hl & _)|(j & Hj & Hl & _)]; [by left|right].
      exists j. split; [lia|]. simpl in *. by rewrite Hl, <- app_assoc.
    - intros Hcopies. by eapply growth_failed_copies. }
  split; [|split; [|split; [|split]]].
  - (* Reserve *)
    intros n Hlt Hrep.
    eapply yields_mono;
      [exact (yields_exits _ _ _ _ _ (Reserve_grows F n v xs w Hwf Hr Hlt Hrep)
                (Reserve_records F n v w Hlt))|..].
    + intros [] s' ((w' & -> & Hw' & Hfn) & Hl & _). simpl in *.
      split; [by rewrite Hl, Hn|].
      apply (repr_grown w w' v xs n Hwf Hr); [lia|done|done].
    + intros s' ((w' & -> & Hg) & j & Hj & Hl & _). simpl in *.
      split; [exists j; split; [lia|done]|].
      intros Hcopies. by eapply growth_failed_copies.
  - (* appends *)
    intros a Hfull. split.
    + eapply yields_mono;
        [exact (yields_exits _ _ _ _ _ (PushBack_yields F a v xs w Hwf Hr)
                  (PushBack_records F a v w Hfull))|..].
      * intros [] s' ((v' & w' & -> & Hr' & _) & Hl & _). simpl in *.
        split; [|done]. unfold grown_by. simpl. by rewrite Hl, Hn, <- app_assoc.
      * intros s' [Hg Hcalls]. by apply Hfailed.
    + eapply yields_mono;
        [exact (yields_exits _ _ _ _ _ (EmplaceBack_yields F a v xs w Hwf Hr)
                  (EmplaceBack_records F a v w Hfull))|..].
      * intros p s' ((v' & w' & -> & (Hr' & _) & _) & Hl & _). simpl in *.
        split; [|done]. unfold grown_by. simpl. by rewrite Hl, Hn, <- app_assoc.
      * intros s' [Hg Hcalls]. by apply Hfailed.
  - (* Emplace into a full array *)
    intros k a Hk Hfull.
    eapply yields_mono;
      [exact (yields_exits _ _ _ _ _
                (yields_and _ _ _ _ _
                   (Emplace_yields F k a v xs w Hwf Hr Hk (or_introl Hfull))
                   (Emplace_realloc_fails F k a v xs w Hwf Hr Hk Hfull))
                (Emplace_realloc_records F k a v w ltac:(lia) Hfull))|..].
    + intros p s' (((v' & w' & -> & Hr' & _) & _) & Hl & _). simpl in *.
      split; [|done]. unfold grown_by. simpl. by rewrite Hl, Hn, <- app_assoc.
    + intros s' [[_ Hg] Hcalls]. by apply Hfailed.
  - (* the transfer itself *)
    intros ls ld sfront sback front back ys w0 Hne Hs Hd.
    eapply yields_mono;
      [exact (yields_exits _ _ _ _ _
                (UCOM_yields F ls ld sfront sback front back ys (length ys) w0
                   Hne eq_refl Hs Hd)
                (UCOM_records F _ (length ys) _ w0))|..].
    + intros [] w' [Hw' (Hl & _)]. cbv beta in Hw'. destruct Hw' as [-> _].
      split; [done|].
      rewrite lookup_insert_ne, !lookup_insert_eq by done. done.
    + intros w' [[[_ [j Hw']]|(Hu & _)] _] Hcopies.
      * by destruct Hw' as [-> _].
      * unfold uses_move in Hu. unfold moves in Hcopies. congruence.
  - (* completion *)
    intros Hq. split.
    + intros n Hfn.
      destruct (Nat.le_gt_cases n (capacity_ (data_ v))) as [Hle|Hlt].
      * exists (v, w). unfold Reserve, bind, this, local. simpl.
        by destruct (Nat.leb_spec n (capacity_ (data_ v))) as [_|]; [|lia].
      * destruct (yields_no_throw _ _ _
                    (Reserve_grows F n v xs w Hwf Hr Hlt (fits_representable n Hfn))
                    (no_throw_Reserve F Hq n v w (fun _ => Hfn)))
          as ([] & s' & Heq & _).
        eauto.
    + intros Hg. split; [|split].
      * intros a.
        destruct (yields_no_throw _ _ _ (PushBack_yields F a v xs w Hwf Hr)
                    (no_throw_PushBack F Hq a v w Hg)) as ([] & s' & Heq & _).
        eauto.
      * intros a.
        destruct (yields_no_throw _ _ _ (EmplaceBack_yields F a v xs w Hwf Hr)
                    (no_throw_EmplaceBack F Hq a v w Hg)) as (p & s' & Heq & _).
        eauto.
      * intros k a Hk Hfull.
        destruct (yields_no_throw _ _ _
                    (Emplace_yields F k a v xs w Hwf Hr Hk (or_introl Hfull))
                    (no_throw_Emplace F Hq _ a v w Hg)) as (p & s' & Heq & _).
        eauto.
Qed.

End Transfer.


Section Lifetime.
Context {T : Type} `{Element T}.
Variable F : faults.

(** Destroying an array that was just constructed gives the heap back. *)
Lemma constructed_then_destroyed (xs : list T) (w w1 : world T) (v : Vector) :
  wf w → constructed_with xs w v w1 →
  yields (Vector_dtor v w1)
    (fun _ w' => heap w' = heap w ∧
                 constructed w' = constructed w + length xs ∧
                 destroyed w' = destroyed w + length xs)
    (fun _ => False).
Proof.
  intros Hwf Hc.
  destruct (constructed_with_repr xs w v w1 Hwf Hc) as (Hr & _).
  eapply yields_mono; [by eapply Vector_dtor_yields|..]; [|done].
  intros [] w' (Hh & _ & Hcs & Hds & _). cbv beta.
  destruct Hc as [(-> & -> & Hw1)|(Hne & -> & Hw1 & _)].
  - destruct Hw1 as (Hh1 & _ & Hc1 & Hd1 & _). simpl in *.
    rewrite Hh, Hh1. repeat split; lia.
  - destruct Hw1 as (Hh1 & _ & Hc1 & Hd1 & _). simpl in Hh.
    rewrite Hh, Hh1, delete_insert_eq, delete_id by (by apply wf_fresh).
    repeat split; lia.
Qed.

(** X11: an array built by [Vector(n)], for [n] with [n * sizeof(T)] not
    beyond [SIZE_MAX], or by the copy constructor, and then destroyed
    leaves the heap as it was before, each of its elements constructed
    once and destroyed once, and the source of the copy untouched. A
    constructor that throws leaves the heap as it was, too: what it had
    built is destroyed and its buffer released. *)
Theorem construct_then_destroy (w : world T) :
  wf w →
  (∀ n, representable n →
     yields ((v <- Vector_sized F n ;; Vector_dtor v) w)
       (fun _ w' => heap w' = heap w ∧
                    constructed w' = constructed w + n ∧
                    destroyed w' = destroyed w + n)
       (fun w' => heap w' = heap w ∧
                  constructed w' + destroyed w = constructed w + destroyed w')) ∧
  (∀ other ys, repr w other ys →
     yields ((v <- Vector_copy F other ;; Vector_dtor v) w)
       (fun _ w' => heap w' = heap w ∧
                    constructed w' = constructed w + Size other ∧
                    destroyed w' = destroyed w + Size other)
       (fun w' => heap w' = heap w ∧
                  constructed w' + destroyed w = constructed w + destroyed w')).
Proof.
  intros Hwf. split.
  - intros n Hrep. apply yields_bind.
    eapply yields_mono; [by apply Vector_sized_yields|..].
    + intros v w1 Hc. cbv beta.
      eapply yields_mono; [by eapply constructed_then_destroyed|..]; [|done].
      intros [] w' Hw'. cbv beta in Hw'. by rewrite length_replicate in Hw'.
    + intros w' (k & j & Hh & _ & ? & ? & _). split; [done|lia].
  - intros other ys Hr. apply yields_bind.
    eapply yields_mono; [by eapply Vector_copy_yields|..].
    + intros v w1 Hc. cbv beta.
      eapply yields_mono; [by eapply constructed_then_destroyed|..]; [|done].
      intros [] w' Hw'. cbv beta in Hw'. destruct Hr as (Hn & _).
      unfold Size. by rewrite Hn.
    + intros w' (k & j & Hh & _ & ? & ? & _). split; [done|lia].
Qed.

(** X12: an empty array costs nothing. Copying an array without
    elements, whatever its capacity, and [Vector(0)] give the
    default-constructed array without any allocation, the world
    untouched; destroying it, and [Reserve(0)], [Resize(0)] and [PopBack]
    on it, do nothing. *)
Theorem empty_array_costs_nothing (v : Vector) (w : world T) :
  repr w v [] →
  Vector_copy F v w = Normal Vector_default w ∧
  Vector_sized F 0 w = Normal Vector_default w ∧
  Vector_dtor Vector_default w = Normal tt w ∧
  Reserve F 0 (Vector_default, w) = Normal tt (Vector_default, w) ∧
  Resize F 0 (Vector_default, w) = Normal tt (Vector_default, w) ∧
  PopBack (Vector_default, w) = Normal tt (Vector_default, w).
Proof.
  intros (Hn & _). simpl in Hn.
  split; [|repeat split].
  unfold Vector_copy. rewrite Hn. reflexivity.
Qed.

End Lifetime.

Section Capacity.
Context {T : Type} `{Element T}.
Variable F : faults.

(** One append, with its effect on the buffer and the counters. *)
Lemma run_append_effect (c : append_call T) (v : Vector) (xs : list T) (w : world T) :
  wf w → repr w v xs →
  yields (run_append F c (v, w))
    (fun _ s' => appended (match c with CallPushBack a | CallEmplaceBack a => a end)
                   v xs w s'.1 s'.2)
    (fun s' => s'.1 = v ∧ ∃ xs', repr s'.2 v xs' ∧ length xs' = length xs ∧ wf s'.2).
Proof.
  intros Hwf Hr. destruct c as [a|a]; simpl.
  - eapply yields_mono; [by apply PushBack_yields|..].
    + by intros [] s' (v' & w' & -> & Happ).
    + intros s' (w' & -> & Hg). split; [done|]. by eapply growth_failed_repr.
  - apply yields_bind.
    eapply yields_mono; [by apply EmplaceBack_yields|..].
    + by intros p s' (v' & w' & -> & Happ & _).
    + intros s' (w' & -> & Hg). split; [done|]. by eapply growth_failed_repr.
Qed.

Lemma appends_in_place (cs : list (append_call T)) : ∀ (v : Vector) (xs : list T) (w : world T),
  wf w → repr w v xs → length xs + length cs ≤ Capacity v →
  yields (run_appends F cs (v, w))
    (fun _ s' =>
       data_ s'.1 = data_ v ∧ repr s'.2 s'.1 (xs ++ map call_value cs) ∧ wf s'.2 ∧
       fresh s'.2 = fresh w ∧ destroyed s'.2 = destroyed w ∧
       constructed s'.2 = constructed w + length cs)
    (fun s' => data_ s'.1 = data_ v ∧ Size v ≤ Size s'.1 ∧ Size s'.1 < Size v + length cs).
Proof.
  induction cs as [|c cs IH]; intros v xs w Hwf Hr Hcap; simpl.
  - rewrite app_nil_r. split; [done|]. split; [done|]. split; [done|]. repeat split; lia.
  - simpl in Hcap. pose proof Hr as (Hn & Hc & _). unfold Capacity, Size in *.
    apply yields_bind.
    eapply yields_mono; [by apply run_append_effect|..].
    + intros [] [v1 w1] (Hr1 & Hwf1 & Hcase). simpl in *.
      assert (Hv : init_value match c with CallPushBack a | CallEmplaceBack a => a end
                   = call_value c) by (by destruct c).
      rewrite Hv in Hr1.
      destruct Hcase as [(_ & Hd & Hf & Hcs & Hds)|(Hfull & _)]; [|lia].
      pose proof Hr1 as (Hn1 & _). rewrite length_app in Hn1. simpl in Hn1.
      eapply yields_mono; [apply (IH v1 _ w1 Hwf1 Hr1)|..].
      * rewrite length_app, Hd. simpl. lia.
      * intros [] s' (Hd' & Hr' & Hwf' & Hf' & Hds' & Hcs'). cbv beta.
        rewrite <- app_assoc in Hr'.
        split; [congruence|]. split; [done|]. split; [done|]. repeat split; lia.
      * intros s' (Hd' & Hle & Hlt). cbv beta. split; [congruence|]. lia.
    + intros s' (-> & xs' & Hr' & Hlen & _). simpl. split; [done|]. lia.
Qed.

(** X13: while the appended elements fit into the capacity, for instance
    after [Reserve(n)] with [n * sizeof(T)] not beyond [SIZE_MAX],
    [PushBack] and [EmplaceBack] construct in place: the
    buffer and the capacity stay, nothing is allocated or destroyed, one
    object is constructed for each call, so that the addresses of the
    elements stay valid. When a call throws, the buffer is still the
    same and the size has not gone down. *)
Theorem appends_within_capacity (cs : list (append_call T)) (v : Vector) (xs : list T)
    (w : world T) :
  wf w → repr w v xs →
  (Size v + length cs ≤ Capacity v →
   yields (run_appends F cs (v, w))
     (fun _ s' =>
        data_ s'.1 = data_ v ∧ repr s'.2 s'.1 (xs ++ map call_value cs) ∧
        fresh s'.2 = fresh w ∧ destroyed s'.2 = destroyed w ∧
        constructed s'.2 = constructed w + length cs)
     (fun s' =>
        data_ s'.1 = data_ v ∧ Size v ≤ Size s'.1 ∧ Size s'.1 < Size v + length cs)) ∧
  (∀ n, Capacity v < n → Size v + length cs ≤ n → representable n →
     yields ((Reserve F n ;; run_appends F cs) (v, w))
       (fun _ s' =>
          data_ s'.1 = mkRaw (Some (fresh w)) n ∧ fresh s'.2 = fresh w + 1 ∧
          repr s'.2 s'.1 (xs ++ map call_value cs))
       (fun _ => True)).
Proof.
  intros Hwf Hr. pose proof Hr as (Hn & Hc & _). split.
  - intros Hcap.
    eapply yields_mono; [apply (appends_in_place cs v xs w Hwf Hr)|..].
    + unfold Size in Hcap. lia.
    + intros [] s' (? & ? & _ & ? & ? & ?). done.
    + done.
  - intros n Hlt Hle Hrep. unfold Size, Capacity in *. apply yields_bind.
    eapply yields_mono; [by apply Reserve_grows|..]; [|done].
    intros [] s1 (w1 & -> & Hw1 & Hfn).
    destruct (repr_grown w w1 v xs n Hwf Hr ltac:(lia) Hfn Hw1) as [Hr1 Hwf1].
    eapply yields_mono; [apply (appends_in_place cs _ xs w1 Hwf1 Hr1)|..]; [|..|done].
    + unfold Capacity. simpl. lia.
    + intros [] s' (Hd & Hr' & _ & Hf & _). cbv beta. simpl in Hd.
      destruct Hw1 as (_ & Hf1 & _). split; [done|]. split; [lia|done].
Qed.

(** The cost of the appends so far, against the counters [c0] and [f0]
    of the world in which the array was default-constructed: at most
    size + capacity objects constructed, and one allocation for each
    doubling. *)
Definition amortised (c0 f0 : nat) (v : Vector) (w : world T) : Prop :=
  constructed w ≤ c0 + Size v + Capacity v ∧
  ((Size v = 0 ∧ Capacity v = 0 ∧ fresh w = f0) ∨
   (∃ i, Capacity v = 2 ^ i ∧ Capacity v < 2 * Size v ∧ fresh w = f0 + S i)).

Lemma amortised_step (c0 f0 : nat) (a : init T) (v : Vector) (xs : list T) (w : world T)
    (v' : Vector) (w' : world T) :
  repr w v xs → appended a v xs w v' w' → amortised c0 f0 v w → amortised c0 f0 v' w'.
Proof.
  intros (Hn & Hc & _) ((Hn' & _) & _ & Hcase) (Hb & Hcap).
  rewrite length_app in Hn'. simpl in Hn'. unfold amortised, Size, Capacity in *.
  destruct Hcase as [(Hlt & -> & Hf & Hcs & _)|(Hfull & -> & Hf & Hcs & _)]; simpl.
  - split; [lia|]. right.
    destruct Hcap as [(? & ? & ?)|(i & Hi & ? & ?)]; [lia|].
    exists i. repeat split; lia.
  - unfold grown. destruct Hcap as [(Hz & Hz' & ?)|(i & Hi & ? & ?)].
    + rewrite Hz. simpl. split; [lia|]. right. exists 0. simpl. repeat split; lia.
    + assert (2 ^ i ≠ 0) by (apply Nat.pow_nonzero; lia).
      destruct (Nat.eqb_spec (size_ v) 0); [lia|].
      split; [lia|]. right. exists (S i). rewrite Nat.pow_succ_r'. repeat split; lia.
Qed.

Lemma appends_amortised_from (c0 f0 : nat) (cs : list (append_call T)) :
  ∀ (v : Vector) (xs : list T) (w : world T),
  wf w → repr w v xs → amortised c0 f0 v w →
  yields (run_appends F cs (v, w))
    (fun _ s' => amortised c0 f0 s'.1 s'.2 ∧ Size s'.1 = Size v + length cs)
    (fun _ => True).
Proof.
  induction cs as [|c cs IH]; intros v xs w Hwf Hr Ha; simpl.
  - split; [done|lia].
  - apply yields_bind.
    eapply yields_mono; [by apply run_append_effect|..]; [|done].
    intros [] [v1 w1] Happ. simpl in Happ.
    pose proof (amortised_step c0 f0 _ v xs w v1 w1 Hr Happ Ha) as Ha1.
    destruct Happ as (Hr1 & Hwf1 & _).
    eapply yields_mono; [apply (IH v1 _ w1 Hwf1 Hr1 Ha1)|..]; [|done].
    intros [] s' (Ha' & Hs'). cbv beta. split; [done|].
    destruct Hr1 as (Hn1 & _), Hr as (Hn & _). unfold Size in *.
    rewrite length_app in Hn1. simpl in *. lia.
Qed.

(** X14: the cost of growing by doubling. However many appends are made
    to a default-constructed array, [k] of them construct at most [3 * k]
    objects in all, transfers into new buffers included, and the number
    of buffers allocated is one more than the binary logarithm of the
    capacity reached. *)
Theorem appends_amortised (cs : list (append_call T)) (w : world T) :
  wf w →
  yields (run_appends F cs (Vector_default, w))
    (fun _ s' =>
       constructed s'.2 ≤ constructed w + 3 * length cs ∧
       ((cs = [] ∧ Capacity s'.1 = 0 ∧ fresh s'.2 = fresh w) ∨
        (∃ i, Capacity s'.1 = 2 ^ i ∧ fresh s'.2 = fresh w + S i)))
    (fun _ => True).
Proof.
  intros Hwf.
  eapply yields_mono;
    [apply (appends_amortised_from (constructed w) (fresh w) cs Vector_default [] w Hwf)|..];
    [apply repr_default| |..|done].
  - split; [simpl; lia|]. left. done.
  - intros [] s' ((Hb & Hcap) & Hs). cbv beta. simpl in Hs.
    destruct Hcap as [(Hz & Hz' & Hf)|(i & Hi & Hlt & Hf)].
    + split; [lia|]. left. split; [|done]. apply nil_length_inv. lia.
    + split; [lia|]. right. by exists i.
Qed.

End Capacity.

Section Ownership.
Context {T : Type} `{Element T}.
Variable F : faults.

(** X15: a [Reserve] that grows, to a capacity [n] with [n * sizeof(T)]
    not beyond [SIZE_MAX], allocates once, constructs and destroys as many
    objects as the array has elements, and releases the old buffer. When
    it throws, the array object is as it was and every
    object built has been destroyed; the elements and the whole heap are
    as before when the element type is copy-constructible or its move
    constructor does not throw. *)
Theorem Reserve_replaces_buffer (n : nat) (v : Vector) (xs : list T) (w : world T) :
  wf w → repr w v xs → Capacity v < n → representable n →
  yields (Reserve F n (v, w))
    (fun _ s' =>
       s'.1 = mkVector (mkRaw (Some (fresh w)) n) (Size v) ∧
       (∀ lo, buffer_ (data_ v) = Some lo → heap s'.2 !! lo = None) ∧
       fresh s'.2 = fresh w + 1 ∧
       constructed s'.2 = constructed w + Size v ∧
       destroyed s'.2 = destroyed w + Size v ∧
       assigned s'.2 = assigned w)
    (fun s' =>
       s'.1 = v ∧
       constructed s'.2 + destroyed w = constructed w + destroyed s'.2 ∧
       (∃ xs', repr s'.2 v xs' ∧ length xs' = length xs) ∧
       (is_copy_constructible = true ∨ is_nothrow_move_constructible = true →
        heap s'.2 = heap w ∧ repr s'.2 v xs)).
Proof.
  intros Hwf Hr Hlt Hrep. pose proof Hr as (Hn & Hc & Hb & Hfit).
  unfold Size, Capacity in *.
  pose proof (repr_buffer_not_fresh w v xs Hwf Hr) as Hne.
  eapply yields_mono; [by apply Reserve_grows|..].
  - intros [] s' (w' & -> & (Hh & Hf & Hcs & Hds & Has) & Hfn). simpl.
    split; [done|]. split; [|repeat split; lia].
    intros lo Hlo. rewrite Hh, Hlo. simpl.
    rewrite lookup_insert_ne by congruence. apply lookup_delete_eq.
  - intros s' (w' & -> & Hg). simpl. split; [done|].
    destruct (growth_failed_repr v xs w w' Hwf Hr Hg) as (xs' & Hr' & Hlen & _).
    split; [|split; [by exists xs'|]].
    + destruct Hg as [(k & j & Hw')|(_ & _ & lo & ex & re & k & j & _ & _ & _ & Hw')];
        destruct Hw' as (_ & _ & ? & ? & _); lia.
    + intros Hty. by eapply growth_failed_same.
Qed.

(** X16: copy assignment that reuses the storage gives the basic
    guarantee when a copy throws: the array object is as it was, it still
    holds as many live elements as before (some possibly already
    overwritten), nothing was allocated, every object built has been
    destroyed, and the source is untouched. *)
Theorem copy_assign_reuse_failure (v other : Vector) (xs ys : list T) (w : world T) :
  wf w → repr w v xs → repr w other ys → disjoint v other →
  Size other ≤ Capacity v →
  yields (assign_copy F (Other other) (v, w))
    (fun _ _ => True)
    (fun s' =>
       s'.1 = v ∧ (∃ zs, repr s'.2 v zs ∧ length zs = length xs) ∧
       repr s'.2 other ys ∧ fresh s'.2 = fresh w ∧
       constructed s'.2 + destroyed w = constructed w + destroyed s'.2).
Proof.
  intros Hwf Hr Ho Hdis Hle. pose proof Hr as (Hn & Hc & Hb & Hfit).
  pose proof Ho as (Hno & Hco & Hbo & Hfito). unfold Size, Capacity in *.
  eapply yields_mono; [apply (assign_copy_reuse F v xs other ys w); (done || lia)|..];
    [done|].
  intros s' (w' & zs & j & a & -> & Hzs & Hh & Hf & Hcs & Hds & _). simpl.
  split; [done|]. split; [|split; [|split; lia]].
  - exists zs. split; [|done]. split; [lia|]. split; [lia|].
    rewrite Hh. destruct (buffer_ (data_ v)) as [lo|]; simpl; [|done].
    split; [|done]. apply lookup_insert_eq.
  - split; [done|]. split; [done|].
    destruct (buffer_ (data_ other)) as [lo_o|] eqn:Hlo; [|done].
    rewrite Hh. destruct (buffer_ (data_ v)) as [lo|] eqn:Hv; simpl; [|done].
    rewrite lookup_insert_ne; [done|]. intros ->. by eapply Hdis.
Qed.

(** X17: the move constructor takes over buffer, capacity and elements
    and leaves its source as a default-constructed array, the heap
    untouched; so destroying both objects afterwards destroys each
    element once and releases the buffer once. *)
Theorem move_construct_then_destroy (other : Vector) (xs : list T) (w : world T) :
  repr w other xs →
  repr w (Vector_move other).1 xs ∧
  (Vector_move other).2 = Vector_default ∧ repr w (Vector_move other).2 [] ∧
  data_ (Vector_move other).1 = (RawMemory_move (data_ other)).1 ∧
  data_ (Vector_move other).2 = (RawMemory_move (data_ other)).2 ∧
  yields ((Vector_dtor (Vector_move other).2 ;; Vector_dtor (Vector_move other).1) w)
    (fun _ w' => heap w' = released (buffer_ (data_ other)) (heap w) ∧
                 destroyed w' = destroyed w + Size other ∧
                 constructed w' = constructed w)
    (fun _ => False).
Proof.
  intros Hr. pose proof Hr as (Hn & Hc & Hb & Hfit).
  assert (Hr' : repr w (Vector_move other).1 xs) by done.
  split; [done|]. split; [done|]. split; [by repeat split|].
  split; [by destruct other as [[] ?]|]. split; [done|].
  apply yields_bind. simpl.
  eapply yields_mono; [apply (Vector_dtor_yields _ xs w Hr')|..]; [|done].
  intros [] w' (Hh & _ & Hcs & Hds & _). cbv beta. simpl in Hh.
  unfold Size. rewrite Hn. split; [done|]. split; lia.
Qed.

(** The object owns its buffer: it is null or allocated. *)
Definition owns (w : world T) (r : RawMemory) : Prop :=
  match buffer_ r with Some l => is_Some (heap w !! l) | None => True end.

(** X18: move assignment of [RawMemory] from another object releases
    the buffer the target had and hands over buffer and capacity of the
    source, which is left null with capacity 0; destroying both objects
    afterwards releases the handed-over buffer exactly once. Assigned
    from itself, the object keeps the address of a buffer it has just
    released, and its destructor is then undefined. *)
Theorem RawMemory_move_assign_transfers (r o : RawMemory) (w : world T) :
  owns w r → owns w o → (∀ l, buffer_ r = Some l → buffer_ o ≠ Some l) →
  (∃ w', RawMemory_assign_move r (Some o) w =
           Normal (mkRaw (buffer_ o) (capacity_ o), Some (mkRaw None 0)) w' ∧
         heap w' = released (buffer_ r) (heap w) ∧
         yields ((RawMemory_dtor (mkRaw None 0) ;;
                  RawMemory_dtor (mkRaw (buffer_ o) (capacity_ o))) w')
           (fun _ w'' => heap w'' = released (buffer_ o) (released (buffer_ r) (heap w)))
           (fun _ => False)) ∧
  (∀ l, buffer_ r = Some l →
     ∃ w', RawMemory_assign_move r None w = Normal (r, None) w' ∧
           heap w' !! l = None ∧ RawMemory_dtor r w' = Undefined).
Proof.
  intros Hr Ho Hne. split.
  - eexists. unfold RawMemory_assign_move.
    rewrite (bind_Normal _ _ _ _ _ (Deallocate_released (buffer_ r) w Hr)).
    split; [done|]. split; [by destruct w|].
    unfold RawMemory_dtor. simpl.
    rewrite (bind_Normal _ _ _ tt (set_heap (released (buffer_ r) (heap w)) w)) by done.
    rewrite Deallocate_released; [by destruct w|].
    unfold owns in *. destruct (buffer_ o) as [lo|]; [|done]. simpl.
    destruct (buffer_ r) as [lr|]; simpl; [|done].
    rewrite lookup_delete_ne; [done|]. intros ->. by eapply Hne.
  - intros l Hl. unfold owns in Hr. rewrite Hl in Hr. destruct Hr as [b Hb].
    eexists. unfold RawMemory_assign_move. rewrite Hl.
    rewrite (bind_Normal _ _ _ _ _ (Deallocate_live l b w Hb)).
    split; [done|]. split; [simpl; apply lookup_delete_eq|].
    unfold RawMemory_dtor, Deallocate. rewrite Hl. simpl.
    by rewrite lookup_delete_eq.
Qed.

End Ownership.

(** ** What a call on one array changes *)

(** The size after a call that completes. *)
Definition size_after {T} (op : operation T) (v : Vector) : nat :=
  match op with
  | OpReserve _ => Size v
  | OpResize n => n
  | OpPushBack _ | OpEmplaceBack _ => S (Size v)
  | OpEmplace _ _ | OpInsert_copy _ _ | OpInsert_move _ _ => S (Size v)
  | OpPopBack | OpErase _ => Size v - 1
  end.

Section Footprint.
Context {T : Type} `{Element T}.
Variable F : faults.

(** The size, the capacity and the frame after a call. *)
Definition effect (n : nat) (v : Vector) (w : world T) (s' : Vector * world T) : Prop :=
  Size s'.1 = n ∧ Capacity v ≤ Capacity s'.1 ∧ frame (buffer_ (data_ v)) w s'.2.

Lemma append_body_effect (a : init T) (v : Vector) (xs : list T) (w : world T) :
  wf w → repr w v xs →
  yields (append_body F a (v, w))
    (fun _ s' => size_ v < capacity_ (data_ s'.1) ∧ effect (Size v) v w s')
    (fun s' => effect (Size v) v w s').
Proof.
  intros Hwf Hr. pose proof Hr as (Hn & Hc & _).
  eapply yields_mono; [by apply append_body_yields|..].
  - intros [] s' (v' & w' & -> & [(Hlt & -> & lo & Hlo & Hw')|(Hfull & -> & Hw' & _)]);
      unfold effect, Size, Capacity; simpl.
    + split; [done|]. split; [done|]. split; [done|].
      rewrite Hlo. by eapply frame_changed_update.
    + pose proof (grown_gt (size_ v)).
      split; [done|]. split; [done|]. split; [lia|].
      by eapply frame_changed_grown.
  - intros s' (w' & -> & Hg). unfold effect. simpl.
    split; [done|]. split; [done|]. by eapply frame_growth_failed.
Qed.

Lemma insertion_effect (k : nat) (a : init T) (v : Vector) (xs : list T) (w : world T) :
  wf w → repr w v xs → insertable k v →
  yields ((b <- begin_ ;; Emplace F (ptr_add b k) a ;; ret tt) (v, w))
    (fun _ s' => effect (S (Size v)) v w s')
    (fun s' => effect (Size v) v w s').
Proof.
  intros Hwf Hr [Hk Hcase]. pose proof Hr as (Hn & Hc & Hb & Hfit).
  unfold Size, Capacity in *.
  rewrite (bind_Normal _ _ _ _ _ (begin_ok v w)).
  unfold ptr_add. cbn [base off]. rewrite Nat.add_0_l.
  apply yields_bind.
  destruct (Nat.eq_dec (size_ v) (capacity_ (data_ v))) as [Hfull|Hroom].
  - eapply yields_mono;
      [apply (yields_and _ _ _ _ _
                (Emplace_realloc_yields F k a v xs w Hwf Hr ltac:(lia) Hfull)
                (Emplace_realloc_fails F k a v xs w Hwf Hr ltac:(lia) Hfull))|..].
    + intros p s' [(w' & -> & _ & Hw' & _) _]. unfold effect, Size, Capacity. simpl.
      pose proof (grown_gt (size_ v)).
      split; [done|]. split; [lia|]. by eapply frame_changed_grown.
    + intros s' [_ (w' & -> & Hg)]. unfold effect. simpl.
      split; [done|]. split; [done|]. by eapply frame_growth_failed.
  - destruct Hcase as [?|[Hlt|Hz]]; [done|..].
    + eapply yields_mono;
        [apply (yields_and _ _ _ _ _
                  (Emplace_in_place_yields F k a v xs w Hr ltac:(lia) ltac:(lia))
                  (Emplace_in_place_fails F k a v xs w Hr ltac:(lia) ltac:(lia)))|..].
      * intros p s' [(w' & lo & -> & _ & Hlo & Hw') _]. unfold effect, Size, Capacity.
        simpl. split; [done|]. split; [done|].
        rewrite Hlo. by eapply frame_changed_update.
      * intros s' [_ (w' & -> & Hf & lo & zs & Hlo & _ & _ & Hh)].
        unfold effect. simpl. split; [done|]. split; [done|].
        rewrite Hlo. split; [lia|]. intros l Hl _.
        destruct Hh as [(-> & _)|(z & _ & -> & _)];
          (rewrite lookup_insert_ne; [done|congruence]).
    + assert (xs = []) as -> by (apply nil_length_inv; lia).
      assert (k = 0) as -> by lia.
      eapply yields_mono; [apply (Emplace_empty_yields F a v w Hr); lia|..].
      * intros p s' (w' & lo & -> & _ & Hlo & Hw'). unfold effect, Size, Capacity.
        simpl. split; [lia|]. split; [done|].
        rewrite Hlo. by eapply frame_changed_update.
      * intros s' (w' & -> & i & j & Hw'). unfold effect. simpl.
        split; [done|]. split; [done|]. by eapply frame_changed_same.
Qed.

(** The effect of every admissible call. *)
Lemma operations_effect (op : operation T) (v : Vector) (xs : list T) (w : world T) :
  wf w → repr w v xs → admissible op v →
  yields (run F op (v, w))
    (fun _ s' => effect (size_after op v) v w s')
    (fun s' => effect (Size v) v w s').
Proof.
  intros Hwf Hr Hadm. pose proof Hr as (Hn & Hc & Hb & Hfit).
  destruct op as [n|n|a|a|k a|k x|k x| |k]; simpl in Hadm |- *.
  - (* Reserve *)
    destruct (Nat.le_gt_cases n (capacity_ (data_ v))) as [Hle|Hbig].
    + unfold Reserve, bind, this, local.
      destruct (Nat.leb_spec n (capacity_ (data_ v))) as [_|]; [|lia].
      simpl. split; [done|]. split; [done|]. apply frame_refl.
    + eapply yields_mono; [by apply Reserve_grows|..].
      * intros [] s' (w' & -> & Hw' & _). unfold effect, Size, Capacity. simpl.
        split; [done|]. split; [lia|]. by eapply frame_changed_grown.
      * intros s' (w' & -> & Hg). unfold effect. simpl.
        split; [done|]. split; [done|]. by eapply frame_growth_failed.
  - (* Resize *)
    destruct (Nat.lt_ge_cases (size_ v) n) as [Hgt|Hle].
    + eapply yields_mono; [by apply Resize_up|..].
      * intros [] s' (v' & w' & -> & (Hn' & _) & _ & Hcap & Hfr).
        unfold effect, Size, Capacity. simpl.
        rewrite Hn', length_app, length_replicate. split; [lia|]. split; [lia|done].
      * intros s' (v' & w' & xs' & -> & (Hn' & _) & _ & Hcap & Hlen & Hfr & _).
        unfold effect, Size, Capacity. simpl. split; [lia|]. done.
    + eapply yields_mono; [apply (Resize_down F n v xs w Hr); lia|..]; [|done].
      intros [] s' (w' & -> & Hw'). unfold effect, Size, Capacity. simpl.
      split; [done|]. split; [done|]. by eapply frame_changed_updated.
  - (* PushBack *)
    unfold PushBack. apply yields_bind.
    eapply yields_mono; [apply (append_body_effect a v xs w Hwf Hr)|..]; [|done].
    intros [] [v' w'] (_ & Hs & Hcap & Hfr). simpl in *.
    unfold effect, Size, Capacity in *. simpl. by rewrite Hs.
  - (* EmplaceBack *)
    apply yields_bind. unfold EmplaceBack. apply yields_bind.
    eapply yields_mono; [apply (append_body_effect a v xs w Hwf Hr)|..]; [|done].
    intros [] [v' w'] (Hroom & Hs & Hcap & Hfr). simpl in *.
    unfold Size in Hs.
    apply yields_bind. simpl. apply yields_bind. simpl.
    rewrite Raw_at_ok by lia. simpl.
    unfold effect, Size, Capacity in *. simpl. by rewrite Hs.
  - by eapply insertion_effect.
  - by eapply insertion_effect.
  - by eapply insertion_effect.
  - (* PopBack *)
    destruct xs as [|x ys _] using rev_ind.
    + assert (Hz : size_ v = 0) by done.
      unfold PopBack. rewrite (bind_Normal _ _ (v, w) v (v, w)) by done.
      rewrite Hz. simpl. unfold effect, Size. simpl.
      split; [lia|]. split; [done|]. apply frame_refl.
    + destruct (PopBack_nonempty v ys x w Hr) as (lo & w' & Hlo & _ & Hw' & ->).
      rewrite length_app in Hn. simpl in *.
      unfold effect, Size, Capacity. simpl. split; [lia|]. split; [done|].
      rewrite Hlo. by eapply frame_changed_update.
  - (* Erase *)
    unfold Size in Hadm.
    rewrite (bind_Normal _ _ _ _ _ (begin_ok v w)).
    unfold ptr_add. cbn [base off]. rewrite Nat.add_0_l.
    apply yields_bind.
    eapply yields_mono; [apply (Erase_yields F k v xs w Hr); lia|..].
    + intros p s' (w' & lo & -> & _ & Hlo & Hw'). unfold effect, Size, Capacity.
      simpl. split; [done|]. split; [done|].
      rewrite Hlo. by eapply frame_changed_update.
    + intros s' (w' & lo & zs & j & -> & _ & Hlo & Hw'). unfold effect. simpl.
      split; [done|]. split; [done|].
      rewrite Hlo. by eapply frame_changed_update.
Qed.

(** X21: a call on one array never touches another array: whatever
    admissible operation runs on [v] (for [Reserve(n)] and [Resize(n)],
    [n * sizeof(T)] is not beyond [SIZE_MAX]), and whether it completes or
    throws, an array [u] that owns another buffer holds the same elements
    in the same buffer afterwards. *)
Theorem operations_leave_other_arrays (op : operation T) (v u : Vector)
    (xs ys : list T) (w : world T) :
  wf w → repr w v xs → repr w u ys → disjoint v u → admissible op v →
  yields (run F op (v, w))
    (fun _ s' => repr s'.2 u ys)
    (fun s' => repr s'.2 u ys).
Proof.
  intros Hwf Hr Hu Hdis Hadm.
  eapply yields_mono; [by eapply operations_effect|..].
  - intros [] s' (_ & _ & Hfr). by eapply frame_repr.
  - intros s' (_ & _ & Hfr). by eapply frame_repr.
Qed.

(** X22: sizes and capacities. An admissible call (for [Reserve(n)] and
    [Resize(n)], [n * sizeof(T)] is not beyond [SIZE_MAX]) that completes
    leaves the size the operation names (one more after an append or an
    insertion, one less after [PopBack] on a non-empty array and after
    [Erase], [n] after [Resize(n)]); a call that throws leaves the size as
    it was; and no call ever lowers the capacity. *)
Theorem operations_size_and_capacity (op : operation T) (v : Vector) (xs : list T)
    (w : world T) :
  wf w → repr w v xs → admissible op v →
  yields (run F op (v, w))
    (fun _ s' => Size s'.1 = size_after op v ∧ Capacity v ≤ Capacity s'.1)
    (fun s' => Size s'.1 = Size v ∧ Capacity v ≤ Capacity s'.1).
Proof.
  intros Hwf Hr Hadm.
  eapply yields_mono; [by eapply operations_effect|..].
  - by intros [] s' (? & ? & _).
  - by intros s' (? & ? & _).
Qed.

(** X23: a copy shares nothing with its source. The array built by the
    copy constructor holds the elements of the source in a buffer of its
    own, and whatever admissible call is made on the copy afterwards
    (for [Reserve(n)] and [Resize(n)], [n * sizeof(T)] is not beyond
    [SIZE_MAX]), completing or throwing, the source still holds its
    elements; so does the copy under calls on the source. A copy
    constructor that throws leaves the source as it was. *)
Theorem copy_is_independent (u : Vector) (ys : list T) (w : world T) :
  wf w → repr w u ys →
  yields (Vector_copy F u w)
    (fun v' w' =>
       repr w' v' ys ∧ repr w' u ys ∧ disjoint v' u ∧
       (∀ op, admissible op v' →
          yields (run F op (v', w'))
            (fun _ s' => repr s'.2 u ys) (fun s' => repr s'.2 u ys)) ∧
       (∀ op, admissible op u →
          yields (run F op (u, w'))
            (fun _ s' => repr s'.2 v' ys) (fun s' => repr s'.2 v' ys)))
    (fun w' => repr w' u ys).
Proof.
  intros Hwf Hr. pose proof Hr as (Hn & Hc & Hb & Hfit).
  pose proof (repr_buffer_not_fresh w u ys Hwf Hr) as Hne.
  eapply yields_mono; [by eapply Vector_copy_yields|..].
  - intros v' w' Hcw. cbv beta.
    destruct (constructed_with_repr ys w v' w' Hwf Hcw) as (Hr' & Hwf' & _).
    assert (Hu' : repr w' u ys).
    { destruct Hcw as [(_ & _ & Hw')|(_ & _ & Hw' & _)].
      - split; [done|]. split; [done|]. split; [|done]. destruct Hw' as [-> _]. done.
      - eapply repr_other_buffer; [exact Hr|done|by destruct Hw']. }
    assert (Hdis : disjoint v' u).
    { intros l Hl. destruct Hcw as [(_ & -> & _)|(_ & -> & _)]; simpl in Hl; [done|].
      injection Hl as <-. done. }
    assert (Hdis' : disjoint u v').
    { intros l Hl Hl'. by eapply Hdis. }
    split; [done|]. split; [done|]. split; [done|]. split.
    + intros op Hadm.
      eapply yields_mono; [by eapply (operations_effect op v' ys w')|..].
      * intros [] s' (_ & _ & Hfr). by eapply frame_repr.
      * intros s' (_ & _ & Hfr). by eapply frame_repr.
    + intros op Hadm.
      eapply yields_mono; [by eapply (operations_effect op u ys w')|..].
      * intros [] s' (_ & _ & Hfr). by eapply frame_repr.
      * intros s' (_ & _ & Hfr). by eapply frame_repr.
  - intros w' (i & j & Hh & _). split; [done|]. split; [done|]. by rewrite Hh.
Qed.

End Footprint.

(** ** The properties above at concrete arrays *)

Lemma transfer_copies_or_moves_witness :
  yields (@Reserve nat plain_element no_faults 5 (full_pair, full_pair_world))
    (fun _ s' => calls s'.2 = [CopyCtor; CopyCtor] ∧ @repr nat plain_element s'.2 s'.1 [7; 8])
    (fun _ => True) ∧
  yields (@Reserve nat move_only_handle no_faults 5 (full_pair, full_pair_world))
    (fun _ s' => calls s'.2 = [MoveCtor; MoveCtor] ∧
                 @repr nat move_only_handle s'.2 s'.1 [7; 8])
    (fun _ => True) ∧
  yields (@PushBack nat plain_element no_faults (ByMove 9) (full_pair, full_pair_world))
    (fun _ s' => calls s'.2 = [CopyCtor; CopyCtor; MoveCtor] ∧
                 @repr nat plain_element s'.2 s'.1 [7; 8; 9])
    (fun _ => True) ∧
  yields (@Emplace nat plain_element no_faults (Ptr (Some 0) 1) (ByArgs 9)
            (full_pair, full_pair_world))
    (fun _ s' => calls s'.2 = [CopyCtor; CopyCtor; ArgsCtor] ∧
                 @repr nat plain_element s'.2 s'.1 [7; 9; 8])
    (fun _ => True).
Proof.
  destruct (@transfer_copies_or_moves nat plain_element no_faults full_pair [7; 8]
              full_pair_world full_pair_wf full_pair_repr) as (Hres & Happ & Hins & _).
  destruct (@transfer_copies_or_moves nat move_only_handle no_faults full_pair [7; 8]
              full_pair_world full_pair_wf full_pair_repr_handle) as (Hres' & _).
  split; [|split; [|split]].
  - eapply yields_mono; [apply (Hres 5); [vm_compute; lia|by vm_compute]|..]; [|done].
    intros [] s' [Hl Hr]. split; [exact Hl|exact Hr].
  - eapply yields_mono; [apply (Hres' 5); [vm_compute; lia|by vm_compute]|..]; [|done].
    intros [] s' [Hl Hr]. split; [exact Hl|exact Hr].
  - eapply yields_mono; [apply (proj1 (Happ (ByMove 9) eq_refl))|..]; [|done].
    intros [] s' [Hl Hr]. split; [exact Hl|exact Hr].
  - eapply yields_mono; [apply (Hins 1 (ByArgs 9)); [vm_compute; lia|reflexivity]|..];
      [|done].
    intros p s' [Hl Hr]. split; [exact Hl|exact Hr].
Defined.

Lemma Resize_truncates_or_pads_witness :
  yields (@Resize nat plain_element (throw_at ValueCtor 3) 4 (full_pair, full_pair_world))
    (fun _ _ => True)
    (fun s' => Size s'.1 = 2 ∧ 2 ≤ Capacity s'.1 ∧ @repr nat plain_element s'.2 s'.1 [7; 8]) ∧
  (∃ s', @Resize nat plain_element (throw_at ValueCtor 3) 4 (full_pair, full_pair_world)
           = Throws s') ∧
  ∃ s', @Resize nat plain_element no_faults 3 (full_pair, full_pair_world) = Normal tt s' ∧
        Size s'.1 = 3 ∧ @repr nat plain_element s'.2 s'.1 [7; 8; 0] ∧ Capacity s'.1 = 3.
Proof.
  split; [|split].
  - eapply yields_mono;
      [apply (proj1 (@Resize_truncates_or_pads nat plain_element (throw_at ValueCtor 3) 4
                       full_pair [7; 8] full_pair_world full_pair_wf full_pair_repr
                       ltac:(by vm_compute)))|..].
    + intros _ _ _. exact I.
    + intros s' (Hs & Hc & _ & xs' & Hr & _ & Hsame).
      split; [exact Hs|]. split; [exact Hc|].
      rewrite <- (Hsame (or_introl eq_refl)). exact Hr.
  - eexists. vm_compute. reflexivity.
  - destruct (@Resize_truncates_or_pads nat plain_element no_faults 3
                full_pair [7; 8] full_pair_world full_pair_wf full_pair_repr
                ltac:(by vm_compute)) as [Hy Hc].
    destruct (Hc no_faults_quiet ltac:(by vm_compute)) as [s' Heq].
    exists s'. split; [exact Heq|].
    destruct (yields_Normal _ _ _ _ _ Hy Heq) as (Hs & Hr & Hcap & _).
    split; [exact Hs|]. split; [exact Hr|exact Hcap].
Defined.

Lemma Resize_shrinks_in_place_witness :
  ∃ w', @Resize nat plain_element no_faults 1 (full_pair, full_pair_world)
          = Normal tt (mkVector (mkRaw (Some 0) 2) 1, w') ∧
        @repr nat plain_element w' (mkVector (mkRaw (Some 0) 2) 1) [7] ∧
        fresh w' = 1 ∧ constructed w' = 0 ∧ destroyed w' = 1 ∧ assigned w' = 0.
Proof.
  apply (@Resize_shrinks_in_place nat plain_element no_faults 1 full_pair [7; 8]
           full_pair_world full_pair_repr).
  vm_compute. lia.
Defined.

Lemma PopBack_removes_last_witness :
  (@PopBack nat (Vector_default, empty_world) = Normal tt (Vector_default, empty_world)) ∧
  ∃ w', @PopBack nat (full_pair, full_pair_world)
          = Normal tt (mkVector (mkRaw (Some 0) 2) 1, w') ∧
        @repr nat plain_element w' (mkVector (mkRaw (Some 0) 2) 1) [7] ∧ destroyed w' = 1.
Proof.
  split.
  - apply (@PopBack_removes_last nat plain_element Vector_default [] empty_world).
    + apply repr_default.
    + reflexivity.
  - destruct (@PopBack_removes_last nat plain_element full_pair [7; 8] full_pair_world
                full_pair_repr) as [_ Hpop].
    destruct (Hpop [7] 8 eq_refl) as (w' & Heq & Hr & _ & _ & Hd & _).
    exists w'. split; [exact Heq|]. split; [exact Hr|exact Hd].
Defined.

Lemma Erase_last_is_PopBack_witness :
  ∃ s', @PopBack nat (full_pair, full_pair_world) = Normal tt s' ∧
        @Erase nat plain_element no_faults (Ptr (Some 0) 1) (full_pair, full_pair_world)
          = Normal (Ptr (Some 0) 1) s' ∧
        @repr nat plain_element s'.2 s'.1 [7] ∧ Size s'.1 = 1 ∧ assigned s'.2 = 0.
Proof.
  apply (@Erase_last_is_PopBack nat plain_element no_faults full_pair [7] 8
           full_pair_world).
  apply full_pair_repr.
Defined.

Lemma PushBack_then_PopBack_witness :
  yields ((@PushBack nat plain_element no_faults (ByCopy 9) ;; PopBack)
            (full_pair, full_pair_world))
    (fun _ s' => @repr nat plain_element s'.2 s'.1 [7; 8] ∧ Size s'.1 = 2 ∧ Capacity s'.1 = 4)
    (fun _ => True).
Proof.
  eapply yields_mono;
    [apply (@PushBack_then_PopBack nat plain_element no_faults (ByCopy 9) full_pair [7; 8]
              full_pair_world full_pair_wf full_pair_repr)|..].
  - intros _ s' (Hr & Hs & Hc & _). split; [exact Hr|]. split; [exact Hs|exact Hc].
  - intros _ _. exact I.
Defined.

Lemma Erase_removes_element_witness :
  ∃ p s', @Erase nat plain_element no_faults (Ptr (Some 0) 0) (full_pair, full_pair_world)
            = Normal p s' ∧
          @repr nat plain_element s'.2 s'.1 [8] ∧ destroyed s'.2 = 1 ∧ assigned s'.2 = 1.
Proof.
  destruct (@Erase_removes_element nat plain_element no_faults 0 full_pair [7; 8]
              full_pair_world full_pair_repr) as [Hy Hc]; [vm_compute; lia|].
  destruct (Hc no_faults_quiet) as (p & s' & Heq). exists p, s'. split; [exact Heq|].
  destruct (yields_Normal _ _ _ _ _ Hy Heq) as (_ & Hr & _ & _ & Hd & Ha).
  split; [exact Hr|]. split; [exact Hd|exact Ha].
Defined.

Lemma out_of_range_is_undefined_witness :
  @Erase nat plain_element no_faults (Ptr (Some 0) 2) (full_pair, full_pair_world)
    = Undefined ∧
  @Emplace nat plain_element no_faults (Ptr (Some 0) 3) (ByCopy 9)
    (full_pair, full_pair_world) = Undefined ∧
  @index_op (world nat) 2 (full_pair, full_pair_world) = Undefined.
Proof.
  destruct (@out_of_range_is_undefined nat plain_element no_faults full_pair [7; 8]
              full_pair_world full_pair_repr) as (He & Hi & Hx).
  split; [apply He; vm_compute; lia|].
  split; [apply Hi; vm_compute; lia|apply Hx; vm_compute; lia].
Defined.


Lemma lookup_after_Emplace_witness :
  yields (@Emplace nat plain_element no_faults (Ptr (Some 0) 1) (ByCopy 9)
            (roomy_pair, roomy_pair_world))
    (fun p s' =>
       index_op 1 s' = Normal p s' ∧ deref p s'.2 = Normal 9 s'.2 ∧
       (∃ q, index_op 0 s' = Normal q s' ∧ deref q s'.2 = Normal 7 s'.2) ∧
       (∃ q, index_op 2 s' = Normal q s' ∧ deref q s'.2 = Normal 8 s'.2))
    (fun _ => True).
Proof.
  eapply yields_mono;
    [apply (@lookup_after_Emplace nat plain_element no_faults 1 (ByCopy 9) roomy_pair
              [7; 8] roomy_pair_world roomy_pair_wf roomy_pair_repr)|..].
  - vm_compute. lia.
  - right. left. vm_compute. lia.
  - intros p s' (Hi & Hd & Hall).
    split; [exact Hi|]. split; [exact Hd|].
    split; [exact (Hall 0 7 eq_refl)|exact (Hall 1 8 eq_refl)].
  - intros _ _. exact I.
Defined.

Lemma EmplaceBack_returns_new_element_witness :
  ∃ p s', @EmplaceBack nat plain_element no_faults (ByArgs 9) (full_pair, full_pair_world)
            = Normal p s' ∧
          Size s'.1 = 3 ∧ index_op 2 s' = Normal p s' ∧ deref p s'.2 = Normal 9 s'.2.
Proof.
  destruct (@EmplaceBack_returns_new_element nat plain_element no_faults (ByArgs 9)
              full_pair [7; 8] full_pair_world full_pair_wf full_pair_repr) as [Hy Hc].
  destruct (Hc no_faults_quiet full_pair_can_grow) as (p & s' & Heq).
  exists p, s'. split; [exact Heq|].
  destruct (yields_Normal _ _ _ _ _ Hy Heq) as (Hs & Hi & Hd & _).
  split; [exact Hs|]. split; [exact Hi|exact Hd].
Defined.

Lemma Emplace_full_failure_witness :
  yields (@Emplace nat plain_element (throw_at CopyCtor 2) (Ptr (Some 0) 1) (ByCopy 9)
            (full_pair, full_pair_world))
    (fun _ _ => True)
    (fun s' => s'.1 = full_pair ∧ heap s'.2 = heap full_pair_world ∧
               constructed s'.2 = destroyed s'.2) ∧
  ∃ s', @Emplace nat plain_element (throw_at CopyCtor 2) (Ptr (Some 0) 1) (ByCopy 9)
          (full_pair, full_pair_world) = Throws s'.
Proof.
  split; [|eexists; vm_compute; reflexivity].
  eapply yields_mono;
    [apply (@Emplace_full_failure nat plain_element (throw_at CopyCtor 2) 1 (ByCopy 9)
              full_pair [7; 8] full_pair_world full_pair_wf full_pair_repr)|..].
  - vm_compute. lia.
  - reflexivity.
  - intros _ _ _. exact I.
  - intros s' (Hv & Hbal & _ & Hsame).
    split; [exact Hv|]. split; [apply Hsame; left; reflexivity|].
    simpl in Hbal. lia.
Defined.

Lemma Emplace_in_place_failure_witness :
  yields (@Emplace nat plain_element (throw_at MoveAssign 3) (Ptr (Some 0) 0) (ByArgs 9)
            (roomy_pair, roomy_pair_world))
    (fun _ _ => True)
    (fun s' => s'.1 = roomy_pair ∧ fresh s'.2 = fresh roomy_pair_world) ∧
  (∃ w', @Emplace nat plain_element (throw_at MoveAssign 3) (Ptr (Some 0) 0) (ByArgs 9)
           (roomy_pair, roomy_pair_world) = Throws (roomy_pair, w') ∧
         calls w' = [MoveAssign; MoveAssign; MoveCtor; ArgsCtor] ∧
         heap w' !! 0 = Some [Some 7; Some 7; Some 8; None] ∧
         constructed w' = 1 ∧ destroyed w' = 0) ∧
  (∃ w', @Emplace nat plain_element (throw_at MoveAssign 2) (Ptr (Some 0) 0) (ByArgs 9)
           (roomy_pair, roomy_pair_world) = Throws (roomy_pair, w') ∧
         calls w' = [MoveAssign; MoveCtor; ArgsCtor] ∧
         heap w' !! 0 = Some [Some 7; Some 8; None; None] ∧
         constructed w' = 1 ∧ destroyed w' = 1).
Proof.
  split; [|split].
  - eapply yields_mono;
      [apply (@Emplace_in_place_failure nat plain_element (throw_at MoveAssign 3) 0
                (ByArgs 9) roomy_pair [7; 8] roomy_pair_world roomy_pair_repr)|..].
    + vm_compute. lia.
    + vm_compute. lia.
    + intros _ _ _. exact I.
    + intros s' (Hv & Hf & _). split; [exact Hv|exact Hf].
  - eexists. split; [vm_compute; reflexivity|].
    split; [reflexivity|]. split; [reflexivity|]. split; reflexivity.
  - eexists. split; [vm_compute; reflexivity|].
    split; [reflexivity|]. split; [reflexivity|]. split; reflexivity.
Defined.

Lemma construct_then_destroy_witness :
  yields ((v <- @Vector_sized nat plain_element no_faults 3 ;; Vector_dtor v)
            roomy_pair_world)
    (fun _ w' => heap w' = heap roomy_pair_world ∧ constructed w' = 3 ∧ destroyed w' = 3)
    (fun _ => True) ∧
  yields ((v <- @Vector_copy nat plain_element (throw_at CopyCtor 1) roomy_pair ;;
           Vector_dtor v) roomy_pair_world)
    (fun _ _ => True)
    (fun w' => heap w' = heap roomy_pair_world ∧ constructed w' = destroyed w').
Proof.
  split.
  - destruct (@construct_then_destroy nat plain_element no_faults roomy_pair_world
                roomy_pair_wf) as [Hsized _].
    eapply yields_mono; [apply (Hsized 3); by vm_compute|..].
    + intros _ w' (Hh & Hcs & Hds). split; [exact Hh|]. split; [exact Hcs|exact Hds].
    + intros _ _. exact I.
  - destruct (@construct_then_destroy nat plain_element (throw_at CopyCtor 1)
                roomy_pair_world roomy_pair_wf) as [_ Hcopy].
    eapply yields_mono; [apply (Hcopy roomy_pair [7; 8] roomy_pair_repr)|..].
    + intros _ _ _. exact I.
    + intros w' [Hh Hbal]. split; [exact Hh|]. simpl in Hbal. lia.
Defined.

Lemma empty_array_costs_nothing_witness :
  @Vector_copy nat plain_element no_faults Vector_default empty_world
    = Normal Vector_default empty_world ∧
  @Vector_sized nat plain_element no_faults 0 empty_world
    = Normal Vector_default empty_world ∧
  @Vector_dtor nat Vector_default empty_world = Normal tt empty_world.
Proof.
  destruct (@empty_array_costs_nothing nat plain_element no_faults Vector_default
              empty_world) as (Hc & Hs & Hd & _).
  - apply repr_default.
  - split; [exact Hc|]. split; [exact Hs|exact Hd].
Defined.

Lemma appends_within_capacity_witness :
  yields (@run_appends nat plain_element no_faults
            [CallPushBack (ByCopy 1); CallEmplaceBack (ByArgs 2)]
            (roomy_pair, roomy_pair_world))
    (fun _ s' => data_ s'.1 = mkRaw (Some 0) 4 ∧ @repr nat plain_element s'.2 s'.1 [7; 8; 1; 2] ∧
                 fresh s'.2 = 1)
    (fun _ => True) ∧
  yields ((@Reserve nat plain_element no_faults 4 ;;
           @run_appends nat plain_element no_faults
             [CallPushBack (ByCopy 1); CallEmplaceBack (ByArgs 2)])
            (full_pair, full_pair_world))
    (fun _ s' => data_ s'.1 = mkRaw (Some 1) 4 ∧ @repr nat plain_element s'.2 s'.1 [7; 8; 1; 2])
    (fun _ => True).
Proof.
  destruct (@appends_within_capacity nat plain_element no_faults
              [CallPushBack (ByCopy 1); CallEmplaceBack (ByArgs 2)]
              roomy_pair [7; 8] roomy_pair_world roomy_pair_wf roomy_pair_repr)
    as [Hin _].
  destruct (@appends_within_capacity nat plain_element no_faults
              [CallPushBack (ByCopy 1); CallEmplaceBack (ByArgs 2)]
              full_pair [7; 8] full_pair_world full_pair_wf full_pair_repr)
    as [_ Hres].
  split.
  - eapply yields_mono; [apply Hin; vm_compute; lia|..].
    + intros _ s' (Hd & Hr & Hf & _). split; [exact Hd|]. split; [exact Hr|exact Hf].
    + intros _ _. exact I.
  - eapply yields_mono;
      [apply (Hres 4); [vm_compute; lia|vm_compute; lia|by vm_compute]|..].
    + intros _ s' (Hd & _ & Hr). split; [exact Hd|exact Hr].
    + intros _ _. exact I.
Defined.

Lemma appends_amortised_witness :
  yields (@run_appends nat plain_element no_faults three_appends
            (Vector_default, empty_world))
    (fun _ s' => constructed s'.2 ≤ 9)
    (fun _ => True).
Proof.
  eapply yields_mono;
    [apply (@appends_amortised nat plain_element no_faults three_appends empty_world
              empty_world_wf)|..].
  - intros _ s' [Hc _]. exact Hc.
  - intros _ _. exact I.
Defined.

Lemma Reserve_replaces_buffer_witness :
  yields (@Reserve nat plain_element no_faults 5 (full_pair, full_pair_world))
    (fun _ s' => s'.1 = mkVector (mkRaw (Some 1) 5) 2 ∧ heap s'.2 !! 0 = None ∧
                 constructed s'.2 = 2 ∧ destroyed s'.2 = 2)
    (fun _ => True) ∧
  yields (@Reserve nat plain_element (throw_at CopyCtor 1) 5 (full_pair, full_pair_world))
    (fun _ _ => True)
    (fun s' => s'.1 = full_pair ∧ heap s'.2 = heap full_pair_world) ∧
  ∃ s', @Reserve nat plain_element (throw_at CopyCtor 1) 5 (full_pair, full_pair_world)
          = Throws s'.
Proof.
  split; [|split].
  - eapply yields_mono;
      [apply (@Reserve_replaces_buffer nat plain_element no_faults 5 full_pair [7; 8]
                full_pair_world full_pair_wf full_pair_repr)|..].
    + vm_compute. lia.
    + by vm_compute.
    + intros _ s' (Hv & Hold & _ & Hcs & Hds & _).
      split; [exact Hv|]. split; [exact (Hold 0 eq_refl)|].
      split; [exact Hcs|exact Hds].
    + intros _ _. exact I.
  - eapply yields_mono;
      [apply (@Reserve_replaces_buffer nat plain_element (throw_at CopyCtor 1) 5 full_pair
                [7; 8] full_pair_world full_pair_wf full_pair_repr)|..].
    + vm_compute. lia.
    + by vm_compute.
    + intros _ _ _. exact I.
    + intros s' (Hv & _ & _ & Hsame).
      split; [exact Hv|]. apply Hsame. left. reflexivity.
  - eexists. vm_compute. reflexivity.
Defined.

Lemma copy_assign_reuse_failure_witness :
  yields (@assign_copy nat plain_element (throw_at CopyAssign 0) (Other target_one)
            (source_two, two_arrays))
    (fun _ _ => True)
    (fun s' => s'.1 = source_two ∧ @repr nat plain_element s'.2 target_one [1] ∧ fresh s'.2 = 2) ∧
  ∃ s', @assign_copy nat plain_element (throw_at CopyAssign 0) (Other target_one)
          (source_two, two_arrays) = Throws s'.
Proof.
  split; [|eexists; vm_compute; reflexivity].
  eapply yields_mono;
    [apply (@copy_assign_reuse_failure nat plain_element (throw_at CopyAssign 0)
              source_two target_one [2; 3] [1] two_arrays two_arrays_wf source_two_repr
              target_one_repr two_arrays_disjoint')|..].
  - vm_compute. lia.
  - intros _ _ _. exact I.
  - intros s' (Hv & _ & Hr & Hf & _). split; [exact Hv|]. split; [exact Hr|exact Hf].
Defined.

Lemma move_construct_then_destroy_witness :
  @repr nat plain_element full_pair_world (Vector_move full_pair).1 [7; 8] ∧
  (Vector_move full_pair).2 = Vector_default ∧
  yields ((@Vector_dtor nat (Vector_move full_pair).2 ;;
           Vector_dtor (Vector_move full_pair).1) full_pair_world)
    (fun _ w' => heap w' !! 0 = None ∧ destroyed w' = 2)
    (fun _ => False).
Proof.
  destruct (@move_construct_then_destroy nat plain_element full_pair [7; 8]
              full_pair_world full_pair_repr) as (Hr & Hd & _ & _ & _ & Hy).
  split; [exact Hr|]. split; [exact Hd|].
  eapply yields_mono; [exact Hy|..].
  - intros _ w' (Hh & Hds & _). split; [rewrite Hh; reflexivity|exact Hds].
  - intros _ [].
Defined.

Lemma RawMemory_move_assign_transfers_witness :
  (∃ w', @RawMemory_assign_move nat (mkRaw (Some 0) 1) (Some (mkRaw (Some 1) 2)) two_arrays
           = Normal (mkRaw (Some 1) 2, Some (mkRaw None 0)) w' ∧
         heap w' !! 0 = None ∧ heap w' !! 1 = Some [Some 2; Some 3]) ∧
  (∃ w', @RawMemory_assign_move nat (mkRaw (Some 0) 1) None two_arrays
           = Normal (mkRaw (Some 0) 1, None) w' ∧
         heap w' !! 0 = None ∧
         @RawMemory_dtor nat (mkRaw (Some 0) 1) w' = Undefined).
Proof.
  destruct (@RawMemory_move_assign_transfers nat (mkRaw (Some 0) 1) (mkRaw (Some 1) 2)
              two_arrays) as [(w' & Heq & Hh & _) Hself].
  - exists [Some 1]. reflexivity.
  - exists [Some 2; Some 3]. reflexivity.
  - intros l Hl Hl'. simpl in *. congruence.
  - split.
    + exists w'. split; [exact Heq|]. rewrite Hh. split; reflexivity.
    + apply (Hself 0). reflexivity.
Defined.

Lemma operations_leave_other_arrays_witness :
  yields (@run nat plain_element no_faults (OpReserve 5) (target_one, two_arrays))
    (fun _ s' => @repr nat plain_element s'.2 source_two [2; 3])
    (fun s' => @repr nat plain_element s'.2 source_two [2; 3]).
Proof.
  apply (@operations_leave_other_arrays nat plain_element no_faults (OpReserve 5)
           target_one source_two [1] [2; 3] two_arrays two_arrays_wf target_one_repr
           source_two_repr two_arrays_disjoint).
  by vm_compute.
Defined.

Lemma operations_size_and_capacity_witness :
  yields (@run nat plain_element no_faults (OpResize 3) (full_pair, full_pair_world))
    (fun _ s' => Size s'.1 = 3 ∧ 2 ≤ Capacity s'.1)
    (fun s' => Size s'.1 = 2 ∧ 2 ≤ Capacity s'.1).
Proof.
  apply (@operations_size_and_capacity nat plain_element no_faults (OpResize 3) full_pair
           [7; 8] full_pair_world full_pair_wf full_pair_repr).
  by vm_compute.
Defined.

Lemma copy_is_independent_witness :
  yields (@Vector_copy nat plain_element no_faults roomy_pair roomy_pair_world)
    (fun v' w' =>
       @repr nat plain_element w' v' [7; 8] ∧ disjoint v' roomy_pair ∧
       yields (@run nat plain_element no_faults (OpResize 5) (v', w'))
         (fun _ s' => @repr nat plain_element s'.2 roomy_pair [7; 8])
         (fun s' => @repr nat plain_element s'.2 roomy_pair [7; 8]))
    (fun _ => True).
Proof.
  eapply yields_mono;
    [apply (@copy_is_independent nat plain_element no_faults roomy_pair [7; 8]
              roomy_pair_world roomy_pair_wf roomy_pair_repr)|..].
  - intros v' w' (Hr & _ & Hdis & Hops & _).
    split; [exact Hr|]. split; [exact Hdis|]. apply (Hops (OpResize 5)). by vm_compute.
  - intros _ _. exact I.
Defined.
